(** * sb3-diff: a shallow embedding of the diff engine and its replay

    The development follows the TypeScript sources of the repository:
    - [text-diff.ts]      ([myersDiff], [reconstructEditScript], [diffText],
                           [formatDiff]),
    - [script-parser.ts]  ([generateFingerprint], [parseScriptWithBlocks],
                           [parseSpriteScripts], [getTopLevelIds]),
    - [parser.ts]         ([ProjectParser.parse], [reconstructScript]),
    - [normalizer.ts], [ir.ts], [fingerprint.ts] (the Block-IR pipeline, and
                           [cleanBlock]),
    - [matcher.ts]        ([ScriptMatcher.matchProjects], [matchScripts]),
    - [diff.ts]           ([matchScripts], [diffVariables], [diffLists],
                           [diffCostumes], [diffSounds], [generateDiff],
                           [calculateSummary], [structureChanges]),
    - [scratchblocks.ts]  ([ScratchBlocksConverter]),
    - [index.ts]          (the replay loop of [handleReconstructCommand]).

    JavaScript values are modelled as the code uses them: numbers that may be
    [undefined] or [NaN] where the code reads absent map entries, strings as
    sequences of code units, objects and [Map]s as association lists in
    enumeration order, exceptions and non-termination as explicit outcomes. *)

From Stdlib Require Import ZArith List String Ascii Bool Arith Lia.
From Stdlib Require Import Permutation Sorted.
From Stdlib Require Import DecimalString HexadecimalString.
From Stdlib Require HexadecimalN HexadecimalFacts.
Import ListNotations.

Set Implicit Arguments.
Set Warnings "-register-all".

(* ------------------------------------------------------------------ *)
(** * Outcomes of effectful code *)

(** A JavaScript computation returns, throws, or is cut off by the fuel that
    bounds the number of loop iterations of the model. *)
Inductive outcome (A : Type) : Type :=
| Ret (a : A)
| Throw (msg : string)
| OutOfFuel.

Arguments Ret {A} a.
Arguments Throw {A} msg.
Arguments OutOfFuel {A}.

Definition bind {A B : Type} (m : outcome A) (f : A -> outcome B) : outcome B :=
  match m with
  | Ret a => f a
  | Throw e => Throw e
  | OutOfFuel => OutOfFuel
  end.

Notation "x <- m ;; k" := (bind m (fun x => k))
  (at level 61, m at next level, right associativity).

Definition TypeError : string := "TypeError"%string.
Definition SyntaxError : string := "SyntaxError"%string.

(* ------------------------------------------------------------------ *)
(** * text-diff.ts *)

Module TextDiff.

Local Open Scope Z_scope.

(** What [Map<number, number>.get] can hand back to arithmetic: a number,
    [undefined] (absent key), or the [NaN] that arithmetic on [undefined]
    produces. *)
Inductive jsnum : Type :=
| Num (z : Z)
| NaN
| Undef.

(** [a < b] of JavaScript: [undefined] converts to [NaN], and every
    comparison with [NaN] is false. *)
Definition js_lt (a b : jsnum) : bool :=
  match a, b with
  | Num x, Num y => x <? y
  | _, _ => false
  end.

Definition js_gt (a b : jsnum) : bool := js_lt b a.

Definition js_ge (a b : jsnum) : bool :=
  match a, b with
  | Num x, Num y => y <=? x
  | _, _ => false
  end.

(** [a + b] and [a - b] on numbers. *)
Definition js_add (a b : jsnum) : jsnum :=
  match a, b with
  | Num x, Num y => Num (x + y)
  | _, _ => NaN
  end.

Definition js_sub (a b : jsnum) : jsnum :=
  match a, b with
  | Num x, Num y => Num (x - y)
  | _, _ => NaN
  end.

(** A [Map] with numeric keys; only [get], [set] and [has] are used, so the
    enumeration order is not part of the model.  [-0] and [0] are one key. *)
Definition NumMap (A : Type) : Type := Z -> option A.

Definition mempty {A} : NumMap A := fun _ => None.
Definition mset {A} (m : NumMap A) (k : Z) (v : A) : NumMap A :=
  fun k' => if k' =? k then Some v else m k'.
Definition mhas {A} (m : NumMap A) (k : Z) : bool :=
  match m k with Some _ => true | None => false end.
(** [V.get(k)!] : the non-null assertion is erased at run time. *)
Definition mget (m : NumMap jsnum) (k : Z) : jsnum :=
  match m k with Some v => v | None => Undef end.

Inductive change_type : Type := add | remove | keep.

(** [line] is [a[x]] or [b[y]]; an index out of range reads [undefined]. *)
Record change : Type := { type : change_type; line : option string }.

(** [a[i]] on an array of strings. *)
Definition index (a : list string) (i : Z) : option string :=
  if i <? 0 then None else nth_error a (Z.to_nat i).

Definition opt_string_eqb (u v : option string) : bool :=
  match u, v with
  | Some s, Some t => String.eqb s t
  | None, None => true
  | _, _ => false
  end.

(** [while (x < N && y < M && a[x] === b[y]) { x++; y++; }] once [x] and [y]
    are numbers.  [x] grows by one per turn and the loop stops at [x >= N],
    so [Z.to_nat (N - x)] turns are all there can be. *)
Fixpoint slide_num (turns : nat) (a b : list string) (N M x y : Z) : Z * Z :=
  match turns with
  | O => (x, y)
  | S turns' =>
      if (x <? N) && (y <? M) && opt_string_eqb (index a x) (index b y)
      then slide_num turns' a b N M (x + 1) (y + 1)
      else (x, y)
  end.

Definition slide (a b : list string) (N M : Z) (x y : jsnum) : jsnum * jsnum :=
  match x, y with
  | Num xz, Num yz =>
      let '(x', y') := slide_num (Z.to_nat (N - xz)) a b N M xz yz in
      (Num x', Num y')
  | _, _ => (x, y)   (* [x < N] or [y < M] is false on a non-number *)
  end.

Definition Trace : Type := NumMap (NumMap jsnum).

(** ** reconstructEditScript *)

(** [while (x > prevX && y > prevY) { x--; y--; script.unshift(keep a[x]) }] *)
Fixpoint diagonal (turns : nat) (a : list string) (prevX prevY : jsnum)
    (x y : Z) (script : list change) : Z * Z * list change :=
  match turns with
  | O => (x, y, script)
  | S turns' =>
      if js_gt (Num x) prevX && js_gt (Num y) prevY
      then diagonal turns' a prevX prevY (x - 1) (y - 1)
             ({| type := keep; line := index a (x - 1) |} :: script)
      else (x, y, script)
  end.

Definition diagonal_turns (x : Z) (prevX : jsnum) : nat :=
  match prevX with
  | Num p => Z.to_nat (x - p)
  | _ => O
  end.

(** The body of [for (let d = MAX; d >= 0; d--)], [rounds] counting the
    values of [d] still to visit. *)
Fixpoint backtrack (rounds : nat) (a b : list string) (trace : Trace)
    (d x y : Z) (script : list change) : outcome (list change) :=
  match rounds with
  | O => Ret script
  | S rounds' =>
      let k := x - y in
      match trace d with
      | None => Throw TypeError        (* [trace.get(d)!.has] on undefined *)
      | Some row =>
          let prevK := if mhas row (k - 1) then k - 1 else k + 1 in
          let prevX := mget row prevK in
          let prevY := js_sub prevX (Num prevK) in
          let '(x1, y1, script1) :=
            diagonal (diagonal_turns x prevX) a prevX prevY x y script in
          let '(x2, y2, script2) :=
            if js_gt (Num x1) prevX
            then (x1 - 1, y1, {| type := remove; line := index a (x1 - 1) |} :: script1)
            else if js_gt (Num y1) prevY
            then (x1, y1 - 1, {| type := add; line := index b (y1 - 1) |} :: script1)
            else (x1, y1, script1) in
          if (x2 =? 0) && (y2 =? 0) then Ret script2
          else backtrack rounds' a b trace (d - 1) x2 y2 script2
      end
  end.

Definition reconstructEditScript (a b : list string) (trace : Trace)
    (N M MAX : Z) : outcome (list change) :=
  backtrack (Z.to_nat (MAX + 1)) a b trace MAX N M [].

(** ** myersDiff *)

(** State of the search, or the value of an early [return]. *)
Inductive search : Type :=
| Found (r : outcome (list change))
| Go (V : NumMap jsnum) (trace : Trace).

(** One turn of [for (let k = -d; k <= d; k += 2)]. *)
Definition k_body (a b : list string) (N M MAX d k : Z)
    (V : NumMap jsnum) (trace : Trace) : search :=
  let down := (k =? - d)
              || (negb (k =? d) && js_lt (mget V (k - 1)) (mget V (k + 1))) in
  let x := if down then mget V (k + 1) else js_add (mget V (k - 1)) (Num 1) in
  let y := js_sub x (Num k) in
  let '(x, y) := slide a b N M x y in
  let V := mset V k x in
  let trace := if mhas trace d then trace else mset trace d mempty in
  let trace :=
    match trace d with
    | Some row => mset trace d (mset row k x)
    | None => trace
    end in
  if js_ge x (Num N) && js_ge y (Num M)
  then Found (reconstructEditScript a b trace N M MAX)
  else Go V trace.

Fixpoint k_loop (turns : nat) (a b : list string) (N M MAX d k : Z)
    (V : NumMap jsnum) (trace : Trace) : search :=
  match turns with
  | O => Go V trace
  | S turns' =>
      match k_body a b N M MAX d k V trace with
      | Found r => Found r
      | Go V' trace' => k_loop turns' a b N M MAX d (k + 2) V' trace'
      end
  end.

(** [for (let d = 0; d <= MAX; d++)]; the fallback [return []] follows it. *)
Fixpoint d_loop (rounds : nat) (a b : list string) (N M MAX d : Z)
    (V : NumMap jsnum) (trace : Trace) : outcome (list change) :=
  match rounds with
  | O => Ret []
  | S rounds' =>
      match k_loop (Z.to_nat (d + 1)) a b N M MAX d (- d) V trace with
      | Found r => r
      | Go V' trace' => d_loop rounds' a b N M MAX (d + 1) V' trace'
      end
  end.

Definition myersDiff (a b : list string) : outcome (list change) :=
  let N := Z.of_nat (List.length a) in
  let M := Z.of_nat (List.length b) in
  let MAX := N + M in
  d_loop (Z.to_nat (MAX + 1)) a b N M MAX 0 (mset mempty 0 (Num 0)) mempty.

(** ["a\nb".split("\n")]: the lines of a text; never empty. *)
Fixpoint split_first (s : string) : string * list string :=
  match s with
  | EmptyString => (EmptyString, [])
  | String c s' =>
      let '(h, t) := split_first s' in
      if Ascii.eqb c "010"%char then (EmptyString, h :: t) else (String c h, t)
  end.

Definition split_lines (s : string) : list string :=
  let '(h, t) := split_first s in h :: t.

Record TextDiffResult : Type :=
  { added : Z; removed : Z; changes : list change }.

Definition is_add (c : change) : bool :=
  match type c with add => true | _ => false end.
Definition is_remove (c : change) : bool :=
  match type c with remove => true | _ => false end.
Definition is_keep (c : change) : bool :=
  match type c with keep => true | _ => false end.

(** The counting loop of [diffText]. *)
Definition count_changes (p : change -> bool) (cs : list change) : Z :=
  Z.of_nat (List.length (filter p cs)).

Definition diffText (oldText newText : string) : outcome TextDiffResult :=
  let oldLines := split_lines oldText in
  let newLines := split_lines newText in
  cs <- myersDiff oldLines newLines ;;
  Ret {| added := count_changes is_add cs;
         removed := count_changes is_remove cs;
         changes := cs |}.

End TextDiff.

(* ------------------------------------------------------------------ *)
(** * JavaScript strings and JSON values *)

Module Js.

Local Open Scope string_scope.

(** Strings are sequences of code units; the model has the 256 code units of
    [ascii], on which [charCodeAt] is [nat_of_ascii]. *)

Fixpoint join (sep : string) (l : list string) : string :=
  match l with
  | [] => ""
  | [s] => s
  | s :: t => s ++ sep ++ join sep t
  end.

Fixpoint repeat_string (s : string) (n : nat) : string :=
  match n with
  | O => ""
  | S n' => s ++ repeat_string s n'
  end.

(** [s.substring(0, n)]. *)
Fixpoint take (n : nat) (s : string) : string :=
  match n, s with
  | S n', String c s' => String c (take n' s')
  | _, _ => ""
  end.

(** White space that [trim] removes, among the code units of the model. *)
Definition is_space (c : ascii) : bool :=
  let n := nat_of_ascii c in
  ((9 <=? n) && (n <=? 13))%nat || (n =? 32)%nat || (n =? 160)%nat.

Fixpoint trimStart (s : string) : string :=
  match s with
  | String c s' => if is_space c then trimStart s' else s
  | EmptyString => ""
  end.

Fixpoint trimEnd (s : string) : string :=
  match s with
  | EmptyString => ""
  | String c s' =>
      match trimEnd s' with
      | EmptyString => if is_space c then "" else String c ""
      | r => String c r
      end
  end.

Definition trim (s : string) : string := trimEnd (trimStart s).

(** [s.replace(new RegExp(pat, 'g'), rep)] for a pattern that matches the
    literal text [pat] only: matches are taken left to right and do not
    overlap.  [skip] counts the code units of a match still to be dropped. *)
Fixpoint replace_from (pat rep s : string) (skip : nat) : string :=
  match s with
  | EmptyString => ""
  | String c s' =>
      match skip with
      | S n => replace_from pat rep s' n
      | O =>
          if prefix pat s
          then rep ++ replace_from pat rep s' (String.length pat - 1)
          else String c (replace_from pat rep s' 0)
      end
  end.

Definition replaceAll (pat rep s : string) : string :=
  match pat with
  | EmptyString => s
  | _ => replace_from pat rep s 0
  end.

(** JSON data as [JSON.parse] delivers it.  Numbers are the integers that a
    double holds exactly and writes in plain decimal (those below [2^53] in
    magnitude); fractions and larger numbers are outside the model.  An
    object is the list of its own properties in enumeration order. *)
Inductive json : Type :=
| JNull
| JBool (b : bool)
| JNum (z : Z)
| JStr (s : string)
| JArr (l : list json)
| JObj (props : list (string * json)).

Definition jobject : Type := list (string * json).

(** The property of [o] itself under [key]: [None] when [o] has none. *)
Fixpoint lookup {A : Type} (key : string) (o : list (string * A)) : option A :=
  match o with
  | [] => None
  | (k, v) :: t => if String.eqb k key then Some v else lookup key t
  end.

Definition has_key {A : Type} (key : string) (o : list (string * A)) : bool :=
  match lookup key o with Some _ => true | None => false end.

Definition keys {A : Type} (o : list (string * A)) : list string := map fst o.

(** The names under which every object finds a property of
    [Object.prototype] when it has none of its own: eleven functions, and
    under [__proto__] the prototype itself. *)
Definition inherited_names : list string :=
  ["constructor"; "__defineGetter__"; "__defineSetter__"; "hasOwnProperty";
   "__lookupGetter__"; "__lookupSetter__"; "isPrototypeOf";
   "propertyIsEnumerable"; "toString"; "valueOf"; "__proto__"; "toLocaleString"].

Definition inherited (key : string) : bool :=
  existsb (String.eqb key) inherited_names.

(** [o[key] = v] on an object made by a literal, as a new entry before the
    entries [o] will get: under [__proto__] the assignment runs the setter of
    [Object.prototype] and gives [o] no property. *)
Definition assigned {A : Type} (key : string) (v : A) (o : list (string * A))
    : list (string * A) :=
  if String.eqb key "__proto__" then o else (key, v) :: o.

(** JavaScript truthiness of a JSON value. *)
Definition truthy (v : json) : bool :=
  match v with
  | JNull => false
  | JBool b => b
  | JNum z => negb (z =? 0)%Z
  | JStr s => negb (String.eqb s "")
  | JArr _ | JObj _ => true
  end.

(** [v.key]: a TypeError on [null], [undefined] for a property that is not
    there; strings, arrays, numbers and booleans have none of the
    properties read here. *)
Definition get_prop (v : json) (key : string) : outcome (option json) :=
  match v with
  | JNull => Throw TypeError
  | JObj props => Ret (lookup key props)
  | _ => Ret None
  end.

(** A value that may be [undefined], where [undefined] and [null] are not
    told apart afterwards: stored in an array, [undefined] is written out as
    [null], and reading a property of either throws. *)
Definition or_null (v : option json) : json :=
  match v with Some x => x | None => JNull end.

(** [a || b]. *)
Definition or_else (a b : option json) : option json :=
  match a with
  | Some x => if truthy x then a else b
  | None => b
  end.

Definition number_to_string (z : Z) : string :=
  DecimalString.NilZero.string_of_int (Z.to_int z).

Definition hex_digit (n : nat) : ascii :=
  match n with
  | 0 => "0" | 1 => "1" | 2 => "2" | 3 => "3" | 4 => "4" | 5 => "5"
  | 6 => "6" | 7 => "7" | 8 => "8" | 9 => "9" | 10 => "a" | 11 => "b"
  | 12 => "c" | 13 => "d" | 14 => "e" | _ => "f"
  end%char.

Definition dquote : string := String (ascii_of_nat 34) "".

(** The escape of one code unit inside a JSON string literal. *)
Definition quote_char (c : ascii) : string :=
  let n := nat_of_ascii c in
  if (n =? 34)%nat then "\" ++ dquote
  else if (n =? 92)%nat then "\\"
  else if (n =? 8)%nat then "\b"
  else if (n =? 9)%nat then "\t"
  else if (n =? 10)%nat then "\n"
  else if (n =? 12)%nat then "\f"
  else if (n =? 13)%nat then "\r"
  else if (n <? 32)%nat
       then "\u00" ++ String (hex_digit (n / 16)) (String (hex_digit (n mod 16)) "")
  else String c "".

Fixpoint quote_body (s : string) : string :=
  match s with
  | EmptyString => ""
  | String c s' => quote_char c ++ quote_body s'
  end.

Definition quote (s : string) : string := dquote ++ quote_body s ++ dquote.

(** [String(v)], as the default comparator of [Array.prototype.sort] and
    [Array.prototype.join] compute it; inside [join], [null] is empty. *)
Fixpoint to_String (v : json) : string :=
  match v with
  | JNull => "null"
  | JBool true => "true"
  | JBool false => "false"
  | JNum z => number_to_string z
  | JStr s => s
  | JArr l =>
      join "," (map (fun x => match x with JNull => "" | _ => to_String x end) l)
  | JObj _ => "[object Object]"
  end.

Definition element_String (v : json) : string :=
  match v with JNull => "" | _ => to_String v end.

(** The text by which [sort()] orders the entry [[k, v]]. *)
Definition entry_String (k : string) (v : json) : string :=
  k ++ "," ++ element_String v.

Section Sorting.
Variable A : Type.
Variable le : A -> A -> bool.

(** A stable sort, as [Array.prototype.sort] is: among equal elements the
    order of the input is kept. *)
Fixpoint insert_sorted (x : A) (l : list A) : list A :=
  match l with
  | [] => [x]
  | y :: t => if le x y then x :: y :: t else y :: insert_sorted x t
  end.

Fixpoint stable_sort (l : list A) : list A :=
  match l with
  | [] => []
  | x :: t => insert_sorted x (stable_sort t)
  end.
End Sorting.

(** A property name that is an array index: the canonical decimal text of
    an integer below [2^32 - 1].  Such properties are enumerated first, in
    ascending order, whatever the order of insertion. *)
Definition array_index (k : string) : option N :=
  match DecimalString.NilZero.uint_of_string k with
  | Some u =>
      let n := N.of_uint u in
      if String.eqb (number_to_string (Z.of_N n)) k && (n <? 4294967295)%N
      then Some n else None
  | None => None
  end.

Section FromEntries.
Variable A : Type.
Variable key : A -> string.

Definition index_of (x : A) : N :=
  match array_index (key x) with Some n => n | None => 0%N end.

Definition is_index (x : A) : bool :=
  match array_index (key x) with Some _ => true | None => false end.

(** Enumeration order of [Object.fromEntries(entries)]. *)
Definition fromEntries_order (entries : list A) : list A :=
  stable_sort (fun x y => (index_of x <=? index_of y)%N) (filter is_index entries)
  ++ filter (fun x => negb (is_index x)) entries.
End FromEntries.

(** [JSON.stringify(v)] and, with [sortKeys], [JSON.stringify(v, sortKeys)]
    for the replacer of fingerprint.ts, which rebuilds every object that is
    not an array as [Object.fromEntries(Object.entries(value).sort())]. *)
Fixpoint stringify_with (sortKeys : bool) (v : json) : string :=
  match v with
  | JNull => "null"
  | JBool true => "true"
  | JBool false => "false"
  | JNum z => number_to_string z
  | JStr s => quote s
  | JArr l => "[" ++ join "," (map (stringify_with sortKeys) l) ++ "]"
  | JObj props =>
      let rendered :=
        map (fun kv => (entry_String (fst kv) (snd kv),
                        (fst kv, stringify_with sortKeys (snd kv)))) props in
      let ordered :=
        if sortKeys
        then fromEntries_order (fun e => fst (snd e))
               (stable_sort (fun e1 e2 => String.leb (fst e1) (fst e2)) rendered)
        else rendered in
      "{" ++ join "," (map (fun e => quote (fst (snd e)) ++ ":" ++ snd (snd e)) ordered)
          ++ "}"
  end.

Definition stringify : json -> string := stringify_with false.

(** ** The 32-bit rolling hash of fingerprint.ts and script-parser.ts *)

Local Open Scope Z_scope.

(** [ToInt32]. *)
Definition to_int32 (z : Z) : Z := (z + 2 ^ 31) mod 2 ^ 32 - 2 ^ 31.

(** [hash = ((hash << 5) - hash) + char; hash = hash & hash]. *)
Definition hash_step (hash : Z) (c : ascii) : Z :=
  to_int32 (to_int32 (hash * 32) - hash + Z.of_nat (nat_of_ascii c)).

Fixpoint hash_from (hash : Z) (s : string) : Z :=
  match s with
  | EmptyString => hash
  | String c s' => hash_from (hash_step hash c) s'
  end.

(** [n.toString(16)] for a number that is not negative. *)
Definition to_hex (n : Z) : string :=
  HexadecimalString.NilZero.string_of_uint (N.to_hex_uint (Z.to_N n)).

Definition padStart (width : nat) (fill : string) (s : string) : string :=
  repeat_string fill (width - String.length s) ++ s.

(** [FingerprintGenerator.simpleHash]. *)
Definition simpleHash (str : string) : string :=
  to_hex (Z.abs (hash_from 0 str)).

End Js.
(* ------------------------------------------------------------------ *)
(** * types.ts: the raw project *)

Module Raw.

Import Js.

(** [RawBlock].  [next] and [parent] are [None] for [null] or an absent
    property; the editor coordinates [x] and [y] are read nowhere. *)
Record RawBlock : Type :=
  { opcode : string;
    next : option string;
    parent : option string;
    inputs : jobject;
    fields : jobject;
    shadow : bool;
    topLevel : bool;
    mutation : option json }.

Definition BlockMap : Type := list (string * RawBlock).

(** What [blocks[id]] is: a block of the map or, under a name that the map
    has no block for and that every object inherits, a function of
    [Object.prototype] or the prototype itself.  All of them are truthy. *)
Inductive Entry : Type :=
| a_block (b : RawBlock)
| a_method
| the_prototype.

Definition at_id (blocks : BlockMap) (id : string) : option Entry :=
  match lookup id blocks with
  | Some b => Some (a_block b)
  | None =>
      if String.eqb id "__proto__" then Some the_prototype
      else if inherited id then Some a_method
      else None
  end.

(** [entry.next]: a function and the prototype have no such property. *)
Definition entry_next (e : Entry) : option string :=
  match e with
  | a_block b => next b
  | _ => None
  end.

(** [RawTarget], with the properties the engine reads; [others] stands for
    the rest of the object ([isStage], [broadcasts], [comments], ...), which
    is copied through and never looked at. *)
Record Target : Type :=
  { name : string;
    variables : jobject;
    lists : jobject;
    costumes : list json;
    sounds : list json;
    blocks : BlockMap;
    others : jobject }.

Definition Project : Type := list Target.

(** A block id under [while (currentId)]: [undefined], [null] and the empty
    string end the loop. *)
Definition live (id : option string) : option string :=
  match id with
  | Some s => if String.eqb s EmptyString then None else Some s
  | None => None
  end.

(** [targets.find(t => t.name === targetName)]. *)
Fixpoint find_target (targetName : string) (p : Project) : option Target :=
  match p with
  | [] => None
  | t :: rest => if String.eqb (name t) targetName then Some t else find_target targetName rest
  end.

End Raw.

(* ------------------------------------------------------------------ *)
(** * script-parser.ts *)

Module ScriptParser.

Import Js Raw.
Local Open Scope string_scope.

Definition nl : string := String (ascii_of_nat 10) "".
Definition tab : string := String (ascii_of_nat 9) "".

(** The [original] property of both records copies the input and is read
    nowhere in the engine; it is left out. *)
Record BlockText : Type :=
  { bt_text : string; bt_fingerprint : string; bt_depth : Z }.

Record ScriptText : Type :=
  { text : string;
    fingerprint : string;
    sblocks : list BlockText;
    topId : string }.

Definition generateFingerprint (text : string) : string :=
  padStart 8 "0" (to_hex (Z.abs (hash_from 0 text))).

(** [some(value)]: empty for [undefined], [null], and for a value whose JSON
    text is the empty object or the empty array. *)
Definition some (value : option json) : string :=
  match value with
  | None | Some JNull => ""
  | Some v =>
      let string := stringify v in
      if String.eqb string "{}" || String.eqb string "[]" then "" else string
  end.

(** The loop that rewrites every block id, quoted, to the quoted word id. *)
Fixpoint strip_ids (blockIds : list string) (info : string) : string :=
  match blockIds with
  | [] => info
  | key :: rest => strip_ids rest (replaceAll (dquote ++ key ++ dquote) (dquote ++ "id" ++ dquote) info)
  end.

(** [tab.repeat(n)] throws a RangeError on a negative count. *)
Definition tabs (n : Z) : outcome string :=
  if (n <? 0)%Z then Throw "RangeError" else Ret (repeat_string tab (Z.to_nat n)).

(** The id a structural input slot refers to:
    [Array.isArray(v) && typeof v[1] === "string"]. *)
Definition slot_ref (inputs : jobject) (slot : string) : option string :=
  match lookup slot inputs with
  | Some (JArr (_ :: JStr id :: _)) => Some id
  | _ => None
  end.

(** The properties of [script.blocks[currentId]] that the renderer reads.
    A function of [Object.prototype] and the prototype itself have none of
    them: [${block.opcode}] is then the word [undefined], and
    [block.inputs && ...] skips the nested scripts. *)
Definition opcode_text (e : Entry) : string :=
  match e with a_block b => opcode b | _ => "undefined" end.

Definition entry_inputs (e : Entry) : option json :=
  match e with a_block b => Some (JObj (inputs b)) | _ => None end.

Definition entry_fields (e : Entry) : option json :=
  match e with a_block b => Some (JObj (fields b)) | _ => None end.

Definition entry_mutation (e : Entry) : option json :=
  match e with a_block b => mutation b | _ => None end.

Definition entry_slots (e : Entry) : jobject :=
  match e with a_block b => inputs b | _ => [] end.

(** [JSON.parse(JSON.stringify(block))]: the text of a function is
    [undefined], which [JSON.parse] refuses; that of the prototype is the
    empty object. *)
Definition copied (e : Entry) : outcome unit :=
  match e with
  | a_method => Throw SyntaxError
  | _ => Ret tt
  end.

(** [parseScriptWithBlocks].  One unit of [fuel] pays for one turn of the
    [while] loop; a nested call runs on what is left.  [output] and [acc] are
    the text and the block list built so far.  [OutOfFuel] stands for a run
    that has no end: a chain of [next] that comes back to one of its blocks,
    and as well a nesting of scripts that does, on which an implementation
    gives up with a [RangeError] once its stack is used up. *)
Fixpoint walk (fuel : nat) (blocks : BlockMap) (depth : Z) (elseClause : bool)
    (currentId : option string) (output : string) (acc : list BlockText)
    : outcome (string * list BlockText) :=
  match fuel with
  | O => OutOfFuel
  | S fuel' =>
      match live currentId with
      | None => Ret (output, acc)
      | Some id =>
          output <- (if elseClause
                     then t <- tabs depth ;; Ret (output ++ t ++ "else" ++ nl)
                     else Ret output) ;;
          match at_id blocks id with
          | None => Throw TypeError          (* [block.inputs] on undefined *)
          | Some block =>
              let info :=
                trim (some (entry_inputs block) ++ " "
                      ++ some (entry_fields block) ++ " "
                      ++ some (entry_mutation block)) in
              let info := strip_ids (keys blocks) info in
              t <- tabs (depth + 1) ;;
              let blockText := t ++ opcode_text block ++ " " ++ info ++ nl in
              let output := output ++ blockText in
              let trimmedText := trim blockText in
              _ <- copied block ;;
              let acc := (acc ++ [ {| bt_text := trimmedText;
                                      bt_fingerprint := generateFingerprint trimmedText;
                                      bt_depth := (depth + 1)%Z |} ])%list in
              r1 <- match slot_ref (entry_slots block) "CONDITION" with
                    | Some c =>
                        r <- walk fuel' blocks 0 false (Some c) "" [] ;;
                        Ret (trimEnd output ++ fst r, (acc ++ snd r)%list)
                    | None => Ret (output, acc)
                    end ;;
              r2 <- match slot_ref (entry_slots block) "SUBSTACK" with
                    | Some c =>
                        r <- walk fuel' blocks (depth + 1) false (Some c) "" [] ;;
                        Ret (fst r1 ++ fst r, (snd r1 ++ snd r)%list)
                    | None => Ret r1
                    end ;;
              r3 <- match slot_ref (entry_slots block) "SUBSTACK2" with
                    | Some c =>
                        r <- walk fuel' blocks (depth + 1) true (Some c) "" [] ;;
                        Ret (fst r2 ++ fst r, (snd r2 ++ snd r)%list)
                    | None => Ret r2
                    end ;;
              walk fuel' blocks depth elseClause (entry_next block) (fst r3) (snd r3)
          end
      end
  end.

Definition parseScriptWithBlocks (fuel : nat) (blocks : BlockMap)
    (startId : string) (depth : Z) (elseClause : bool)
    : outcome (string * list BlockText) :=
  walk fuel blocks depth elseClause (Some startId) "" [].

(** The loop over [sprite.topIds] of [parseSpriteScripts]. *)
Fixpoint parseTopIds (fuel : nat) (blocks : BlockMap) (topIds : list string)
    : outcome (list ScriptText) :=
  match topIds with
  | [] => Ret []
  | topId :: rest =>
      r <- parseScriptWithBlocks fuel blocks topId (-1) false ;;
      let scriptText := trim (fst r) in
      scripts <- parseTopIds fuel blocks rest ;;
      Ret ({| text := scriptText;
              fingerprint := generateFingerprint scriptText;
              sblocks := snd r;
              topId := topId |} :: scripts)
  end.

(** [parseSpriteScripts]: the scripts, sorted by fingerprint.  Fingerprints
    are eight hexadecimal digits in lower case, on which [localeCompare]
    orders as the code units do. *)
Definition parseSpriteScripts (fuel : nat) (blocks : BlockMap)
    (topIds : list string) : outcome (list ScriptText) :=
  scripts <- parseTopIds fuel blocks topIds ;;
  Ret (stable_sort (fun a b => String.leb (fingerprint a) (fingerprint b)) scripts).

(** [getTopLevelIds]. *)
Definition getTopLevelIds (blocks : BlockMap) : list string :=
  map fst (filter (fun e => topLevel (snd e)) blocks).

End ScriptParser.

(* ------------------------------------------------------------------ *)
(** * parser.ts, normalizer.ts, ir.ts, fingerprint.ts: the Block-IR pipeline *)

Module IR.

Import Js Raw.
Local Open Scope string_scope.

(** [NormalizedBlock]: the objects that [reconstructScript] creates and
    links through [next].  [mkBlank] is the object made from a value that is
    no block, a function of [Object.prototype] or the prototype: its
    [opcode], [inputs], [fields], [mutation] and [next] are all
    [undefined]. *)
Inductive NormalizedBlock : Type :=
| mkNormalized (nb_opcode : string) (nb_inputs : jobject) (nb_fields : jobject)
               (nb_mutation : option json) (nb_next : option NormalizedBlock)
| mkBlank.

(** [Script]; [topLevelBlock] is [normalizedBlocks[topLevelBlockId]], which
    is [undefined] when the loops of [reconstructScript] ran no turn. *)
Record Script : Type :=
  { topLevelBlock : option NormalizedBlock; targetName : string }.

(** ** ProjectParser *)

(** The first pass of [reconstructScript]:
    [while (currentBlockId) { rawBlock = blocks[currentBlockId];
       if (!rawBlock) break; normalizedBlocks[currentBlockId] = ...;
       currentBlockId = rawBlock.next; }].
    The result lists what the loop stored, in the order of the visit.
    There is no set of visited ids: a chain that comes back to one of its
    blocks is followed for ever.  [blocks[currentBlockId]] is truthy also
    under a name that every object inherits, which adds one object to the
    chain and ends it. *)
Fixpoint first_pass (fuel : nat) (blocks : BlockMap) (currentBlockId : option string)
    : outcome (list (string * Entry)) :=
  match fuel with
  | O => OutOfFuel
  | S fuel' =>
      match live currentBlockId with
      | None => Ret []
      | Some id =>
          match at_id blocks id with
          | None => Ret []                                  (* [break] *)
          | Some rawBlock =>
              rest <- first_pass fuel' blocks (entry_next rawBlock) ;;
              Ret ((id, rawBlock) :: rest)
          end
      end
  end.

(** The second pass walks the same chain and sets
    [normalizedBlocks[id].next = normalizedBlocks[rawBlock.next]] when the
    next id is one of the stored ones, that is when the chain goes on.  When
    the first pass returned, the stored ids are pairwise distinct, and the
    object stored under the top-level id is the head of this linked list.
    (An object stored under [__proto__] becomes the prototype of
    [normalizedBlocks] and is read back under that name.  When it was made
    from a block of the map, its five properties are then found under their
    names too: a chain through a block whose id is [__proto__] that ends in
    a [next] named [opcode], [inputs], [fields], [mutation] or [next], the
    key of no block, gets one of these values for the last [next].  The
    model leaves this case out; the statements about the result of
    [reconstructScript] are for block maps with no block under
    [__proto__].) *)
Fixpoint link (visited : list (string * Entry)) : option NormalizedBlock :=
  match visited with
  | [] => None
  | (_, a_block rawBlock) :: rest =>
      Some (mkNormalized (opcode rawBlock) (inputs rawBlock) (fields rawBlock)
              (mutation rawBlock) (link rest))
  | (_, _) :: _ => Some mkBlank
  end.

(** [reconstructScript]; [None] is the [null] returned for a top-level id
    under which [blocks] has nothing. *)
Definition reconstructScript (fuel : nat) (blocks : BlockMap)
    (topLevelBlockId : string) (targetName : string) : outcome (option Script) :=
  match at_id blocks topLevelBlockId with
  | None => Ret None
  | Some _ =>
      visited <- first_pass fuel blocks (Some topLevelBlockId) ;;
      _ <- first_pass fuel blocks (Some topLevelBlockId) ;;   (* second pass *)
      Ret (Some {| topLevelBlock := link visited; targetName := targetName |})
  end.

(** [ParsedTarget] (and [TargetIR], which has the same properties with the
    scripts in another form). *)
Record Parsed (S : Type) : Type :=
  { p_name : string;
    p_scripts : list S;
    p_variables : jobject;
    p_lists : jobject;
    p_costumes : list json;
    p_sounds : list json }.

Definition topLevelBlockIds (blocks : BlockMap) : list string :=
  map fst (filter (fun e => topLevel (snd e) && negb (shadow (snd e))) blocks).

Fixpoint reconstructScripts (fuel : nat) (blocks : BlockMap) (ids : list string)
    (targetName : string) : outcome (list Script) :=
  match ids with
  | [] => Ret []
  | blockId :: rest =>
      script <- reconstructScript fuel blocks blockId targetName ;;
      scripts <- reconstructScripts fuel blocks rest targetName ;;
      Ret (match script with Some s => s :: scripts | None => scripts end)
  end.

(** [ProjectParser.parse]. *)
Fixpoint parse (fuel : nat) (project : Project) : outcome (list (Parsed Script)) :=
  match project with
  | [] => Ret []
  | rawTarget :: rest =>
      scripts <- reconstructScripts fuel (blocks rawTarget)
                   (topLevelBlockIds (blocks rawTarget)) (name rawTarget) ;;
      targets <- parse fuel rest ;;
      Ret ({| p_name := name rawTarget;
              p_scripts := scripts;
              p_variables := variables rawTarget;
              p_lists := lists rawTarget;
              p_costumes := costumes rawTarget;
              p_sounds := sounds rawTarget |} :: targets)
  end.

(** ** Reading JavaScript values *)

Fixpoint indexed {A : Type} (i : nat) (l : list A) : list (string * A) :=
  match l with
  | [] => []
  | x :: t => (number_to_string (Z.of_nat i), x) :: indexed (S i) t
  end.

Fixpoint chars (s : string) : list json :=
  match s with
  | EmptyString => []
  | String c s' => JStr (String c "") :: chars s'
  end.

(** [Object.entries(v)]. *)
Definition entries (v : option json) : outcome (list (string * json)) :=
  match v with
  | None | Some JNull => Throw TypeError
  | Some (JObj props) => Ret props
  | Some (JArr l) => Ret (indexed 0 l)
  | Some (JStr s) => Ret (indexed 0 (chars s))
  | Some _ => Ret []
  end.

(** [const [inputType, inputData] = inputValue]: the first two values that
    the iteration of [inputValue] yields. *)
Definition destructure (inputValue : json) : outcome (option json * option json) :=
  match inputValue with
  | JArr l => Ret (nth_error l 0, nth_error l 1)
  | JStr s => Ret (nth_error (chars s) 0, nth_error (chars s) 1)
  | _ => Throw TypeError
  end.

(** ** BlockNormalizer *)

Fixpoint normalizeEntries (props : jobject) : outcome jobject :=
  match props with
  | [] => Ret []
  | (inputName, inputValue) :: rest =>
      d <- destructure inputValue ;;
      rest' <- normalizeEntries rest ;;
      Ret (assigned inputName
             match snd d with
             | Some (JArr inputData) => JArr [or_null (fst d); JArr inputData]
             | _ => inputValue
             end rest')
  end.

(** [BlockNormalizer.normalizeInputs]. *)
Definition normalizeInputs (inputs : jobject) : outcome jobject :=
  props <- normalizeEntries inputs ;;
  Ret (fromEntries_order fst props).

(** [BlockNormalizer.normalizeBlock]; [block.mutation || undefined] drops a
    mutation that is not truthy.  On a block without inputs,
    [Object.entries(undefined)] throws. *)
Fixpoint normalizeBlock (block : NormalizedBlock) : outcome NormalizedBlock :=
  match block with
  | mkBlank => Throw TypeError
  | mkNormalized op ins flds mut nxt =>
      ins' <- normalizeInputs ins ;;
      nxt' <- match nxt with
              | Some b => b' <- normalizeBlock b ;; Ret (Some b')
              | None => Ret None
              end ;;
      Ret (mkNormalized op ins' flds
             (match mut with Some m => if truthy m then Some m else None | None => None end)
             nxt')
  end.

(** [BlockNormalizer.cleanBlock].  The properties are written to a fresh
    object one after the other, which lists them in enumeration order; the
    assignment [cleaned["__proto__"] = v] runs the setter of
    [Object.prototype] and creates no property. *)
Definition ui_key (key : string) : bool :=
  String.eqb key "x" || String.eqb key "y" || String.eqb key "id"
  || String.eqb key "parent".

Definition kept_key (key : string) : bool :=
  negb (ui_key key) && negb (String.eqb key "__proto__").

Fixpoint cleanBlock (block : json) : json :=
  match block with
  | JArr l => JArr (map cleanBlock l)
  | JObj props =>
      JObj (fromEntries_order fst
              (flat_map (fun kv => if kept_key (fst kv)
                                   then [(fst kv, cleanBlock (snd kv))]
                                   else [])
                        props))
  | _ => block
  end.


Definition normalizeScript (script : Script) : outcome Script :=
  match topLevelBlock script with
  | None => Throw TypeError                    (* [block.opcode] on undefined *)
  | Some b =>
      b' <- normalizeBlock b ;;
      Ret {| topLevelBlock := Some b'; targetName := targetName script |}
  end.

Fixpoint mapM {A B : Type} (f : A -> outcome B) (l : list A) : outcome (list B) :=
  match l with
  | [] => Ret []
  | x :: t => y <- f x ;; ys <- mapM f t ;; Ret (y :: ys)
  end.

Definition normalize (project : list (Parsed Script)) : outcome (list (Parsed Script)) :=
  mapM (fun target =>
          scripts <- mapM normalizeScript (p_scripts target) ;;
          Ret {| p_name := p_name target;
                 p_scripts := scripts;
                 p_variables := p_variables target; p_lists := p_lists target;
                 p_costumes := p_costumes target; p_sounds := p_sounds target |})
       project.

(** ** BlockIRBuilder *)

(** [BlockIR].  A node built from a [NormalizedBlock] has a string for
    opcode and objects for inputs and fields; a child is built from whatever
    JSON value an input nests, so every property may be any value or
    [undefined]. *)
Inductive BlockIR : Type :=
  mkIR (ir_opcode ir_inputs ir_fields ir_mutation : option json)
       (ir_next : option BlockIR) (ir_children : list BlockIR).

Definition ir_children_of (b : BlockIR) : list BlockIR :=
  match b with mkIR _ _ _ _ _ c => c end.
Definition ir_inputs_of (b : BlockIR) : option json :=
  match b with mkIR _ i _ _ _ _ => i end.

(** [extractChildrenFromInputs], over the entries of [blockIR.inputs]; [build]
    is the recursive call of [buildBlockIR]. *)
Fixpoint extractChildren (build : json -> outcome BlockIR) (es : list (string * json))
    : outcome (list BlockIR) :=
  match es with
  | [] => Ret []
  | (_, inputValue) :: rest =>
      d <- destructure inputValue ;;
      child <- match snd d with
               | Some (JArr [_; JObj props]) =>
                   if has_key "opcode" props
                   then c <- build (JObj props) ;; Ret [c]
                   else Ret []
               | _ => Ret []
               end ;;
      rest' <- extractChildren build rest ;;
      Ret (child ++ rest')%list
  end.

(** [buildBlockIR] on a JSON value taken for a block. *)
Fixpoint ir_of_json (fuel : nat) (o : json) : outcome BlockIR :=
  match fuel with
  | O => OutOfFuel
  | S fuel' =>
      opcode <- get_prop o "opcode" ;;
      inputs <- get_prop o "inputs" ;;
      fields <- get_prop o "fields" ;;
      mutation <- get_prop o "mutation" ;;
      next <- get_prop o "next" ;;
      nxt <- match next with
             | Some n => if truthy n
                         then b <- ir_of_json fuel' n ;; Ret (Some b)
                         else Ret None
             | None => Ret None
             end ;;
      es <- entries inputs ;;
      children <- extractChildren (ir_of_json fuel') es ;;
      Ret (mkIR opcode inputs fields mutation nxt children)
  end.

(** A bound on the nesting of a JSON value: fuel that [ir_of_json] cannot
    use up. *)
Fixpoint json_size (v : json) : nat :=
  match v with
  | JArr l => S (fold_right (fun x n => json_size x + n) 0 l)%nat
  | JObj props => S (fold_right (fun kv n => json_size (snd kv) + n) 0 props)%nat
  | _ => 1%nat
  end.

(** [buildBlockIR] on a [NormalizedBlock]; on a block without inputs,
    [Object.entries(undefined)] throws. *)
Fixpoint buildBlockIR (block : NormalizedBlock) : outcome BlockIR :=
  match block with
  | mkBlank => Throw TypeError
  | mkNormalized op ins flds mut nxt =>
      nxt' <- match nxt with
              | Some b => b' <- buildBlockIR b ;; Ret (Some b')
              | None => Ret None
              end ;;
      children <- extractChildren (fun o => ir_of_json (json_size o) o) ins ;;
      Ret (mkIR (Some (JStr op)) (Some (JObj ins)) (Some (JObj flds)) mut nxt' children)
  end.

Record ScriptIR : Type :=
  { block : BlockIR; s_targetName : string; s_fingerprint : string }.

(** ** FingerprintGenerator *)

Fixpoint fp_normalizeEntries (es : list (string * json)) : outcome jobject :=
  match es with
  | [] => Ret []
  | (inputName, inputValue) :: rest =>
      d <- destructure inputValue ;;
      rest' <- fp_normalizeEntries rest ;;
      Ret (assigned inputName (JArr [or_null (fst d); or_null (snd d)]) rest')
  end.

(** [FingerprintGenerator.normalizeInputs]: every input becomes the pair of
    its type and a copy of its data; block ids in the data stay as they are. *)
Definition fp_normalizeInputs (inputs : option json) : outcome jobject :=
  es <- entries inputs ;;
  props <- fp_normalizeEntries es ;;
  Ret (fromEntries_order fst props).

Definition prop (key : string) (v : option json) : jobject :=
  match v with Some x => [(key, x)] | None => [] end.

(** [generateBlockFingerprint], with [createSemanticRepresentation] inlined.
    [JSON.stringify] leaves out a property whose value is [undefined]. *)
Fixpoint generateBlockFingerprint (b : BlockIR) : outcome string :=
  match b with
  | mkIR opcode inputs fields mutation next children =>
      ins <- fp_normalizeInputs inputs ;;
      cs <- (fix each (l : list BlockIR) : outcome (list json) :=
               match l with
               | [] => Ret []
               | c :: t =>
                   f <- generateBlockFingerprint c ;;
                   fs <- each t ;;
                   Ret (JStr f :: fs)
               end) children ;;
      nx <- match next with
            | Some n => f <- generateBlockFingerprint n ;; Ret (Some (JStr f))
            | None => Ret None
            end ;;
      let repr :=
        JObj (prop "opcode" opcode ++ prop "fields" fields ++ prop "mutation" mutation
              ++ [("inputs", JObj ins); ("children", JArr cs)] ++ prop "next" nx)%list in
      Ret (simpleHash (stringify_with true repr))
  end.

(** [buildIR] followed by [generateFingerprints], for one script. *)
Definition scriptIR (script : Script) : outcome ScriptIR :=
  match topLevelBlock script with
  | None => Throw TypeError
  | Some b =>
      ir <- buildBlockIR b ;;
      f <- generateBlockFingerprint ir ;;
      Ret {| block := ir; s_targetName := targetName script; s_fingerprint := f |}
  end.

Definition buildIR (project : list (Parsed Script)) : outcome (list (Parsed ScriptIR)) :=
  mapM (fun target =>
          scripts <- mapM scriptIR (p_scripts target) ;;
          Ret {| p_name := p_name target;
                 p_scripts := scripts;
                 p_variables := p_variables target; p_lists := p_lists target;
                 p_costumes := p_costumes target; p_sounds := p_sounds target |})
       project.

(** The steps of [compareSb3Projects] that lead from the raw project to the
    fingerprinted IR. *)
Definition load (fuel : nat) (project : Project) : outcome (list (Parsed ScriptIR)) :=
  parsed <- parse fuel project ;;
  normalized <- normalize parsed ;;
  buildIR normalized.

(** The fingerprints of the scripts, target by target. *)
Definition fingerprints (fuel : nat) (project : Project) : outcome (list (list string)) :=
  ir <- load fuel project ;;
  Ret (map (fun t => map s_fingerprint (p_scripts t)) ir).

End IR.

(* ------------------------------------------------------------------ *)
(** * diff.ts *)

Module Diff.

Import Js Raw ScriptParser.
Local Open Scope string_scope.

Inductive DiffType : Type :=
| script_add | script_delete | script_modify
| block_add | block_delete | block_edit | block_move
| variable_add | variable_delete | variable_edit
| list_add | list_delete | list_edit
| costume_add | costume_delete | costume_edit
| sound_add | sound_delete | sound_edit.


(** A script as the payload of an item, in the JSON form in which the diff
    is written out and read back. *)
Definition BlockText_json (b : BlockText) : json :=
  JObj [("text", JStr (bt_text b)); ("fingerprint", JStr (bt_fingerprint b));
        ("depth", JNum (bt_depth b))].

Definition ScriptText_json (sc : ScriptText) : json :=
  JObj [("text", JStr (text sc)); ("fingerprint", JStr (fingerprint sc));
        ("blocks", JArr (map BlockText_json (sblocks sc)));
        ("topId", JStr (topId sc))].

(** [DiffItem]: [{type, location: {targetName}, old?, new?, fingerprint?,
    diff?: {added, removed, text}}].  The rendered [text] of the summary is
    for display and is left out. *)
Record DiffItem : Type :=
  { type : DiffType;
    targetName : string;
    old : option json;
    new : option json;
    fingerprint : option json;
    diff : option (Z * Z) }.

(** ** Maps in insertion order *)

(** [===] and the key equality of [Map] and [Set] on the values of a JSON
    document: numbers, strings, booleans and [null] are compared by value;
    arrays and objects are compared by reference, and two that were read from
    different places of a document are never the same. *)
Definition strict_eqb (u v : json) : bool :=
  match u, v with
  | JNull, JNull => true
  | JBool a, JBool b => Bool.eqb a b
  | JNum a, JNum b => (a =? b)%Z
  | JStr a, JStr b => String.eqb a b
  | _, _ => false
  end.

Section InsertionMap.
Variables K V : Type.
Variable eqb : K -> K -> bool.

Definition imap : Type := list (K * V).

Fixpoint map_get (k : K) (m : imap) : option V :=
  match m with
  | [] => None
  | (k', v) :: t => if eqb k' k then Some v else map_get k t
  end.

Definition map_has (k : K) (m : imap) : bool :=
  match map_get k m with Some _ => true | None => false end.

(** [m.set(k, v)]: a key already there keeps its place. *)
Fixpoint map_set (k : K) (v : V) (m : imap) : imap :=
  match m with
  | [] => [(k, v)]
  | (k', v') :: t => if eqb k' k then (k', v) :: t else (k', v') :: map_set k v t
  end.

Fixpoint map_delete (k : K) (m : imap) : imap :=
  match m with
  | [] => []
  | (k', v') :: t => if eqb k' k then t else (k', v') :: map_delete k t
  end.

(** [new Map(entries)]. *)
Definition map_of (entries : list (K * V)) : imap :=
  fold_left (fun m e => map_set (fst e) (snd e) m) entries [].
End InsertionMap.

(** [new Set(keys)], in insertion order. *)
Definition set_of (ks : list string) : list string :=
  map fst (map_of String.eqb (map (fun k => (k, tt)) ks)).

Definition set_has (k : string) (s : list string) : bool :=
  existsb (String.eqb k) s.

(** ** matchScripts *)

Record Match : Type := { oldScript : ScriptText; newScript : ScriptText }.

Record MatchResult : Type :=
  { matchedScripts : list Match;
    unmatchedOldScripts : list ScriptText;
    unmatchedNewScripts : list ScriptText }.

Definition fp_differs (fp : string) (sc : ScriptText) : bool :=
  negb (String.eqb (ScriptParser.fingerprint sc) fp).

(** The loop over [oldScriptMap.entries()]: scripts with identical
    fingerprints. *)
Fixpoint exact_phase (oldEntries : list (string * ScriptText))
    (newScriptMap : imap string ScriptText) (acc : MatchResult)
    : MatchResult * imap string ScriptText :=
  match oldEntries with
  | [] => (acc, newScriptMap)
  | (fp, oldS) :: rest =>
      match map_get String.eqb fp newScriptMap with
      | Some newS =>
          exact_phase rest (map_delete String.eqb fp newScriptMap)
            {| matchedScripts := matchedScripts acc ++ [ {| oldScript := oldS; newScript := newS |} ];
               unmatchedOldScripts := filter (fp_differs fp) (unmatchedOldScripts acc);
               unmatchedNewScripts := filter (fp_differs fp) (unmatchedNewScripts acc) |}
      | None => exact_phase rest newScriptMap acc
      end
  end.

(** [lengthRatio > 0.7 && hasCommonStart].  [lengthRatio] is the quotient of
    the two lengths in double precision; for lengths below [2^50] the
    comparison with the double [0.7] holds exactly when
    [10 * minLength > 7 * maxLength], and it fails for [0 / 0]. *)
Definition similar (oldText newText : string) : bool :=
  let minLength := Nat.min (String.length oldText) (String.length newText) in
  let maxLength := Nat.max (String.length oldText) (String.length newText) in
  let hasCommonStart := String.eqb (take 20 oldText) (take 20 newText) in
  (7 * maxLength <? 10 * minLength)%nat && hasCommonStart.

(** The inner loop: the first new script that passes, [break]. *)
Definition bestMatch (oldS : ScriptText) (candidates : list ScriptText)
    : option ScriptText :=
  find (fun newS => similar (text oldS) (text newS)) candidates.

(** [s !== bestMatch].  Every [ScriptText] is built once, for one top-level
    id of its sprite, so that two of one list are the same object exactly
    when their [topId] is the same. *)
Definition same_object (a b : ScriptText) : bool :=
  String.eqb (topId a) (topId b).

(** The loop [for (const oldScript of unmatchedOldScripts)]. *)
Fixpoint fallback_phase (olds : list ScriptText)
    (matched : list Match) (unmatchedNew : list ScriptText)
    : list Match * list ScriptText :=
  match olds with
  | [] => (matched, unmatchedNew)
  | oldS :: rest =>
      match bestMatch oldS unmatchedNew with
      | Some best =>
          fallback_phase rest
            (matched ++ [ {| oldScript := oldS; newScript := best |} ])
            (filter (fun sc => negb (same_object sc best)) unmatchedNew)
      | None => fallback_phase rest matched unmatchedNew
      end
  end.

Definition by_fingerprint (scripts : list ScriptText) : imap string ScriptText :=
  map_of String.eqb (map (fun sc => (ScriptParser.fingerprint sc, sc)) scripts).

Definition matchScripts (oldScripts newScripts : list ScriptText) : MatchResult :=
  let oldScriptMap := by_fingerprint oldScripts in
  let newScriptMap := by_fingerprint newScripts in
  let '(r1, _) :=
    exact_phase oldScriptMap newScriptMap
      {| matchedScripts := [];
         unmatchedOldScripts := oldScripts;
         unmatchedNewScripts := newScripts |} in
  let '(matched, unmatchedNew) :=
    fallback_phase (unmatchedOldScripts r1) (matchedScripts r1) (unmatchedNewScripts r1) in
  let matchedNewFingerprints :=
    map (fun m => ScriptParser.fingerprint (newScript m)) matched in
  let matchedOldFingerprints :=
    map (fun m => ScriptParser.fingerprint (oldScript m)) matched in
  {| matchedScripts := matched;
     unmatchedOldScripts :=
       filter (fun sc => negb (set_has (ScriptParser.fingerprint sc) matchedOldFingerprints))
              (unmatchedOldScripts r1);
     unmatchedNewScripts :=
       filter (fun sc => negb (set_has (ScriptParser.fingerprint sc) matchedNewFingerprints))
              unmatchedNew |}.

(** ** Keyed collections *)

Definition item (t : DiffType) (targetName : string) (o n : option json)
    (fp : json) : DiffItem :=
  {| type := t; targetName := targetName; old := o; new := n;
     fingerprint := Some fp; diff := None |}.

(** [JSON.stringify(a) !== JSON.stringify(b)]. *)
Definition json_differ (a b : option json) : bool :=
  match option_map stringify a, option_map stringify b with
  | Some x, Some y => negb (String.eqb x y)
  | None, None => false
  | _, _ => true
  end.

Section Records.
(** [diffVariables] and [diffLists] are one text with two sets of tags. *)
Variables t_delete t_add t_edit : DiffType.

Definition diffRecord (oldR newR : jobject) (targetName : string) : list DiffItem :=
  let oldKeys := set_of (keys oldR) in
  let newKeys := set_of (keys newR) in
  flat_map (fun key =>
              if negb (set_has key newKeys)
              then [item t_delete targetName (lookup key oldR) None (JStr key)]
              else []) oldKeys
  ++ flat_map (fun key =>
                 if negb (set_has key oldKeys)
                 then [item t_add targetName None (lookup key newR) (JStr key)]
                 else if json_differ (lookup key oldR) (lookup key newR)
                 then [item t_edit targetName (lookup key oldR) (lookup key newR) (JStr key)]
                 else []) newKeys.
End Records.

Definition diffVariables : jobject -> jobject -> string -> list DiffItem :=
  diffRecord variable_delete variable_add variable_edit.

Definition diffLists : jobject -> jobject -> string -> list DiffItem :=
  diffRecord list_delete list_add list_edit.

(** [resource.assetId || resource.md5ext]. *)
Definition asset_identity (resource : json) : outcome (option json) :=
  a <- get_prop resource "assetId" ;;
  m <- get_prop resource "md5ext" ;;
  Ret (or_else a m).

Definition is_truthy (v : option json) : bool :=
  match v with Some x => truthy x | None => false end.

(** [createResourceMap].  [Math.random().toString()] is the only source of
    values that the inputs do not determine: [rnd] lists the texts it
    returns in the course of a run, and [n] counts the calls made so far. *)
Fixpoint createResourceMap (rnd : nat -> string) (n : nat) (resources : list json)
    (map : imap json json) : outcome (imap json json * nat) :=
  match resources with
  | [] => Ret (map, n)
  | resource :: rest =>
      i <- asset_identity resource ;;
      if is_truthy i
      then createResourceMap rnd n rest (map_set strict_eqb (or_null i) resource map)
      else createResourceMap rnd (S n) rest (map_set strict_eqb (JStr (rnd n)) resource map)
  end.

Section Resources.
(** [diffCostumes] and [diffSounds], likewise. *)
Variables t_delete t_add t_edit : DiffType.

Definition diffResourceMaps (oldMap newMap : imap json json) (targetName : string)
    : list DiffItem :=
  flat_map (fun e =>
              if negb (map_has strict_eqb (fst e) newMap)
              then [item t_delete targetName (Some (snd e)) None (fst e)]
              else []) oldMap
  ++ flat_map (fun e =>
                 if negb (map_has strict_eqb (fst e) oldMap)
                 then [item t_add targetName None (Some (snd e)) (fst e)]
                 else
                   let oldResource := map_get strict_eqb (fst e) oldMap in
                   if json_differ oldResource (Some (snd e))
                   then [item t_edit targetName oldResource (Some (snd e)) (fst e)]
                   else []) newMap.

Definition diffResources (rnd : nat -> string) (n : nat)
    (oldResources newResources : list json) (targetName : string)
    : outcome (list DiffItem * nat) :=
  oldMap <- createResourceMap rnd n oldResources [] ;;
  newMap <- createResourceMap rnd (snd oldMap) newResources [] ;;
  Ret (diffResourceMaps (fst oldMap) (fst newMap) targetName, snd newMap).
End Resources.

Definition diffCostumes := diffResources costume_delete costume_add costume_edit.
Definition diffSounds := diffResources sound_delete sound_add sound_edit.

(** ** generateDiff *)

(** [diffBlocks]. *)
Definition diffBlocks (oldS newS : ScriptText) (targetName : string)
    : outcome (list DiffItem) :=
  textDiff <- TextDiff.diffText (join nl (map bt_text (sblocks oldS)))
                                (join nl (map bt_text (sblocks newS))) ;;
  if ((TextDiff.added textDiff >? 0) || (TextDiff.removed textDiff >? 0))%Z
  then Ret [ {| type := block_edit; targetName := targetName; old := None; new := None;
                fingerprint := Some (JStr (ScriptParser.fingerprint oldS));
                diff := Some (TextDiff.added textDiff, TextDiff.removed textDiff) |} ]
  else Ret [].

(** The loop over [scriptMatches.matchedScripts]. *)
Fixpoint modify_items (matches : list Match) (targetName : string)
    : outcome (list DiffItem) :=
  match matches with
  | [] => Ret []
  | m :: rest =>
      textDiff <- TextDiff.diffText (text (oldScript m)) (text (newScript m)) ;;
      here <- (if ((TextDiff.added textDiff >? 0) || (TextDiff.removed textDiff >? 0))%Z
               then
                 blockDiff <- diffBlocks (oldScript m) (newScript m) targetName ;;
                 Ret ({| type := script_modify; targetName := targetName;
                         old := Some (ScriptText_json (oldScript m));
                         new := Some (ScriptText_json (newScript m));
                         fingerprint := Some (JStr (ScriptParser.fingerprint (oldScript m)));
                         diff := Some (TextDiff.added textDiff, TextDiff.removed textDiff) |}
                      :: blockDiff)
               else Ret []) ;;
      rest' <- modify_items rest targetName ;;
      Ret (here ++ rest')%list
  end.

Definition delete_item (targetName : string) (sc : ScriptText) : DiffItem :=
  item script_delete targetName (Some (ScriptText_json sc)) None
       (JStr (ScriptParser.fingerprint sc)).

Definition add_item (targetName : string) (sc : ScriptText) : DiffItem :=
  item script_add targetName None (Some (ScriptText_json sc))
       (JStr (ScriptParser.fingerprint sc)).

Definition scripts_of (fuel : nat) (t : Target) : outcome (list ScriptText) :=
  parseSpriteScripts fuel (blocks t) (getTopLevelIds (blocks t)).

(** The script part of one turn of the loop of [generateDiff]. *)
Definition script_items (fuel : nat) (oldRawTarget newRawTarget : option Target)
    (targetName : string) : outcome (list DiffItem) :=
  match oldRawTarget, newRawTarget with
  | Some o, Some n =>
      oldScripts <- scripts_of fuel o ;;
      newScripts <- scripts_of fuel n ;;
      let scriptMatches := matchScripts oldScripts newScripts in
      mods <- modify_items (matchedScripts scriptMatches) targetName ;;
      Ret (mods
           ++ map (delete_item targetName) (unmatchedOldScripts scriptMatches)
           ++ map (add_item targetName) (unmatchedNewScripts scriptMatches))%list
  | Some o, None =>
      oldScripts <- scripts_of fuel o ;;
      Ret (map (delete_item targetName) oldScripts)
  | None, Some n =>
      newScripts <- scripts_of fuel n ;;
      Ret (map (add_item targetName) newScripts)
  | None, None => Ret []
  end.

(** The collection part of one turn. *)
Definition collection_items (rnd : nat -> string) (n : nat)
    (oldTarget newTarget : option Target) (targetName : string)
    : outcome (list DiffItem * nat) :=
  match oldTarget, newTarget with
  | Some o, Some nw =>
      let variableDiff := diffVariables (variables o) (variables nw) targetName in
      let listDiff := diffLists (lists o) (lists nw) targetName in
      costumeDiff <- diffCostumes rnd n (costumes o) (costumes nw) targetName ;;
      soundDiff <- diffSounds rnd (snd costumeDiff) (sounds o) (sounds nw) targetName ;;
      Ret ((variableDiff ++ listDiff ++ fst costumeDiff ++ fst soundDiff)%list,
           snd soundDiff)
  | _, _ => Ret ([], n)
  end.

(** The target names that [ScriptMatcher.matchProjects] goes through: the
    keys of the map of the old targets, then those of the new.  (The script
    matches it computes on the IR are not read by [generateDiff].) *)
Definition allTargetNames (oldP newP : Project) : list string :=
  set_of (set_of (map name oldP) ++ set_of (map name newP)).

Fixpoint diff_targets (rnd : nat -> string) (fuel : nat) (oldP newP : Project)
    (names : list string) (n : nat) : outcome (list DiffItem * nat) :=
  match names with
  | [] => Ret ([], n)
  | targetName :: rest =>
      let oldTarget := find_target targetName oldP in
      let newTarget := find_target targetName newP in
      c <- collection_items rnd n oldTarget newTarget targetName ;;
      sc <- script_items fuel oldTarget newTarget targetName ;;
      r <- diff_targets rnd fuel oldP newP rest (snd c) ;;
      Ret ((fst c ++ sc ++ fst r)%list, snd r)
  end.

(** [generateDiff(oldIR, newIR)].  The targets of an IR carry the name and
    the four collections of the raw targets they were built from, and
    [_rawTargets] are those raw targets: both views are read off the raw
    project. *)
Definition generateDiff (rnd : nat -> string) (fuel : nat) (oldP newP : Project)
    : outcome (list DiffItem) :=
  r <- diff_targets rnd fuel oldP newP (allTargetNames oldP newP) 0 ;;
  Ret (fst r).

(** [compareSb3Projects], from the two raw projects to the items. *)
Definition compareProjects (rnd : nat -> string) (fuel : nat) (oldP newP : Project)
    : outcome (list DiffItem) :=
  _ <- IR.load fuel oldP ;;
  _ <- IR.load fuel newP ;;
  generateDiff rnd fuel oldP newP.

End Diff.

(* ------------------------------------------------------------------ *)
(** * index.ts: the replay of [handleReconstructCommand] *)

Module Replay.

Import Js Raw Diff.
Local Open Scope string_scope.

(** The item types that make the replay create an absent target. *)
Definition creates_target (isReverse : bool) (t : DiffType) : bool :=
  if isReverse
  then match t with
       | script_delete | block_delete | costume_delete | sound_delete => true
       | _ => false
       end
  else match t with
       | script_add | block_add | costume_add | sound_add => true
       | _ => false
       end.

(** The object pushed for an absent target.  It has no [blocks] property;
    the replay reads the blocks of no target. *)
Definition shell (targetName : string) : Target :=
  {| name := targetName;
     variables := [];
     lists := [];
     costumes := [];
     sounds := [];
     blocks := [];
     others := [("scripts", JArr []); ("broadcasts", JArr []); ("comments", JArr []);
                ("currentCostume", JNum 0); ("visible", JBool true);
                ("x", JNum 0); ("y", JNum 0); ("size", JNum 100);
                ("direction", JNum 90); ("draggable", JBool false);
                ("rotationStyle", JStr "all around")] |}.

(** [item.type.startsWith('costume-')], [item.type.startsWith('sound-')]. *)
Inductive resourceType : Type := Costumes | Sounds.

Definition resource_type (t : DiffType) : option resourceType :=
  match t with
  | costume_add | costume_delete | costume_edit => Some Costumes
  | sound_add | sound_delete | sound_edit => Some Sounds
  | _ => None
  end.

(** [item.type.split('-')[1]] for a resource item. *)
Inductive changeType : Type := Add | Delete | Edit.

Definition change_type (t : DiffType) : changeType :=
  match t with
  | costume_add | sound_add => Add
  | costume_delete | sound_delete => Delete
  | _ => Edit
  end.

Definition actualChangeType (isReverse : bool) (c : changeType) : changeType :=
  if isReverse
  then match c with Add => Delete | Delete => Add | Edit => Edit end
  else c.

(** [x.assetId || x.md5ext] on a value that may be [undefined]. *)
Definition identity_of (x : option json) : outcome (option json) :=
  match x with
  | None => Throw TypeError
  | Some v => asset_identity v
  end.

(** [===] on values that may be [undefined]. *)
Definition same_value (u v : option json) : bool :=
  match u, v with
  | None, None => true
  | Some a, Some b => strict_eqb a b
  | _, _ => false
  end.

(** [resources.filter(r => id(r) !== id(oldValue))]. *)
Fixpoint delete_resource (oldValue : option json) (resources : list json)
    : outcome (list json) :=
  match resources with
  | [] => Ret []
  | r :: rest =>
      resourceId <- asset_identity r ;;
      itemId <- identity_of oldValue ;;
      rest' <- delete_resource oldValue rest ;;
      Ret (if same_value resourceId itemId then rest' else r :: rest')
  end.

(** [i = resources.findIndex(r => id(r) === id(oldValue));
     if (i !== -1) resources[i] = newValue]. *)
Fixpoint edit_resource (oldValue newValue : option json) (resources : list json)
    : outcome (list json) :=
  match resources with
  | [] => Ret []
  | r :: rest =>
      resourceId <- asset_identity r ;;
      itemId <- identity_of oldValue ;;
      if same_value resourceId itemId
      then Ret (or_null newValue :: rest)
      else rest' <- edit_resource oldValue newValue rest ;; Ret (r :: rest')
  end.

Definition apply_change (c : changeType) (oldValue newValue : option json)
    (resources : list json) : outcome (list json) :=
  match c with
  | Add => Ret (resources ++ [or_null newValue])%list
  | Delete => delete_resource oldValue resources
  | Edit => edit_resource oldValue newValue resources
  end.

Definition get_resources (r : resourceType) (t : Target) : list json :=
  match r with Costumes => costumes t | Sounds => sounds t end.

Definition set_resources (r : resourceType) (t : Target) (l : list json) : Target :=
  match r with
  | Costumes =>
      {| name := name t; variables := variables t; lists := lists t;
         costumes := l; sounds := sounds t; blocks := blocks t; others := others t |}
  | Sounds =>
      {| name := name t; variables := variables t; lists := lists t;
         costumes := costumes t; sounds := l; blocks := blocks t; others := others t |}
  end.

(** What one item does to the target it names. *)
Definition apply_to_target (isReverse : bool) (it : DiffItem) (target : Target)
    : outcome Target :=
  match resource_type (type it) with
  | Some r =>
      let oldValue := if isReverse then new it else old it in
      let newValue := if isReverse then old it else new it in
      l <- apply_change (actualChangeType isReverse (change_type (type it)))
             oldValue newValue (get_resources r target) ;;
      Ret (set_resources r target l)
  | None => Ret target
  end.

(** The first target of the name is the one the item works on:
    [targets.findIndex(t => t.name === item.location.targetName)]. *)
Fixpoint on_first (targetName : string) (f : Target -> outcome Target)
    (targets : Project) : option (outcome Project) :=
  match targets with
  | [] => None                                             (* index -1 *)
  | t :: rest =>
      if String.eqb (name t) targetName
      then Some (t' <- f t ;; Ret (t' :: rest))
      else match on_first targetName f rest with
           | Some r => Some (rest' <- r ;; Ret (t :: rest'))
           | None => None
           end
  end.

(** The body of [for (const item of diff.items)]. *)
Definition apply_item (isReverse : bool) (it : DiffItem) (newProject : Project)
    : outcome Project :=
  match on_first (targetName it) (apply_to_target isReverse it) newProject with
  | None =>
      if creates_target isReverse (type it)
      then Ret (newProject ++ [shell (targetName it)])%list
      else Ret newProject                                   (* [continue] *)
  | Some r => r
  end.

(** The replay: the items, in order, on a copy of the base project. *)
Fixpoint replay (isReverse : bool) (items : list DiffItem) (newProject : Project)
    : outcome Project :=
  match items with
  | [] => Ret newProject
  | it :: rest =>
      p <- apply_item isReverse it newProject ;;
      replay isReverse rest p
  end.

End Replay.

(* ------------------------------------------------------------------ *)
(** * Renaming the block ids of a sprite *)

Module Rename.

Import Js Raw.

Section Renaming.
Variable r : string -> string.

(** In an input [[shadow, a, b]], a string that stands directly in the
    array is the id of a block; literals are arrays of their own. *)
Definition rename_ref (v : json) : json :=
  match v with JStr id => JStr (r id) | _ => v end.

Definition rename_input (v : json) : json :=
  match v with
  | JArr (t :: rest) => JArr (t :: map rename_ref rest)
  | _ => v
  end.

Definition rename_block (b : RawBlock) : RawBlock :=
  {| opcode := opcode b;
     next := option_map r (next b);
     parent := option_map r (parent b);
     inputs := map (fun kv => (fst kv, rename_input (snd kv))) (inputs b);
     fields := fields b;
     shadow := shadow b;
     topLevel := topLevel b;
     mutation := mutation b |}.

(** The same sprite under other ids: opcodes, fields, inputs, mutations
    and the shape of every script are kept. *)
Definition rename_blocks (blocks : BlockMap) : BlockMap :=
  map (fun e => (r (fst e), rename_block (snd e))) blocks.
End Renaming.

End Rename.

(* ------------------------------------------------------------------ *)
(** * Sample projects *)

Module Samples.

Import Js Raw.
Local Open Scope string_scope.

Definition block (op : string) (nx : option string) (ins : jobject) (top : bool)
    : RawBlock :=
  {| opcode := op; next := nx; parent := None; inputs := ins; fields := [];
     shadow := false; topLevel := top; mutation := None |}.

Definition sprite (nm : string) (bs : BlockMap) : Target :=
  {| name := nm; variables := []; lists := []; costumes := []; sounds := [];
     blocks := bs; others := [] |}.

(** [if <mouse down?> then] as a script of its own. *)
Definition if_mouse : BlockMap :=
  [("a", block "control_if" None [("CONDITION", JArr [JNum 2; JStr "b"])] true);
   ("b", block "sensing_mousedown" None [] false)].

(** The ids [a] and [b] become [x] and [y]. *)
Definition other_ids (id : string) : string :=
  if String.eqb id "a" then "x" else if String.eqb id "b" then "y" else id.

(** Two scripts that are the same but for their ids, and one of them alone. *)
Definition two_flags : BlockMap :=
  [("a", block "event_whenflagclicked" None [] true);
   ("b", block "event_whenflagclicked" None [] true)].

Definition one_flag : BlockMap :=
  [("c", block "event_whenflagclicked" None [] true)].

(** A block whose [next] is its own id, and one whose [next] is the id of
    no block. *)
Definition loop : BlockMap :=
  [("a", block "motion_movesteps" (Some "a") [] true)].

Definition dangling : BlockMap :=
  [("a", block "motion_movesteps" (Some "zz") [] true)].

(** A block whose [next] is the key of no block, and a name under which
    every object has a function; the same with the name of the accessor of
    the prototype. *)
Definition inheriting : BlockMap :=
  [("a", block "motion_movesteps" (Some "constructor") [] true)].

Definition inheriting_proto : BlockMap :=
  [("a", block "motion_movesteps" (Some "__proto__") [] true)].

(** The texts of [Math.random().toString()] in some run. *)
Definition draws (n : nat) : string := "0." ++ number_to_string (Z.of_nat (S n)).

(** A sprite with one variable. *)
Definition with_score (value : Z) : Target :=
  {| name := "Sprite1";
     variables := [("v1", JArr [JStr "score"; JNum value])];
     lists := []; costumes := []; sounds := []; blocks := []; others := [] |}.

(** A sprite with one costume, which has a name and nothing that could
    identify its asset; and one whose costume has an [assetId]. *)
Definition with_costume (c : json) : Target :=
  {| name := "Sprite1"; variables := []; lists := [];
     costumes := [c]; sounds := []; blocks := []; others := [] |}.

Definition anonymous_costume : json := JObj [("name", JStr "a")].

(** A sprite with the costumes [cs]. *)
Definition with_costumes (cs : list json) : Target :=
  {| name := "Sprite1"; variables := []; lists := [];
     costumes := cs; sounds := []; blocks := []; others := [] |}.

Definition costume (id nm : string) : json :=
  JObj [("name", JStr nm); ("assetId", JStr id)].

(** Two rendered scripts that start alike and have the same length. *)
Definition rendered (id txt : string) : ScriptParser.ScriptText :=
  {| ScriptParser.text := txt;
     ScriptParser.fingerprint := ScriptParser.generateFingerprint txt;
     ScriptParser.sblocks := [];
     ScriptParser.topId := id |}.

Definition show_script : ScriptParser.ScriptText :=
  rendered "a" ("event_whenflagclicked " ++ ScriptParser.nl ++ "looks_show").

Definition hide_script : ScriptParser.ScriptText :=
  rendered "b" ("event_whenflagclicked " ++ ScriptParser.nl ++ "looks_hide").

(** An item that adds a variable to a sprite. *)
Definition add_score (target : string) : Diff.DiffItem :=
  Diff.item Diff.variable_add target None (Some (JArr [JStr "score"; JNum 0])) (JStr "v1").

(** The item that adds the costume of identity [x] to the sprite [Ghost]. *)
Definition ghost_costume : Diff.DiffItem :=
  Diff.item Diff.costume_add "Ghost" None (Some (costume "x" "a")) (JStr "x").

End Samples.

(* ------------------------------------------------------------------ *)
(** * Vocabulary of the properties *)

Module Vocabulary.

Import Js Raw Diff.



(** The item that reports one change of a keyed collection: its type, the
    sprite, the entry of the old side and of the new side, where there is
    one, and the key; it has no line diff. *)
Definition reported (t : DiffType) (targetName : string) (o n : option json)
    (k : json) : DiffItem :=
  {| type := t; targetName := targetName; old := o; new := n;
     fingerprint := Some k; diff := None |}.

(** The items a key is worth, by the entries it has on the two sides: one
    delete item when only the old side has an entry, one add item when only
    the new side has one, one edit item when both have entries that are not
    canonically equal, and none otherwise.  Two entries are canonically
    equal when [JSON.stringify] gives them the same text. *)
Definition classify_asset (t_delete t_add t_edit : DiffType) (targetName : string)
    (k : json) (o n : option json) : list DiffItem :=
  match o, n with
  | Some x, None => [reported t_delete targetName (Some x) None k]
  | None, Some y => [reported t_add targetName None (Some y) k]
  | Some x, Some y =>
      if String.eqb (stringify x) (stringify y) then []
      else [reported t_edit targetName (Some x) (Some y) k]
  | None, None => []
  end.


(** Two asset identities that are the same value: [null], a boolean, a number
    or a string, equal to the other. *)
Definition same_key (a b : json) : bool :=
  match a, b with
  | JNull, JNull => true
  | JBool x, JBool y => Bool.eqb x y
  | JNum x, JNum y => (x =? y)%Z
  | JStr x, JStr y => String.eqb x y
  | _, _ => false
  end.

(** The items of a diff that carry the asset identity [k]. *)
Definition carries (k : json) (it : DiffItem) : bool :=
  match fingerprint it with
  | Some f => same_key f k
  | None => false
  end.

(** The chain of [next] that starts at [cur] stops after [n] blocks, at an
    id that is [null], [undefined], empty, or the key of no block. *)
Inductive ends (blocks : BlockMap) : option string -> nat -> Prop :=
| ends_here cur :
    live cur = None -> ends blocks cur 0
| ends_missing cur id :
    live cur = Some id -> lookup id blocks = None -> ends blocks cur 0
| ends_next cur id b n :
    live cur = Some id -> lookup id blocks = Some b ->
    ends blocks (next b) n -> ends blocks cur (S n).

(** The same chain as the code follows it, with [blocks[id]] for every id:
    it stops after [n] steps, at an id that is [null], [undefined], empty,
    or under which the block map has nothing.  A step leads through a block
    of the map or, last of all, through what the map inherits under the
    id. *)
Inductive stops (blocks : BlockMap) : option string -> nat -> Prop :=
| stops_here cur :
    live cur = None -> stops blocks cur 0
| stops_missing cur id :
    live cur = Some id -> at_id blocks id = None -> stops blocks cur 0
| stops_next cur id e n :
    live cur = Some id -> at_id blocks id = Some e ->
    stops blocks (entry_next e) n -> stops blocks cur (S n).

(** The first [n] steps of the chain, at most. *)
Fixpoint chain (n : nat) (blocks : BlockMap) (cur : option string)
    : list (string * Entry) :=
  match n with
  | O => []
  | S n' =>
      match live cur with
      | None => []
      | Some id =>
          match at_id blocks id with
          | None => []
          | Some e => (id, e) :: chain n' blocks (entry_next e)
          end
      end
  end.

(** The number of blocks linked through [next]. *)
Fixpoint block_length (b : IR.NormalizedBlock) : nat :=
  match b with
  | IR.mkNormalized _ _ _ _ nxt =>
      S (match nxt with Some b' => block_length b' | None => 0 end)
  | IR.mkBlank => 1
  end.

(** The script that a chain is worth: its blocks in order, each with the
    opcode, inputs, fields and mutation of the block of the map, each
    followed by the next; a step through what the map inherits is worth a
    block whose properties are all [undefined], and is the last. *)
Fixpoint linked (steps : list (string * Entry)) : option IR.NormalizedBlock :=
  match steps with
  | [] => None
  | (_, a_block b) :: rest =>
      Some (IR.mkNormalized (opcode b) (inputs b) (fields b) (mutation b) (linked rest))
  | (_, a_method) :: _ | (_, the_prototype) :: _ => Some IR.mkBlank
  end.

Definition chain_length (b : option IR.NormalizedBlock) : nat :=
  match b with Some b' => block_length b' | None => 0 end.

(** A block map in which no block has the id [__proto__]. *)
Definition no_proto_block (blocks : BlockMap) : Prop :=
  lookup "__proto__" blocks = None.

(** Every top-level chain of the target stops within [n] blocks. *)
Definition finite_chains (n : nat) (t : Target) : Prop :=
  forall id, In id (IR.topLevelBlockIds (blocks t)) ->
  exists k, k <= n /\ stops (blocks t) (Some id) k.

(** What [ProjectParser.parse] makes of a target whose chains stop within
    [n] blocks: one script for each top-level id, cut where its chain
    stops. *)
Definition parsed_target (n : nat) (t : Target) : IR.Parsed IR.Script :=
  {| IR.p_name := name t;
     IR.p_scripts :=
       map (fun id => {| IR.topLevelBlock := linked (chain n (blocks t) (Some id));
                         IR.targetName := name t |})
           (IR.topLevelBlockIds (blocks t));
     IR.p_variables := variables t;
     IR.p_lists := lists t;
     IR.p_costumes := costumes t;
     IR.p_sounds := sounds t |}.

(** [r.assetId || r.md5ext] on a value that is an object. *)
Definition identity (r : json) : option json :=
  match r with
  | JObj props => or_else (lookup "assetId" props) (lookup "md5ext" props)
  | _ => None
  end.

Definition primitive (v : json) : bool :=
  match v with JArr _ | JObj _ => false | _ => true end.

(** A costume or sound with an asset identity of its own: an object whose
    [assetId], or else [md5ext], is a string that is not empty (or another
    truthy value that is compared by value). *)
Definition stable (r : json) : bool :=
  match identity r with
  | Some i => truthy i && primitive i
  | None => false
  end.

Definition key_of (r : json) : json := or_null (identity r).

Definition stable_target (t : Target) : Prop :=
  Forall (fun r => stable r = true) (costumes t)
  /\ Forall (fun r => stable r = true) (sounds t).

Definition all_stable (p : Project) : Prop := Forall stable_target p.

(** The map that [createResourceMap] builds when it has no use for
    [Math.random]. *)
Definition resource_map (resources : list json) : imap json json :=
  fold_left (fun m r => map_set strict_eqb (key_of r) r m) resources [].

(** Two entries, or two absences, that are canonically equal. *)
Definition keyed_equal (a b : option json) : Prop :=
  match a, b with
  | Some x, Some y => stringify x = stringify y
  | None, None => True
  | _, _ => False
  end.

(** The item types at which the replay creates the sprite that an item
    names and that the working copy does not have: forward, the additions of
    a script, a block, a costume and a sound; in reverse, their
    deletions. *)
Definition creating_types (isReverse : bool) : list DiffType :=
  if isReverse
  then [script_delete; block_delete; costume_delete; sound_delete]
  else [script_add; block_add; costume_add; sound_add].

(** Two lists of costumes or sounds that are the same keyed collection:
    under every asset identity, canonically equal entries. *)
Definition same_assets (l1 l2 : list json) : Prop :=
  forall k, keyed_equal (map_get strict_eqb k (resource_map l1))
                        (map_get strict_eqb k (resource_map l2)).

(** The first entry of a list of costumes or sounds under an asset
    identity. *)
Definition find_key (k : json) (l : list json) : option json :=
  find (fun r => strict_eqb (key_of r) k) l.

(** The entry that a list of costumes or sounds has under an asset
    identity: the last one of the list that has it. *)
Definition entry_under (k : json) (l : list json) : option json :=
  find (fun r => same_key (key_of r) k) (rev l).

(** Two lists of costumes or sounds that hold the same entries: the same
    asset identities, each as often in the one list as in the other, and
    under every identity canonically equal entries.  No entry of either list
    is without its match in the other; the order may differ. *)
Definition same_entries (l1 l2 : list json) : Prop :=
  Permutation (map key_of l1) (map key_of l2)
  /\ forall k, keyed_equal (find_key k l1) (find_key k l2).

(** An item that works on the costumes, or on the sounds, of the sprite
    named [targetName]. *)
Definition resourceType_eqb (a b : Replay.resourceType) : bool :=
  match a, b with
  | Replay.Costumes, Replay.Costumes | Replay.Sounds, Replay.Sounds => true
  | _, _ => false
  end.

Definition concerns (rt : Replay.resourceType) (targetName : string) (it : DiffItem)
    : bool :=
  String.eqb (Diff.targetName it) targetName
  && match Replay.resource_type (type it) with
     | Some r => resourceType_eqb r rt
     | None => false
     end.

(** The changes that a run of items makes to one list of resources. *)
Fixpoint apply_all (isReverse : bool) (items : list DiffItem) (l : list json)
    : outcome (list json) :=
  match items with
  | [] => Ret l
  | it :: rest =>
      l' <- Replay.apply_change
              (Replay.actualChangeType isReverse (Replay.change_type (type it)))
              (if isReverse then new it else old it)
              (if isReverse then old it else new it) l ;;
      apply_all isReverse rest l'
  end.

(** What the replay of [items] does to the costumes, or sounds, of one
    sprite: the other items pass it by. *)
Definition replay_list (isReverse : bool) (rt : Replay.resourceType)
    (targetName : string) (items : list DiffItem) (l : list json)
    : outcome (list json) :=
  apply_all isReverse (filter (concerns rt targetName) items) l.

(** The costume items, or the sound items, of the diff of two sprites whose
    resources all have identities. *)
Definition resource_diff (rt : Replay.resourceType) (oldT newT : Target)
    (targetName : string) : list DiffItem :=
  match rt with
  | Replay.Costumes =>
      diffResourceMaps costume_delete costume_add costume_edit
        (resource_map (costumes oldT)) (resource_map (costumes newT)) targetName
  | Replay.Sounds =>
      diffResourceMaps sound_delete sound_add sound_edit
        (resource_map (sounds oldT)) (resource_map (sounds newT)) targetName
  end.

(** An item that the replay can carry out on resources with identities:
    the payloads it reads are there and have identities. *)
Definition has_identity (v : option json) : Prop :=
  exists r, v = Some r /\ stable r = true.

Definition ok_item (it : DiffItem) : Prop :=
  match Replay.resource_type (type it) with
  | None => True
  | Some _ =>
      match Replay.change_type (type it) with
      | Replay.Add => has_identity (new it)
      | Replay.Delete => has_identity (old it)
      | Replay.Edit => has_identity (old it) /\ has_identity (new it)
      end
  end.

(** [targets[i] = t] for the first [i] whose target has the name. *)
Fixpoint update_first (targetName : string) (t' : Target) (p : Project) : Project :=
  match p with
  | [] => []
  | t :: rest =>
      if String.eqb (name t) targetName then t' :: rest
      else t :: update_first targetName t' rest
  end.

(** [resources[i] = v] for the first [i] whose entry has the identity [k]. *)
Fixpoint replace_key (k v : json) (l : list json) : list json :=
  match l with
  | [] => []
  | r :: t => if strict_eqb (key_of r) k then v :: t else r :: replace_key k v t
  end.

End Vocabulary.

(* ------------------------------------------------------------------ *)
(** * Invariants used in the proofs *)

Module Invariants.

Import Js Raw ScriptParser Diff Replay Vocabulary.

(** ** The line diff *)

(** No entry of [V] is a number. *)
Definition blank (V : TextDiff.NumMap TextDiff.jsnum) : Prop :=
  forall k z, TextDiff.mget V k <> TextDiff.Num z.

Definition not_a_number (x : TextDiff.jsnum) : Prop := forall z, x <> TextDiff.Num z.

(** ** Script matching *)

(** A pair of the first phase: the two fingerprints are the same. *)
Definition exact (m : Match) : Prop :=
  ScriptParser.fingerprint (oldScript m) = ScriptParser.fingerprint (newScript m).

(** A pair that passes the test of the second phase. *)
Definition close (m : Match) : Prop :=
  similar (text (oldScript m)) (text (newScript m)) = true.

Definition keyed (m : imap string ScriptText) : Prop :=
  forall k v, In (k, v) m -> ScriptParser.fingerprint v = k.

Definition outside (fps : list string) (sc : ScriptText) : bool :=
  negb (set_has (ScriptParser.fingerprint sc) fps).

(** ** Maps and lists of resources *)

(** A key that is equal to itself: any value but an array or an object. *)
Definition good (k : json) : Prop := strict_eqb k k = true.

(** A map whose keys are distinct and equal to themselves. *)
Definition tidy {V : Type} (m : imap json V) : Prop :=
  NoDup (map fst m) /\ Forall good (map fst m).

Definition stable_list (l : list json) : Prop := Forall (fun r => stable r = true) l.

(** An entry of a map of resources: a resource with an identity, under it. *)
Definition entry_ok (e : json * json) : Prop :=
  stable (snd e) = true /\ key_of (snd e) = fst e.

(** The identities that the run of delete items deletes. *)
Definition deleted (newMap entries : imap json json) (k : json) : bool :=
  existsb (fun e => strict_eqb (fst e) k && negb (map_has strict_eqb (fst e) newMap))
          entries.

(** ** Items *)

Definition about (targetName : string) (it : DiffItem) : Prop :=
  Diff.targetName it = targetName.

Definition no_resource (it : DiffItem) : Prop := resource_type (type it) = None.

(** What one item does to one list of a sprite it is applied to. *)
Definition step (rt : resourceType) (it : DiffItem) (l : list json)
    : outcome (list json) :=
  match resource_type (type it) with
  | Some r =>
      if resourceType_eqb r rt
      then apply_change (actualChangeType false (change_type (type it)))
             (old it) (new it) l
      else Ret l
  | None => Ret l
  end.

End Invariants.


(* ------------------------------------------------------------------ *)
(** * diff.ts: the summary and the structured changes *)

Module Summary.

Import Js Raw Diff.
Local Open Scope string_scope.

(** The text of a [DiffType]. *)
Definition type_name (t : DiffType) : string :=
  match t with
  | script_add => "script-add" | script_delete => "script-delete"
  | script_modify => "script-modify"
  | block_add => "block-add" | block_delete => "block-delete"
  | block_edit => "block-edit" | block_move => "block-move"
  | variable_add => "variable-add" | variable_delete => "variable-delete"
  | variable_edit => "variable-edit"
  | list_add => "list-add" | list_delete => "list-delete" | list_edit => "list-edit"
  | costume_add => "costume-add" | costume_delete => "costume-delete"
  | costume_edit => "costume-edit"
  | sound_add => "sound-add" | sound_delete => "sound-delete"
  | sound_edit => "sound-edit"
  end.

(** [s.split(sep)] for a separator of one code unit. *)
Fixpoint split_at (sep : ascii) (s : string) : string * list string :=
  match s with
  | EmptyString => (EmptyString, [])
  | String c s' =>
      let '(h, t) := split_at sep s' in
      if Ascii.eqb c sep then (EmptyString, h :: t) else (String c h, t)
  end.

Definition split (sep : ascii) (s : string) : list string :=
  let '(h, t) := split_at sep s in h :: t.

(** The fields of [DiffSummary]; the summary is the object that holds a
    number under each of them. *)
Inductive Counter : Type :=
| targetsAdded | targetsDeleted
| scriptsAdded | scriptsDeleted | scriptsModified
| blocksAdded | blocksDeleted | blocksModified
| variablesAdded | variablesDeleted | variablesModified
| listsAdded | listsDeleted | listsModified
| costumesAdded | costumesDeleted | costumesModified
| soundsAdded | soundsDeleted | soundsModified.

Definition Counter_eqb (a b : Counter) : bool :=
  match a, b with
  | targetsAdded, targetsAdded | targetsDeleted, targetsDeleted
  | scriptsAdded, scriptsAdded | scriptsDeleted, scriptsDeleted
  | scriptsModified, scriptsModified
  | blocksAdded, blocksAdded | blocksDeleted, blocksDeleted
  | blocksModified, blocksModified
  | variablesAdded, variablesAdded | variablesDeleted, variablesDeleted
  | variablesModified, variablesModified
  | listsAdded, listsAdded | listsDeleted, listsDeleted | listsModified, listsModified
  | costumesAdded, costumesAdded | costumesDeleted, costumesDeleted
  | costumesModified, costumesModified
  | soundsAdded, soundsAdded | soundsDeleted, soundsDeleted
  | soundsModified, soundsModified => true
  | _, _ => false
  end.

Definition DiffSummary : Type := Counter -> Z.

(** The object literal that [calculateSummary] starts from. *)
Definition zero : DiffSummary := fun _ => 0%Z.

(** [summary.field += n]; [summary.field++] is the case of 1. *)
Definition increase (field : Counter) (n : Z) (summary : DiffSummary) : DiffSummary :=
  fun c => if Counter_eqb c field then (summary c + n)%Z else summary c.

(** The [switch] of [calculateSummary]; [block-move] has no case. *)
Definition count_item (summary : DiffSummary) (it : DiffItem) : DiffSummary :=
  match type it with
  | script_add => increase scriptsAdded 1 summary
  | script_delete => increase scriptsDeleted 1 summary
  | script_modify =>
      let summary := increase scriptsModified 1 summary in
      match diff it with
      | Some (added, removed) =>
          increase blocksDeleted removed (increase blocksAdded added summary)
      | None => summary
      end
  | block_add => increase blocksAdded 1 summary
  | block_delete => increase blocksDeleted 1 summary
  | block_edit => increase blocksModified 1 summary
  | block_move => summary
  | variable_add => increase variablesAdded 1 summary
  | variable_delete => increase variablesDeleted 1 summary
  | variable_edit => increase variablesModified 1 summary
  | list_add => increase listsAdded 1 summary
  | list_delete => increase listsDeleted 1 summary
  | list_edit => increase listsModified 1 summary
  | costume_add => increase costumesAdded 1 summary
  | costume_delete => increase costumesDeleted 1 summary
  | costume_edit => increase costumesModified 1 summary
  | sound_add => increase soundsAdded 1 summary
  | sound_delete => increase soundsDeleted 1 summary
  | sound_edit => increase soundsModified 1 summary
  end.

Definition calculateSummary (items : list DiffItem) : DiffSummary :=
  fold_left count_item items zero.

(** [AssetChange]. *)
Record AssetChange : Type :=
  { a_type : option string;
    a_name : json;
    a_path : json;
    a_targetName : string;
    assetType : string }.

(** [EnhancedDiffResult['changes']]; nothing is ever pushed on [targets]. *)
Record Changes : Type :=
  { c_targets : list AssetChange;
    c_scripts : list DiffItem;
    c_variables : list DiffItem;
    c_lists : list DiffItem;
    c_assets : list AssetChange }.

(** [v?.key]. *)
Definition opt_prop (v : option json) (key : string) : option json :=
  match v with
  | Some (JObj props) => lookup key props
  | _ => None
  end.

(** [item.new?.key || item.old?.key || 'unknown']. *)
Definition described (it : DiffItem) (key : string) : json :=
  match or_else (or_else (opt_prop (new it) key) (opt_prop (old it) key))
                (Some (JStr "unknown")) with
  | Some v => v
  | None => JStr "unknown"
  end.

Definition asset_change (it : DiffItem) (kind : string) : AssetChange :=
  {| a_type := nth_error (split "-"%char (type_name (type it))) 1;
     a_name := described it "name";
     a_path := described it "md5ext";
     a_targetName := targetName it;
     assetType := kind |}.

(** The [switch] of [structureChanges]. *)
Definition structure_item (changes : Changes) (it : DiffItem) : Changes :=
  match type it with
  | script_add | script_delete | script_modify
  | block_add | block_delete | block_edit | block_move =>
      {| c_targets := c_targets changes; c_scripts := c_scripts changes ++ [it];
         c_variables := c_variables changes; c_lists := c_lists changes;
         c_assets := c_assets changes |}
  | variable_add | variable_delete | variable_edit =>
      {| c_targets := c_targets changes; c_scripts := c_scripts changes;
         c_variables := c_variables changes ++ [it]; c_lists := c_lists changes;
         c_assets := c_assets changes |}
  | list_add | list_delete | list_edit =>
      {| c_targets := c_targets changes; c_scripts := c_scripts changes;
         c_variables := c_variables changes; c_lists := c_lists changes ++ [it];
         c_assets := c_assets changes |}
  | costume_add | costume_delete | costume_edit =>
      {| c_targets := c_targets changes; c_scripts := c_scripts changes;
         c_variables := c_variables changes; c_lists := c_lists changes;
         c_assets := c_assets changes ++ [asset_change it "costume"] |}
  | sound_add | sound_delete | sound_edit =>
      {| c_targets := c_targets changes; c_scripts := c_scripts changes;
         c_variables := c_variables changes; c_lists := c_lists changes;
         c_assets := c_assets changes ++ [asset_change it "sound"] |}
  end.

Definition structureChanges (items : list DiffItem) : Changes :=
  fold_left structure_item items
    {| c_targets := []; c_scripts := []; c_variables := []; c_lists := [];
       c_assets := [] |}.

End Summary.

(* ------------------------------------------------------------------ *)
(** * scratchblocks.ts: the preview of blocks and of diff items *)

Module Preview.

Import Js Raw Diff.
Local Open Scope string_scope.

(** [v.key] on a value that may be [undefined]. *)
Definition prop_of (v : option json) (key : string) : outcome (option json) :=
  match v with
  | None => Throw TypeError
  | Some x => get_prop x key
  end.

(** [v?.[0]]. *)
Definition first_of (v : option json) : option json :=
  match v with
  | Some (JArr l) => nth_error l 0
  | Some (JStr s) => nth_error (IR.chars s) 0
  | Some (JObj props) => lookup "0" props
  | _ => None
  end.

(** The text that a template literal makes of a value. *)
Definition template (v : option json) : string :=
  match v with
  | None => "undefined"
  | Some x => to_String x
  end.

(** [v || text]. *)
Definition or_text (v : option json) (text : string) : option json :=
  or_else v (Some (JStr text)).

(** [getInputValue]. *)
Definition getInputValue (input : option json) : outcome (option json) :=
  if negb (is_truthy input) then Ret (Some (JStr ""))
  else
    d <- IR.destructure (or_null input) ;;
    match snd d with
    | Some (JArr inputData) => Ret (or_text (nth_error inputData 1) "")
    | inputData => Ret (or_text inputData "")
    end.

(** [convertSingleBlock]. *)
Definition convertSingleBlock (block : option json) : outcome string :=
  opcode <- prop_of block "opcode" ;;
  inputs <- prop_of block "inputs" ;;
  fields <- prop_of block "fields" ;;
  match opcode with
  | Some (JStr "event_whenflagclicked") => Ret "when flag clicked"
  | Some (JStr "event_whenkeypressed") =>
      option <- prop_of fields "KEY_OPTION" ;;
      let key := or_text (first_of option) "space" in
      Ret ("when [" ++ template key ++ " v] key pressed")
  | Some (JStr "looks_say") =>
      i <- prop_of inputs "MESSAGE" ;;
      message <- getInputValue i ;;
      Ret ("say [" ++ template message ++ "]")
  | Some (JStr "looks_thinkforsecs") =>
      i <- prop_of inputs "MESSAGE" ;;
      thinkMessage <- getInputValue i ;;
      j <- prop_of inputs "SECS" ;;
      thinkSecs <- getInputValue j ;;
      Ret ("think [" ++ template thinkMessage ++ "] for (" ++ template thinkSecs
           ++ ") seconds")
  | Some (JStr "motion_movesteps") =>
      i <- prop_of inputs "STEPS" ;;
      steps <- getInputValue i ;;
      Ret ("move (" ++ template steps ++ ") steps")
  | Some (JStr "control_wait") =>
      i <- prop_of inputs "DURATION" ;;
      duration <- getInputValue i ;;
      Ret ("wait (" ++ template duration ++ ") seconds")
  | _ => Ret ("[" ++ template opcode ++ "]")
  end.

(** [convertBlock]; one unit of [fuel] pays for one block of the chain. *)
Fixpoint convertBlock (fuel : nat) (block : option json) : outcome string :=
  match fuel with
  | O => OutOfFuel
  | S fuel' =>
      result <- convertSingleBlock block ;;
      next <- prop_of block "next" ;;
      if is_truthy next
      then rest <- convertBlock fuel' next ;; Ret (result ++ ScriptParser.nl ++ rest)
      else Ret result
  end.

(** The chain of [next] is nested in the value: its size bounds the
    recursion. *)
Definition convertToScratchBlocks (block : option json) : outcome string :=
  convertBlock (IR.json_size (or_null block)) block.

Definition fence : string := "```".

(** [formatScriptForPreview]. *)
Definition formatScriptForPreview (scriptBlock : option json) : outcome string :=
  blocks <- convertToScratchBlocks scriptBlock ;;
  Ret (fence ++ "scratch" ++ ScriptParser.nl ++ blocks ++ ScriptParser.nl ++ fence).




Section Symbols.
(** The four pictograms of the texts: the clipboard of the header, and the
    marks of an addition, a deletion and an edit. *)
Variables clipboard plus minus pencil : string.








End Symbols.

End Preview.

(* ------------------------------------------------------------------ *)
(** * text-diff.ts: the rendering of a line diff *)

Module TextFormat.

Import Js TextDiff.
Local Open Scope string_scope.

Definition nl : string := String (ascii_of_nat 10) "".

(** The state of [formatDiff]: the output, as the pieces appended to it so
    far, the two line counters and the pending group. *)
Record State : Type :=
  { output : list string;
    lineNumOld : Z;
    lineNumNew : Z;
    group : list change }.

(** [${change.line}]. *)
Definition line_text (c : change) : string :=
  match line c with Some s => s | None => "undefined" end.

(** The body of the loop that writes the lines of a group. *)
Definition write_change (st : State) (c : change) : State :=
  match type c with
  | add =>
      {| output := output st ++ ["+" ++ line_text c ++ nl];
         lineNumOld := lineNumOld st; lineNumNew := (lineNumNew st + 1)%Z;
         group := group st |}
  | remove =>
      {| output := output st ++ ["-" ++ line_text c ++ nl];
         lineNumOld := (lineNumOld st + 1)%Z; lineNumNew := lineNumNew st;
         group := group st |}
  | keep =>
      {| output := output st ++ [" " ++ line_text c ++ nl];
         lineNumOld := (lineNumOld st + 1)%Z; lineNumNew := (lineNumNew st + 1)%Z;
         group := group st |}
  end.

(** [flushGroup]. *)
Definition flushGroup (st : State) : State :=
  match group st with
  | [] => st
  | _ =>
      let hasChanges := existsb (fun c => negb (is_keep c)) (group st) in
      if negb hasChanges
      then {| output := output st; lineNumOld := lineNumOld st;
              lineNumNew := lineNumNew st; group := [] |}
      else
        let oldCount := count_changes (fun c => negb (is_add c)) (group st) in
        let newCount := count_changes (fun c => negb (is_remove c)) (group st) in
        let header :=
          "@@ -" ++ number_to_string (lineNumOld st) ++ "," ++ number_to_string oldCount
          ++ " +" ++ number_to_string (lineNumNew st) ++ "," ++ number_to_string newCount
          ++ " @@" ++ nl in
        let st1 :=
          fold_left write_change (group st)
            {| output := output st ++ [header]; lineNumOld := lineNumOld st;
               lineNumNew := lineNumNew st; group := group st |} in
        {| output := output st1; lineNumOld := lineNumOld st1;
           lineNumNew := lineNumNew st1; group := [] |}
  end.

(** The body of [for (const change of result.changes)]. *)
Definition push_change (st : State) (c : change) : State :=
  let st1 :=
    {| output := output st; lineNumOld := lineNumOld st; lineNumNew := lineNumNew st;
       group := group st ++ [c] |} in
  if is_keep c && (1 <? List.length (group st1))%nat then flushGroup st1 else st1.

(** The three lines that every output starts with. *)
Definition preamble (oldName newName : string) : list string :=
  ["diff --git " ++ oldName ++ " " ++ newName ++ nl;
   "--- " ++ oldName ++ nl;
   "+++ " ++ newName ++ nl].

(** [formatDiff], as the list of the pieces it appends. *)
Definition formatDiff_pieces (result : TextDiffResult) (oldName newName : string)
    : list string :=
  output (flushGroup
            (fold_left push_change (changes result)
               {| output := preamble oldName newName;
                  lineNumOld := 1; lineNumNew := 1; group := [] |})).

Definition formatDiff (result : TextDiffResult) (oldName newName : string) : string :=
  String.concat "" (formatDiff_pieces result oldName newName).

End TextFormat.

(* ------------------------------------------------------------------ *)
(** * matcher.ts: ScriptMatcher *)

Module Matcher.

Import Js IR.
Local Open Scope string_scope.

(** An element of a script array.  [indexOf] looks for an object, not for
    its contents: the element carries, beside the [ScriptIR] it holds, the
    place at which [buildIR] pushed it on the array of its target, which
    tells it from every other object of that array. *)
Record Ref : Type := { address : nat; content : ScriptIR }.

Definition same_ref (a b : Ref) : bool := (address a =? address b)%nat.

(** The elements of [target.scripts]. *)
Definition refs (scripts : list ScriptIR) : list Ref :=
  map (fun p => {| address := fst p; content := snd p |})
      (combine (seq 0 (List.length scripts)) scripts).

(** [l.indexOf(x)]; [None] is [-1]. *)
Fixpoint indexOf (x : Ref) (l : list Ref) : option nat :=
  match l with
  | [] => None
  | y :: t => if same_ref y x then Some O else option_map S (indexOf x t)
  end.

(** [l.splice(i, 1)] for the result [i] of [indexOf]: a negative start
    counts from the end, so that [-1] removes the last element. *)
Definition splice_one (i : option nat) (l : list Ref) : list Ref :=
  match i with
  | Some n => (firstn n l ++ skipn (S n) l)%list
  | None => removelast l
  end.

Record ScriptMatchResult : Type :=
  { matchedScripts : list (Ref * Ref);
    deletedScripts : list Ref;
    addedScripts : list Ref }.

Definition by_fingerprint (scripts : list Ref) : Diff.imap string Ref :=
  Diff.map_of String.eqb (map (fun sc => (s_fingerprint (content sc), sc)) scripts).

(** The loop over [oldScriptMap.keys()]. *)
Fixpoint match_loop (oldEntries : list (string * Ref))
    (newScriptMap : Diff.imap string Ref) (acc : ScriptMatchResult)
    : ScriptMatchResult :=
  match oldEntries with
  | [] => acc
  | (fingerprint, oldScript) :: rest =>
      match Diff.map_get String.eqb fingerprint newScriptMap with
      | Some newScript =>
          match_loop rest newScriptMap
            {| matchedScripts := matchedScripts acc ++ [(oldScript, newScript)];
               deletedScripts :=
                 splice_one (indexOf oldScript (deletedScripts acc)) (deletedScripts acc);
               addedScripts :=
                 splice_one (indexOf newScript (addedScripts acc)) (addedScripts acc) |}
      | None => match_loop rest newScriptMap acc
      end
  end.

(** [ScriptMatcher.matchScripts]. *)
Definition matchScripts (oldScripts newScripts : list Ref) : ScriptMatchResult :=
  match_loop (by_fingerprint oldScripts) (by_fingerprint newScripts)
    {| matchedScripts := [];
       deletedScripts := oldScripts;
       addedScripts := newScripts |}.

Definition targets_by_name (ir : list (Parsed ScriptIR))
    : Diff.imap string (Parsed ScriptIR) :=
  Diff.map_of String.eqb (map (fun target => (p_name target, target)) ir).

(** [target?.scripts || []]. *)
Definition scripts_or_none (target : option (Parsed ScriptIR)) : list Ref :=
  match target with
  | Some t => refs (p_scripts t)
  | None => []
  end.

(** [ScriptMatcher.matchProjects]. *)
Definition matchProjects (oldIR newIR : list (Parsed ScriptIR))
    : list (string * ScriptMatchResult) :=
  let oldTargetsMap := targets_by_name oldIR in
  let newTargetsMap := targets_by_name newIR in
  let allTargetNames := Diff.set_of (keys oldTargetsMap ++ keys newTargetsMap) in
  map (fun targetName =>
         (targetName,
          matchScripts
            (scripts_or_none (Diff.map_get String.eqb targetName oldTargetsMap))
            (scripts_or_none (Diff.map_get String.eqb targetName newTargetsMap))))
      allTargetNames.

End Matcher.


(* ------------------------------------------------------------------ *)
(** * Runs of the program on the samples *)

Module Runs.

Import Js Raw Samples.
Local Open Scope string_scope.

Definition returned {A : Type} (o : outcome (list A)) : list A :=
  match o with Ret l => l | _ => [] end.

(** A project of one sprite with one script. *)
Definition flag_project : Project := [sprite "Sprite1" one_flag].

(** The items for a sprite that only the new project has. *)
Definition flag_items : list Diff.DiffItem :=
  Eval vm_compute in returned (Diff.generateDiff draws 5 [] flag_project).

(** The costume of identity [x] renamed from [a] to [b]. *)
Definition rename_items : list Diff.DiffItem :=
  [Diff.item Diff.costume_edit "Sprite1" (Some (costume "x" "a")) (Some (costume "x" "b"))
     (JStr "x")].

Definition flag_parsed : list (IR.Parsed IR.Script) :=
  Eval vm_compute in returned (IR.parse 2 flag_project).

Definition flag_normalized : list (IR.Parsed IR.Script) :=
  Eval vm_compute in returned (IR.normalize flag_parsed).

Definition flag_ir : list (IR.Parsed IR.ScriptIR) :=
  Eval vm_compute in returned (IR.load 2 flag_project).

Definition two_flags_rendered : list ScriptParser.ScriptText :=
  Eval vm_compute in
    returned (ScriptParser.parseSpriteScripts 5 two_flags ["a"; "b"]).

End Runs.


(* ------------------------------------------------------------------ *)
(** * Further vocabulary *)

Module Notions.

Import Js Raw ScriptParser Diff Replay Vocabulary.

(** Two targets that differ in their costumes and sounds at most. *)
Definition same_but_assets (t t' : Target) : Prop :=
  name t' = name t /\ variables t' = variables t /\ lists t' = lists t
  /\ blocks t' = blocks t /\ others t' = others t.

(** The blocks that a block refers to: the next one, and the heads of the
    nested scripts that the renderer goes into. *)
Definition refers (b : RawBlock) (c : string) : Prop :=
  next b = Some c
  \/ slot_ref (inputs b) "CONDITION" = Some c
  \/ slot_ref (inputs b) "SUBSTACK" = Some c
  \/ slot_ref (inputs b) "SUBSTACK2" = Some c.

(** A block map that is a forest: every reference leads to a block of the
    map, and a rank goes down along every reference. *)
Definition forest (rank : string -> nat) (blocks : BlockMap) : Prop :=
  forall id b c,
    lookup id blocks = Some b -> refers b c -> c <> EmptyString ->
    lookup c blocks <> None /\ rank c < rank id.

(** A chain of [next] that leads, through [n] blocks without nested
    scripts, to an id that is the key of no block: either the block map has
    nothing under it, and the renderer will read a property of [undefined],
    or it is a name under which every object has a function, which cannot
    be copied through JSON. *)
Inductive leads_nowhere (blocks : BlockMap) : option string -> nat -> string -> Prop :=
| nowhere_here cur id :
    live cur = Some id -> at_id blocks id = None ->
    leads_nowhere blocks cur 0 TypeError
| nowhere_method cur id :
    live cur = Some id -> at_id blocks id = Some a_method ->
    leads_nowhere blocks cur 0 SyntaxError
| nowhere_next cur id b n e :
    live cur = Some id -> lookup id blocks = Some b ->
    slot_ref (inputs b) "CONDITION" = None ->
    slot_ref (inputs b) "SUBSTACK" = None ->
    slot_ref (inputs b) "SUBSTACK2" = None ->
    leads_nowhere blocks (next b) n e -> leads_nowhere blocks cur (S n) e.

(** The sum of the numbers of a summary. *)
Definition counters : list Summary.Counter :=
  [Summary.targetsAdded; Summary.targetsDeleted;
   Summary.scriptsAdded; Summary.scriptsDeleted; Summary.scriptsModified;
   Summary.blocksAdded; Summary.blocksDeleted; Summary.blocksModified;
   Summary.variablesAdded; Summary.variablesDeleted; Summary.variablesModified;
   Summary.listsAdded; Summary.listsDeleted; Summary.listsModified;
   Summary.costumesAdded; Summary.costumesDeleted; Summary.costumesModified;
   Summary.soundsAdded; Summary.soundsDeleted; Summary.soundsModified].

Definition total (summary : Summary.DiffSummary) : Z :=
  fold_right Z.add 0%Z (map summary counters).

(** The field that counts the items of a type, one by one. *)
Definition counted_as (t : DiffType) : option Summary.Counter :=
  match t with
  | script_add => Some Summary.scriptsAdded
  | script_delete => Some Summary.scriptsDeleted
  | script_modify => Some Summary.scriptsModified
  | block_add => Some Summary.blocksAdded
  | block_delete => Some Summary.blocksDeleted
  | block_edit => Some Summary.blocksModified
  | block_move => None
  | variable_add => Some Summary.variablesAdded
  | variable_delete => Some Summary.variablesDeleted
  | variable_edit => Some Summary.variablesModified
  | list_add => Some Summary.listsAdded
  | list_delete => Some Summary.listsDeleted
  | list_edit => Some Summary.listsModified
  | costume_add => Some Summary.costumesAdded
  | costume_delete => Some Summary.costumesDeleted
  | costume_edit => Some Summary.costumesModified
  | sound_add => Some Summary.soundsAdded
  | sound_delete => Some Summary.soundsDeleted
  | sound_edit => Some Summary.soundsModified
  end.

(** An item that adds nothing but itself to the summary: it is not a
    [block-move], which is not counted, and not a [script-modify] with line
    counts, which are added to the numbers of blocks. *)
Definition counted_once (it : DiffItem) : Prop :=
  match type it with
  | block_move => False
  | script_modify => diff it = None
  | _ => True
  end.

(** The kind of list that [structureChanges] files an item under. *)
Inductive Category : Type := Scripts | Variables | Lists | Assets.

Definition category (t : DiffType) : Category :=
  match t with
  | script_add | script_delete | script_modify
  | block_add | block_delete | block_edit | block_move => Scripts
  | variable_add | variable_delete | variable_edit => Variables
  | list_add | list_delete | list_edit => Lists
  | _ => Assets
  end.

Definition Category_eqb (a b : Category) : bool :=
  match a, b with
  | Scripts, Scripts | Variables, Variables | Lists, Lists | Assets, Assets => true
  | _, _ => false
  end.

Definition filed_under (c : Category) (it : DiffItem) : bool :=
  Category_eqb (category (type it)) c.

(** The piece that [formatDiff] writes for a change, and the pieces that
    begin with the mark of an added or of a removed line. *)
Definition edit_piece (c : TextDiff.change) : string :=
  ((match TextDiff.type c with
    | TextDiff.add => "+"
    | TextDiff.remove => "-"
    | TextDiff.keep => " "
    end) ++ TextFormat.line_text c ++ TextFormat.nl)%string.

Definition edit_mark (piece : string) : bool :=
  match piece with
  | String c _ => Ascii.eqb c "+" || Ascii.eqb c "-"
  | EmptyString => false
  end.

Definition is_edit (c : TextDiff.change) : bool := negb (TextDiff.is_keep c).

(** A value that has, at some depth, a property under one of the names that
    [cleanBlock] skips. *)
Fixpoint has_ui_key (v : json) : bool :=
  match v with
  | JArr l => existsb has_ui_key l
  | JObj props => existsb (fun kv => IR.ui_key (fst kv) || has_ui_key (snd kv)) props
  | _ => false
  end.


(** The item of the opposite direction: an addition for a deletion and a
    deletion for an addition, with the old and the new value exchanged. *)
Definition opposite (t : Diff.DiffType) : Diff.DiffType :=
  match t with
  | Diff.script_add => Diff.script_delete
  | Diff.script_delete => Diff.script_add
  | Diff.block_add => Diff.block_delete
  | Diff.block_delete => Diff.block_add
  | Diff.variable_add => Diff.variable_delete
  | Diff.variable_delete => Diff.variable_add
  | Diff.list_add => Diff.list_delete
  | Diff.list_delete => Diff.list_add
  | Diff.costume_add => Diff.costume_delete
  | Diff.costume_delete => Diff.costume_add
  | Diff.sound_add => Diff.sound_delete
  | Diff.sound_delete => Diff.sound_add
  | other => other
  end.

Definition mirror (it : Diff.DiffItem) : Diff.DiffItem :=
  {| Diff.type := opposite (Diff.type it);
     Diff.targetName := Diff.targetName it;
     Diff.old := Diff.new it;
     Diff.new := Diff.old it;
     Diff.fingerprint := Diff.fingerprint it;
     Diff.diff := Diff.diff it |}.


(** The digits of a lower-case hexadecimal numeral. *)
Definition hex_char (c : ascii) : bool :=
  existsb (Ascii.eqb c) (list_ascii_of_string "0123456789abcdef").

Definition hex_text (s : string) : Prop :=
  Forall (fun c => hex_char c = true) (list_ascii_of_string s).


End Notions.

(* ================================================================== *)
(** * Properties *)

(* ------------------------------------------------------------------ *)
(** ** The line diff *)

Module TextDiffFacts.

Import TextDiff Invariants.
Local Open Scope Z_scope.

Lemma blank_mset V k x :
  blank V -> not_a_number x -> blank (mset V k x).
Proof.
  intros HV Hx k' z. unfold mget, mset.
  destruct (k' =? k); [apply Hx | apply HV].
Qed.

Lemma slide_not_a_number a b N M x y :
  not_a_number x -> slide a b N M x y = (x, y).
Proof.
  intros Hx. destruct x as [z | |]; [destruct (Hx z eq_refl) | reflexivity ..].
Qed.

Lemma js_ge_not_a_number x n : not_a_number x -> js_ge x n = false.
Proof.
  intros Hx. destruct x as [z | |]; [destruct (Hx z eq_refl) | reflexivity ..].
Qed.

Lemma js_add_not_a_number x y : not_a_number x -> not_a_number (js_add x y).
Proof.
  intros Hx z. destruct x as [z' | |]; [destruct (Hx z' eq_refl) | discriminate ..].
Qed.

(** A turn whose [x] is read from a blank [V] stores it and goes on. *)
Lemma k_body_stuck a b N M MAX d k V trace x :
  not_a_number x ->
  (if (k =? - d) || (negb (k =? d) && js_lt (mget V (k - 1)) (mget V (k + 1)))
   then mget V (k + 1) else js_add (mget V (k - 1)) (Num 1)) = x ->
  exists trace', k_body a b N M MAX d k V trace = Go (mset V k x) trace'.
Proof.
  intros Hx Hsel. unfold k_body. rewrite Hsel.
  rewrite (slide_not_a_number a b N M (js_sub x (Num k)) Hx).
  rewrite (js_ge_not_a_number (Num N) Hx). cbn [andb].
  eexists. reflexivity.
Qed.

Lemma k_body_blank a b N M MAX d k V trace :
  blank V ->
  exists V' trace', k_body a b N M MAX d k V trace = Go V' trace' /\ blank V'.
Proof.
  intros HV.
  set (x := if (k =? - d) || (negb (k =? d) && js_lt (mget V (k - 1)) (mget V (k + 1)))
            then mget V (k + 1) else js_add (mget V (k - 1)) (Num 1)).
  assert (Hx : not_a_number x).
  { unfold x. destruct ((k =? - d) || _).
    - intros z. apply HV.
    - apply js_add_not_a_number. intros z. apply HV. }
  destruct (k_body_stuck a b N M MAX d k V trace Hx eq_refl) as [trace' E].
  exists (mset V k x), trace'. split; [exact E | now apply blank_mset].
Qed.

Lemma k_loop_blank turns : forall a b N M MAX d k V trace,
  blank V ->
  exists V' trace', k_loop turns a b N M MAX d k V trace = Go V' trace' /\ blank V'.
Proof.
  induction turns as [| turns IH]; intros a b N M MAX d k V trace HV; cbn [k_loop].
  - now exists V, trace.
  - destruct (k_body_blank a b N M MAX d k trace HV) as (V1 & t1 & E & HV1).
    rewrite E. now apply IH.
Qed.

Lemma d_loop_blank rounds : forall a b N M MAX d V trace,
  blank V -> d_loop rounds a b N M MAX d V trace = Ret [].
Proof.
  induction rounds as [| rounds IH]; intros a b N M MAX d V trace HV; cbn [d_loop].
  - reflexivity.
  - destruct (k_loop_blank (Z.to_nat (d + 1)) a b N M MAX d (- d) trace HV)
      as (V1 & t1 & E & HV1).
    rewrite E. now apply IH.
Qed.

(** The first round reads [V.get(1)], which was never set: [V] was started
    with [V.set(0, 0)].  The round overwrites the only number in [V]. *)
Lemma first_round a b N M MAX :
  exists V' trace',
    k_loop 1 a b N M MAX 0 0 (mset mempty 0 (Num 0)) mempty = Go V' trace'
    /\ blank V'.
Proof.
  cbn [k_loop].
  destruct (@k_body_stuck a b N M MAX 0 0 (mset mempty 0 (Num 0)) mempty Undef)
    as [trace' E].
  - intros z; discriminate.
  - reflexivity.
  - rewrite E. eexists _, _. split; [reflexivity |].
    intros k z. unfold mget, mset, mempty.
    destruct (k =? 0); [| destruct (k =? 0)]; discriminate.
Qed.

(** [myersDiff] never finds the end of the edit graph: on every input it
    runs through all rounds and takes the fallback [return []]. *)
Lemma myersDiff_empty a b : myersDiff a b = Ret [].
Proof.
  unfold myersDiff.
  set (N := Z.of_nat (List.length a)). set (M := Z.of_nat (List.length b)).
  assert (H : Z.to_nat (N + M + 1) = S (Z.to_nat (N + M))) by (unfold N, M; lia).
  rewrite H. cbn [d_loop].
  change (Z.to_nat (0 + 1)) with 1%nat. change (- 0) with 0.
  destruct (first_round a b N M (N + M)) as (V' & t' & E & HV).
  rewrite E. now apply d_loop_blank.
Qed.

Lemma diffText_zero oldText newText :
  diffText oldText newText = Ret {| added := 0; removed := 0; changes := [] |}.
Proof.
  unfold diffText. rewrite myersDiff_empty. reflexivity.
Qed.

End TextDiffFacts.

(* ------------------------------------------------------------------ *)
(** ** Evaluations *)

Module Evaluations.

Import Js Raw ScriptParser Diff Rename Samples.
Local Open Scope string_scope.

(** C4 (the code breaks it).  The claim: for all line sequences A and B the
    line diff satisfies [added + kept = len B] and [removed + kept = len A].
    On the one-line texts [a] and [a] the line diff returns no operation at
    all, so that [added + kept] and [removed + kept] are 0 while both texts
    have one line. *)
Theorem line_diff_loses_every_line :
  TextDiff.split_lines "a" = ["a"]
  /\ TextDiff.myersDiff ["a"] ["a"] = Ret []
  /\ TextDiff.diffText "a" "a"
     = Ret {| TextDiff.added := 0; TextDiff.removed := 0; TextDiff.changes := [] |}
  /\ (0 + TextDiff.count_changes TextDiff.is_keep [] <> Z.of_nat (List.length ["a"]))%Z.
Proof.
  split; [reflexivity |].
  split; [apply TextDiffFacts.myersDiff_empty |].
  split; [apply TextDiffFacts.diffText_zero |].
  vm_compute. discriminate.
Qed.

(** C2 (the code breaks it).  The claim: rebuilding a block tree under other
    ids leaves the fingerprint of the tree and of its script unchanged.  For
    the script [if <mouse down?> then], the fingerprint that
    [FingerprintGenerator] gives the tree changes when the ids [a], [b]
    become [x], [y], because the input [CONDITION] carries the id of the
    nested block into the hashed text; the fingerprint of the rendered
    script, where ids are rewritten first, stays. *)
Theorem block_fingerprint_follows_ids :
  IR.fingerprints 5 [sprite "S" if_mouse] = Ret [["28ca5379"]]
  /\ IR.fingerprints 5 [sprite "S" (rename_blocks other_ids if_mouse)] = Ret [["281d222"]]
  /\ (r1 <- scripts_of 5 (sprite "S" if_mouse) ;; Ret (map ScriptParser.fingerprint r1))
     = Ret ["06eb75b9"]
  /\ (r2 <- scripts_of 5 (sprite "S" (rename_blocks other_ids if_mouse)) ;;
      Ret (map ScriptParser.fingerprint r2))
     = Ret ["06eb75b9"].
Proof. repeat split; vm_compute; reflexivity. Qed.

(** C7 (the code breaks it).  The claim: the match result is a partition of
    the old and of the new scripts, also when scripts share a fingerprint.
    A sprite with two scripts of one fingerprint, against a sprite that has
    one of them: the old script with top-level id [a] is in no matched pair
    and is not among the unmatched old scripts, and the diff of the two
    sprites is empty. *)
Theorem twin_script_vanishes :
  exists s1 s2 t,
    scripts_of 5 (sprite "S" two_flags) = Ret [s1; s2]
    /\ scripts_of 5 (sprite "S" one_flag) = Ret [t]
    /\ topId s1 = "a" /\ topId s2 = "b"
    /\ ScriptParser.fingerprint s1 = ScriptParser.fingerprint s2
    /\ matchScripts [s1; s2] [t]
       = {| matchedScripts := [ {| oldScript := s2; newScript := t |} ];
            unmatchedOldScripts := [];
            unmatchedNewScripts := [] |}
    /\ generateDiff draws 5 [sprite "S" two_flags] [sprite "S" one_flag] = Ret [].
Proof.
  eexists _, _, _.
  split; [vm_compute; reflexivity |].
  split; [vm_compute; reflexivity |].
  repeat split; vm_compute; reflexivity.
Qed.

End Evaluations.

(* ------------------------------------------------------------------ *)
(** ** Maps and sets in insertion order *)

Module MapFacts.

Import Js Diff.

Section StringKeys.
Variable V : Type.
Implicit Types (m : imap string V) (k : string) (v : V).

Lemma keys_map_set k v m :
  map fst (map_set String.eqb k v m)
  = if in_dec string_dec k (map fst m) then map fst m else (map fst m ++ [k])%list.
Proof.
  induction m as [| [k' v'] m IH]; cbn [map_set map fst].
  - destruct (in_dec string_dec k []) as [[] | _]. reflexivity.
  - destruct (String.eqb_spec k' k) as [-> | Hne]; cbn [map fst].
    + destruct (in_dec string_dec k (k :: map fst m)) as [_ | n]; [reflexivity |].
      destruct n. now left.
    + rewrite IH.
      destruct (in_dec string_dec k (map fst m)) as [i | n];
        destruct (in_dec string_dec k (k' :: map fst m)) as [i' | n']; try reflexivity.
      * destruct n'. now right.
      * destruct i' as [E | i']; [congruence | contradiction].
Qed.

Lemma map_get_In k v m :
  map_get String.eqb k m = Some v -> In (k, v) m.
Proof.
  induction m as [| [k' v'] m IH]; cbn [map_get]; [discriminate |].
  destruct (String.eqb_spec k' k) as [-> | Hne].
  - intros [= ->]. now left.
  - intros H. right. now apply IH.
Qed.

Lemma map_get_None k m :
  map_get String.eqb k m = None <-> ~ In k (map fst m).
Proof.
  induction m as [| [k' v'] m IH]; cbn [map_get map fst].
  - split; [intros _ [] | reflexivity].
  - destruct (String.eqb_spec k' k) as [-> | Hne].
    + split; [discriminate | intros H; destruct H; now left].
    + rewrite IH. split.
      * intros H [E | i]; [congruence | contradiction].
      * intros H i. apply H. now right.
Qed.

Lemma In_map_set e k v m :
  In e (map_set String.eqb k v m) -> e = (k, v) \/ In e m.
Proof.
  induction m as [| [k' v'] m IH]; cbn [map_set].
  - intros [<- | []]. now left.
  - destruct (String.eqb_spec k' k) as [-> | Hne].
    + intros [<- | i]; [now left | right; now right].
    + intros [<- | i]; [right; now left |].
      destruct (IH i) as [-> | i']; [now left | right; now right].
Qed.

Lemma In_map_delete e k m :
  In e (map_delete String.eqb k m) -> In e m.
Proof.
  induction m as [| [k' v'] m IH]; cbn [map_delete]; [intros [] |].
  destruct (String.eqb k' k).
  - intros i. now right.
  - intros [<- | i]; [now left | right; now apply IH].
Qed.

Lemma map_get_delete_other k k' m :
  k <> k' ->
  map_get String.eqb k (map_delete String.eqb k' m) = map_get String.eqb k m.
Proof.
  intros Hne. induction m as [| [k0 v0] m IH]; cbn [map_delete map_get]; [reflexivity |].
  destruct (String.eqb_spec k0 k') as [-> | H0].
  - destruct (String.eqb_spec k' k) as [-> | _]; [congruence | reflexivity].
  - cbn [map_get]. now rewrite IH.
Qed.

(** The keys of [new Map(entries)]: the first occurrences, in order. *)
Lemma fold_map_set_keys (entries : list (string * V)) : forall m,
  NoDup (map fst m) ->
  NoDup (map fst (fold_left (fun m e => map_set String.eqb (fst e) (snd e) m) entries m))
  /\ (forall k,
        In k (map fst (fold_left (fun m e => map_set String.eqb (fst e) (snd e) m) entries m))
        <-> In k (map fst m) \/ In k (map fst entries)).
Proof.
  induction entries as [| [k v] entries IH]; intros m Hm; cbn [fold_left map fst snd].
  - split; [exact Hm | intros k; cbn [In]; tauto].
  - assert (Hk := keys_map_set k v m).
    destruct (in_dec string_dec k (map fst m)) as [i | n].
    + destruct (IH (map_set String.eqb k v m)) as [Hnd Hin].
      { now rewrite Hk. }
      split; [exact Hnd |].
      intros k0. rewrite Hin, Hk. cbn [In]. split; [tauto |].
      intros [H | [<- | H]]; tauto.
    + destruct (IH (map_set String.eqb k v m)) as [Hnd Hin].
      { rewrite Hk. apply NoDup_app; [exact Hm | repeat constructor; intros [] |].
        intros x Hx [<- | []]. contradiction. }
      split; [exact Hnd |].
      intros k0. rewrite Hin, Hk, in_app_iff. cbn [In]. tauto.
Qed.

Lemma map_of_keys (entries : list (string * V)) :
  NoDup (map fst (map_of String.eqb entries))
  /\ (forall k, In k (map fst (map_of String.eqb entries)) <-> In k (map fst entries)).
Proof.
  destruct (@fold_map_set_keys entries []) as [Hnd Hin]; [constructor |].
  split; [exact Hnd |].
  intros k. unfold map_of. rewrite Hin. cbn [map In]. tauto.
Qed.

(** Every value of the map comes from an entry with its key. *)
Lemma fold_map_set_In (entries : list (string * V)) : forall m e,
  In e (fold_left (fun m e => map_set String.eqb (fst e) (snd e) m) entries m) ->
  In e m \/ In e entries.
Proof.
  induction entries as [| [k v] entries IH]; intros m e; cbn [fold_left fst snd].
  - now left.
  - intros H. destruct (IH _ _ H) as [H1 | H1].
    + destruct (In_map_set _ _ _ _ H1) as [-> | H2]; [right; now left | now left].
    + right. now right.
Qed.

Lemma map_of_In (entries : list (string * V)) e :
  In e (map_of String.eqb entries) -> In e entries.
Proof.
  intros H. destruct (fold_map_set_In _ _ _ H) as [[] | H1]. exact H1.
Qed.
End StringKeys.

Lemma set_of_NoDup ks : NoDup (set_of ks).
Proof. exact (proj1 (map_of_keys (map (fun k => (k, tt)) ks))). Qed.

Lemma set_of_In ks k : In k (set_of ks) <-> In k ks.
Proof.
  unfold set_of. rewrite (proj2 (map_of_keys (map (fun k => (k, tt)) ks)) k).
  rewrite map_map. cbn [fst]. now rewrite map_id.
Qed.

Lemma set_has_In k ks : set_has k ks = true <-> In k ks.
Proof.
  unfold set_has. rewrite existsb_exists. split.
  - intros (x & Hx & E). apply String.eqb_eq in E. now subst.
  - intros H. exists k. split; [exact H | apply String.eqb_refl].
Qed.


Lemma lookup_None {A} k (o : list (string * A)) :
  lookup k o = None <-> ~ In k (keys o).
Proof.
  unfold keys. induction o as [| [k' v'] o IH]; cbn [lookup map fst].
  - split; [intros _ [] | reflexivity].
  - destruct (String.eqb_spec k' k) as [-> | Hne].
    + split; [discriminate | intros H; destruct H; now left].
    + rewrite IH. split.
      * intros H [E | i]; [congruence | now apply H].
      * intros H i. apply H. now right.
Qed.


End MapFacts.

(* ------------------------------------------------------------------ *)
(** ** Script matching *)

Module MatchFacts.

Import Js ScriptParser Diff MapFacts Invariants.

Lemma by_fingerprint_keyed scripts : keyed (by_fingerprint scripts).
Proof.
  intros k v H. apply map_of_In in H. apply in_map_iff in H.
  destruct H as (sc & [= <- <-] & _). reflexivity.
Qed.

Lemma exact_phase_exact oldEntries : forall newMap acc,
  keyed oldEntries -> keyed newMap ->
  Forall exact (matchedScripts acc) ->
  Forall exact (matchedScripts (fst (exact_phase oldEntries newMap acc))).
Proof.
  induction oldEntries as [| [fp oldS] rest IH]; intros newMap acc Ho Hn Hacc;
    cbn [exact_phase]; [exact Hacc |].
  assert (Hrest : keyed rest) by (intros k v H; apply Ho; now right).
  destruct (map_get String.eqb fp newMap) as [newS |] eqn:E.
  - apply IH; [exact Hrest | | ].
    + intros k v H. apply Hn. eapply In_map_delete, H.
    + cbn [matchedScripts]. apply Forall_app. split; [exact Hacc |].
      constructor; [| constructor].
      unfold exact; cbn [oldScript newScript].
      rewrite (Ho fp oldS (or_introl eq_refl)).
      symmetry. apply Hn. now apply map_get_In.
  - now apply IH.
Qed.

Lemma fallback_phase_close olds : forall matched news,
  Forall (fun m => exact m \/ close m) matched ->
  Forall (fun m => exact m \/ close m) (fst (fallback_phase olds matched news)).
Proof.
  induction olds as [| oldS rest IH]; intros matched news Hm; cbn [fallback_phase];
    [exact Hm |].
  destruct (bestMatch oldS news) as [best |] eqn:E.
  - apply IH. apply Forall_app. split; [exact Hm |].
    constructor; [| constructor]. right.
    unfold bestMatch in E. apply find_some in E. exact (proj2 E).
  - now apply IH.
Qed.

(** Every pair that [matchScripts] returns was made by one of the phases. *)
Lemma matched_exact_or_close olds news :
  Forall (fun m => exact m \/ close m) (matchedScripts (matchScripts olds news)).
Proof.
  unfold matchScripts.
  destruct (exact_phase _ _ _) as [r1 nm] eqn:E1.
  destruct (fallback_phase _ _ _) as [matched un] eqn:E2.
  cbn [matchedScripts].
  change matched with (fst (matched, un)). rewrite <- E2.
  apply fallback_phase_close.
  change r1 with (fst (r1, nm)). rewrite <- E1.
  eapply Forall_impl; [intros m H; left; exact H |].
  apply exact_phase_exact; try apply by_fingerprint_keyed. constructor.
Qed.

Lemma get_take i : forall n s, (i < n)%nat -> String.get i (take n s) = String.get i s.
Proof.
  induction i as [| i IH]; intros [| n] [| c s] H; try lia; cbn [take String.get];
    try reflexivity.
  apply IH. lia.
Qed.

Lemma close_spec m :
  close m ->
  take 20 (text (oldScript m)) = take 20 (text (newScript m))
  /\ (7 * Nat.max (String.length (text (oldScript m))) (String.length (text (newScript m)))
      < 10 * Nat.min (String.length (text (oldScript m))) (String.length (text (newScript m))))%nat
  /\ forall i, (i < 20)%nat ->
       String.get i (text (oldScript m)) = String.get i (text (newScript m)).
Proof.
  unfold close, similar. intros H. apply andb_prop in H. destruct H as [Hr Hs].
  apply Nat.ltb_lt in Hr. apply String.eqb_eq in Hs.
  split; [exact Hs |]. split; [exact Hr |].
  intros i Hi. rewrite <- (@get_take i 20 (text (oldScript m)) Hi), Hs.
  now apply get_take.
Qed.

(** C10.  In the second phase of script matching, two scripts that the
    equality of fingerprints left unmatched are paired only if the first 20
    code units of their texts are the same and the length of the shorter
    text is more than 0.7 of the length of the longer; in a pair that the
    second phase made, the two texts differ nowhere before position 20. *)
Theorem fallback_needs_common_start olds news m :
  In m (matchedScripts (matchScripts olds news)) ->
  ScriptParser.fingerprint (oldScript m) <> ScriptParser.fingerprint (newScript m) ->
  take 20 (text (oldScript m)) = take 20 (text (newScript m))
  /\ (7 * Nat.max (String.length (text (oldScript m))) (String.length (text (newScript m)))
      < 10 * Nat.min (String.length (text (oldScript m))) (String.length (text (newScript m))))%nat
  /\ forall i, (i < 20)%nat ->
       String.get i (text (oldScript m)) = String.get i (text (newScript m)).
Proof.
  intros Hin Hfp.
  pose proof (matched_exact_or_close olds news) as H.
  rewrite Forall_forall in H. destruct (H m Hin) as [He | Hc].
  - destruct (Hfp He).
  - now apply close_spec.
Qed.

(** Two scripts with different fingerprints whose texts differ somewhere
    before position 20 are never paired. *)
Lemma early_difference_never_matched olds news o n i :
  ScriptParser.fingerprint o <> ScriptParser.fingerprint n ->
  (i < 20)%nat -> String.get i (text o) <> String.get i (text n) ->
  ~ In {| oldScript := o; newScript := n |} (matchedScripts (matchScripts olds news)).
Proof.
  intros Hfp Hi Hd Hin.
  pose proof (matched_exact_or_close olds news) as H.
  rewrite Forall_forall in H. destruct (H _ Hin) as [He | Hc].
  - exact (Hfp He).
  - apply close_spec in Hc. cbn [oldScript newScript] in Hc.
    exact (Hd (proj2 (proj2 Hc) i Hi)).
Qed.

End MatchFacts.

(* ------------------------------------------------------------------ *)
(** ** Keyed collections *)

Module CollectionFacts.

Import Js Raw Diff MapFacts Vocabulary.
Local Open Scope string_scope.

Lemma filter_all {A} (p : A -> bool) l :
  (forall x, In x l -> p x = true) -> filter p l = l.
Proof.
  induction l as [| x l IH]; intros H; cbn [filter]; [reflexivity |].
  rewrite (H x (or_introl eq_refl)), IH; [reflexivity |].
  intros y Hy. apply H. now right.
Qed.

Lemma filter_none {A} (p : A -> bool) l :
  (forall x, In x l -> p x = false) -> filter p l = [].
Proof.
  induction l as [| x l IH]; intros H; cbn [filter]; [reflexivity |].
  rewrite (H x (or_introl eq_refl)). apply IH.
  intros y Hy. apply H. now right.
Qed.








End CollectionFacts.

(* ------------------------------------------------------------------ *)
(** ** Reconstruction of scripts from the block map *)

Module LoaderFacts.

Import Js Raw IR MapFacts Vocabulary Samples.
Local Open Scope string_scope.

Lemma chain_ends blocks cur n :
  stops blocks cur n -> forall m, n <= m -> chain m blocks cur = chain n blocks cur.
Proof.
  induction 1 as [cur H | cur id H H0 | cur id b n H H0 H1 IH]; intros m Hm.
  - destruct m; cbn [chain]; [reflexivity |]. now rewrite H.
  - destruct m; cbn [chain]; [reflexivity |]. now rewrite H, H0.
  - destruct m as [| m]; [lia |]. cbn [chain]. rewrite H, H0.
    f_equal. apply IH. lia.
Qed.

Lemma chain_length_ends blocks cur n :
  stops blocks cur n -> List.length (chain n blocks cur) = n.
Proof.
  induction 1 as [cur H | cur id H H0 | cur id b n H H0 H1 IH]; cbn [chain];
    try reflexivity.
  rewrite H, H0. cbn [List.length]. now rewrite IH.
Qed.

(** With fuel for one turn more than the chain is long, the first pass
    returns the chain. *)
Lemma first_pass_ends blocks cur n :
  stops blocks cur n ->
  forall fuel, n < fuel -> first_pass fuel blocks cur = Ret (chain n blocks cur).
Proof.
  induction 1 as [cur H | cur id H H0 | cur id b n H H0 H1 IH]; intros fuel Hf;
    (destruct fuel as [| fuel]; [lia |]); cbn [first_pass chain].
  - now rewrite H.
  - now rewrite H, H0.
  - rewrite H, H0, IH by lia. reflexivity.
Qed.

(** The first pass returns only when the chain stops. *)
Lemma first_pass_returns fuel : forall blocks cur visited,
  first_pass fuel blocks cur = Ret visited -> stops blocks cur (List.length visited).
Proof.
  induction fuel as [| fuel IH]; intros blocks cur visited; cbn [first_pass];
    [discriminate |].
  destruct (live cur) as [id |] eqn:H; [| intros [= <-]; now apply stops_here].
  destruct (at_id blocks id) as [b |] eqn:H0;
    [| intros [= <-]; now apply stops_missing with id].
  destruct (first_pass fuel blocks (entry_next b)) as [rest | |] eqn:E; cbn [bind];
    try discriminate.
  intros [= <-]. cbn [List.length]. eapply stops_next; eauto.
Qed.

Lemma first_pass_never_throws fuel : forall blocks cur msg,
  first_pass fuel blocks cur <> Throw msg.
Proof.
  induction fuel as [| fuel IH]; intros blocks cur msg; cbn [first_pass];
    [discriminate |].
  destruct (live cur) as [id |]; [| discriminate].
  destruct (at_id blocks id) as [b |]; [| discriminate].
  destruct (first_pass fuel blocks (entry_next b)) as [rest | e |] eqn:E; cbn [bind];
    try discriminate.
  destruct (IH _ _ _ E).
Qed.

(** The objects that the second pass links are the script of the chain. *)
Lemma link_linked visited : link visited = linked visited.
Proof.
  induction visited as [| [id [b | |]] rest IH]; cbn [link linked];
    [reflexivity | now rewrite IH | reflexivity | reflexivity].
Qed.

(** A step through what the map inherits is the last of a chain. *)
Lemma chain_length_linked blocks cur n :
  stops blocks cur n -> chain_length (linked (chain n blocks cur)) = n.
Proof.
  induction 1 as [cur H | cur id H H0 | cur id e n H H0 H1 IH]; cbn [chain];
    try reflexivity.
  rewrite H, H0. destruct e as [b | |]; cbn [linked chain_length block_length].
  - f_equal. exact IH.
  - cbn [entry_next] in H1. inversion H1; [reflexivity | discriminate | discriminate].
  - cbn [entry_next] in H1. inversion H1; [reflexivity | discriminate | discriminate].
Qed.

(** C5, as the code has it.  [reconstructScript] keeps no set of visited ids
    and gives no warning.  On a block map with no block under [__proto__] it
    returns whenever the chain of [next] from the top-level id stops, after
    [n] steps, at an id that is not set or under which the map has nothing:
    the result is [null] when the map has nothing under the top-level id
    itself, and else the script of exactly those [n] steps.  A [next] that
    is the key of no block cuts the script short without a word; when it is
    a name that every object inherits, [constructor] or [toString], the
    script gets one block more, all of whose properties are [undefined]. *)
Theorem reconstructScript_returns_on_finite_chain blocks topLevelBlockId target n fuel :
  no_proto_block blocks ->
  stops blocks (Some topLevelBlockId) n ->
  n < fuel ->
  (at_id blocks topLevelBlockId = None
   /\ reconstructScript fuel blocks topLevelBlockId target = Ret None)
  \/ (exists script,
        reconstructScript fuel blocks topLevelBlockId target = Ret (Some script)
        /\ topLevelBlock script = linked (chain n blocks (Some topLevelBlockId))
        /\ chain_length (topLevelBlock script) = n
        /\ targetName script = target).
Proof.
  intros _ He Hf. unfold reconstructScript.
  destruct (at_id blocks topLevelBlockId) as [b |] eqn:E; [right | left; now split].
  rewrite (first_pass_ends He Hf). cbn [bind].
  eexists. split; [reflexivity |]. cbn [topLevelBlock targetName].
  split; [apply link_linked |]. split; [| reflexivity].
  rewrite link_linked. now apply chain_length_linked.
Qed.

(** Conversely, a result means that the chain stopped. *)
Lemma reconstructScript_returns_only_on_finite_chain blocks id target fuel script :
  reconstructScript fuel blocks id target = Ret (Some script) ->
  exists n, stops blocks (Some id) n.
Proof.
  unfold reconstructScript. destruct (at_id blocks id); [| discriminate].
  destruct (first_pass fuel blocks (Some id)) as [visited | |] eqn:E; cbn [bind];
    try discriminate.
  intros _. exists (List.length visited). exact (first_pass_returns _ _ _ E).
Qed.

(** On a block whose [next] is its own id the first pass never comes to an
    end. *)
Lemma first_pass_loop fuel : first_pass fuel loop (Some "a") = OutOfFuel.
Proof.
  induction fuel as [| fuel IH]; [reflexivity |].
  change (first_pass (S fuel) loop (Some "a"))
    with (rest <- first_pass fuel loop (Some "a") ;;
          Ret (("a", a_block (block "motion_movesteps" (Some "a") [] true)) :: rest)).
  now rewrite IH.
Qed.

(** C5, against the claim: on the block map [loop], whose only block has
    itself for [next], no amount of fuel lets [reconstructScript] return:
    the walk is not cut short, and nothing is reported. *)
Lemma reconstructScript_loops_on_cycle :
  ~ exists fuel result, reconstructScript fuel loop "a" "Sprite1" = Ret result.
Proof.
  intros (fuel & result & H). unfold reconstructScript in H.
  change (at_id loop "a")
    with (Some (a_block (block "motion_movesteps" (Some "a") [] true))) in H.
  rewrite first_pass_loop in H. discriminate.
Qed.

Lemma reconstructScript_never_throws fuel blocks id target msg :
  reconstructScript fuel blocks id target <> Throw msg.
Proof.
  unfold reconstructScript. destruct (at_id blocks id) as [found |]; [| discriminate].
  destruct (first_pass fuel blocks (Some id)) as [visited | e |] eqn:E; cbn [bind];
    try discriminate.
  destruct (first_pass_never_throws _ _ _ E).
Qed.

Lemma reconstructScripts_never_throws fuel blocks target ids : forall msg,
  reconstructScripts fuel blocks ids target <> Throw msg.
Proof.
  induction ids as [| id ids IH]; intros msg; cbn [reconstructScripts]; [discriminate |].
  destruct (reconstructScript fuel blocks id target) as [sc | e |] eqn:E; cbn [bind];
    try discriminate.
  - destruct (reconstructScripts fuel blocks ids target) as [scs | e |]; cbn [bind];
      try discriminate.
    destruct (IH e eq_refl).
  - destruct (reconstructScript_never_throws _ _ _ _ E).
Qed.

Lemma parse_never_throws fuel project : forall msg, parse fuel project <> Throw msg.
Proof.
  induction project as [| t rest IH]; intros msg; cbn [parse]; [discriminate |].
  destruct (reconstructScripts fuel (blocks t) _ (name t)) as [scs | e |] eqn:E; cbn [bind];
    try discriminate.
  - destruct (parse fuel rest) as [ts | e |]; cbn [bind]; try discriminate.
    destruct (IH e eq_refl).
  - destruct (reconstructScripts_never_throws _ _ _ _ E).
Qed.

Lemma at_id_own blocks id b : lookup id blocks = Some b -> at_id blocks id = Some (a_block b).
Proof. unfold at_id. now intros ->. Qed.

Lemma at_id_key blocks id : lookup id blocks <> None -> at_id blocks id <> None.
Proof.
  unfold at_id. destruct (lookup id blocks); [discriminate | intros H; now destruct H].
Qed.

Lemma reconstructScripts_finite n fuel blocks target ids :
  (forall id, In id ids ->
     lookup id blocks <> None /\ exists k, k <= n /\ stops blocks (Some id) k) ->
  n < fuel ->
  reconstructScripts fuel blocks ids target
  = Ret (map (fun id => {| topLevelBlock := linked (chain n blocks (Some id));
                           targetName := target |}) ids).
Proof.
  intros H Hf. induction ids as [| id ids IH]; cbn [reconstructScripts map];
    [reflexivity |].
  destruct (H id (or_introl eq_refl)) as (Hl & k & Hk & He).
  rewrite IH by (intros i Hi; apply H; now right).
  unfold reconstructScript.
  destruct (at_id blocks id) as [b |] eqn:E; [| destruct (at_id_key _ _ Hl E)].
  rewrite (first_pass_ends He) by lia. cbn [bind].
  now rewrite (chain_ends He Hk), link_linked.
Qed.

Lemma topLevelBlockIds_keys blocks id :
  In id (topLevelBlockIds blocks) -> lookup id blocks <> None.
Proof.
  unfold topLevelBlockIds. intros H. apply in_map_iff in H.
  destruct H as ([k b] & <- & H). apply filter_In in H. destruct H as [H _].
  intros E. apply (proj1 (lookup_None _ _)) in E. apply E.
  unfold keys. apply in_map_iff. now exists (k, b).
Qed.

(** C6, as the code has it.  [ProjectParser.parse] raises no error on any
    block graph.  When no block has the id [__proto__] and the chains of
    [next] of every top-level block stop (within [n] steps), at the end of
    the script or at an id under which the map has nothing, it returns, and
    every script is its chain up to that point: a dangling [next] cuts the
    one script it is in (or, when it is a name that every object inherits,
    ends it with a block whose properties are all [undefined]), and the
    scripts beside it are not touched.  No warning is recorded. *)
Theorem parse_recovers_from_dangling_next project n fuel :
  (forall msg, parse fuel project <> Throw msg)
  /\ ((forall t, In t project -> no_proto_block (blocks t)) ->
      (forall t, In t project -> finite_chains n t) ->
      n < fuel ->
      parse fuel project = Ret (map (parsed_target n) project)).
Proof.
  split; [apply parse_never_throws |].
  intros _ H Hf. induction project as [| t rest IH]; cbn [parse map]; [reflexivity |].
  rewrite (@reconstructScripts_finite n).
  - rewrite IH by (intros t' Ht'; apply H; now right). reflexivity.
  - intros id Hid. split; [now apply topLevelBlockIds_keys |].
    now apply (H t (or_introl eq_refl)).
  - exact Hf.
Qed.

Lemma load_loops fuel : load fuel [sprite "Sprite1" loop] = OutOfFuel.
Proof.
  unfold load. cbn [parse sprite blocks name].
  change (topLevelBlockIds loop) with ["a"]. cbn [reconstructScripts].
  unfold reconstructScript.
  change (at_id loop "a")
    with (Some (a_block (block "motion_movesteps" (Some "a") [] true))).
  now rewrite first_pass_loop.
Qed.

(** C6, against the claim: for the project whose sprite has the block map
    [loop], compared with itself, no amount of fuel lets the comparison
    return a result. *)
Lemma comparison_never_returns_on_cycle :
  ~ exists fuel items,
      Diff.compareProjects draws fuel [sprite "Sprite1" loop] [sprite "Sprite1" loop]
      = Ret items.
Proof.
  intros (fuel & items & H). unfold Diff.compareProjects in H.
  rewrite load_loops in H. discriminate.
Qed.

(** The renderer of scripts that [generateDiff] calls has no guard for a
    missing block: on a dangling [next] it reads a property of [undefined],
    and the comparison ends with that error. *)
Lemma comparison_raises_on_dangling_next :
  parse 5 [sprite "Sprite1" dangling] = Ret [parsed_target 1 (sprite "Sprite1" dangling)]
  /\ Diff.compareProjects draws 5 [sprite "Sprite1" dangling] [sprite "Sprite1" dangling]
     = Throw TypeError.
Proof. split; vm_compute; reflexivity. Qed.

(** A dangling [next] that is a name every object inherits: the loader ends
    the script with a block whose properties are all [undefined], on which
    the normalizer raises an error. *)
Lemma inherited_next_adds_a_blank_block :
  parse 5 [sprite "Sprite1" inheriting]
  = Ret [ {| p_name := "Sprite1";
             p_scripts :=
               [ {| topLevelBlock :=
                      Some (mkNormalized "motion_movesteps" [] [] None (Some mkBlank));
                    targetName := "Sprite1" |} ];
             p_variables := []; p_lists := []; p_costumes := []; p_sounds := [] |} ]
  /\ parse 5 [sprite "Sprite1" inheriting_proto]
     = Ret [ {| p_name := "Sprite1";
                p_scripts :=
                  [ {| topLevelBlock :=
                         Some (mkNormalized "motion_movesteps" [] [] None (Some mkBlank));
                       targetName := "Sprite1" |} ];
                p_variables := []; p_lists := []; p_costumes := []; p_sounds := [] |} ]
  /\ load 5 [sprite "Sprite1" inheriting] = Throw TypeError.
Proof. repeat split; vm_compute; reflexivity. Qed.

End LoaderFacts.

(* ------------------------------------------------------------------ *)
(** ** Replay: items that name an absent target *)

Module AbsentTarget.

Import Js Raw Diff Replay Vocabulary Samples.
Local Open Scope string_scope.

Lemma on_first_absent targetName f targets :
  find_target targetName targets = None -> on_first targetName f targets = None.
Proof.
  induction targets as [| t rest IH]; cbn [find_target on_first]; [reflexivity |].
  destruct (String.eqb (name t) targetName); [discriminate |].
  intros H. now rewrite (IH H).
Qed.

Lemma find_target_absent targetName targets :
  ~ In targetName (map name targets) -> find_target targetName targets = None.
Proof.
  induction targets as [| t rest IH]; cbn [find_target map]; [reflexivity |].
  intros H. destruct (String.eqb_spec (name t) targetName) as [E | _].
  - destruct H. now left.
  - apply IH. intros Hin. apply H. now right.
Qed.

Lemma creates_target_types isReverse t :
  creates_target isReverse t = true <-> In t (creating_types isReverse).
Proof.
  destruct isReverse, t; cbn [creates_target creating_types In]; split; intros H;
    try reflexivity; try discriminate; auto;
    repeat (destruct H as [H | H]; try discriminate H); destruct H.
Qed.

(** C9, as the code has it.  When no target of the working copy has the
    name an item gives: an item of type script-add, block-add, costume-add
    or sound-add (when replaying forward; of the four delete types when
    replaying in reverse) makes the replay append one target after the
    targets that are there, which stay as they are; the new target has the
    name, no variable, list, costume, sound or block, and the fixed
    properties of a new sprite, and the item itself is not applied to it.
    Any other item, the additions of variables and lists among them, leaves
    the whole document as it is.  Nothing else is produced: there is no
    apply report. *)
Theorem absent_target_step isReverse it newProject :
  ~ In (targetName it) (map name newProject) ->
  (In (type it) (creating_types isReverse) ->
   exists target,
     apply_item isReverse it newProject = Ret (newProject ++ [target])%list
     /\ name target = targetName it
     /\ variables target = [] /\ lists target = []
     /\ costumes target = [] /\ sounds target = [] /\ blocks target = []
     /\ others target
        = [("scripts", JArr []); ("broadcasts", JArr []); ("comments", JArr []);
           ("currentCostume", JNum 0); ("visible", JBool true);
           ("x", JNum 0); ("y", JNum 0); ("size", JNum 100);
           ("direction", JNum 90); ("draggable", JBool false);
           ("rotationStyle", JStr "all around")])
  /\ (~ In (type it) (creating_types isReverse) ->
      apply_item isReverse it newProject = Ret newProject).
Proof.
  intros H. apply find_target_absent in H.
  unfold apply_item. rewrite on_first_absent by exact H.
  pose proof (creates_target_types isReverse (type it)) as Hc.
  split; intros Ht.
  - apply Hc in Ht. rewrite Ht. eexists. split; [reflexivity |].
    repeat split.
  - destruct (creates_target isReverse (type it)); [| reflexivity].
    destruct Ht. now apply Hc.
Qed.

(** C9, against the claim: the forward replay of an item that adds a
    variable to a sprite the document does not have.  The operation is an
    addition, and still no target is created for it: the document stays
    empty. *)
Lemma variable_add_creates_no_target :
  actualChangeType false Add = Add
  /\ replay false [add_score "Ghost"] [] = Ret []
  /\ (forall p, replay false [add_score "Ghost"] [] = Ret p ->
                find_target "Ghost" p = None).
Proof.
  split; [reflexivity |]. split; [reflexivity |].
  intros p [= <-]. reflexivity.
Qed.

(** A costume added to an absent sprite creates the sprite and is itself
    not applied: the loop goes on to the next item. *)
Lemma costume_add_leaves_target_empty :
  replay false [item costume_add "Ghost" None (Some (costume "x" "a")) (JStr "x")] []
  = Ret [shell "Ghost"].
Proof. reflexivity. Qed.

(** C1, against the claim: a variable goes from 0 to 5.  The diff has one
    item, the edit of the variable; its replay on the old document returns
    the old document, in which the variable is still 0. *)
Lemma variable_edit_is_not_replayed :
  exists items,
    generateDiff draws 5 [with_score 0] [with_score 5] = Ret items
    /\ replay false items [with_score 0] = Ret [with_score 0]
    /\ variables (with_score 0) <> variables (with_score 5).
Proof.
  eexists. split; [vm_compute; reflexivity |].
  split; [vm_compute; reflexivity |].
  vm_compute. discriminate.
Qed.

(** C3, against the claim: a document whose sprite has a costume with no
    [assetId] and no [md5ext], compared with itself.  The two maps of
    costumes are keyed by two different random texts, and the diff reports
    the costume as deleted and as added. *)
Lemma self_diff_of_anonymous_costume :
  generateDiff draws 5 [with_costume anonymous_costume] [with_costume anonymous_costume]
  = Ret [ item costume_delete "Sprite1" (Some anonymous_costume) None (JStr (draws 0));
          item costume_add "Sprite1" None (Some anonymous_costume) (JStr (draws 1)) ].
Proof. vm_compute. reflexivity. Qed.

End AbsentTarget.

(* ------------------------------------------------------------------ *)
(** ** Maps of costumes and sounds *)

Module AssetFacts.

Import Js Raw Diff Vocabulary Invariants.
Local Open Scope string_scope.

Lemma strict_eqb_eq u v : strict_eqb u v = true -> u = v.
Proof.
  destruct u, v; cbn [strict_eqb]; try discriminate; intros H.
  - reflexivity.
  - f_equal. now apply Bool.eqb_prop.
  - f_equal. now apply Z.eqb_eq.
  - f_equal. now apply String.eqb_eq.
Qed.

Lemma strict_eqb_neq u v : good u -> strict_eqb u v = false -> u <> v.
Proof. unfold good. intros Hu H <-. congruence. Qed.

Lemma primitive_good v : primitive v = true -> good v.
Proof.
  unfold good. destruct v; cbn; try discriminate; intros _.
  - reflexivity.
  - apply Bool.eqb_reflx.
  - apply Z.eqb_refl.
  - apply String.eqb_refl.
Qed.

(** What [stable] says of a resource. *)
Lemma stable_spec r :
  stable r = true ->
  asset_identity r = Ret (Some (key_of r))
  /\ truthy (key_of r) = true /\ good (key_of r).
Proof.
  unfold stable, key_of, identity, asset_identity.
  destruct r as [| | | | | props]; cbn [get_prop bind]; try discriminate.
  destruct (or_else (lookup "assetId" props) (lookup "md5ext" props)) as [i |];
    [| discriminate].
  intros H. apply andb_prop in H. destruct H as [Ht Hp]. cbn [or_null].
  repeat split; [exact Ht | now apply primitive_good].
Qed.

Lemma createResourceMap_stable rnd resources : forall n m,
  Forall (fun r => stable r = true) resources ->
  createResourceMap rnd n resources m
  = Ret (fold_left (fun m r => map_set strict_eqb (key_of r) r m) resources m, n).
Proof.
  induction resources as [| r rest IH]; intros n m H; cbn [createResourceMap fold_left];
    [reflexivity |].
  inversion H as [| ? ? Hr Hrest]; subst.
  destruct (stable_spec r Hr) as (Hi & Ht & _).
  rewrite Hi. cbn [bind is_truthy or_null]. rewrite Ht. now apply IH.
Qed.

Section Keys.
Variable V : Type.
Implicit Types (m : imap json V) (k : json) (v : V).

Lemma keys_map_set_has k v m :
  map fst (map_set strict_eqb k v m)
  = if map_has strict_eqb k m then map fst m else (map fst m ++ [k])%list.
Proof.
  unfold map_has. induction m as [| [k' v'] m IH]; cbn [map_set map_get map fst];
    [reflexivity |].
  destruct (strict_eqb k' k); cbn [map fst]; [reflexivity |].
  rewrite IH. now destruct (map_get strict_eqb k m).
Qed.

Lemma map_get_entry k v m :
  map_get strict_eqb k m = Some v -> In (k, v) m.
Proof.
  induction m as [| [k' v'] m IH]; cbn [map_get]; [discriminate |].
  destruct (strict_eqb k' k) eqn:E.
  - intros [= ->]. apply strict_eqb_eq in E. subst. now left.
  - intros H. right. now apply IH.
Qed.

Lemma map_has_key k m :
  good k -> In k (map fst m) -> map_has strict_eqb k m = true.
Proof.
  unfold map_has. intros Hk. induction m as [| [k' v'] m IH]; cbn [map fst map_get];
    [intros [] |].
  intros [-> | H].
  - now rewrite Hk.
  - destruct (strict_eqb k' k); [reflexivity | now apply IH].
Qed.

Lemma map_has_In k m : map_has strict_eqb k m = true -> In k (map fst m).
Proof.
  unfold map_has. destruct (map_get strict_eqb k m) as [v |] eqn:E; [| discriminate].
  intros _. apply map_get_entry in E. apply in_map_iff. now exists (k, v).
Qed.

Lemma tidy_map_set k v m : tidy m -> good k -> tidy (map_set strict_eqb k v m).
Proof.
  intros [Hnd Hg] Hk. unfold tidy. rewrite keys_map_set_has.
  destruct (map_has strict_eqb k m) eqn:E; [now split |].
  split.
  - apply NoDup_app; [exact Hnd | repeat constructor; intros [] |].
    intros x Hx [<- | []]. rewrite (map_has_key _ Hk Hx) in E. discriminate.
  - apply Forall_app. split; [exact Hg | now repeat constructor].
Qed.

Lemma map_get_tidy k v m : tidy m -> In (k, v) m -> map_get strict_eqb k m = Some v.
Proof.
  intros [Hnd Hg]. induction m as [| [k' v'] m IH]; cbn [map_get]; [intros [] |].
  cbn [map fst] in Hnd, Hg.
  inversion Hnd as [| ? ? Hk' Hnd']; subst. inversion Hg as [| ? ? Hgk Hg']; subst.
  intros [[= -> ->] | H].
  - now rewrite Hgk.
  - destruct (strict_eqb k' k) eqn:E; [| now apply IH].
    apply strict_eqb_eq in E. subst. destruct Hk'.
    apply in_map_iff. now exists (k, v).
Qed.

Lemma tidy_fold (f : V -> json) (vs : list V) : forall m,
  tidy m -> Forall (fun x => good (f x)) vs ->
  tidy (fold_left (fun m x => map_set strict_eqb (f x) x m) vs m).
Proof.
  induction vs as [| x vs IH]; intros m Hm Hvs; cbn [fold_left]; [exact Hm |].
  inversion Hvs; subst. apply IH; [now apply tidy_map_set | assumption].
Qed.

Lemma In_map_set_json e k v m :
  In e (map_set strict_eqb k v m) -> e = (k, v) \/ In e m.
Proof.
  induction m as [| [k' v'] m IH]; cbn [map_set].
  - intros [<- | []]. now left.
  - destruct (strict_eqb k' k) eqn:E.
    + apply strict_eqb_eq in E. subst.
      intros [<- | i]; [now left | right; now right].
    + intros [<- | i]; [right; now left |].
      destruct (IH i) as [-> | i']; [now left | right; now right].
Qed.
End Keys.

Lemma resource_map_tidy resources :
  Forall (fun r => stable r = true) resources -> tidy (resource_map resources).
Proof.
  intros H. unfold resource_map. apply tidy_fold.
  - split; constructor.
  - eapply Forall_impl; [| exact H]. intros r Hr. now apply stable_spec.
Qed.

Lemma flat_map_nil {A B} (f : A -> list B) l :
  (forall x, In x l -> f x = []) -> flat_map f l = [].
Proof.
  induction l as [| x l IH]; intros H; cbn [flat_map]; [reflexivity |].
  rewrite (H x (or_introl eq_refl)), IH; [reflexivity |].
  intros y Hy. apply H. now right.
Qed.

Lemma json_differ_same v : json_differ (Some v) (Some v) = false.
Proof. unfold json_differ. cbn [option_map]. now rewrite String.eqb_refl. Qed.

(** A tidy map differs from itself in nothing. *)
Lemma diffResourceMaps_self td ta te (m : imap json json) targetName :
  tidy m -> diffResourceMaps td ta te m m targetName = [].
Proof.
  intros Hm. unfold diffResourceMaps.
  rewrite !flat_map_nil; [reflexivity | |].
  - intros [k v] H. unfold map_has. cbn [fst snd].
    rewrite (map_get_tidy k v Hm H). cbn [negb]. now rewrite json_differ_same.
  - intros [k v] H. unfold map_has. cbn [fst snd].
    now rewrite (map_get_tidy k v Hm H).
Qed.

Lemma diffResources_self td ta te rnd n resources targetName :
  Forall (fun r => stable r = true) resources ->
  diffResources td ta te rnd n resources resources targetName = Ret ([], n).
Proof.
  intros H. unfold diffResources.
  rewrite createResourceMap_stable by exact H. cbn [bind fst snd].
  rewrite createResourceMap_stable by exact H. cbn [bind fst snd].
  fold (resource_map resources).
  now rewrite diffResourceMaps_self by now apply resource_map_tidy.
Qed.

End AssetFacts.

(* ------------------------------------------------------------------ *)
(** ** One key, one item at most *)

Module Classification.

Import Js Raw Diff MapFacts Vocabulary Invariants CollectionFacts AssetFacts.
Local Open Scope string_scope.

(** When [f e] makes items that carry the key of [e], the items for [k] in
    a run over a tidy map are those of the entry under [k]. *)
Lemma filter_flat_map_key (f : json * json -> list DiffItem) k :
  (forall e it, In it (f e) -> fingerprint it = Some (fst e)) ->
  forall m, tidy m ->
  filter (carries k) (flat_map f m)
  = match map_get strict_eqb k m with Some v => f (k, v) | None => [] end.
Proof.
  intros Hf. induction m as [| [k' v'] m IH]; intros [Hnd Hg];
    cbn [flat_map map_get]; [reflexivity |].
  cbn [map fst] in Hnd, Hg.
  inversion Hnd as [| ? ? Hk' Hnd']; subst. inversion Hg as [| ? ? Hgk Hg']; subst.
  rewrite filter_app, IH by (split; assumption).
  destruct (strict_eqb k' k) eqn:E.
  - apply strict_eqb_eq in E. subst k'.
    rewrite filter_all.
    + destruct (map_get strict_eqb k m) as [v |] eqn:G; [| apply app_nil_r].
      apply map_get_entry in G. destruct Hk'.
      apply in_map_iff. now exists (k, v).
    + intros it Hit. unfold carries. rewrite (Hf _ _ Hit). exact Hgk.
  - rewrite filter_none; [reflexivity |].
    intros it Hit. unfold carries. rewrite (Hf _ _ Hit). exact E.
Qed.

Lemma diffResourceMaps_classifies td ta te oldMap newMap targetName k :
  tidy oldMap -> tidy newMap ->
  filter (carries k) (diffResourceMaps td ta te oldMap newMap targetName)
  = classify_asset td ta te targetName k
      (map_get strict_eqb k oldMap) (map_get strict_eqb k newMap).
Proof.
  intros Ho Hn. unfold diffResourceMaps.
  rewrite filter_app, !filter_flat_map_key; try assumption.
  - unfold map_has, classify_asset, json_differ. cbn [fst snd].
    destruct (map_get strict_eqb k oldMap) as [x |], (map_get strict_eqb k newMap) as [y |];
      cbn [negb app option_map]; try reflexivity.
    destruct (String.eqb (stringify x) (stringify y)); reflexivity.
  - intros e it. cbn [fst snd].
    destruct (negb (map_has strict_eqb (fst e) oldMap)); [now intros [<- | []] |].
    destruct (json_differ _ _); [now intros [<- | []] | intros []].
  - intros e it. cbn [fst snd].
    destruct (negb (map_has strict_eqb (fst e) newMap)); [now intros [<- | []] | intros []].
Qed.

Lemma diffResources_classifies td ta te rnd n oldA newA targetName k :
  stable_list oldA -> stable_list newA ->
  exists items,
    diffResources td ta te rnd n oldA newA targetName = Ret (items, n)
    /\ filter (carries k) items
       = classify_asset td ta te targetName k
           (map_get strict_eqb k (resource_map oldA))
           (map_get strict_eqb k (resource_map newA)).
Proof.
  intros Ho Hn. unfold diffResources.
  rewrite createResourceMap_stable by exact Ho. cbn [bind fst snd].
  rewrite createResourceMap_stable by exact Hn. cbn [bind fst snd].
  eexists. split; [reflexivity |].
  apply diffResourceMaps_classifies; now apply resource_map_tidy.
Qed.



End Classification.

(* ------------------------------------------------------------------ *)
(** ** The items of the costumes and of the sounds *)

Module AssetClassification.

Import Js Raw Diff MapFacts Vocabulary Invariants CollectionFacts AssetFacts.
Local Open Scope string_scope.
Unset Implicit Arguments.

Lemma map_get_map_set k' (v : json) k : forall m,
  good k' ->
  map_get strict_eqb k (map_set strict_eqb k' v m)
  = if strict_eqb k' k then Some v else map_get strict_eqb k m.
Proof.
  intros m Hk'. induction m as [| [k2 v2] m IH]; cbn [map_set map_get]; [reflexivity |].
  destruct (strict_eqb k2 k') eqn:E2; cbn [map_get].
  - apply strict_eqb_eq in E2. subst k2. now destruct (strict_eqb k' k).
  - rewrite IH. destruct (strict_eqb k2 k) eqn:E; [| reflexivity].
    destruct (strict_eqb k' k) eqn:E'; [| reflexivity].
    apply strict_eqb_eq in E, E'. subst. unfold good in Hk'. congruence.
Qed.

Lemma find_last {A} (p : A -> bool) l x :
  find p (l ++ [x]) = match find p l with
                      | Some y => Some y
                      | None => if p x then Some x else None
                      end.
Proof.
  induction l as [| y l IH]; cbn [app find]; [reflexivity |].
  destruct (p y); [reflexivity | exact IH].
Qed.

Lemma fold_last k l : forall m,
  stable_list l ->
  map_get strict_eqb k (fold_left (fun m r => map_set strict_eqb (key_of r) r m) l m)
  = match entry_under k l with
    | Some r => Some r
    | None => map_get strict_eqb k m
    end.
Proof.
  unfold entry_under.
  induction l as [| r l IH]; intros m Hl; cbn [fold_left rev]; [reflexivity |].
  inversion Hl as [| ? ? Hr Hrest]; subst.
  rewrite (IH _ Hrest), find_last.
  destruct (find _ (rev l)); [reflexivity |].
  rewrite map_get_map_set by (apply stable_spec; exact Hr).
  change (same_key (key_of r) k) with (strict_eqb (key_of r) k).
  now destruct (strict_eqb (key_of r) k).
Qed.

(** The map that [createResourceMap] builds holds, under an identity, the
    last resource of the list that has it. *)
Lemma resource_map_last k l :
  stable_list l -> map_get strict_eqb k (resource_map l) = entry_under k l.
Proof.
  intros Hl. unfold resource_map. rewrite (fold_last k l [] Hl).
  now destruct (entry_under k l).
Qed.

(** X29.  The costumes and the sounds are classified like the variables,
    under their asset identities: when every costume (sound) of the two
    sides has an asset identity, the items of [diffCostumes] ([diffSounds])
    that carry an identity are one delete item when only the old side has an
    entry under it, one add item when only the new side has one, one edit
    item when both have entries that are not canonically equal, and none
    otherwise.  The entry of a side under an identity is the last of its
    list that has the identity.  No call of [Math.random] is made. *)
Theorem asset_items_classified rnd n oldA newA targetName k :
  stable_list oldA -> stable_list newA ->
  (exists items,
     diffCostumes rnd n oldA newA targetName = Ret (items, n)
     /\ filter (carries k) items
        = classify_asset costume_delete costume_add costume_edit targetName k
            (entry_under k oldA) (entry_under k newA))
  /\ (exists items,
        diffSounds rnd n oldA newA targetName = Ret (items, n)
        /\ filter (carries k) items
           = classify_asset sound_delete sound_add sound_edit targetName k
               (entry_under k oldA) (entry_under k newA)).
Proof.
  intros Ho Hn. rewrite <- !resource_map_last by assumption.
  split; now apply Classification.diffResources_classifies.
Qed.

End AssetClassification.

(* ------------------------------------------------------------------ *)
(** ** A document against itself *)

Module SelfDiff.

Import Js Raw ScriptParser Diff MapFacts Vocabulary AssetFacts Invariants.
Local Open Scope string_scope.

Lemma json_differ_refl a : json_differ a a = false.
Proof. destruct a as [v |]; [apply json_differ_same | reflexivity]. Qed.

Lemma diffRecord_self td ta te r targetName :
  diffRecord td ta te r r targetName = [].
Proof.
  unfold diffRecord. rewrite !flat_map_nil; [reflexivity | |].
  - intros key H. apply (proj2 (set_has_In _ _)) in H. rewrite H. cbn [negb].
    now rewrite json_differ_refl.
  - intros key H. apply (proj2 (set_has_In _ _)) in H. now rewrite H.
Qed.

Lemma filter_filter {A} (p q : A -> bool) l :
  filter p (filter q l) = filter (fun x => q x && p x) l.
Proof.
  induction l as [| x l IH]; cbn [filter]; [reflexivity |].
  destruct (q x); cbn [filter andb]; [| exact IH].
  destruct (p x); now rewrite IH.
Qed.

(** When every fingerprint of the old map is still in the new map, the first
    phase takes out of both lists every script with one of them. *)
Lemma exact_phase_unmatched oldEntries : forall newMap acc,
  NoDup (map fst oldEntries) ->
  (forall k, In k (map fst oldEntries) -> map_get String.eqb k newMap <> None) ->
  unmatchedOldScripts (fst (exact_phase oldEntries newMap acc))
  = filter (outside (map fst oldEntries)) (unmatchedOldScripts acc)
  /\ unmatchedNewScripts (fst (exact_phase oldEntries newMap acc))
     = filter (outside (map fst oldEntries)) (unmatchedNewScripts acc).
Proof.
  induction oldEntries as [| [fp oldS] rest IH]; intros newMap acc Hnd Hin;
    cbn [exact_phase map fst].
  - split; symmetry; apply CollectionFacts.filter_all; reflexivity.
  - inversion Hnd as [| ? ? Hfp Hrest]; subst.
    destruct (map_get String.eqb fp newMap) as [newS |] eqn:E;
      [| destruct (Hin fp (or_introl eq_refl) E)].
    destruct (IH (map_delete String.eqb fp newMap)
                 {| matchedScripts := matchedScripts acc ++ [ {| oldScript := oldS; newScript := newS |} ];
                    unmatchedOldScripts := filter (fp_differs fp) (unmatchedOldScripts acc);
                    unmatchedNewScripts := filter (fp_differs fp) (unmatchedNewScripts acc) |}
                 Hrest) as [Ho Hn].
    { intros k Hk. rewrite map_get_delete_other.
      - apply Hin. now right.
      - intros ->. contradiction. }
    rewrite Ho, Hn. cbn [unmatchedOldScripts unmatchedNewScripts].
    rewrite !filter_filter.
    split; apply filter_ext; intros sc; unfold outside, fp_differs, set_has;
      cbn [existsb]; now rewrite negb_orb.
Qed.

Lemma matchScripts_self scripts :
  unmatchedOldScripts (matchScripts scripts scripts) = []
  /\ unmatchedNewScripts (matchScripts scripts scripts) = [].
Proof.
  unfold matchScripts.
  destruct (exact_phase _ _ _) as [r1 nm] eqn:E1.
  assert (H : unmatchedOldScripts r1 = [] /\ unmatchedNewScripts r1 = []).
  { change r1 with (fst (r1, nm)). rewrite <- E1.
    destruct (@exact_phase_unmatched (by_fingerprint scripts) (by_fingerprint scripts)
                {| matchedScripts := []; unmatchedOldScripts := scripts;
                   unmatchedNewScripts := scripts |}) as [Ho Hn].
    - apply (map_of_keys (map (fun sc => (ScriptParser.fingerprint sc, sc)) scripts)).
    - intros k Hk E. apply (proj1 (map_get_None _ _)) in E. contradiction.
    - rewrite Ho, Hn. cbn [unmatchedOldScripts unmatchedNewScripts].
      assert (Hall : filter (outside (map fst (by_fingerprint scripts))) scripts = []).
      { apply CollectionFacts.filter_none. intros sc Hsc. unfold outside.
        apply negb_false_iff, set_has_In.
        apply (proj2 (map_of_keys (map (fun sc => (ScriptParser.fingerprint sc, sc)) scripts))).
        rewrite map_map. cbn [fst]. apply in_map_iff. now exists sc. }
      now rewrite Hall. }
  destruct H as [Ho Hn]. rewrite Ho, Hn. cbn [fallback_phase].
  now split.
Qed.

(** No script is ever reported as modified: the line diff counts no
    change. *)
Lemma modify_items_none matches targetName : modify_items matches targetName = Ret [].
Proof.
  induction matches as [| m rest IH]; cbn [modify_items]; [reflexivity |].
  rewrite TextDiffFacts.diffText_zero. cbn. now rewrite IH.
Qed.

Lemma script_items_self fuel t targetName scripts :
  scripts_of fuel t = Ret scripts ->
  script_items fuel (Some t) (Some t) targetName = Ret [].
Proof.
  intros H. unfold script_items. rewrite H. cbn [bind].
  rewrite modify_items_none. cbn [bind].
  destruct (matchScripts_self scripts) as [Ho Hn]. now rewrite Ho, Hn.
Qed.

Lemma collection_items_self rnd n t targetName :
  stable_target t ->
  collection_items rnd n (Some t) (Some t) targetName = Ret ([], n).
Proof.
  intros [Hc Hs]. unfold collection_items, diffVariables, diffLists, diffCostumes,
    diffSounds.
  rewrite !diffRecord_self.
  rewrite diffResources_self by exact Hc. cbn [bind fst snd].
  rewrite diffResources_self by exact Hs. reflexivity.
Qed.

Lemma find_target_In targetName p :
  In targetName (map name p) ->
  exists t, find_target targetName p = Some t /\ In t p.
Proof.
  induction p as [| t rest IH]; cbn [map In find_target]; [intros [] |].
  destruct (String.eqb_spec (name t) targetName) as [E | Hne].
  - intros _. exists t. split; [reflexivity | now left].
  - intros [E | H]; [contradiction |].
    destruct (IH H) as (t' & Ht' & Hin). exists t'. split; [exact Ht' | now right].
Qed.

Lemma diff_targets_self rnd fuel p names : forall n,
  all_stable p ->
  (forall t, In t p -> exists scripts, scripts_of fuel t = Ret scripts) ->
  (forall targetName, In targetName names -> In targetName (map name p)) ->
  diff_targets rnd fuel p p names n = Ret ([], n).
Proof.
  intros n Hst Hsc. revert n.
  induction names as [| targetName rest IH]; intros n Hnames; cbn [diff_targets];
    [reflexivity |].
  destruct (@find_target_In targetName p) as (t & Ht & Hin);
    [apply Hnames; now left |].
  rewrite Ht.
  rewrite collection_items_self
    by (unfold all_stable in Hst; rewrite Forall_forall in Hst; now apply Hst).
  cbn [bind fst snd].
  destruct (Hsc t Hin) as [scripts Hs].
  rewrite (script_items_self fuel t targetName Hs). cbn [bind].
  rewrite IH by (intros x Hx; apply Hnames; now right). reflexivity.
Qed.

(** C3, as the code has it.  When every costume and every sound of the
    document carries an asset identity ([assetId] or [md5ext]) and the
    scripts of every sprite can be rendered, the diff of the document
    against itself has no item at all. *)
Theorem self_diff_is_empty rnd fuel p :
  all_stable p ->
  (forall t, In t p -> exists scripts, scripts_of fuel t = Ret scripts) ->
  generateDiff rnd fuel p p = Ret [].
Proof.
  intros Hst Hsc. unfold generateDiff.
  rewrite diff_targets_self; [reflexivity | exact Hst | exact Hsc |].
  intros targetName H. unfold allTargetNames in H.
  apply (proj1 (set_of_In _ _)) in H. apply in_app_or in H.
  destruct H as [H | H]; now apply (proj1 (set_of_In _ _)) in H.
Qed.

End SelfDiff.

(* ------------------------------------------------------------------ *)
(** ** Replay of the costume and sound items of a diff *)

Module RoundTrip.

Import Js Raw Diff Replay Vocabulary AssetFacts Invariants.
Local Open Scope string_scope.

Lemma stable_good r : stable r = true -> good (key_of r).
Proof. intros H. now apply stable_spec. Qed.

(** *** The three changes, on lists of resources that have identities *)

Lemma delete_resource_stable o l :
  stable o = true -> stable_list l ->
  delete_resource (Some o) l
  = Ret (filter (fun r => negb (strict_eqb (key_of r) (key_of o))) l).
Proof.
  intros Ho. induction 1 as [| r l Hr Hl IH]; cbn [delete_resource filter];
    [reflexivity |].
  rewrite (proj1 (stable_spec r Hr)). cbn [bind identity_of].
  rewrite (proj1 (stable_spec o Ho)). cbn [bind].
  rewrite IH. cbn [bind same_value].
  now destruct (strict_eqb (key_of r) (key_of o)).
Qed.

Lemma edit_resource_stable o v l :
  stable o = true -> stable_list l ->
  edit_resource (Some o) (Some v) l = Ret (replace_key (key_of o) v l).
Proof.
  intros Ho. induction 1 as [| r l Hr Hl IH]; cbn [edit_resource replace_key];
    [reflexivity |].
  rewrite (proj1 (stable_spec r Hr)). cbn [bind identity_of].
  rewrite (proj1 (stable_spec o Ho)). cbn [bind same_value or_null].
  destruct (strict_eqb (key_of r) (key_of o)); [reflexivity |].
  now rewrite IH.
Qed.

Lemma stable_filter p l : stable_list l -> stable_list (filter p l).
Proof.
  unfold stable_list. rewrite !Forall_forall. intros H r Hr.
  apply filter_In in Hr. now apply H.
Qed.

Lemma stable_replace k v l :
  stable v = true -> stable_list l -> stable_list (replace_key k v l).
Proof.
  intros Hv. induction 1 as [| r l Hr Hl IH]; cbn [replace_key]; [constructor |].
  destruct (strict_eqb (key_of r) k); constructor; assumption.
Qed.

Lemma keys_replace k v l :
  key_of v = k -> map key_of (replace_key k v l) = map key_of l.
Proof.
  intros Hv. induction l as [| r l IH]; cbn [replace_key map]; [reflexivity |].
  destruct (strict_eqb (key_of r) k) eqn:E; cbn [map].
  - apply strict_eqb_eq in E. now rewrite Hv, E.
  - now rewrite IH.
Qed.

Lemma NoDup_keys_filter p l :
  NoDup (map key_of l) -> NoDup (map key_of (filter p l)).
Proof.
  induction l as [| r l IH]; cbn [filter map]; [intros; constructor |].
  intros H. inversion H as [| ? ? Hr Hl]; subst.
  destruct (p r); cbn [map]; [| now apply IH].
  constructor; [| now apply IH].
  intros Hin. apply Hr. apply in_map_iff in Hin. destruct Hin as (x & Hx & Hf).
  apply filter_In in Hf. apply in_map_iff. exists x. now split.
Qed.

(** *** The first entry under an identity *)

Lemma find_key_In k l r : find_key k l = Some r -> In r l /\ key_of r = k.
Proof.
  unfold find_key. intros H. apply find_some in H. destruct H as [Hin E].
  split; [exact Hin | now apply strict_eqb_eq].
Qed.

Lemma find_key_None k l :
  good k -> find_key k l = None -> ~ In k (map key_of l).
Proof.
  unfold find_key. intros Hk H Hin. apply in_map_iff in Hin.
  destruct Hin as (r & Hr & Hin).
  pose proof (find_none _ _ H r Hin) as E. cbn beta in E.
  rewrite Hr in E. unfold good in Hk. congruence.
Qed.

Lemma find_key_filter_same k l :
  find_key k (filter (fun r => negb (strict_eqb (key_of r) k)) l) = None.
Proof.
  unfold find_key. induction l as [| r l IH]; cbn [filter find]; [reflexivity |].
  destruct (strict_eqb (key_of r) k) eqn:E; cbn [negb find]; [exact IH |].
  now rewrite E.
Qed.

Lemma find_key_filter_other k k0 l :
  k0 <> k ->
  find_key k (filter (fun r => negb (strict_eqb (key_of r) k0)) l) = find_key k l.
Proof.
  unfold find_key. intros Hne.
  induction l as [| r l IH]; cbn [filter find]; [reflexivity |].
  destruct (strict_eqb (key_of r) k0) eqn:E0; cbn [negb find].
  - apply strict_eqb_eq in E0.
    destruct (strict_eqb (key_of r) k) eqn:E; [| exact IH].
    apply strict_eqb_eq in E. congruence.
  - now rewrite IH.
Qed.

Lemma find_key_app k l v :
  find_key k (l ++ [v])
  = match find_key k l with
    | Some r => Some r
    | None => if strict_eqb (key_of v) k then Some v else None
    end.
Proof.
  unfold find_key. induction l as [| r l IH]; cbn [app find]; [reflexivity |].
  destruct (strict_eqb (key_of r) k); [reflexivity | exact IH].
Qed.

Lemma find_key_replace_same k v l :
  good k -> key_of v = k ->
  find_key k (replace_key k v l)
  = match find_key k l with Some _ => Some v | None => None end.
Proof.
  unfold find_key. intros Hk Hv.
  induction l as [| r l IH]; cbn [replace_key find]; [reflexivity |].
  destruct (strict_eqb (key_of r) k) eqn:E; cbn [find].
  - rewrite Hv. unfold good in Hk. now rewrite Hk.
  - now rewrite E.
Qed.

Lemma find_key_replace_other k k0 v l :
  key_of v = k0 -> k0 <> k ->
  find_key k (replace_key k0 v l) = find_key k l.
Proof.
  unfold find_key. intros Hv Hne.
  induction l as [| r l IH]; cbn [replace_key find]; [reflexivity |].
  destruct (strict_eqb (key_of r) k0) eqn:E0; cbn [find].
  - apply strict_eqb_eq in E0.
    destruct (strict_eqb (key_of v) k) eqn:Ev;
      [apply strict_eqb_eq in Ev; congruence |].
    destruct (strict_eqb (key_of r) k) eqn:E; [| reflexivity].
    apply strict_eqb_eq in E. congruence.
  - destruct (strict_eqb (key_of r) k); [reflexivity | exact IH].
Qed.

(** *** The map of a list with distinct identities *)

Lemma map_get_pairs k l :
  map_get strict_eqb k (map (fun r => (key_of r, r)) l) = find_key k l.
Proof.
  unfold find_key. induction l as [| r l IH]; cbn [map map_get find]; [reflexivity |].
  destruct (strict_eqb (key_of r) k); [reflexivity | exact IH].
Qed.

Lemma map_get_app (k : json) (m m' : imap json json) :
  map_get strict_eqb k (m ++ m')%list
  = match map_get strict_eqb k m with
    | Some v => Some v
    | None => map_get strict_eqb k m'
    end.
Proof.
  induction m as [| [k' v'] m IH]; cbn [app map_get]; [reflexivity |].
  destruct (strict_eqb k' k); [reflexivity | exact IH].
Qed.

Lemma map_set_fresh (k v : json) (m : imap json json) :
  map_has strict_eqb k m = false -> map_set strict_eqb k v m = (m ++ [(k, v)])%list.
Proof.
  unfold map_has. induction m as [| [k' v'] m IH]; cbn [map_get map_set app];
    [reflexivity |].
  destruct (strict_eqb k' k); [discriminate |].
  intros H. now rewrite IH.
Qed.

Lemma resource_fold l : forall m,
  NoDup (map key_of l) ->
  (forall r, In r l -> map_has strict_eqb (key_of r) m = false) ->
  fold_left (fun m r => map_set strict_eqb (key_of r) r m) l m
  = (m ++ map (fun r => (key_of r, r)) l)%list.
Proof.
  induction l as [| r l IH]; intros m Hnd Hm; cbn [fold_left map].
  - now rewrite app_nil_r.
  - inversion Hnd as [| ? ? Hr Hl]; subst.
    rewrite map_set_fresh by (apply Hm; now left).
    rewrite IH; [now rewrite <- app_assoc | exact Hl |].
    intros r' Hr'. unfold map_has. rewrite map_get_app.
    pose proof (Hm r' (or_intror Hr')) as H. unfold map_has in H.
    destruct (map_get strict_eqb (key_of r') m); [discriminate |].
    cbn [map_get]. destruct (strict_eqb (key_of r) (key_of r')) eqn:E; [| reflexivity].
    apply strict_eqb_eq in E. destruct Hr. rewrite E. now apply in_map.
Qed.

Lemma resource_map_find l k :
  NoDup (map key_of l) ->
  map_get strict_eqb k (resource_map l) = find_key k l.
Proof.
  intros Hnd. unfold resource_map. rewrite resource_fold; [| exact Hnd | reflexivity].
  cbn [app]. apply map_get_pairs.
Qed.

(** Every entry of the map is one of the list, under its identity. *)
Lemma resource_fold_entries l : forall m e,
  In e (fold_left (fun m r => map_set strict_eqb (key_of r) r m) l m) ->
  In e m \/ (In (snd e) l /\ key_of (snd e) = fst e).
Proof.
  induction l as [| r l IH]; intros m e; cbn [fold_left]; [now left |].
  intros H. destruct (IH _ _ H) as [H1 | [H1 H2]].
  - destruct (In_map_set_json _ _ _ _ H1) as [-> | H3]; [| now left].
    right. split; [now left | reflexivity].
  - right. split; [now right | exact H2].
Qed.

Lemma resource_map_entries l k v :
  In (k, v) (resource_map l) -> In v l /\ key_of v = k.
Proof.
  intros H. destruct (resource_fold_entries _ _ _ H) as [[] | H1]. exact H1.
Qed.

Lemma fold_keys_has l : forall m k,
  good k ->
  In k (map key_of l) \/ map_has strict_eqb k m = true ->
  map_has strict_eqb k (fold_left (fun m r => map_set strict_eqb (key_of r) r m) l m)
  = true.
Proof.
  induction l as [| x l IH]; intros m k Hk H; cbn [fold_left].
  - destruct H as [[] | H]. exact H.
  - apply IH; [exact Hk |]. cbn [map In] in H.
    assert (Hin : In k (map fst m) -> In k (map fst (map_set strict_eqb (key_of x) x m))).
    { intros Hm. rewrite keys_map_set_has.
      destruct (map_has strict_eqb (key_of x) m); [exact Hm | apply in_or_app; now left]. }
    destruct H as [[<- | H] | H]; [right | now left | right].
    + apply map_has_key; [exact Hk |]. rewrite keys_map_set_has.
      destruct (map_has strict_eqb (key_of x) m) eqn:E.
      * now apply map_has_In.
      * apply in_or_app. right. now left.
    + apply map_has_key; [exact Hk |]. apply Hin. now apply map_has_In.
Qed.

Lemma resource_map_keys l r :
  stable r = true -> In r l -> map_has strict_eqb (key_of r) (resource_map l) = true.
Proof.
  intros Hr Hin. unfold resource_map. apply fold_keys_has.
  - now apply stable_good.
  - left. now apply in_map.
Qed.

(** *** The two runs of items that [diffResourceMaps] makes *)

Section Phases.
Variables t_delete t_add t_edit : DiffType.
Variable targetName : string.
Hypothesis delete_tag : change_type t_delete = Delete.
Hypothesis add_tag : change_type t_add = Add.
Hypothesis edit_tag : change_type t_edit = Edit.

Lemma delete_run newMap entries : forall l,
  stable_list l -> NoDup (map key_of l) -> Forall entry_ok entries ->
  exists l',
    apply_all false
      (flat_map (fun e => if negb (map_has strict_eqb (fst e) newMap)
                          then [item t_delete targetName (Some (snd e)) None (fst e)]
                          else []) entries) l = Ret l'
    /\ stable_list l' /\ NoDup (map key_of l')
    /\ forall k, find_key k l' = if deleted newMap entries k then None else find_key k l.
Proof.
  induction entries as [| [k0 o] rest IH]; intros l Hl Hnd He; cbn [flat_map].
  - exists l. now repeat split.
  - inversion He as [| ? ? [Ho Hk] Hrest]; subst. cbn [fst snd] in *.
    destruct (map_has strict_eqb k0 newMap) eqn:E; cbn [negb app].
    + destruct (IH l Hl Hnd Hrest) as (l' & Hrun & Hl' & Hnd' & Hfind).
      exists l'. repeat split; try assumption.
      intros k. rewrite Hfind. unfold deleted. cbn [existsb fst].
      rewrite E. cbn [negb]. now rewrite andb_false_r.
    + cbn [apply_all item type old new]. rewrite delete_tag.
      cbn [actualChangeType apply_change].
      rewrite delete_resource_stable by assumption. cbn [bind]. rewrite Hk.
      destruct (IH (filter (fun r => negb (strict_eqb (key_of r) k0)) l))
        as (l' & Hrun & Hl' & Hnd' & Hfind);
        [now apply stable_filter | now apply NoDup_keys_filter | exact Hrest |].
      exists l'. repeat split; try assumption.
      intros k. rewrite Hfind. unfold deleted. cbn [existsb fst].
      rewrite E. cbn [negb]. rewrite andb_true_r.
      destruct (strict_eqb k0 k) eqn:Ek; cbn [orb].
      * apply strict_eqb_eq in Ek. subst k.
        rewrite find_key_filter_same. now destruct (existsb _ rest).
      * rewrite find_key_filter_other; [reflexivity |].
        apply strict_eqb_neq; [| exact Ek]. rewrite <- Hk. now apply stable_good.
Qed.

Lemma keyed_equal_refl v : keyed_equal (Some v) (Some v).
Proof. reflexivity. Qed.

(** The second run: additions and edits, in the order of the new map. *)
Lemma update_run oldMap entries : forall l,
  NoDup (map fst entries) -> Forall entry_ok entries ->
  (forall k o, map_get strict_eqb k oldMap = Some o -> entry_ok (k, o)) ->
  stable_list l -> NoDup (map key_of l) ->
  (forall e, In e entries -> map_has strict_eqb (fst e) oldMap = false ->
             find_key (fst e) l = None) ->
  (forall e, In e entries -> map_has strict_eqb (fst e) oldMap = true ->
             find_key (fst e) l = map_get strict_eqb (fst e) oldMap) ->
  exists l',
    apply_all false
      (flat_map (fun e =>
                   if negb (map_has strict_eqb (fst e) oldMap)
                   then [item t_add targetName None (Some (snd e)) (fst e)]
                   else
                     let oldResource := map_get strict_eqb (fst e) oldMap in
                     if json_differ oldResource (Some (snd e))
                     then [item t_edit targetName oldResource (Some (snd e)) (fst e)]
                     else []) entries) l = Ret l'
    /\ stable_list l' /\ NoDup (map key_of l')
    /\ (forall k, ~ In k (map fst entries) -> find_key k l' = find_key k l)
    /\ (forall k v, In (k, v) entries -> keyed_equal (find_key k l') (Some v)).
Proof.
  induction entries as [| [k0 v0] rest IH]; intros l Hnd He Hold Hl Hkeys Hnew Hboth;
    cbn [flat_map].
  - exists l. repeat split; try assumption. intros k v [].
  - inversion Hnd as [| ? ? Hk0 Hnd']; subst.
    inversion He as [| ? ? [Hv0 Hkv0] He']; subst. cbn [fst snd] in *.
    assert (Hg0 : good k0) by (rewrite <- Hkv0; now apply stable_good).
    assert (Hother : forall e, In e rest -> k0 <> fst e).
    { intros e Hin ->. apply Hk0. now apply in_map. }
    destruct (map_has strict_eqb k0 oldMap) eqn:E; cbn [negb].
    + (* the identity is on both sides *)
      pose proof (Hboth (k0, v0) (or_introl eq_refl) E) as Hfound. cbn [fst] in Hfound.
      unfold map_has in E.
      destruct (map_get strict_eqb k0 oldMap) as [o |] eqn:Eo; [| discriminate].
      destruct (Hold k0 o Eo) as [Ho Hko]. cbn [fst snd] in Ho, Hko.
      destruct (json_differ (Some o) (Some v0)) eqn:Ed; cbn [app].
      * cbn [apply_all item type old new]. rewrite edit_tag.
        cbn [actualChangeType apply_change].
        rewrite edit_resource_stable by assumption. cbn [bind]. rewrite Hko.
        destruct (IH (replace_key k0 v0 l)) as (l' & Hrun & Hl' & Hnd'' & Hrest & Hin);
          try assumption.
        { now apply stable_replace. }
        { now rewrite keys_replace. }
        { intros e Hine Hm. rewrite find_key_replace_other by auto.
          apply Hnew; [now right | exact Hm]. }
        { intros e Hine Hm. rewrite find_key_replace_other by auto.
          apply Hboth; [now right | exact Hm]. }
        exists l'. repeat split; try assumption.
        -- intros k Hk. rewrite Hrest by (intros H; apply Hk; now right).
           apply find_key_replace_other; [exact Hkv0 |].
           intros <-. apply Hk. now left.
        -- intros k v [[= <- <-] | Hkv]; [| now apply Hin].
           rewrite Hrest by exact Hk0.
           rewrite find_key_replace_same by assumption.
           rewrite Hfound. apply keyed_equal_refl.
      * destruct (IH l) as (l' & Hrun & Hl' & Hnd'' & Hrest & Hin); try assumption.
        { intros e Hine Hm. apply Hnew; [now right | exact Hm]. }
        { intros e Hine Hm. apply Hboth; [now right | exact Hm]. }
        exists l'. repeat split; try assumption.
        -- intros k Hk. apply Hrest. intros H. apply Hk. now right.
        -- intros k v [[= <- <-] | Hkv]; [| now apply Hin].
           rewrite Hrest by exact Hk0. rewrite Hfound.
           unfold json_differ in Ed. cbn [option_map] in Ed.
           apply negb_false_iff, String.eqb_eq in Ed. exact Ed.
    + (* the identity is new *)
      pose proof (Hnew (k0, v0) (or_introl eq_refl) E) as Hfresh. cbn [fst] in Hfresh.
      cbn [app apply_all item type old new]. rewrite add_tag.
      cbn [actualChangeType apply_change bind or_null].
      assert (Hfind : forall k, k <> k0 -> find_key k (l ++ [v0]) = find_key k l).
      { intros k Hk. rewrite find_key_app.
        destruct (find_key k l); [reflexivity |].
        destruct (strict_eqb (key_of v0) k) eqn:Ek; [| reflexivity].
        apply strict_eqb_eq in Ek. congruence. }
      destruct (IH (l ++ [v0])%list) as (l' & Hrun & Hl' & Hnd'' & Hrest & Hin);
        try assumption.
      { apply Forall_app. split; [exact Hl | now repeat constructor]. }
      { rewrite map_app. cbn [map]. apply NoDup_app; [exact Hkeys | repeat constructor; intros [] |].
        intros x Hx [<- | []]. rewrite Hkv0 in Hx.
        exact (@find_key_None k0 l Hg0 Hfresh Hx). }
      { intros e Hine Hm. rewrite Hfind by (apply not_eq_sym; auto).
        apply Hnew; [now right | exact Hm]. }
      { intros e Hine Hm. rewrite Hfind by (apply not_eq_sym; auto).
        apply Hboth; [now right | exact Hm]. }
      exists l'. repeat split; try assumption.
      * intros k Hk. rewrite Hrest by (intros H; apply Hk; now right).
        apply Hfind. intros ->. apply Hk. now left.
      * intros k v [[= <- <-] | Hkv]; [| now apply Hin].
        rewrite Hrest by exact Hk0. rewrite find_key_app, Hfresh, Hkv0.
        unfold good in Hg0. rewrite Hg0. apply keyed_equal_refl.
Qed.

End Phases.

(** *** Keyed collections without twins *)

Lemma find_key_found k l :
  stable_list l -> In k (map key_of l) -> find_key k l <> None.
Proof.
  intros Hl Hin E. apply in_map_iff in Hin. destruct Hin as (r & Hr & Hin).
  assert (Hg : good k).
  { rewrite <- Hr. apply stable_good.
    unfold stable_list in Hl. rewrite Forall_forall in Hl. now apply Hl. }
  apply (@find_key_None k l Hg E). rewrite <- Hr. now apply in_map.
Qed.

(** Two lists of resources with identities, distinct within each list, that
    are the same keyed collection hold the same entries. *)
Lemma same_assets_entries l1 l2 :
  stable_list l1 -> stable_list l2 ->
  NoDup (map key_of l1) -> NoDup (map key_of l2) ->
  same_assets l1 l2 -> same_entries l1 l2.
Proof.
  intros H1 H2 N1 N2 Hs.
  assert (Hk : forall k, keyed_equal (find_key k l1) (find_key k l2)).
  { intros k. rewrite <- !resource_map_find by assumption. apply Hs. }
  split; [| exact Hk].
  apply NoDup_Permutation; [exact N1 | exact N2 |]. intros k. split; intros Hin.
  - pose proof (@find_key_found k l1 H1 Hin) as Hf. specialize (Hk k).
    destruct (find_key k l1) as [r1 |]; [| now destruct Hf].
    destruct (find_key k l2) as [r2 |] eqn:E2; [| destruct Hk].
    destruct (@find_key_In _ _ _ E2) as [Hr <-]. now apply in_map.
  - pose proof (@find_key_found k l2 H2 Hin) as Hf. specialize (Hk k).
    destruct (find_key k l2) as [r2 |]; [| now destruct Hf].
    destruct (find_key k l1) as [r1 |] eqn:E1; [| destruct Hk].
    destruct (@find_key_In _ _ _ E1) as [Hr <-]. now apply in_map.
Qed.

(** *** The round trip on one list *)

Lemma apply_all_app isReverse xs ys l :
  apply_all isReverse (xs ++ ys) l
  = (l1 <- apply_all isReverse xs l ;; apply_all isReverse ys l1).
Proof.
  revert l. induction xs as [| x xs IH]; intros l; cbn [app apply_all bind];
    [reflexivity |].
  destruct (apply_change _ _ _ l) as [l1 | e |]; cbn [bind]; [apply IH | reflexivity ..].
Qed.

Lemma resource_map_entry_ok l e :
  stable_list l -> In e (resource_map l) -> entry_ok e.
Proof.
  intros Hl He. destruct e as [k v].
  destruct (resource_map_entries _ _ _ He) as [Hin Hk].
  split; [| exact Hk]. cbn [snd].
  unfold stable_list in Hl. rewrite Forall_forall in Hl. now apply Hl.
Qed.

Lemma deleted_false newMap entries k :
  map_has strict_eqb k newMap = true -> deleted newMap entries k = false.
Proof.
  intros H. unfold deleted. induction entries as [| e rest IH]; cbn [existsb];
    [reflexivity |].
  rewrite IH, orb_false_r.
  destruct (strict_eqb (fst e) k) eqn:E; [| reflexivity].
  apply strict_eqb_eq in E. rewrite E, H. reflexivity.
Qed.

Lemma deleted_true newMap entries k o :
  good k -> In (k, o) entries -> map_has strict_eqb k newMap = false ->
  deleted newMap entries k = true.
Proof.
  intros Hk Hin H. unfold deleted. apply existsb_exists. exists (k, o).
  split; [exact Hin |]. cbn [fst]. unfold good in Hk. now rewrite Hk, H.
Qed.

Section OneList.
Variables t_delete t_add t_edit : DiffType.
Variable targetName : string.
Hypothesis delete_tag : change_type t_delete = Delete.
Hypothesis add_tag : change_type t_add = Add.
Hypothesis edit_tag : change_type t_edit = Edit.

(** The items that [diffResourceMaps] makes for two lists of resources with
    identities, replayed forward on the old list, whose identities are
    distinct, give a list that is the same keyed collection as the new
    one. *)
Lemma list_round_trip oldL newL :
  stable_list oldL -> stable_list newL -> NoDup (map key_of oldL) ->
  exists l',
    apply_all false
      (diffResourceMaps t_delete t_add t_edit (resource_map oldL) (resource_map newL)
         targetName) oldL = Ret l'
    /\ stable_list l' /\ NoDup (map key_of l') /\ same_assets l' newL.
Proof.
  intros Ho Hn Hnd. unfold diffResourceMaps. rewrite apply_all_app.
  destruct (@delete_run t_delete targetName delete_tag (resource_map newL)
              (resource_map oldL) oldL Ho Hnd) as (l1 & Hrun1 & Hl1 & Hnd1 & Hfind1).
  { apply Forall_forall. intros e He. now apply resource_map_entry_ok with oldL. }
  rewrite Hrun1. cbn [bind].
  pose proof (resource_map_tidy Hn) as [HndN HgN].
  destruct (@update_run t_add t_edit targetName add_tag edit_tag (resource_map oldL)
              (resource_map newL) l1) as (l' & Hrun2 & Hl' & Hnd' & Hrest & Hin);
    try assumption.
  - apply Forall_forall. intros e He. now apply resource_map_entry_ok with newL.
  - intros k o H. apply resource_map_entry_ok with oldL; [exact Ho |].
    now apply map_get_entry.
  - intros e He H. rewrite Hfind1.
    destruct (deleted _ _ _); [reflexivity |].
    rewrite <- resource_map_find by exact Hnd. unfold map_has in H.
    now destruct (map_get strict_eqb (fst e) (resource_map oldL)).
  - intros e He H. rewrite Hfind1, deleted_false.
    + symmetry. now apply resource_map_find.
    + apply map_has_key.
      * rewrite Forall_forall in HgN. apply HgN. now apply in_map.
      * now apply in_map.
  - exists l'. split; [exact Hrun2 |]. split; [exact Hl' |]. split; [exact Hnd' |].
    intros k. rewrite (@resource_map_find l' k Hnd').
    destruct (map_get strict_eqb k (resource_map newL)) as [v |] eqn:E.
    + apply Hin. now apply map_get_entry.
    + destruct (find_key k l') as [r |] eqn:Ef; [| exact I]. exfalso.
      destruct (find_key_In _ _ Ef) as [Hr Hkr].
      assert (Hg : good k).
      { rewrite <- Hkr. apply stable_good.
        unfold stable_list in Hl'. rewrite Forall_forall in Hl'. now apply Hl'. }
      assert (HmN : map_has strict_eqb k (resource_map newL) = false)
        by (unfold map_has; now rewrite E).
      assert (Hout : ~ In k (map fst (resource_map newL))).
      { intros Hk. rewrite (map_has_key _ Hg Hk) in HmN. discriminate. }
      rewrite (Hrest k Hout), Hfind1 in Ef.
      destruct (deleted (resource_map newL) (resource_map oldL) k) eqn:Ed;
        [discriminate |].
      destruct (find_key_In _ _ Ef) as [Hr0 Hkr0].
      assert (Hs0 : stable r = true).
      { unfold stable_list in Ho. rewrite Forall_forall in Ho. now apply Ho. }
      pose proof (@resource_map_keys oldL r Hs0 Hr0) as HmO. rewrite Hkr0 in HmO.
      unfold map_has in HmO.
      destruct (map_get strict_eqb k (resource_map oldL)) as [o |] eqn:Eo;
        [| discriminate].
      apply map_get_entry in Eo.
      rewrite (@deleted_true (resource_map newL) (resource_map oldL) k o Hg Eo HmN) in Ed.
      discriminate.
Qed.

End OneList.

(** *** The items of a diff, sprite by sprite *)

Lemma Forall_flat_map {A B} (P : B -> Prop) (f : A -> list B) l :
  (forall x, In x l -> Forall P (f x)) -> Forall P (flat_map f l).
Proof.
  induction l as [| x l IH]; intros H; cbn [flat_map]; [constructor |].
  apply Forall_app. split; [apply H; now left |].
  apply IH. intros y Hy. apply H. now right.
Qed.

Lemma diffRecord_shape td ta te oldR newR targetName (P : DiffItem -> Prop) :
  (forall t o n fp, In t [td; ta; te] -> P (item t targetName o n fp)) ->
  Forall P (diffRecord td ta te oldR newR targetName).
Proof.
  intros HP. unfold diffRecord. apply Forall_app. split; apply Forall_flat_map; intros key _.
  - destruct (negb _); repeat constructor. apply HP. cbn. tauto.
  - destruct (negb _); [repeat constructor; apply HP; cbn; tauto |].
    destruct (json_differ _ _); repeat constructor. apply HP. cbn. tauto.
Qed.

Lemma diffResourceMaps_about td ta te oldMap newMap targetName :
  Forall (about targetName) (diffResourceMaps td ta te oldMap newMap targetName).
Proof.
  unfold diffResourceMaps. apply Forall_app. split; apply Forall_flat_map; intros e _.
  - destruct (negb _); repeat constructor.
  - destruct (negb _); [repeat constructor |].
    cbv zeta. destruct (json_differ _ _); repeat constructor.
Qed.

Lemma script_items_shape fuel o n targetName sc :
  script_items fuel o n targetName = Ret sc ->
  Forall (fun it => about targetName it /\ no_resource it) sc.
Proof.
  assert (Hd : forall l, Forall (fun it => about targetName it /\ no_resource it)
                           (map (delete_item targetName) l)).
  { intros l. apply Forall_forall. intros it H. apply in_map_iff in H.
    destruct H as (x & <- & _). now split. }
  assert (Ha : forall l, Forall (fun it => about targetName it /\ no_resource it)
                           (map (add_item targetName) l)).
  { intros l. apply Forall_forall. intros it H. apply in_map_iff in H.
    destruct H as (x & <- & _). now split. }
  unfold script_items. destruct o as [o |], n as [n |].
  - destruct (scripts_of fuel o) as [so | |]; cbn [bind]; try discriminate.
    destruct (scripts_of fuel n) as [sn | |]; cbn [bind]; try discriminate.
    rewrite SelfDiff.modify_items_none. cbn [bind app]. intros [= <-].
    apply Forall_app. split; [apply Hd | apply Ha].
  - destruct (scripts_of fuel o) as [so | |]; cbn [bind]; try discriminate.
    intros [= <-]. apply Hd.
  - destruct (scripts_of fuel n) as [sn | |]; cbn [bind]; try discriminate.
    intros [= <-]. apply Ha.
  - intros [= <-]. constructor.
Qed.

Lemma filter_concerns_none rt targetName l :
  Forall (fun it => ~ about targetName it \/ no_resource it) l ->
  filter (concerns rt targetName) l = [].
Proof.
  intros H. apply CollectionFacts.filter_none. rewrite Forall_forall in H.
  intros it Hit. unfold concerns. destruct (H it Hit) as [Hn | Hn].
  - unfold about in Hn. apply String.eqb_neq in Hn. now rewrite Hn.
  - unfold no_resource in Hn. rewrite Hn. apply andb_false_r.
Qed.

Lemma filter_concerns_all rt targetName l :
  Forall (fun it => about targetName it
                    /\ exists r, resource_type (type it) = Some r
                                 /\ resourceType_eqb r rt = true) l ->
  filter (concerns rt targetName) l = l.
Proof.
  intros H. apply CollectionFacts.filter_all. rewrite Forall_forall in H.
  intros it Hit. unfold concerns. destruct (H it Hit) as (Ha & r & Hr & Hrt).
  unfold about in Ha. now rewrite Ha, String.eqb_refl, Hr, Hrt.
Qed.

Lemma filter_concerns_other rt targetName r l :
  resourceType_eqb r rt = false ->
  Forall (fun it => resource_type (type it) = Some r) l ->
  filter (concerns rt targetName) l = [].
Proof.
  intros Hr H. apply CollectionFacts.filter_none. rewrite Forall_forall in H.
  intros it Hit. unfold concerns. rewrite (H it Hit), Hr. apply andb_false_r.
Qed.

Lemma diffResourceMaps_types td ta te oldMap newMap targetName (P : DiffType -> Prop) :
  P td -> P ta -> P te ->
  Forall (fun it => P (type it)) (diffResourceMaps td ta te oldMap newMap targetName).
Proof.
  intros Hd Ha He. unfold diffResourceMaps.
  apply Forall_app. split; apply Forall_flat_map; intros e _.
  - destruct (negb _); repeat constructor. exact Hd.
  - destruct (negb _); [repeat constructor; exact Ha |].
    cbv zeta. destruct (json_differ _ _); repeat constructor. exact He.
Qed.

Lemma find_target_Some targetName p t :
  find_target targetName p = Some t -> In t p /\ name t = targetName.
Proof.
  induction p as [| t0 rest IH]; cbn [find_target]; [discriminate |].
  destruct (String.eqb_spec (name t0) targetName) as [E | Hne].
  - intros [= ->]. split; [now left | exact E].
  - intros H. destruct (IH H) as [Hin Hn]. split; [now right | exact Hn].
Qed.

Lemma stable_found targetName p t :
  all_stable p -> find_target targetName p = Some t -> stable_target t.
Proof.
  intros Hp H. apply find_target_Some in H. unfold all_stable in Hp.
  rewrite Forall_forall in Hp. now apply Hp.
Qed.

(** The collection items of one sprite, when no random key is drawn. *)
Lemma collection_items_stable rnd n oldT newT targetName :
  stable_target oldT -> stable_target newT ->
  collection_items rnd n (Some oldT) (Some newT) targetName
  = Ret ((diffVariables (variables oldT) (variables newT) targetName
          ++ diffLists (lists oldT) (lists newT) targetName
          ++ resource_diff Costumes oldT newT targetName
          ++ resource_diff Sounds oldT newT targetName)%list, n).
Proof.
  intros [Hoc Hos] [Hnc Hns]. unfold collection_items, diffCostumes, diffSounds,
    diffResources, resource_diff.
  repeat (rewrite createResourceMap_stable by assumption; cbn [bind fst snd]).
  reflexivity.
Qed.

(** What the items of one sprite, other than [targetName], or the items that
    are about no resource, come to under [concerns]. *)
Lemma filter_concerns_collection rt targetName oldT newT :
  filter (concerns rt targetName)
    (diffVariables (variables oldT) (variables newT) targetName
     ++ diffLists (lists oldT) (lists newT) targetName
     ++ resource_diff Costumes oldT newT targetName
     ++ resource_diff Sounds oldT newT targetName)
  = resource_diff rt oldT newT targetName.
Proof.
  rewrite !filter_app.
  rewrite (@filter_concerns_none rt targetName (diffVariables _ _ _)).
  2:{ apply diffRecord_shape. intros t o n fp [<- | [<- | [<- | []]]]; now right. }
  rewrite (@filter_concerns_none rt targetName (diffLists _ _ _)).
  2:{ apply diffRecord_shape. intros t o n fp [<- | [<- | [<- | []]]]; now right. }
  cbn [app].
  assert (Hc : forall r, Forall (fun it => about targetName it
                 /\ exists r', resource_type (type it) = Some r'
                               /\ resourceType_eqb r' r = true)
                 (resource_diff r oldT newT targetName)).
  { intros r. apply Forall_forall. intros it Hit. split.
    - pose proof (diffResourceMaps_about) as H.
      destruct r; cbn [resource_diff] in Hit;
        eapply Forall_forall in Hit; try apply diffResourceMaps_about; exact Hit.
    - destruct r; cbn [resource_diff] in Hit.
      + eapply Forall_forall in Hit;
          [| apply (@diffResourceMaps_types _ _ _ _ _ _
                      (fun t => resource_type t = Some Costumes)); reflexivity].
        exists Costumes. now split.
      + eapply Forall_forall in Hit;
          [| apply (@diffResourceMaps_types _ _ _ _ _ _
                      (fun t => resource_type t = Some Sounds)); reflexivity].
        exists Sounds. now split. }
  assert (Ho : forall r r', resourceType_eqb r r' = false ->
                 filter (concerns r' targetName) (resource_diff r oldT newT targetName) = []).
  { intros r r' Hr. apply filter_concerns_other with r; [exact Hr |].
    destruct r; cbn [resource_diff].
    - apply (@diffResourceMaps_types _ _ _ _ _ _
               (fun t => resource_type t = Some Costumes)); reflexivity.
    - apply (@diffResourceMaps_types _ _ _ _ _ _
               (fun t => resource_type t = Some Sounds)); reflexivity. }
  destruct rt.
  - rewrite filter_concerns_all by apply Hc.
    rewrite (Ho Sounds Costumes eq_refl). apply app_nil_r.
  - rewrite (Ho Costumes Sounds eq_refl).
    rewrite filter_concerns_all by apply Hc. reflexivity.
Qed.

(** *** The items of a diff can be carried out *)

Lemma ok_no_resource it : no_resource it -> ok_item it.
Proof. unfold no_resource, ok_item. now intros ->. Qed.

Lemma diffResourceMaps_ok td ta te r oldL newL targetName :
  resource_type td = Some r -> resource_type ta = Some r -> resource_type te = Some r ->
  change_type td = Delete -> change_type ta = Add -> change_type te = Edit ->
  stable_list oldL -> stable_list newL ->
  Forall ok_item
    (diffResourceMaps td ta te (resource_map oldL) (resource_map newL) targetName).
Proof.
  intros Hrd Hra Hre Hcd Hca Hce Ho Hn. unfold diffResourceMaps.
  apply Forall_app. split; apply Forall_flat_map; intros e He.
  - destruct (negb _); repeat constructor.
    unfold ok_item. cbn [item type old new]. rewrite Hrd, Hcd.
    exists (snd e). split; [reflexivity |].
    now apply (@resource_map_entry_ok oldL e Ho He).
  - assert (Hnew : has_identity (Some (snd e))).
    { exists (snd e). split; [reflexivity |]. now apply (@resource_map_entry_ok newL e Hn He). }
    destruct (negb (map_has strict_eqb (fst e) (resource_map oldL))) eqn:E.
    + repeat constructor. unfold ok_item. cbn [item type old new].
      now rewrite Hra, Hca.
    + cbv zeta. destruct (json_differ _ _); repeat constructor.
      unfold ok_item. cbn [item type old new]. rewrite Hre, Hce.
      split; [| exact Hnew].
      apply negb_false_iff in E. unfold map_has in E.
      destruct (map_get strict_eqb (fst e) (resource_map oldL)) as [o |] eqn:Eo;
        [| discriminate].
      exists o. split; [reflexivity |].
      apply map_get_entry in Eo. now apply (@resource_map_entry_ok oldL _ Ho Eo).
Qed.

Lemma resource_diff_ok rt oldT newT targetName :
  stable_target oldT -> stable_target newT ->
  Forall ok_item (resource_diff rt oldT newT targetName).
Proof.
  intros [Hoc Hos] [Hnc Hns]. destruct rt; cbn [resource_diff].
  - now apply diffResourceMaps_ok with Costumes.
  - now apply diffResourceMaps_ok with Sounds.
Qed.

Lemma record_items_plain td ta te oldR newR targetName :
  In td [variable_delete; list_delete] ->
  In ta [variable_add; list_add] ->
  In te [variable_edit; list_edit] ->
  Forall (fun it => about targetName it /\ no_resource it)
         (diffRecord td ta te oldR newR targetName).
Proof.
  intros Hd Ha He. apply diffRecord_shape.
  intros t o n fp [<- | [<- | [<- | []]]]; (split; [reflexivity |]);
    cbn in Hd, Ha, He; unfold no_resource; cbn [item type].
  - destruct Hd as [<- | [<- | []]]; reflexivity.
  - destruct Ha as [<- | [<- | []]]; reflexivity.
  - destruct He as [<- | [<- | []]]; reflexivity.
Qed.

Lemma collection_about oldT newT targetName :
  Forall (about targetName)
    (diffVariables (variables oldT) (variables newT) targetName
     ++ diffLists (lists oldT) (lists newT) targetName
     ++ resource_diff Costumes oldT newT targetName
     ++ resource_diff Sounds oldT newT targetName).
Proof.
  apply Forall_app; split; [| apply Forall_app; split; [| apply Forall_app; split]].
  - eapply Forall_impl; [| apply record_items_plain; cbn; tauto]. now intros it [H _].
  - eapply Forall_impl; [| apply record_items_plain; cbn; tauto]. now intros it [H _].
  - apply diffResourceMaps_about.
  - apply diffResourceMaps_about.
Qed.

Lemma collection_ok oldT newT targetName :
  stable_target oldT -> stable_target newT ->
  Forall ok_item
    (diffVariables (variables oldT) (variables newT) targetName
     ++ diffLists (lists oldT) (lists newT) targetName
     ++ resource_diff Costumes oldT newT targetName
     ++ resource_diff Sounds oldT newT targetName).
Proof.
  intros Ho Hn.
  apply Forall_app; split; [| apply Forall_app; split; [| apply Forall_app; split]].
  - eapply Forall_impl; [| apply record_items_plain; cbn; tauto].
    intros it [_ H]. now apply ok_no_resource.
  - eapply Forall_impl; [| apply record_items_plain; cbn; tauto].
    intros it [_ H]. now apply ok_no_resource.
  - now apply resource_diff_ok.
  - now apply resource_diff_ok.
Qed.

(** The items of a whole diff: all can be carried out, and those that
    concern one kind of resource of one sprite are the items of that
    sprite's two lists. *)
Lemma diff_targets_spec rnd fuel oldP newP rt targetName oldT newT :
  all_stable oldP -> all_stable newP ->
  find_target targetName oldP = Some oldT ->
  find_target targetName newP = Some newT ->
  forall names n items n',
  NoDup names ->
  diff_targets rnd fuel oldP newP names n = Ret (items, n') ->
  Forall ok_item items
  /\ filter (concerns rt targetName) items
     = if in_dec string_dec targetName names
       then resource_diff rt oldT newT targetName else [].
Proof.
  intros Hso Hsn Hfo Hfn. induction names as [| n0 rest IH]; intros n items n' Hnd;
    cbn [diff_targets].
  - intros [= <- <-]. split; [constructor | reflexivity].
  - inversion Hnd as [| ? ? Hn0 Hrest]; subst.
    destruct (collection_items rnd n (find_target n0 oldP) (find_target n0 newP) n0)
      as [[c n1] | |] eqn:Ec; cbn [bind]; try discriminate.
    destruct (script_items fuel (find_target n0 oldP) (find_target n0 newP) n0)
      as [sc | |] eqn:Es; cbn [bind]; try discriminate.
    cbn [fst snd].
    destruct (diff_targets rnd fuel oldP newP rest n1) as [[r n2] | |] eqn:Er;
      cbn [bind]; try discriminate.
    intros [= <- <-]. cbn [fst].
    destruct (IH _ _ _ Hrest Er) as [Hok Hfilter].
    pose proof (script_items_shape _ _ _ _ Es) as Hsc.
    assert (Hc : Forall ok_item c /\ Forall (about n0) c
                 /\ (n0 = targetName ->
                     filter (concerns rt targetName) c
                     = resource_diff rt oldT newT targetName)).
    { destruct (find_target n0 oldP) as [o |] eqn:Eo,
               (find_target n0 newP) as [nw |] eqn:En.
      - pose proof (@stable_found n0 oldP o Hso Eo) as Hto.
        pose proof (@stable_found n0 newP nw Hsn En) as Htn.
        rewrite collection_items_stable in Ec by assumption.
        injection Ec as <- <-.
        split; [now apply collection_ok |].
        split; [apply collection_about |].
        intros ->. rewrite Hfo in Eo. rewrite Hfn in En.
        injection Eo as <-. injection En as <-.
        apply filter_concerns_collection.
      - cbn in Ec. injection Ec as <- <-.
        repeat split; try constructor. intros ->. congruence.
      - cbn in Ec. injection Ec as <- <-.
        repeat split; try constructor. intros ->. congruence.
      - cbn in Ec. injection Ec as <- <-.
        repeat split; try constructor. intros ->. congruence. }
    destruct Hc as (Hcok & Hcab & Hcf).
    split.
    + apply Forall_app; split; [exact Hcok |].
      apply Forall_app; split; [| exact Hok].
      eapply Forall_impl; [| exact Hsc]. intros it [_ H]. now apply ok_no_resource.
    + rewrite !filter_app, Hfilter.
      rewrite (@filter_concerns_none rt targetName sc)
        by (eapply Forall_impl; [| exact Hsc]; intros it [_ H]; now right).
      cbn [app].
      destruct (string_dec n0 targetName) as [E | Hne].
      * subst n0. rewrite (Hcf eq_refl).
        destruct (in_dec string_dec targetName rest) as [i | _]; [contradiction |].
        destruct (in_dec string_dec targetName (targetName :: rest)) as [_ | n'];
          [apply app_nil_r | destruct n'; now left].
      * rewrite (@filter_concerns_none rt targetName c).
        2:{ eapply Forall_impl; [| exact Hcab]. intros it H. left.
            unfold about in *. congruence. }
        cbn [app].
        destruct (in_dec string_dec targetName rest) as [i | n'];
          destruct (in_dec string_dec targetName (n0 :: rest)) as [i' | n'']; try reflexivity.
        -- destruct n''. now right.
        -- destruct i' as [E | i']; [contradiction | contradiction].
Qed.

(** *** The replay, seen from one sprite *)

Unset Implicit Arguments.

Lemma on_first_found targetName f p t :
  find_target targetName p = Some t ->
  on_first targetName f p = Some (t' <- f t ;; Ret (update_first targetName t' p)).
Proof.
  induction p as [| t0 rest IH]; cbn [find_target on_first update_first];
    [discriminate |].
  destruct (String.eqb (name t0) targetName) eqn:E.
  - intros [= ->]. reflexivity.
  - intros H. rewrite (IH H). f_equal. now destruct (f t).
Qed.

Lemma find_update_same targetName t' p t :
  find_target targetName p = Some t -> name t' = targetName ->
  find_target targetName (update_first targetName t' p) = Some t'.
Proof.
  intros H Hn. induction p as [| t0 rest IH]; cbn [find_target update_first] in *;
    [discriminate |].
  destruct (String.eqb (name t0) targetName) eqn:E; cbn [find_target].
  - now rewrite Hn, String.eqb_refl.
  - rewrite E. now apply IH.
Qed.

Lemma find_update_other targetName n t' p t0 :
  find_target n p = Some t0 -> name t' = n -> n <> targetName ->
  find_target targetName (update_first n t' p) = find_target targetName p.
Proof.
  intros H Hn Hne. induction p as [| t1 rest IH]; cbn [find_target update_first] in *;
    [reflexivity |].
  destruct (String.eqb_spec (name t1) n) as [E | E]; cbn [find_target].
  - rewrite Hn. destruct (String.eqb_spec n targetName) as [E' | _]; [contradiction |].
    destruct (String.eqb_spec (name t1) targetName) as [E' | _]; [congruence | reflexivity].
  - destruct (String.eqb (name t1) targetName); [reflexivity | now apply IH].
Qed.

Lemma find_target_snoc targetName p t s :
  find_target targetName p = Some t -> find_target targetName (p ++ [s])%list = Some t.
Proof.
  induction p as [| t0 rest IH]; cbn [find_target app]; [discriminate |].
  destruct (String.eqb (name t0) targetName); [trivial | exact IH].
Qed.

Lemma all_stable_update n t' p :
  all_stable p -> stable_target t' -> all_stable (update_first n t' p).
Proof.
  unfold all_stable. intros Hp Ht. induction Hp as [| t0 rest H0 Hrest IH];
    cbn [update_first]; [constructor |].
  destruct (String.eqb (name t0) n); constructor; assumption.
Qed.

Lemma replay_list_cons rt targetName it rest l :
  replay_list false rt targetName (it :: rest) l
  = if String.eqb (Diff.targetName it) targetName
    then l1 <- step rt it l ;; replay_list false rt targetName rest l1
    else replay_list false rt targetName rest l.
Proof.
  unfold replay_list, step, concerns. cbn [filter].
  destruct (String.eqb (Diff.targetName it) targetName); cbn [andb]; [| reflexivity].
  destruct (resource_type (type it)) as [r |]; [| reflexivity].
  destruct (resourceType_eqb r rt); reflexivity.
Qed.

Lemma apply_change_ok c o v l :
  stable_list l ->
  match c with
  | Add => has_identity v
  | Delete => has_identity o
  | Edit => has_identity o /\ has_identity v
  end ->
  exists l', apply_change c o v l = Ret l' /\ stable_list l'.
Proof.
  intros Hl. destruct c; cbn [apply_change].
  - intros (r & -> & Hr). eexists. split; [reflexivity |]. cbn [or_null].
    apply Forall_app. split; [exact Hl | now repeat constructor].
  - intros (r & -> & Hr). rewrite delete_resource_stable by assumption.
    eexists. split; [reflexivity | now apply stable_filter].
  - intros [(r & -> & Hr) (r' & -> & Hr')]. rewrite edit_resource_stable by assumption.
    eexists. split; [reflexivity | now apply stable_replace].
Qed.

Lemma apply_to_target_ok it t :
  ok_item it -> stable_target t ->
  exists t',
    apply_to_target false it t = Ret t'
    /\ stable_target t' /\ name t' = name t
    /\ variables t' = variables t /\ lists t' = lists t
    /\ forall rt, step rt it (get_resources rt t) = Ret (get_resources rt t').
Proof.
  intros Hok [Hc Hs]. unfold apply_to_target, step, ok_item in *.
  destruct (resource_type (type it)) as [r |].
  - destruct (@apply_change_ok (actualChangeType false (change_type (type it)))
                (old it) (new it) (get_resources r t)) as (l' & Hrun & Hl').
    { destruct r; assumption. }
    { cbn [actualChangeType]. now destruct (change_type (type it)). }
    rewrite Hrun. cbn [bind]. eexists. split; [reflexivity |].
    destruct r; cbn [set_resources get_resources name variables lists costumes sounds] in *.
    + repeat split; try assumption.
      intros [|]; cbn [resourceType_eqb get_resources costumes sounds]; [exact Hrun | reflexivity].
    + repeat split; try assumption.
      intros [|]; cbn [resourceType_eqb get_resources costumes sounds]; [reflexivity | exact Hrun].
  - exists t. repeat split; assumption.
Qed.

Lemma shell_stable n : stable_target (shell n).
Proof. split; constructor. Qed.

(** The replay of a run of items that can be carried out returns, and it
    changes the costumes and the sounds of a sprite as the items that
    concern them do; the variables and lists of the sprite stay. *)
Lemma replay_projection targetName items : forall p t,
  all_stable p -> Forall ok_item items ->
  find_target targetName p = Some t ->
  exists p' t',
    replay false items p = Ret p'
    /\ all_stable p'
    /\ find_target targetName p' = Some t'
    /\ (forall rt, replay_list false rt targetName items (get_resources rt t)
                   = Ret (get_resources rt t'))
    /\ variables t' = variables t /\ lists t' = lists t.
Proof.
  induction items as [| it rest IH]; intros p t Hp Hok Hf; cbn [replay].
  - exists p, t. repeat split; try assumption.
  - inversion Hok as [| ? ? Hit Hrest]; subst.
    unfold apply_item.
    destruct (find_target (Diff.targetName it) p) as [t0 |] eqn:E0.
    + rewrite (on_first_found _ _ _ _ E0).
      destruct (@apply_to_target_ok it t0 Hit (@stable_found _ _ _ Hp E0))
        as (t0' & Hrun & Hst & Hname & Hvars & Hlists & Hstep).
      rewrite Hrun. cbn [bind].
      destruct (@find_target_Some _ _ _ E0) as [_ Hn0].
      assert (Hp' : all_stable (update_first (Diff.targetName it) t0' p))
        by now apply all_stable_update.
      destruct (String.eqb_spec (Diff.targetName it) targetName) as [E | Hne].
      * rewrite E in *. rewrite Hf in E0. injection E0 as <-.
        destruct (IH (update_first targetName t0' p) t0' Hp' Hrest)
          as (p' & t' & Hrep & Hsp' & Hfind & Hlist & Hv & Hl).
        { apply find_update_same with t; [exact Hf | congruence]. }
        exists p', t'. repeat split; try assumption; try congruence.
        intros rt. rewrite replay_list_cons, E, String.eqb_refl, Hstep. cbn [bind].
        apply Hlist.
      * destruct (IH (update_first (Diff.targetName it) t0' p) t Hp' Hrest)
          as (p' & t' & Hrep & Hsp' & Hfind & Hlist & Hv & Hl).
        { rewrite (@find_update_other targetName (Diff.targetName it) t0' p t0);
            [exact Hf | exact E0 | congruence | exact Hne]. }
        exists p', t'. repeat split; try assumption.
        intros rt. rewrite replay_list_cons.
        destruct (String.eqb_spec (Diff.targetName it) targetName) as [E | _];
          [contradiction | apply Hlist].
    + rewrite AbsentTarget.on_first_absent by exact E0.
      assert (Hne : Diff.targetName it <> targetName) by (intros E; congruence).
      assert (Hcons : forall rt l,
                replay_list false rt targetName (it :: rest) l
                = replay_list false rt targetName rest l).
      { intros rt l. rewrite replay_list_cons.
        now destruct (String.eqb_spec (Diff.targetName it) targetName). }
      destruct (creates_target false (type it)).
      * destruct (IH (p ++ [shell (Diff.targetName it)])%list t)
          as (p' & t' & Hrep & Hsp' & Hfind & Hlist & Hv & Hl); try assumption.
        { apply Forall_app. split; [exact Hp |]. repeat constructor. }
        { now apply find_target_snoc. }
        exists p', t'. repeat split; try assumption.
        intros rt. rewrite Hcons. apply Hlist.
      * destruct (IH p t) as (p' & t' & Hrep & Hsp' & Hfind & Hlist & Hv & Hl);
          try assumption.
        exists p', t'. repeat split; try assumption.
        intros rt. rewrite Hcons. apply Hlist.
Qed.

(** Two costumes of the new document with one identity: the diff is made
    from the map of the new costumes, which holds the last of them only, and
    the replay leaves the sprite with that one costume. *)
Lemma twin_identity_is_lost :
  exists items,
    generateDiff Samples.draws 5
      [Samples.with_costume (Samples.costume "x" "a")]
      [Samples.with_costumes [Samples.costume "x" "a"; Samples.costume "x" "b"]]
    = Ret items
    /\ replay false items [Samples.with_costume (Samples.costume "x" "a")]
       = Ret [Samples.with_costume (Samples.costume "x" "b")].
Proof. eexists. split; vm_compute; reflexivity. Qed.

(** C1, as the code has it.  The replay carries out the costume and sound
    items of a diff and no others.  For two documents whose costumes and
    sounds all have an asset identity, and a sprite that both have, whose
    old costumes, and old sounds, have distinct identities: the forward
    replay of the diff on the old document returns, and in its result the
    costumes and the sounds of the sprite are, as keyed collections, those
    of the new document (under every identity, an entry canonically equal to
    the last one that the new document has under it), while its variables
    and lists are still the old ones.  When the new costumes (sounds) have
    distinct identities too, the costumes (sounds) of the result are the
    entries of the new document, none lost and none added: the same
    identities, each once, with canonically equal entries; the order may
    differ. *)
Theorem replay_reproduces_assets rnd fuel oldP newP items targetName oldT newT :
  all_stable oldP -> all_stable newP ->
  NoDup (map key_of (costumes oldT)) -> NoDup (map key_of (sounds oldT)) ->
  generateDiff rnd fuel oldP newP = Ret items ->
  find_target targetName oldP = Some oldT ->
  find_target targetName newP = Some newT ->
  exists p' t',
    replay false items oldP = Ret p'
    /\ find_target targetName p' = Some t'
    /\ same_assets (costumes t') (costumes newT)
    /\ same_assets (sounds t') (sounds newT)
    /\ variables t' = variables oldT /\ lists t' = lists oldT
    /\ (NoDup (map key_of (costumes newT)) ->
        same_entries (costumes t') (costumes newT))
    /\ (NoDup (map key_of (sounds newT)) ->
        same_entries (sounds t') (sounds newT)).
Proof.
  intros Hso Hsn Hndc Hnds Hdiff Hfo Hfn. unfold generateDiff in Hdiff.
  destruct (diff_targets rnd fuel oldP newP (allTargetNames oldP newP) 0)
    as [[its n'] | |] eqn:Ed; cbn [bind] in Hdiff; try discriminate.
  injection Hdiff as <-. cbn [fst].
  assert (Hnames : NoDup (allTargetNames oldP newP)) by apply MapFacts.set_of_NoDup.
  assert (Hin : In targetName (allTargetNames oldP newP)).
  { unfold allTargetNames. apply MapFacts.set_of_In, in_or_app. left.
    apply MapFacts.set_of_In. destruct (@find_target_Some _ _ _ Hfo) as [Hi <-].
    now apply in_map. }
  assert (Hfilter : forall rt, Forall ok_item its
            /\ filter (concerns rt targetName) its = resource_diff rt oldT newT targetName).
  { intros rt.
    destruct (@diff_targets_spec rnd fuel oldP newP rt targetName oldT newT
                Hso Hsn Hfo Hfn _ _ _ _ Hnames Ed) as [Hok Hf].
    split; [exact Hok |]. rewrite Hf.
    now destruct (in_dec string_dec targetName (allTargetNames oldP newP)). }
  destruct (@replay_projection targetName its oldP oldT Hso (proj1 (Hfilter Costumes)) Hfo)
    as (p' & t' & Hrep & _ & Hfind & Hlist & Hv & Hl).
  exists p', t'.
  pose proof (Hlist Costumes) as Hc. unfold replay_list in Hc.
  rewrite (proj2 (Hfilter Costumes)) in Hc. cbn [resource_diff get_resources] in Hc.
  destruct (@list_round_trip costume_delete costume_add costume_edit targetName
              eq_refl eq_refl eq_refl (costumes oldT) (costumes newT))
    as (lc & Hrunc & Hstc & Hndc' & Hsamec);
    [apply (@stable_found _ _ _ Hso Hfo) | apply (@stable_found _ _ _ Hsn Hfn)
     | exact Hndc |].
  rewrite Hrunc in Hc. injection Hc as <-.
  pose proof (Hlist Sounds) as Hs. unfold replay_list in Hs.
  rewrite (proj2 (Hfilter Sounds)) in Hs. cbn [resource_diff get_resources] in Hs.
  destruct (@list_round_trip sound_delete sound_add sound_edit targetName
              eq_refl eq_refl eq_refl (sounds oldT) (sounds newT))
    as (ls & Hruns & Hsts & Hnds' & Hsames);
    [apply (@stable_found _ _ _ Hso Hfo) | apply (@stable_found _ _ _ Hsn Hfn)
     | exact Hnds |].
  rewrite Hruns in Hs. injection Hs as <-.
  pose proof (@stable_found _ _ _ Hsn Hfn) as [Hnc Hns].
  do 6 (split; [assumption |]). split; intros Hnew.
  - now apply same_assets_entries.
  - now apply same_assets_entries.
Qed.

End RoundTrip.

(* ------------------------------------------------------------------ *)
(** ** What the script matcher keeps *)

Module MatchInvariants.

Import Js ScriptParser Diff MapFacts Invariants MatchFacts.
Import CollectionFacts SelfDiff.

Lemma by_fingerprint_from scripts k v :
  In (k, v) (by_fingerprint scripts) -> In v scripts.
Proof.
  intros H. apply map_of_In in H. apply in_map_iff in H.
  destruct H as (sc & [= _ <-] & Hsc). exact Hsc.
Qed.

Lemma by_fingerprint_keys scripts f :
  In f (map fst (by_fingerprint scripts)) <-> In f (map ScriptParser.fingerprint scripts).
Proof.
  unfold by_fingerprint.
  rewrite (proj2 (map_of_keys (map (fun sc => (ScriptParser.fingerprint sc, sc)) scripts)) f).
  now rewrite map_map.
Qed.

Lemma exact_phase_sources olds news oldEntries : forall newMap acc,
  (forall k v, In (k, v) oldEntries -> In v olds) ->
  (forall k v, In (k, v) newMap -> In v news) ->
  Forall (fun m => In (oldScript m) olds /\ In (newScript m) news) (matchedScripts acc) ->
  incl (unmatchedOldScripts acc) olds ->
  incl (unmatchedNewScripts acc) news ->
  Forall (fun m => In (oldScript m) olds /\ In (newScript m) news)
         (matchedScripts (fst (exact_phase oldEntries newMap acc)))
  /\ incl (unmatchedOldScripts (fst (exact_phase oldEntries newMap acc))) olds
  /\ incl (unmatchedNewScripts (fst (exact_phase oldEntries newMap acc))) news.
Proof.
  induction oldEntries as [| [fp oldS] rest IH]; intros newMap acc Ho Hn Hm Huo Hun;
    cbn [exact_phase]; [now repeat split |].
  assert (Hrest : forall k v, In (k, v) rest -> In v olds)
    by (intros k v H; apply (Ho k v); now right).
  destruct (map_get String.eqb fp newMap) as [newS |] eqn:E.
  - apply IH; cbn [matchedScripts unmatchedOldScripts unmatchedNewScripts].
    + exact Hrest.
    + intros k v H. apply (Hn k v). eapply In_map_delete, H.
    + apply Forall_app. split; [exact Hm |]. constructor; [| constructor].
      cbn [oldScript newScript]. split.
      * apply (Ho fp oldS). now left.
      * apply (Hn fp newS). now apply map_get_In.
    + intros x Hx. apply filter_In in Hx. apply Huo, Hx.
    + intros x Hx. apply filter_In in Hx. apply Hun, Hx.
  - now apply IH.
Qed.

Lemma fallback_phase_sources olds news uo : forall matched un,
  incl uo olds -> incl un news ->
  Forall (fun m => In (oldScript m) olds /\ In (newScript m) news) matched ->
  Forall (fun m => In (oldScript m) olds /\ In (newScript m) news)
         (fst (fallback_phase uo matched un))
  /\ incl (snd (fallback_phase uo matched un)) un.
Proof.
  induction uo as [| oldS rest IH]; intros matched un Huo Hun Hm; cbn [fallback_phase].
  - split; [exact Hm | apply incl_refl].
  - assert (Hrest : incl rest olds) by (intros x Hx; apply Huo; now right).
    destruct (bestMatch oldS un) as [best |] eqn:E; [| now apply IH].
    destruct (IH (matched ++ [ {| oldScript := oldS; newScript := best |} ])%list
                 (filter (fun sc => negb (same_object sc best)) un)) as [H1 H2].
    + exact Hrest.
    + intros x Hx. apply Hun. apply filter_In in Hx. apply Hx.
    + apply Forall_app. split; [exact Hm |]. constructor; [| constructor].
      cbn [oldScript newScript]. split; [apply Huo; now left |].
      apply Hun. unfold bestMatch in E. apply find_some in E. apply E.
    + split; [exact H1 |]. intros x Hx. apply H2 in Hx.
      apply filter_In in Hx. apply Hx.
Qed.

(** No script that is left unmatched has the fingerprint of a matched script
    of its side. *)
Lemma matchScripts_unmatched_apart olds news :
  (forall s m, In s (unmatchedOldScripts (matchScripts olds news)) ->
               In m (matchedScripts (matchScripts olds news)) ->
               ScriptParser.fingerprint s <> ScriptParser.fingerprint (oldScript m))
  /\ (forall s m, In s (unmatchedNewScripts (matchScripts olds news)) ->
                  In m (matchedScripts (matchScripts olds news)) ->
                  ScriptParser.fingerprint s <> ScriptParser.fingerprint (newScript m)).
Proof.
  unfold matchScripts.
  destruct (exact_phase _ _ _) as [r1 nm] eqn:E1.
  destruct (fallback_phase _ _ _) as [matched un] eqn:E2.
  cbn [matchedScripts unmatchedOldScripts unmatchedNewScripts].
  split.
  - intros s m Hs Hin Heq. apply filter_In in Hs. destruct Hs as [_ Hs].
    apply Bool.negb_true_iff in Hs.
    assert (H : set_has (ScriptParser.fingerprint s)
                  (map (fun m => ScriptParser.fingerprint (oldScript m)) matched) = true).
    { apply (proj2 (set_has_In _ _)), in_map_iff. exists m.
      split; [now symmetry | exact Hin]. }
    congruence.
  - intros s m Hs Hin Heq. apply filter_In in Hs. destruct Hs as [_ Hs].
    apply Bool.negb_true_iff in Hs.
    assert (H : set_has (ScriptParser.fingerprint s)
                  (map (fun m => ScriptParser.fingerprint (newScript m)) matched) = true).
    { apply (proj2 (set_has_In _ _)), in_map_iff. exists m.
      split; [now symmetry | exact Hin]. }
    congruence.
Qed.

(** The scripts of the result are scripts of the input, each on its side. *)
Lemma matchScripts_sources olds news :
  (forall m, In m (matchedScripts (matchScripts olds news)) ->
             In (oldScript m) olds /\ In (newScript m) news)
  /\ incl (unmatchedOldScripts (matchScripts olds news)) olds
  /\ incl (unmatchedNewScripts (matchScripts olds news)) news.
Proof.
  unfold matchScripts.
  destruct (exact_phase _ _ _) as [r1 nm] eqn:E1.
  destruct (fallback_phase _ _ _) as [matched un] eqn:E2.
  cbn [matchedScripts unmatchedOldScripts unmatchedNewScripts].
  destruct (@exact_phase_sources olds news (by_fingerprint olds) (by_fingerprint news)
              {| matchedScripts := []; unmatchedOldScripts := olds;
                 unmatchedNewScripts := news |}) as (Hm1 & Huo1 & Hun1).
  { intros k v. apply by_fingerprint_from. }
  { intros k v. apply by_fingerprint_from. }
  { constructor. }
  { apply incl_refl. }
  { apply incl_refl. }
  rewrite E1 in Hm1, Huo1, Hun1. cbn [fst] in Hm1, Huo1, Hun1.
  destruct (@fallback_phase_sources olds news (unmatchedOldScripts r1)
              (matchedScripts r1) (unmatchedNewScripts r1) Huo1 Hun1 Hm1) as [Hm2 Hun2].
  rewrite E2 in Hm2, Hun2. cbn [fst snd] in Hm2, Hun2.
  split; [intros m Hin; rewrite Forall_forall in Hm2; now apply Hm2 |].
  split; [intros x Hx; apply filter_In in Hx; apply Huo1, Hx |].
  intros x Hx; apply filter_In in Hx; apply Hun1, Hun2, Hx.
Qed.

(** X1.  The matcher hands back scripts it was given, each on the side it came
    from, and no script that it leaves unmatched has the fingerprint of a
    matched script of its side. *)
Theorem matchScripts_uses_given_scripts olds news :
  (forall m, In m (matchedScripts (matchScripts olds news)) ->
             In (oldScript m) olds /\ In (newScript m) news)
  /\ incl (unmatchedOldScripts (matchScripts olds news)) olds
  /\ incl (unmatchedNewScripts (matchScripts olds news)) news
  /\ (forall s m, In s (unmatchedOldScripts (matchScripts olds news)) ->
                  In m (matchedScripts (matchScripts olds news)) ->
                  ScriptParser.fingerprint s <> ScriptParser.fingerprint (oldScript m))
  /\ (forall s m, In s (unmatchedNewScripts (matchScripts olds news)) ->
                  In m (matchedScripts (matchScripts olds news)) ->
                  ScriptParser.fingerprint s <> ScriptParser.fingerprint (newScript m)).
Proof.
  destruct (matchScripts_sources olds news) as (H1 & H2 & H3).
  destruct (matchScripts_unmatched_apart olds news) as [H4 H5].
  split; [exact H1 |]. split; [exact H2 |]. split; [exact H3 |].
  split; assumption.
Qed.

Lemma In_keys_delete (V : Type) (m : imap string V) k k' :
  k <> k' -> In k (map fst m) -> In k (map fst (map_delete String.eqb k' m)).
Proof.
  intros Hne Hin.
  destruct (map_get String.eqb k (map_delete String.eqb k' m)) as [v |] eqn:E.
  - apply map_get_In in E. apply in_map_iff. now exists (k, v).
  - rewrite map_get_delete_other in E by exact Hne.
    apply (proj1 (map_get_None _ _)) in E. destruct (E Hin).
Qed.

Lemma exact_phase_grows oldEntries : forall newMap acc m,
  In m (matchedScripts acc) ->
  In m (matchedScripts (fst (exact_phase oldEntries newMap acc))).
Proof.
  induction oldEntries as [| [fp oldS] rest IH]; intros newMap acc m H;
    cbn [exact_phase]; [exact H |].
  destruct (map_get String.eqb fp newMap) as [newS |]; apply IH; [| exact H].
  cbn [matchedScripts]. apply in_or_app. now left.
Qed.

Lemma fallback_phase_grows uo : forall matched un m,
  In m matched -> In m (fst (fallback_phase uo matched un)).
Proof.
  induction uo as [| oldS rest IH]; intros matched un m H; cbn [fallback_phase];
    [exact H |].
  destruct (bestMatch oldS un) as [best |]; apply IH; [| exact H].
  apply in_or_app. now left.
Qed.

Lemma exact_phase_complete f oldEntries : forall newMap acc,
  keyed oldEntries -> keyed newMap ->
  In f (map fst oldEntries) -> In f (map fst newMap) ->
  exists m, In m (matchedScripts (fst (exact_phase oldEntries newMap acc)))
            /\ ScriptParser.fingerprint (oldScript m) = f
            /\ ScriptParser.fingerprint (newScript m) = f.
Proof.
  induction oldEntries as [| [fp oldS] rest IH]; intros newMap acc Ho Hn Hfo Hfn;
    cbn [exact_phase]; [destruct Hfo |].
  assert (Hrest : keyed rest) by (intros k v H; apply Ho; now right).
  cbn [map fst] in Hfo.
  destruct (map_get String.eqb fp newMap) as [newS |] eqn:E.
  - destruct (string_dec fp f) as [-> | Hne].
    + exists {| oldScript := oldS; newScript := newS |}. split; [| split].
      * apply exact_phase_grows. cbn [matchedScripts]. apply in_or_app. right. now left.
      * cbn [oldScript]. apply (Ho f oldS). now left.
      * cbn [newScript]. apply (Hn f newS). now apply map_get_In.
    + apply IH.
      * exact Hrest.
      * intros k v H. apply Hn. eapply In_map_delete, H.
      * destruct Hfo as [H | H]; [destruct (Hne H) | exact H].
      * apply In_keys_delete; [intros H; now apply Hne | exact Hfn].
  - destruct (string_dec fp f) as [-> | Hne].
    + apply (proj1 (map_get_None _ _)) in E. destruct (E Hfn).
    + apply IH; try assumption.
      destruct Hfo as [H | H]; [destruct (Hne H) | exact H].
Qed.

(** X2.  A fingerprint that both sides have is matched: one pair of scripts with
    that fingerprint is made, and every other script with it, old or new,
    is dropped from the unmatched lists. *)
Theorem shared_fingerprint_is_matched olds news f :
  In f (map ScriptParser.fingerprint olds) ->
  In f (map ScriptParser.fingerprint news) ->
  (exists m, In m (matchedScripts (matchScripts olds news))
             /\ ScriptParser.fingerprint (oldScript m) = f
             /\ ScriptParser.fingerprint (newScript m) = f)
  /\ (forall s, In s (unmatchedOldScripts (matchScripts olds news)) ->
                ScriptParser.fingerprint s <> f)
  /\ (forall s, In s (unmatchedNewScripts (matchScripts olds news)) ->
                ScriptParser.fingerprint s <> f).
Proof.
  intros Ho Hn.
  assert (Hex : exists m, In m (matchedScripts (matchScripts olds news))
                          /\ ScriptParser.fingerprint (oldScript m) = f
                          /\ ScriptParser.fingerprint (newScript m) = f).
  { unfold matchScripts.
    destruct (exact_phase _ _ _) as [r1 nm] eqn:E1.
    destruct (fallback_phase _ _ _) as [matched un] eqn:E2.
    cbn [matchedScripts].
    destruct (@exact_phase_complete f (by_fingerprint olds) (by_fingerprint news)
                {| matchedScripts := []; unmatchedOldScripts := olds;
                   unmatchedNewScripts := news |}) as (m & Hm & Hfo & Hfn).
    - apply by_fingerprint_keyed.
    - apply by_fingerprint_keyed.
    - now apply by_fingerprint_keys.
    - now apply by_fingerprint_keys.
    - exists m. split; [| now split].
      rewrite E1 in Hm. cbn [fst] in Hm.
      change matched with (fst (matched, un)). rewrite <- E2.
      now apply fallback_phase_grows. }
  split; [exact Hex |].
  destruct Hex as (m & Hm & Hfo & Hfn).
  destruct (matchScripts_unmatched_apart olds news) as [Hold Hnew].
  split; intros s Hs Heq.
  - apply (Hold s m Hs Hm). congruence.
  - apply (Hnew s m Hs Hm). congruence.
Qed.

(** *** Scripts with pairwise distinct fingerprints *)

Lemma NoDup_map_filter {A B} (g : A -> B) (p : A -> bool) l :
  NoDup (map g l) -> NoDup (map g (filter p l)).
Proof.
  induction l as [| x l IH]; cbn [map filter]; intros H; [constructor |].
  inversion H as [| ? ? Hx Hl]; subst.
  destruct (p x); cbn [map]; [| now apply IH].
  constructor; [| now apply IH].
  intros Hin. apply Hx. apply in_map_iff in Hin. destruct Hin as (y & Hy & Hin).
  apply filter_In in Hin. apply in_map_iff. exists y. split; [exact Hy | apply Hin].
Qed.

Lemma NoDup_map_inj {A B} (g : A -> B) l a b :
  NoDup (map g l) -> In a l -> In b l -> g a = g b -> a = b.
Proof.
  induction l as [| x l IH]; cbn [map]; intros H Ha Hb Hg; [destruct Ha |].
  inversion H as [| ? ? Hx Hl]; subst.
  destruct Ha as [-> | Ha], Hb as [-> | Hb].
  - reflexivity.
  - destruct Hx. rewrite Hg. now apply in_map.
  - destruct Hx. rewrite <- Hg. now apply in_map.
  - now apply IH.
Qed.

Lemma set_has_cons k a l : set_has k (a :: l) = String.eqb k a || set_has k l.
Proof. reflexivity. Qed.

Lemma set_has_app k l1 l2 : set_has k (l1 ++ l2) = set_has k l1 || set_has k l2.
Proof. unfold set_has. apply existsb_app. Qed.

Lemma set_has_false k l : set_has k l = false <-> ~ In k l.
Proof.
  split.
  - intros H Hin. apply (proj2 (set_has_In k l)) in Hin. congruence.
  - intros H. destruct (set_has k l) eqn:E; [| reflexivity].
    apply (proj1 (set_has_In k l)) in E. destruct (H E).
Qed.

(** What the first phase does, told by the pairs it adds. *)
Lemma exact_phase_shape oldEntries : forall newMap acc,
  keyed oldEntries -> keyed newMap -> NoDup (map fst oldEntries) ->
  exists added,
    matchedScripts (fst (exact_phase oldEntries newMap acc))
    = (matchedScripts acc ++ added)%list
    /\ Forall (fun m => In (ScriptParser.fingerprint (oldScript m)) (map fst oldEntries)
                        /\ exact m) added
    /\ NoDup (map (fun m => ScriptParser.fingerprint (oldScript m)) added)
    /\ unmatchedOldScripts (fst (exact_phase oldEntries newMap acc))
       = filter (fun sc => negb (set_has (ScriptParser.fingerprint sc)
                                   (map (fun m => ScriptParser.fingerprint (oldScript m)) added)))
                (unmatchedOldScripts acc)
    /\ unmatchedNewScripts (fst (exact_phase oldEntries newMap acc))
       = filter (fun sc => negb (set_has (ScriptParser.fingerprint sc)
                                   (map (fun m => ScriptParser.fingerprint (oldScript m)) added)))
                (unmatchedNewScripts acc).
Proof.
  induction oldEntries as [| [fp oldS] rest IH]; intros newMap acc Ho Hn Hnd;
    cbn [exact_phase].
  - exists []. rewrite app_nil_r. cbn [map set_has existsb negb].
    split; [reflexivity |]. split; [constructor |]. split; [constructor |].
    split; symmetry; now apply filter_all.
  - assert (Hrest : keyed rest) by (intros k v H; apply Ho; now right).
    cbn [map fst] in Hnd. inversion Hnd as [| ? ? Hfp Hnd']; subst.
    assert (Hold : ScriptParser.fingerprint oldS = fp) by (apply Ho; now left).
    destruct (map_get String.eqb fp newMap) as [newS |] eqn:E.
    + assert (Hnew : ScriptParser.fingerprint newS = fp)
        by (apply Hn; now apply map_get_In).
      destruct (IH (map_delete String.eqb fp newMap)
                  {| matchedScripts :=
                       matchedScripts acc ++ [ {| oldScript := oldS; newScript := newS |} ];
                     unmatchedOldScripts := filter (fp_differs fp) (unmatchedOldScripts acc);
                     unmatchedNewScripts := filter (fp_differs fp) (unmatchedNewScripts acc) |}
                  Hrest) as (added & Hm & Hall & Hadd & Huo & Hun).
      { intros k v H. apply Hn. eapply In_map_delete, H. }
      { exact Hnd'. }
      cbn [matchedScripts unmatchedOldScripts unmatchedNewScripts] in Hm, Huo, Hun.
      exists ({| oldScript := oldS; newScript := newS |} :: added).
      split; [rewrite Hm, <- app_assoc; reflexivity |].
      split.
      { constructor.
        - cbn [oldScript newScript map fst]. split; [left; now symmetry |].
          unfold exact. cbn [oldScript newScript]. congruence.
        - eapply Forall_impl; [| exact Hall]. intros m [H1 H2]. split; [now right | exact H2]. }
      split.
      { cbn [map oldScript]. constructor; [| exact Hadd].
        intros Hin. apply in_map_iff in Hin. destruct Hin as (m & Hm' & Hin).
        rewrite Forall_forall in Hall. destruct (Hall m Hin) as [Hk _].
        apply Hfp. congruence. }
      split.
      { rewrite Huo, filter_filter. apply filter_ext. intros sc.
        cbn [map oldScript]. rewrite set_has_cons, Bool.negb_orb, Hold. reflexivity. }
      { rewrite Hun, filter_filter. apply filter_ext. intros sc.
        cbn [map oldScript]. rewrite set_has_cons, Bool.negb_orb, Hold. reflexivity. }
    + destruct (IH newMap acc Hrest Hn Hnd') as (added & Hm & Hall & Hadd & Huo & Hun).
      exists added. split; [exact Hm |]. split; [| now repeat split].
      eapply Forall_impl; [| exact Hall]. intros m [H1 H2]. split; [now right | exact H2].
Qed.

(** What the second phase does, told by the pairs it adds. *)
Lemma fallback_phase_shape uo : forall matched un,
  NoDup (map ScriptParser.fingerprint uo) ->
  exists added,
    fst (fallback_phase uo matched un) = (matched ++ added)%list
    /\ Forall (fun m => In (oldScript m) uo /\ In (newScript m) un) added
    /\ NoDup (map (fun m => ScriptParser.fingerprint (oldScript m)) added)
    /\ NoDup (map (fun m => topId (newScript m)) added)
    /\ snd (fallback_phase uo matched un)
       = filter (fun sc => negb (set_has (topId sc)
                                   (map (fun m => topId (newScript m)) added))) un.
Proof.
  induction uo as [| oldS rest IH]; intros matched un Hnd; cbn [fallback_phase].
  - exists []. rewrite app_nil_r. cbn [map set_has existsb negb fst snd].
    split; [reflexivity |]. split; [constructor |]. split; [constructor |].
    split; [constructor |]. symmetry. now apply filter_all.
  - cbn [map] in Hnd. inversion Hnd as [| ? ? Hfp Hnd']; subst.
    destruct (bestMatch oldS un) as [best |] eqn:E.
    + destruct (IH (matched ++ [ {| oldScript := oldS; newScript := best |} ])%list
                  (filter (fun sc => negb (same_object sc best)) un) Hnd')
        as (added & Hm & Hall & Hold & Hnew & Hun).
      exists ({| oldScript := oldS; newScript := best |} :: added).
      split; [rewrite Hm, <- app_assoc; reflexivity |].
      split.
      { constructor.
        - cbn [oldScript newScript]. split; [now left |].
          unfold bestMatch in E. apply find_some in E. apply E.
        - eapply Forall_impl; [| exact Hall]. intros m [H1 H2].
          split; [now right |]. apply filter_In in H2. apply H2. }
      split.
      { cbn [map oldScript]. constructor; [| exact Hold].
        intros Hin. apply in_map_iff in Hin. destruct Hin as (m & Hm' & Hin).
        rewrite Forall_forall in Hall. destruct (Hall m Hin) as [Hk _].
        apply Hfp. rewrite <- Hm'. now apply in_map. }
      split.
      { cbn [map newScript]. constructor; [| exact Hnew].
        intros Hin. apply in_map_iff in Hin. destruct Hin as (m & Hm' & Hin).
        rewrite Forall_forall in Hall. destruct (Hall m Hin) as [_ Hk].
        apply filter_In in Hk. destruct Hk as [_ Hk]. unfold same_object in Hk.
        rewrite Hm', String.eqb_refl in Hk. discriminate. }
      { rewrite Hun, filter_filter. apply filter_ext. intros sc.
        cbn [map newScript]. rewrite set_has_cons, Bool.negb_orb. reflexivity. }
    + destruct (IH matched un Hnd') as (added & Hm & Hall & Hold & Hnew & Hun).
      exists added. split; [exact Hm |]. split; [| now repeat split].
      eapply Forall_impl; [| exact Hall]. intros m [H1 H2]. split; [now right | exact H2].
Qed.

(** X3.  When no two scripts of a side have the same fingerprint, the result of
    the matcher is a partition of each side: every old script is the old
    script of exactly one pair or is left unmatched, once, and so is every
    new script. *)
Theorem matchScripts_partitions_distinct olds news :
  NoDup (map ScriptParser.fingerprint olds) ->
  NoDup (map ScriptParser.fingerprint news) ->
  NoDup (map topId news) ->
  Permutation olds
    (map oldScript (matchedScripts (matchScripts olds news))
     ++ unmatchedOldScripts (matchScripts olds news))
  /\ Permutation news
       (map newScript (matchedScripts (matchScripts olds news))
        ++ unmatchedNewScripts (matchScripts olds news)).
Proof.
  intros Hfo Hfn Htn.
  destruct (matchScripts_sources olds news) as (Hsrc & _ & _).
  destruct (matchScripts_unmatched_apart olds news) as [Hao Han].
  revert Hsrc Hao Han. unfold matchScripts.
  destruct (exact_phase _ _ _) as [r1 nm] eqn:E1.
  destruct (fallback_phase _ _ _) as [matched un] eqn:E2.
  cbn [matchedScripts unmatchedOldScripts unmatchedNewScripts].
  intros Hsrc Hao Han.
  destruct (@exact_phase_shape (by_fingerprint olds) (by_fingerprint news)
              {| matchedScripts := []; unmatchedOldScripts := olds;
                 unmatchedNewScripts := news |}
              (by_fingerprint_keyed olds) (by_fingerprint_keyed news)
              (proj1 (map_of_keys _)))
    as (added1 & Hm1 & Hall1 & Hnd1 & Huo1 & Hun1).
  rewrite E1 in Hm1, Huo1, Hun1.
  cbn [fst matchedScripts unmatchedOldScripts unmatchedNewScripts app] in Hm1, Huo1, Hun1.
  destruct (@fallback_phase_shape (unmatchedOldScripts r1) (matchedScripts r1)
              (unmatchedNewScripts r1))
    as (added2 & Hm2 & Hall2 & Hold2 & Hnew2 & Hun2).
  { rewrite Huo1. now apply NoDup_map_filter. }
  rewrite E2 in Hm2, Hun2. cbn [fst snd] in Hm2, Hun2.
  rewrite Hm1 in Hm2. subst matched.
  rewrite Forall_forall in Hall1, Hall2.
  assert (Hex : forall m, In m added1 ->
            ScriptParser.fingerprint (newScript m) = ScriptParser.fingerprint (oldScript m)).
  { intros m Hm. symmetry. apply (Hall1 m Hm). }
  assert (Hin1 : forall m, In m added1 -> In m (added1 ++ added2))
    by (intros m Hm; apply in_or_app; now left).
  assert (Hin2 : forall m, In m added2 -> In m (added1 ++ added2))
    by (intros m Hm; apply in_or_app; now right).
  assert (Hu1 : forall m, In m added2 ->
            set_has (ScriptParser.fingerprint (oldScript m))
              (map (fun m => ScriptParser.fingerprint (oldScript m)) added1) = false).
  { intros m Hm. destruct (Hall2 m Hm) as [H _]. rewrite Huo1 in H.
    apply filter_In in H. now apply Bool.negb_true_iff. }
  assert (Hu2 : forall m, In m added2 ->
            set_has (ScriptParser.fingerprint (newScript m))
              (map (fun m => ScriptParser.fingerprint (oldScript m)) added1) = false).
  { intros m Hm. destruct (Hall2 m Hm) as [_ H]. rewrite Hun1 in H.
    apply filter_In in H. now apply Bool.negb_true_iff. }
  split.
  - (* the old side *)
    apply NoDup_Permutation.
    + now apply NoDup_map_inv in Hfo.
    + apply NoDup_app.
      * rewrite map_app. apply NoDup_app.
        -- apply (NoDup_map_inv ScriptParser.fingerprint). now rewrite map_map.
        -- apply (NoDup_map_inv ScriptParser.fingerprint). now rewrite map_map.
        -- intros x H1 H2. apply in_map_iff in H1, H2.
           destruct H1 as (m1 & <- & H1), H2 as (m2 & Hx & H2).
           pose proof (Hu1 m2 H2) as H. apply set_has_false in H. apply H.
           rewrite Hx. apply in_map_iff. now exists m1.
      * apply NoDup_filter. rewrite Huo1. apply NoDup_filter.
        now apply NoDup_map_inv in Hfo.
      * intros x H1 H2. apply in_map_iff in H1. destruct H1 as (m & <- & H1).
        now apply (Hao (oldScript m) m H2 H1).
    + intros x. split.
      * intros Hx. apply in_or_app.
        destruct (set_has (ScriptParser.fingerprint x)
                    (map (fun m => ScriptParser.fingerprint (oldScript m)) added1)) eqn:S1.
        { left. apply (proj1 (set_has_In _ _)), in_map_iff in S1.
          destruct S1 as (m & Hf & Hm). apply in_map_iff. exists m.
          split; [| now apply Hin1].
          apply (NoDup_map_inj ScriptParser.fingerprint olds); try assumption.
          apply (Hsrc m). now apply Hin1. }
        assert (Hx1 : In x (unmatchedOldScripts r1)).
        { rewrite Huo1. apply filter_In. split; [exact Hx | now rewrite S1]. }
        destruct (set_has (ScriptParser.fingerprint x)
                    (map (fun m => ScriptParser.fingerprint (oldScript m)) added2)) eqn:S2.
        { left. apply (proj1 (set_has_In _ _)), in_map_iff in S2.
          destruct S2 as (m & Hf & Hm). apply in_map_iff. exists m.
          split; [| now apply Hin2].
          apply (NoDup_map_inj ScriptParser.fingerprint olds); try assumption.
          apply (Hsrc m). now apply Hin2. }
        right. apply filter_In. split; [exact Hx1 |].
        now rewrite map_app, set_has_app, S1, S2.
      * intros Hx. apply in_app_or in Hx. destruct Hx as [Hx | Hx].
        -- apply in_map_iff in Hx. destruct Hx as (m & <- & Hm). now apply (Hsrc m).
        -- apply filter_In in Hx. destruct Hx as [Hx _]. rewrite Huo1 in Hx.
           apply filter_In in Hx. apply Hx.
  - (* the new side *)
    assert (Hnn : NoDup news) by now apply NoDup_map_inv in Hfn.
    apply NoDup_Permutation.
    + exact Hnn.
    + apply NoDup_app.
      * rewrite map_app. apply NoDup_app.
        -- apply (NoDup_map_inv ScriptParser.fingerprint). rewrite map_map.
           rewrite (map_ext_in _ (fun m => ScriptParser.fingerprint (oldScript m)));
             [exact Hnd1 | exact Hex].
        -- apply (NoDup_map_inv topId). now rewrite map_map.
        -- intros x H1 H2. apply in_map_iff in H1, H2.
           destruct H1 as (m1 & <- & H1), H2 as (m2 & Hx & H2).
           pose proof (Hu2 m2 H2) as H. apply set_has_false in H. apply H.
           rewrite Hx, (Hex m1 H1). apply in_map_iff. now exists m1.
      * apply NoDup_filter. rewrite Hun2. apply NoDup_filter.
        rewrite Hun1. now apply NoDup_filter.
      * intros x H1 H2. apply in_map_iff in H1. destruct H1 as (m & <- & H1).
        now apply (Han (newScript m) m H2 H1).
    + intros x. split.
      * intros Hx. apply in_or_app.
        destruct (set_has (ScriptParser.fingerprint x)
                    (map (fun m => ScriptParser.fingerprint (oldScript m)) added1)) eqn:S1.
        { left. apply (proj1 (set_has_In _ _)), in_map_iff in S1.
          destruct S1 as (m & Hf & Hm). apply in_map_iff. exists m.
          split; [| now apply Hin1].
          apply (NoDup_map_inj ScriptParser.fingerprint news); try assumption.
          - apply (Hsrc m). now apply Hin1.
          - now rewrite (Hex m Hm). }
        assert (Hx1 : In x (unmatchedNewScripts r1)).
        { rewrite Hun1. apply filter_In. split; [exact Hx | now rewrite S1]. }
        destruct (set_has (topId x) (map (fun m => topId (newScript m)) added2)) eqn:S2.
        { left. apply (proj1 (set_has_In _ _)), in_map_iff in S2.
          destruct S2 as (m & Hf & Hm). apply in_map_iff. exists m.
          split; [| now apply Hin2].
          apply (NoDup_map_inj topId news); try assumption.
          apply (Hsrc m). now apply Hin2. }
        right. apply filter_In. split.
        { rewrite Hun2. apply filter_In. split; [exact Hx1 | now rewrite S2]. }
        apply Bool.negb_true_iff, set_has_false. intros Hin.
        apply in_map_iff in Hin. destruct Hin as (m & Hf & Hm).
        apply in_app_or in Hm. destruct Hm as [Hm | Hm].
        { apply set_has_false in S1. apply S1. rewrite <- Hf, (Hex m Hm).
          apply in_map_iff. now exists m. }
        { assert (newScript m = x).
          { apply (NoDup_map_inj ScriptParser.fingerprint news); try assumption.
            apply (Hsrc m). now apply Hin2. }
          subst x. apply set_has_false in S2. apply S2. apply in_map_iff. now exists m. }
      * intros Hx. apply in_app_or in Hx. destruct Hx as [Hx | Hx].
        -- apply in_map_iff in Hx. destruct Hx as (m & <- & Hm). now apply (Hsrc m).
        -- apply filter_In in Hx. destruct Hx as [Hx _]. rewrite Hun2 in Hx.
           apply filter_In in Hx. destruct Hx as [Hx _]. rewrite Hun1 in Hx.
           apply filter_In in Hx. apply Hx.
Qed.

End MatchInvariants.

(* ------------------------------------------------------------------ *)
(** ** The items that a diff can hold *)

Module DiffShape.

Import Js Raw ScriptParser Diff MapFacts Vocabulary Invariants CollectionFacts.
Import AssetFacts SelfDiff.
Local Open Scope string_scope.

Lemma flat_map_shape {A B} (P : B -> Prop) (f : A -> list B) l :
  (forall x, Forall P (f x)) -> Forall P (flat_map f l).
Proof.
  intros H. induction l as [| x l IH]; cbn [flat_map]; [constructor |].
  apply Forall_app. split; [apply H | exact IH].
Qed.

Lemma diffRecord_items td ta te oldR newR targetName (P : DiffItem -> Prop) :
  (forall t o n fp, In t [td; ta; te] -> P (item t targetName o n fp)) ->
  Forall P (diffRecord td ta te oldR newR targetName).
Proof.
  intros HP. unfold diffRecord. apply Forall_app. split; apply flat_map_shape; intros key.
  - destruct (negb _); repeat constructor. apply HP. cbn. tauto.
  - destruct (negb _); [repeat constructor; apply HP; cbn; tauto |].
    destruct (json_differ _ _); repeat constructor. apply HP. cbn. tauto.
Qed.

Lemma diffResourceMaps_items td ta te oldMap newMap targetName (P : DiffItem -> Prop) :
  (forall t o n fp, In t [td; ta; te] -> P (item t targetName o n fp)) ->
  Forall P (diffResourceMaps td ta te oldMap newMap targetName).
Proof.
  intros HP. unfold diffResourceMaps. apply Forall_app.
  split; apply flat_map_shape; intros e.
  - destruct (negb _); repeat constructor. apply HP. cbn. tauto.
  - destruct (negb _); [repeat constructor; apply HP; cbn; tauto |].
    cbv zeta. destruct (json_differ _ _); repeat constructor. apply HP. cbn. tauto.
Qed.

Lemma diffResources_items td ta te rnd n oldL newL targetName items n'
    (P : DiffItem -> Prop) :
  (forall t o n fp, In t [td; ta; te] -> P (item t targetName o n fp)) ->
  diffResources td ta te rnd n oldL newL targetName = Ret (items, n') ->
  Forall P items.
Proof.
  intros HP. unfold diffResources.
  destruct (createResourceMap rnd n oldL []) as [[om n1] | |]; cbn [bind];
    try discriminate.
  destruct (createResourceMap rnd _ newL []) as [[nm n2] | |]; cbn [bind fst snd];
    try discriminate.
  intros [= <- _]. now apply diffResourceMaps_items.
Qed.

(** The items of one turn of the loop over the targets. *)
Lemma collection_items_shape rnd n o nw targetName c n' (P : DiffItem -> Prop) :
  (forall t o n fp,
     In t [variable_delete; variable_add; variable_edit; list_delete; list_add; list_edit;
           costume_delete; costume_add; costume_edit; sound_delete; sound_add; sound_edit] ->
     P (item t targetName o n fp)) ->
  collection_items rnd n o nw targetName = Ret (c, n') ->
  Forall P c.
Proof.
  intros HP. unfold collection_items.
  destruct o as [o |]; [| intros [= <- _]; constructor].
  destruct nw as [nw |]; [| intros [= <- _]; constructor].
  destruct (diffCostumes rnd n (costumes o) (costumes nw) targetName)
    as [[cd n1] | |] eqn:Ec; cbn [bind]; try discriminate.
  destruct (diffSounds rnd _ (sounds o) (sounds nw) targetName)
    as [[sd n2] | |] eqn:Es; cbn [bind fst snd]; try discriminate.
  intros [= <- _].
  apply Forall_app. split; [| apply Forall_app; split; [| apply Forall_app; split]].
  - apply diffRecord_items. intros t o' n0 fp Ht. apply HP. cbn in *. tauto.
  - apply diffRecord_items. intros t o' n0 fp Ht. apply HP. cbn in *. tauto.
  - eapply diffResources_items; [| exact Ec].
    intros t o' n0 fp Ht. apply HP. cbn in *. tauto.
  - eapply diffResources_items; [| exact Es].
    intros t o' n0 fp Ht. apply HP. cbn in *. tauto.
Qed.

Lemma script_items_kinds fuel o n targetName sc (P : DiffItem -> Prop) :
  (forall s, P (delete_item targetName s)) ->
  (forall s, P (add_item targetName s)) ->
  script_items fuel o n targetName = Ret sc ->
  Forall P sc.
Proof.
  intros Hd Ha.
  assert (Hd' : forall l, Forall P (map (delete_item targetName) l)).
  { intros l. apply Forall_forall. intros it H. apply in_map_iff in H.
    destruct H as (x & <- & _). apply Hd. }
  assert (Ha' : forall l, Forall P (map (add_item targetName) l)).
  { intros l. apply Forall_forall. intros it H. apply in_map_iff in H.
    destruct H as (x & <- & _). apply Ha. }
  unfold script_items. destruct o as [o |], n as [n |].
  - destruct (scripts_of fuel o) as [so | |]; cbn [bind]; try discriminate.
    destruct (scripts_of fuel n) as [sn | |]; cbn [bind]; try discriminate.
    rewrite modify_items_none. cbn [bind app]. intros [= <-].
    apply Forall_app. split; [apply Hd' | apply Ha'].
  - destruct (scripts_of fuel o) as [so | |]; cbn [bind]; try discriminate.
    intros [= <-]. apply Hd'.
  - destruct (scripts_of fuel n) as [sn | |]; cbn [bind]; try discriminate.
    intros [= <-]. apply Ha'.
  - intros [= <-]. constructor.
Qed.

Lemma diff_targets_shape rnd fuel oldP newP (P : string -> DiffItem -> Prop) :
  (forall targetName t o n fp,
     In t [variable_delete; variable_add; variable_edit; list_delete; list_add; list_edit;
           costume_delete; costume_add; costume_edit; sound_delete; sound_add; sound_edit] ->
     P targetName (item t targetName o n fp)) ->
  (forall targetName s, P targetName (delete_item targetName s)) ->
  (forall targetName s, P targetName (add_item targetName s)) ->
  forall names n items n',
  diff_targets rnd fuel oldP newP names n = Ret (items, n') ->
  Forall (fun it => exists targetName, In targetName names /\ P targetName it) items.
Proof.
  intros Hc Hd Ha.
  induction names as [| targetName rest IH]; intros n items n'; cbn [diff_targets].
  - intros [= <- _]. constructor.
  - destruct (collection_items rnd n _ _ targetName) as [[c n1] | |] eqn:Ec;
      cbn [bind]; try discriminate.
    destruct (script_items fuel _ _ targetName) as [sc | |] eqn:Es;
      cbn [bind]; try discriminate.
    destruct (diff_targets rnd fuel oldP newP rest _) as [[r n2] | |] eqn:Er;
      cbn [bind fst snd]; try discriminate.
    intros [= <- _].
    apply Forall_app. split; [| apply Forall_app; split].
    + eapply Forall_impl; [| eapply collection_items_shape; [apply (Hc targetName) | exact Ec]].
      intros it H. exists targetName. split; [now left | exact H].
    + eapply Forall_impl;
        [| eapply script_items_kinds; [apply (Hd targetName) | apply (Ha targetName) | exact Es]].
      intros it H. exists targetName. split; [now left | exact H].
    + eapply Forall_impl; [| eapply IH, Er].
      intros it (tn & Hin & H). exists tn. split; [now right | exact H].
Qed.

Lemma generateDiff_kinds rnd fuel oldP newP items :
  generateDiff rnd fuel oldP newP = Ret items ->
  Forall (fun it =>
            In (type it)
               [script_add; script_delete;
                variable_delete; variable_add; variable_edit;
                list_delete; list_add; list_edit;
                costume_delete; costume_add; costume_edit;
                sound_delete; sound_add; sound_edit]
            /\ (In (targetName it) (map name oldP) \/ In (targetName it) (map name newP))
            /\ fingerprint it <> None
            /\ diff it = None) items.
Proof.
  unfold generateDiff.
  destruct (diff_targets rnd fuel oldP newP (allTargetNames oldP newP) 0)
    as [[its n'] | |] eqn:E; cbn [bind fst]; try discriminate.
  intros [= <-].
  eapply Forall_impl;
    [| eapply (@diff_targets_shape rnd fuel oldP newP
                 (fun tn it =>
                    In (type it)
                       [script_add; script_delete;
                        variable_delete; variable_add; variable_edit;
                        list_delete; list_add; list_edit;
                        costume_delete; costume_add; costume_edit;
                        sound_delete; sound_add; sound_edit]
                    /\ targetName it = tn /\ fingerprint it <> None /\ diff it = None));
       [| | | exact E]].
  - intros it (tn & Hin & Ht & Hn & Hf & Hd).
    split; [exact Ht |]. split; [| now split].
    unfold allTargetNames in Hin. apply (proj1 (set_of_In _ _)) in Hin.
    apply in_app_or in Hin. rewrite Hn.
    destruct Hin as [H | H]; apply (proj1 (set_of_In _ _)) in H; [now left | now right].
  - intros tn t o n fp Ht. cbn [type targetName fingerprint diff item].
    split; [cbn in *; tauto |]. split; [reflexivity |]. split; [discriminate | reflexivity].
  - intros tn s. cbn. split; [tauto |]. split; [reflexivity |]. split; [discriminate | reflexivity].
  - intros tn s. cbn. split; [tauto |]. split; [reflexivity |]. split; [discriminate | reflexivity].
Qed.

(** X4.  Every item of a diff is the addition or the deletion of a script, or
    the addition, deletion or edit of a variable, a list, a costume or a
    sound; it names a target of one of the two projects, carries a
    fingerprint and has no line counts.  No item reports a modified script
    or a change to a block. *)
Theorem generateDiff_item_kinds rnd fuel oldP newP items :
  generateDiff rnd fuel oldP newP = Ret items ->
  Forall (fun it =>
            In (type it)
               [script_add; script_delete;
                variable_delete; variable_add; variable_edit;
                list_delete; list_add; list_edit;
                costume_delete; costume_add; costume_edit;
                sound_delete; sound_add; sound_edit]
            /\ (In (targetName it) (map name oldP) \/ In (targetName it) (map name newP))
            /\ fingerprint it <> None
            /\ diff it = None) items.
Proof. apply generateDiff_kinds. Qed.

(** The items of a diff that name one target are those of its turn. *)
Lemma diff_targets_named rnd fuel oldP newP tn : forall names n items n',
  NoDup names ->
  diff_targets rnd fuel oldP newP names n = Ret (items, n') ->
  (In tn names ->
   exists n0 n1 c sc,
     collection_items rnd n0 (find_target tn oldP) (find_target tn newP) tn = Ret (c, n1)
     /\ script_items fuel (find_target tn oldP) (find_target tn newP) tn = Ret sc
     /\ filter (fun it => String.eqb (targetName it) tn) items = (c ++ sc)%list)
  /\ (~ In tn names -> filter (fun it => String.eqb (targetName it) tn) items = []).
Proof.
  induction names as [| tn0 rest IH]; intros n items n' Hnd; cbn [diff_targets].
  - intros [= <- _]. split; [intros [] | reflexivity].
  - inversion Hnd as [| ? ? Hfresh Hnd']; subst.
    destruct (collection_items rnd n _ _ tn0) as [[c n1] | |] eqn:Ec;
      cbn [bind]; try discriminate.
    destruct (script_items fuel _ _ tn0) as [sc | |] eqn:Es;
      cbn [bind]; try discriminate.
    destruct (diff_targets rnd fuel oldP newP rest _) as [[r n2] | |] eqn:Er;
      cbn [bind fst snd]; try discriminate.
    intros [= <- _].
    destruct (IH _ _ _ Hnd' Er) as [IHin IHout].
    assert (Hc : Forall (fun it => targetName it = tn0) c).
    { eapply collection_items_shape; [| exact Ec]. reflexivity. }
    assert (Hs : Forall (fun it => targetName it = tn0) sc).
    { eapply script_items_kinds; [| | exact Es]; reflexivity. }
    rewrite !filter_app.
    destruct (string_dec tn0 tn) as [-> | Hne].
    + split; [intros _ | intros H; destruct H; now left].
      exists n, n1, c, sc. split; [exact Ec |]. split; [exact Es |].
      rewrite (IHout Hfresh), app_nil_r.
      rewrite !filter_all; [reflexivity | |].
      * intros it Hit. rewrite Forall_forall in Hs. rewrite (Hs it Hit).
        apply String.eqb_refl.
      * intros it Hit. rewrite Forall_forall in Hc. rewrite (Hc it Hit).
        apply String.eqb_refl.
    + assert (Hc0 : filter (fun it => String.eqb (targetName it) tn) c = []).
      { apply filter_none. intros it Hit. rewrite Forall_forall in Hc.
        rewrite (Hc it Hit). now apply String.eqb_neq. }
      assert (Hs0 : filter (fun it => String.eqb (targetName it) tn) sc = []).
      { apply filter_none. intros it Hit. rewrite Forall_forall in Hs.
        rewrite (Hs it Hit). now apply String.eqb_neq. }
      rewrite Hc0, Hs0. cbn [app]. split.
      * intros [H | H]; [destruct (Hne H) | now apply IHin].
      * intros H. apply IHout. intros Hin. apply H. now right.
Qed.

(** X5.  A target that only one of the two projects has: the diff holds one
    [script-add], or one [script-delete], for each of its scripts, and no
    item for its variables, lists, costumes or sounds. *)
Theorem one_sided_target_gives_script_items_only rnd fuel oldP newP items tn t :
  generateDiff rnd fuel oldP newP = Ret items ->
  (find_target tn oldP = None /\ find_target tn newP = Some t
   \/ find_target tn oldP = Some t /\ find_target tn newP = None) ->
  exists scripts,
    scripts_of fuel t = Ret scripts
    /\ filter (fun it => String.eqb (targetName it) tn) items
       = map (match find_target tn oldP with
              | None => add_item tn
              | Some _ => delete_item tn
              end) scripts.
Proof.
  unfold generateDiff.
  destruct (diff_targets rnd fuel oldP newP (allTargetNames oldP newP) 0)
    as [[its n'] | |] eqn:E; cbn [bind fst]; try discriminate.
  intros [= <-] Hside.
  destruct (@diff_targets_named rnd fuel oldP newP tn _ _ _ _ (set_of_NoDup _) E)
    as [Hin _].
  destruct Hin as (n0 & n1 & c & sc & Hc & Hs & Hf).
  { unfold allTargetNames. apply (proj2 (set_of_In _ _)), in_or_app.
    destruct Hside as [[_ H] | [H _]]; [right | left];
      apply (proj2 (set_of_In _ _));
      destruct (RoundTrip.find_target_Some _ _ H) as [Hi <-]; now apply in_map. }
  rewrite Hf.
  destruct Hside as [[Ho Hn] | [Ho Hn]]; rewrite Ho, Hn in Hc, Hs; rewrite Ho;
    cbn [collection_items script_items] in Hc, Hs; injection Hc as <- _;
    destruct (scripts_of fuel t) as [scripts | |]; cbn [bind] in Hs; try discriminate;
    injection Hs as <-; exists scripts; now split.
Qed.

End DiffShape.

(* ------------------------------------------------------------------ *)
(** ** What the replay leaves alone *)

Module ReplayFrame.

Import Js Raw Diff Replay Vocabulary Invariants Notions.
Local Open Scope string_scope.
Unset Implicit Arguments.

Lemma same_but_assets_refl t : same_but_assets t t.
Proof. now repeat split. Qed.

Lemma same_but_assets_trans t1 t2 t3 :
  same_but_assets t1 t2 -> same_but_assets t2 t3 -> same_but_assets t1 t3.
Proof.
  unfold same_but_assets. intros (a1 & a2 & a3 & a4 & a5) (b1 & b2 & b3 & b4 & b5).
  repeat split; congruence.
Qed.

Lemma Forall2_same_refl p : Forall2 same_but_assets p p.
Proof. induction p; constructor; [apply same_but_assets_refl | assumption]. Qed.

Lemma Forall2_same_trans p1 : forall p2 p3,
  Forall2 same_but_assets p1 p2 -> Forall2 same_but_assets p2 p3 ->
  Forall2 same_but_assets p1 p3.
Proof.
  induction p1 as [| t p1 IH]; intros p2 p3 H12 H23; inversion H12; subst;
    inversion H23; subst; constructor.
  - eapply same_but_assets_trans; eassumption.
  - eapply IH; eassumption.
Qed.

Lemma apply_to_target_frame isReverse it t t' :
  apply_to_target isReverse it t = Ret t' -> same_but_assets t t'.
Proof.
  unfold apply_to_target. destruct (resource_type (type it)) as [r |].
  - destruct (apply_change _ _ _ _) as [l | |]; cbn [bind]; try discriminate.
    intros [= <-]. destruct r; now repeat split.
  - intros [= <-]. apply same_but_assets_refl.
Qed.

Lemma on_first_frame targetName f : forall p r p1,
  (forall t t', f t = Ret t' -> same_but_assets t t') ->
  on_first targetName f p = Some r -> r = Ret p1 ->
  Forall2 same_but_assets p p1.
Proof.
  induction p as [| t rest IH]; intros r p1 Hf; cbn [on_first]; [discriminate |].
  destruct (String.eqb (name t) targetName).
  - intros [= <-]. destruct (f t) as [t' | |] eqn:E; cbn [bind]; try discriminate.
    intros [= <-]. constructor; [now apply Hf | apply Forall2_same_refl].
  - destruct (on_first targetName f rest) as [r' |] eqn:E; [| discriminate].
    intros [= <-]. destruct r' as [rest' | |]; cbn [bind]; try discriminate.
    intros [= <-]. constructor; [apply same_but_assets_refl |].
    now apply (IH (Ret rest') rest' Hf).
Qed.

Lemma apply_item_frame isReverse it p p1 :
  apply_item isReverse it p = Ret p1 ->
  Forall2 same_but_assets p p1 \/ p1 = (p ++ [shell (targetName it)])%list.
Proof.
  unfold apply_item.
  destruct (on_first (targetName it) (apply_to_target isReverse it) p) as [r |] eqn:E.
  - intros ->. left.
    eapply on_first_frame; [| exact E | reflexivity].
    intros t t'. apply apply_to_target_frame.
  - destruct (creates_target isReverse (type it)); intros [= <-].
    + now right.
    + left. apply Forall2_same_refl.
Qed.

(** X6.  The replay changes nothing but costumes and sounds.  Its result is the
    base project, target by target, with the name, the variables, the lists,
    the blocks and every other property of each target as they were,
    followed by the targets it created: empty targets, each under the name
    that an item of the diff gave, to which later items may have added
    costumes and sounds. *)
Theorem replay_touches_assets_only isReverse items : forall p p',
  replay isReverse items p = Ret p' ->
  exists kept added,
    p' = (kept ++ added)%list
    /\ Forall2 same_but_assets p kept
    /\ Forall (fun t => exists it, In it items
                                   /\ same_but_assets (shell (targetName it)) t) added.
Proof.
  induction items as [| it rest IH]; intros p p'; cbn [replay].
  - intros [= <-]. exists p, []. rewrite app_nil_r.
    split; [reflexivity |]. split; [apply Forall2_same_refl | constructor].
  - destruct (apply_item isReverse it p) as [p1 | |] eqn:E; cbn [bind]; try discriminate.
    intros Hrest. destruct (IH p1 p' Hrest) as (kept & added & -> & Hk & Ha).
    assert (Ha' : Forall (fun t => exists it0, In it0 (it :: rest)
                            /\ same_but_assets (shell (targetName it0)) t) added).
    { eapply Forall_impl; [| exact Ha]. intros t (it0 & Hin & Hs).
      exists it0. split; [now right | exact Hs]. }
    destruct (apply_item_frame _ _ _ _ E) as [H | ->].
    + exists kept, added. split; [reflexivity |]. split; [| exact Ha'].
      eapply Forall2_same_trans; eassumption.
    + apply Forall2_app_inv_l in Hk. destruct Hk as (k1 & k2 & Hk1 & Hk2 & ->).
      exists k1, (k2 ++ added)%list. split; [now rewrite app_assoc |].
      split; [exact Hk1 |]. apply Forall_app. split; [| exact Ha'].
      inversion Hk2 as [| ? t ? ? Hs Hnil]; subst. inversion Hnil; subst.
      constructor; [| constructor]. exists it. split; [now left | exact Hs].
Qed.

(** *** Deleting and editing what is not there *)

Lemma find_key_none_filter k l :
  find_key k l = None -> filter (fun r => negb (strict_eqb (key_of r) k)) l = l.
Proof.
  unfold find_key. induction l as [| r l IH]; cbn [find filter]; [reflexivity |].
  destruct (strict_eqb (key_of r) k); [discriminate |].
  intros H. cbn [negb]. now rewrite IH.
Qed.

Lemma find_key_none_replace k v l :
  find_key k l = None -> replace_key k v l = l.
Proof.
  unfold find_key. induction l as [| r l IH]; cbn [find replace_key]; [reflexivity |].
  destruct (strict_eqb (key_of r) k); [discriminate |].
  intros H. now rewrite IH.
Qed.

(** X7.  On a list of costumes or sounds that all have an asset identity: the
    deletion and the edit of an identity that the list does not have leave
    the list as it is, and a deletion removes every entry of its identity,
    so that a second one changes nothing. *)
Theorem absent_identity_is_left_alone o v l :
  stable o = true -> stable_list l ->
  (find_key (key_of o) l = None ->
   apply_change Delete (Some o) None l = Ret l
   /\ apply_change Edit (Some o) (Some v) l = Ret l)
  /\ (exists l1,
        apply_change Delete (Some o) None l = Ret l1
        /\ find_key (key_of o) l1 = None
        /\ apply_change Delete (Some o) None l1 = Ret l1).
Proof.
  intros Ho Hl. cbn [apply_change]. split.
  - intros Hnone.
    rewrite (@RoundTrip.delete_resource_stable o l Ho Hl),
            (@RoundTrip.edit_resource_stable o v l Ho Hl).
    now rewrite find_key_none_filter, find_key_none_replace.
  - exists (filter (fun r => negb (strict_eqb (key_of r) (key_of o))) l).
    split; [apply (@RoundTrip.delete_resource_stable o l Ho Hl) |].
    split; [apply RoundTrip.find_key_filter_same |].
    rewrite RoundTrip.delete_resource_stable;
      [| exact Ho | now apply RoundTrip.stable_filter].
    now rewrite find_key_none_filter by apply RoundTrip.find_key_filter_same.
Qed.

End ReplayFrame.

(* ------------------------------------------------------------------ *)
(** ** What the loader returns *)

Module LoaderShape.

Import Js Raw IR MapFacts Vocabulary LoaderFacts.
Local Open Scope string_scope.
Unset Implicit Arguments.

(** A step through what the map inherits is one step more, and the last:
    the chain that the code follows stops exactly when the chain of the
    blocks of the map does. *)
Lemma ends_stops blocks cur :
  (exists n, ends blocks cur n) <-> (exists n, stops blocks cur n).
Proof.
  split; intros (n & H).
  - induction H as [cur H | cur id H H0 | cur id b n H H0 H1 (m & IH)].
    + exists 0. now apply stops_here.
    + destruct (at_id blocks id) as [e |] eqn:E.
      * exists 1. apply stops_next with id e; [exact H | exact E |].
        unfold at_id in E. rewrite H0 in E.
        assert (He : entry_next e = None).
        { destruct (String.eqb id "__proto__"); [now injection E as <- |].
          destruct (inherited id); [now injection E as <- | discriminate]. }
        rewrite He. now apply stops_here.
      * exists 0. now apply stops_missing with id.
    + exists (S m). apply stops_next with id (a_block b); [exact H | | exact IH].
      now apply LoaderFacts.at_id_own.
  - induction H as [cur H | cur id H H0 | cur id e n H H0 H1 (m & IH)].
    + exists 0. now apply ends_here.
    + exists 0. apply ends_missing with id; [exact H |].
      unfold at_id in H0. now destruct (lookup id blocks).
    + destruct (lookup id blocks) as [b |] eqn:El.
      * exists (S m). apply ends_next with id b; [exact H | exact El |].
        rewrite (@LoaderFacts.at_id_own _ _ _ El) in H0. injection H0 as <-. exact IH.
      * exists 0. now apply ends_missing with id.
Qed.

(** X8.  [reconstructScript] returns, given fuel enough, exactly when the chain
    of [next] from the top-level id stops: at the end of the script, or at
    an id that is the key of no block. *)
Theorem reconstructScript_returns_iff_chain_ends blocks id target :
  (exists fuel r, reconstructScript fuel blocks id target = Ret r)
  <-> (exists n, ends blocks (Some id) n).
Proof.
  rewrite ends_stops. split.
  - intros (fuel & r & H). unfold reconstructScript in H.
    destruct (at_id blocks id) as [b |] eqn:E.
    + destruct (first_pass fuel blocks (Some id)) as [visited | |] eqn:Ef;
        cbn [bind] in H; try discriminate.
      exists (List.length visited). exact (first_pass_returns _ _ _ Ef).
    + exists 0. destruct (live (Some id)) as [id' |] eqn:El.
      * apply stops_missing with id'; [exact El |].
        cbn [live] in El. destruct (String.eqb id ""); [discriminate |].
        now injection El as <-.
      * now apply stops_here.
  - intros (n & He). exists (S n). unfold reconstructScript.
    destruct (at_id blocks id) as [b |]; [| now exists None].
    rewrite (@first_pass_ends blocks (Some id) n He (S n)) by lia. cbn [bind].
    eexists. reflexivity.
Qed.

Lemma reconstructScripts_shape fuel blocks target : forall ids scripts,
  (forall id, In id ids -> lookup id blocks <> None) ->
  reconstructScripts fuel blocks ids target = Ret scripts ->
  List.length scripts = List.length ids
  /\ Forall (fun s => targetName s = target) scripts.
Proof.
  induction ids as [| id ids IH]; intros scripts Hk; cbn [reconstructScripts].
  - intros [= <-]. split; [reflexivity | constructor].
  - destruct (reconstructScript fuel blocks id target) as [s | |] eqn:E; cbn [bind];
      try discriminate.
    destruct (reconstructScripts fuel blocks ids target) as [rest | |] eqn:Er; cbn [bind];
      try discriminate.
    destruct (IH rest (fun i Hi => Hk i (or_intror Hi)) eq_refl) as [Hlen Hall].
    unfold reconstructScript in E.
    destruct (at_id blocks id) as [b |] eqn:El;
      [| destruct (at_id_key _ _ (Hk id (or_introl eq_refl)) El)].
    destruct (first_pass fuel blocks (Some id)) as [visited | |]; cbn [bind] in E;
      try discriminate.
    injection E as <-. intros [= <-]. cbn [List.length].
    split; [now rewrite Hlen |]. constructor; [reflexivity | exact Hall].
Qed.

Lemma parse_shape fuel : forall project parsed,
  parse fuel project = Ret parsed ->
  Forall2 (fun raw t =>
             p_name t = name raw
             /\ p_variables t = variables raw /\ p_lists t = lists raw
             /\ p_costumes t = costumes raw /\ p_sounds t = sounds raw
             /\ List.length (p_scripts t) = List.length (topLevelBlockIds (blocks raw))
             /\ Forall (fun s => targetName s = name raw) (p_scripts t))
          project parsed.
Proof.
  induction project as [| raw rest IH]; intros parsed; cbn [parse].
  - intros [= <-]. constructor.
  - destruct (reconstructScripts fuel (blocks raw) _ (name raw)) as [scripts | |] eqn:E;
      cbn [bind]; try discriminate.
    destruct (parse fuel rest) as [ts | |] eqn:Er; cbn [bind]; try discriminate.
    intros [= <-]. constructor; [| now apply IH].
    cbn [p_name p_variables p_lists p_costumes p_sounds p_scripts].
    destruct (reconstructScripts_shape fuel (blocks raw) (name raw) _ scripts
                (@topLevelBlockIds_keys (blocks raw)) E) as [Hlen Hall].
    now repeat split.
Qed.

(** X9.  When [ProjectParser.parse] returns, it returns one target for each
    target of the project, in order, with the same name, variables, lists,
    costumes and sounds, and with one script, under the name of the target,
    for each block that is top-level and not a shadow. *)
Theorem parse_keeps_targets fuel : forall project parsed,
  parse fuel project = Ret parsed ->
  Forall2 (fun raw t =>
             p_name t = name raw
             /\ p_variables t = variables raw /\ p_lists t = lists raw
             /\ p_costumes t = costumes raw /\ p_sounds t = sounds raw
             /\ List.length (p_scripts t) = List.length (topLevelBlockIds (blocks raw))
             /\ Forall (fun s => targetName s = name raw) (p_scripts t))
          project parsed.
Proof. exact (parse_shape fuel). Qed.

Lemma mapM_Forall2 {A B} (f : A -> outcome B) : forall l l',
  mapM f l = Ret l' -> Forall2 (fun x y => f x = Ret y) l l'.
Proof.
  induction l as [| x l IH]; intros l'; cbn [mapM].
  - intros [= <-]. constructor.
  - destruct (f x) as [y | |] eqn:E; cbn [bind]; try discriminate.
    destruct (mapM f l) as [ys | |]; cbn [bind]; try discriminate.
    intros [= <-]. constructor; [exact E | now apply IH].
Qed.

Lemma Forall2_compose {A B C} (P : A -> B -> Prop) (Q : B -> C -> Prop) :
  forall l1 l2 l3, Forall2 P l1 l2 -> Forall2 Q l2 l3 ->
    Forall2 (fun a c => exists b, P a b /\ Q b c) l1 l3.
Proof.
  intros l1 l2 l3 H. revert l3. induction H as [| a b l1 l2 Hab H IH]; intros l3 H3.
  - inversion H3. constructor.
  - inversion H3 as [| ? c ? l3' Hbc H3']; subst. constructor; [now exists b | now apply IH].
Qed.

Lemma Forall2_length_Forall {A B} (P : A -> B -> Prop) (Q : A -> Prop) (R : B -> Prop) :
  (forall a b, P a b -> Q a -> R b) ->
  forall l l', Forall2 P l l' -> List.length l' = List.length l /\ (Forall Q l -> Forall R l').
Proof.
  intros HPQ l l' H. induction H as [| a b l l' Hab H [IHl IHf]]; cbn [List.length].
  - split; [reflexivity | constructor].
  - split; [now rewrite IHl |]. intros HQ. inversion HQ; subst.
    constructor; [now apply (HPQ a) | now apply IHf].
Qed.

(** What the three steps behind [load] keep of a target. *)
Lemma load_shape fuel project ir :
  load fuel project = Ret ir ->
  Forall2 (fun raw t =>
             p_name t = name raw
             /\ p_variables t = variables raw /\ p_lists t = lists raw
             /\ p_costumes t = costumes raw /\ p_sounds t = sounds raw
             /\ List.length (p_scripts t) = List.length (topLevelBlockIds (blocks raw))
             /\ Forall (fun s => s_targetName s = name raw) (p_scripts t))
          project ir.
Proof.
  unfold load. destruct (parse fuel project) as [parsed | |] eqn:Ep; cbn [bind];
    try discriminate.
  destruct (normalize parsed) as [normalized | |] eqn:En; cbn [bind]; try discriminate.
  intros Eb.
  assert (H1 := parse_shape fuel project parsed Ep).
  assert (H2 := mapM_Forall2 _ _ _ En).
  assert (H3 := mapM_Forall2 _ _ _ Eb).
  assert (H := Forall2_compose _ _ _ _ _ (Forall2_compose _ _ _ _ _ H1 H2) H3).
  eapply Forall2_impl; [| exact H].
  clear. intros raw t (n & (p & Hp & Hn) & Ht). cbn beta in *.
  destruct Hp as (E1 & E2 & E3 & E4 & E5 & E6 & E7).
  destruct (mapM normalizeScript (p_scripts p)) as [ns | |] eqn:Ens; cbn [bind] in Hn;
    try discriminate.
  injection Hn as <-. cbn [p_name p_scripts p_variables p_lists p_costumes p_sounds] in Ht.
  destruct (mapM scriptIR ns) as [ss | |] eqn:Ess; cbn [bind] in Ht; try discriminate.
  injection Ht as <-. cbn [p_name p_scripts p_variables p_lists p_costumes p_sounds].
  repeat (split; [assumption |]).
  destruct (Forall2_length_Forall (fun x y => normalizeScript x = Ret y)
              (fun s => targetName s = name raw) (fun s => targetName s = name raw))
    with (l := p_scripts p) (l' := ns) as [L1 F1].
  { intros a b Hab Ha. unfold normalizeScript in Hab.
    destruct (topLevelBlock a); [| discriminate].
    destruct (normalizeBlock n); cbn [bind] in Hab; try discriminate.
    injection Hab as <-. exact Ha. }
  { now apply mapM_Forall2. }
  destruct (Forall2_length_Forall (fun x y => scriptIR x = Ret y)
              (fun s => targetName s = name raw) (fun s => s_targetName s = name raw))
    with (l := ns) (l' := ss) as [L2 F2].
  { intros a b Hab Ha. unfold scriptIR in Hab.
    destruct (topLevelBlock a); [| discriminate].
    destruct (buildBlockIR n) as [ir0 | |]; cbn [bind] in Hab; try discriminate.
    destruct (generateBlockFingerprint ir0); cbn [bind] in Hab; try discriminate.
    injection Hab as <-. exact Ha. }
  { now apply mapM_Forall2. }
  split; [congruence | auto].
Qed.

(** X22.  When the loading of a project returns (parser, normalizer and builder
    of the IR in a row), the IR has one target for each target of the
    project, in order, with the same name, variables, lists, costumes and
    sounds, and with one script, under the name of the target,
    for each block that is top-level and not a shadow. *)
Theorem load_keeps_targets fuel project ir :
  load fuel project = Ret ir ->
  Forall2 (fun raw t =>
             p_name t = name raw
             /\ p_variables t = variables raw /\ p_lists t = lists raw
             /\ p_costumes t = costumes raw /\ p_sounds t = sounds raw
             /\ List.length (p_scripts t) = List.length (topLevelBlockIds (blocks raw))
             /\ Forall (fun s => s_targetName s = name raw) (p_scripts t))
          project ir.
Proof. exact (load_shape fuel project ir). Qed.

(** X10.  The loader takes for the roots of scripts the top-level blocks that are
    not shadows, the renderer of [script-parser.ts] every top-level block:
    the roots of the loader are among those of the renderer, in the same
    order, and the two lists are the same when no top-level block is a
    shadow. *)
Theorem loader_roots_among_renderer_roots blocks :
  topLevelBlockIds blocks
  = map fst (filter (fun e => negb (shadow (snd e)))
                    (filter (fun e => topLevel (snd e)) blocks))
  /\ incl (topLevelBlockIds blocks) (ScriptParser.getTopLevelIds blocks)
  /\ ((forall id b, In (id, b) blocks -> topLevel b = true -> shadow b = false) ->
      topLevelBlockIds blocks = ScriptParser.getTopLevelIds blocks).
Proof.
  unfold topLevelBlockIds, ScriptParser.getTopLevelIds.
  assert (H : filter (fun e : string * RawBlock => topLevel (snd e) && negb (shadow (snd e)))
                blocks
              = filter (fun e => negb (shadow (snd e)))
                       (filter (fun e => topLevel (snd e)) blocks)).
  { symmetry. apply SelfDiff.filter_filter. }
  split; [now rewrite H |]. split.
  - rewrite H. intros id Hid. apply in_map_iff in Hid. destruct Hid as (e & <- & He).
    apply filter_In in He. apply in_map. apply He.
  - intros Hs. f_equal. apply filter_ext_in. intros [id b] Hin. cbn [snd].
    destruct (topLevel b) eqn:Et; [| reflexivity].
    now rewrite (Hs id b Hin Et).
Qed.

End LoaderShape.

(* ------------------------------------------------------------------ *)
(** ** Sorting, as [Array.prototype.sort] with a total comparator *)

Module SortFacts.

Import Js.
Unset Implicit Arguments.

Section InsertionSort.
Variable A : Type.
Variable le : A -> A -> bool.
Hypothesis le_total : forall x y, le x y = true \/ le y x = true.

Lemma insert_sorted_perm x l : Permutation (insert_sorted le x l) (x :: l).
Proof.
  induction l as [| y t IH]; cbn [insert_sorted]; [apply Permutation_refl |].
  destruct (le x y); [apply Permutation_refl |].
  apply perm_trans with (y :: x :: t); [now apply perm_skip | apply perm_swap].
Qed.

Lemma stable_sort_perm l : Permutation (stable_sort le l) l.
Proof.
  induction l as [| x t IH]; cbn [stable_sort]; [apply perm_nil |].
  apply perm_trans with (x :: stable_sort le t);
    [apply insert_sorted_perm | now apply perm_skip].
Qed.

Lemma insert_sorted_Sorted x l :
  Sorted (fun a b => le a b = true) l ->
  Sorted (fun a b => le a b = true) (insert_sorted le x l).
Proof.
  induction l as [| y t IH]; cbn [insert_sorted]; intros H.
  - repeat constructor.
  - destruct (le x y) eqn:E.
    + constructor; [exact H | now constructor].
    + inversion H as [| ? ? Ht Hhd]; subst.
      constructor; [now apply IH |].
      destruct t as [| z t]; cbn [insert_sorted].
      * constructor. destruct (le_total x y) as [H1 | H1]; [congruence | exact H1].
      * destruct (le x z).
        -- constructor. destruct (le_total x y) as [H1 | H1]; [congruence | exact H1].
        -- inversion Hhd; subst. now constructor.
Qed.

Lemma stable_sort_Sorted l : Sorted (fun a b => le a b = true) (stable_sort le l).
Proof.
  induction l as [| x t IH]; cbn [stable_sort]; [constructor |].
  now apply insert_sorted_Sorted.
Qed.

(** A list that is in order is left as it is. *)
Lemma stable_sort_fixed l :
  Sorted (fun a b => le a b = true) l -> stable_sort le l = l.
Proof.
  induction l as [| x t IH]; cbn [stable_sort]; intros H; [reflexivity |].
  inversion H as [| ? ? Ht Hhd]; subst. rewrite (IH Ht).
  destruct t as [| y t]; cbn [insert_sorted]; [reflexivity |].
  inversion Hhd as [| ? ? Hxy]; subst. now rewrite Hxy.
Qed.

Lemma stable_sort_Forall (P : A -> Prop) l : Forall P l -> Forall P (stable_sort le l).
Proof.
  intros H. eapply Permutation_Forall; [| exact H].
  apply Permutation_sym, stable_sort_perm.
Qed.

End InsertionSort.

End SortFacts.

(* ------------------------------------------------------------------ *)
(** ** The renderer of scripts *)

Module RenderFacts.

Import Js Raw ScriptParser MapFacts SortFacts Notions.
Local Open Scope string_scope.
Unset Implicit Arguments.

Lemma parseTopIds_shape fuel blocks : forall topIds scripts,
  parseTopIds fuel blocks topIds = Ret scripts ->
  map topId scripts = topIds
  /\ Forall (fun s => fingerprint s = generateFingerprint (text s)) scripts.
Proof.
  induction topIds as [| id rest IH]; intros scripts; cbn [parseTopIds].
  - intros [= <-]. split; [reflexivity | constructor].
  - destruct (parseScriptWithBlocks fuel blocks id (-1) false) as [r | |]; cbn [bind];
      try discriminate.
    destruct (parseTopIds fuel blocks rest) as [ss | |]; cbn [bind]; try discriminate.
    intros [= <-]. destruct (IH ss eq_refl) as [H1 H2]. cbn [map topId].
    split; [now rewrite H1 |]. constructor; [reflexivity | exact H2].
Qed.

(** X11.  When [parseSpriteScripts] returns, it returns one script for each
    top-level id it was given, in the order of their fingerprints, and the
    fingerprint of each script is that of its text. *)
Theorem parseSpriteScripts_sorted fuel blocks topIds scripts :
  parseSpriteScripts fuel blocks topIds = Ret scripts ->
  Permutation (map topId scripts) topIds
  /\ Sorted (fun a b => String.leb (fingerprint a) (fingerprint b) = true) scripts
  /\ Forall (fun s => fingerprint s = generateFingerprint (text s)) scripts.
Proof.
  unfold parseSpriteScripts.
  destruct (parseTopIds fuel blocks topIds) as [ss | |] eqn:E; cbn [bind]; try discriminate.
  intros [= <-]. destruct (parseTopIds_shape _ _ _ _ E) as [H1 H2].
  split; [| split].
  - rewrite <- H1. apply Permutation_map, stable_sort_perm.
  - apply (stable_sort_Sorted ScriptText
             (fun a b => String.leb (fingerprint a) (fingerprint b))).
    intros x y. apply String.leb_total.
  - now apply stable_sort_Forall.
Qed.

(** *** Rendering a forest *)

Lemma live_Some cur id : live cur = Some id -> cur = Some id /\ id <> "".
Proof.
  destruct cur as [s |]; cbn [live]; [| discriminate].
  destruct (String.eqb s "") eqn:E; [discriminate |].
  intros [= <-]. split; [reflexivity |]. now apply String.eqb_neq.
Qed.

Lemma tabs_returns n : (0 <= n)%Z -> tabs n = Ret (repeat_string tab (Z.to_nat n)).
Proof.
  intros H. unfold tabs. destruct (n <? 0)%Z eqn:E; [| reflexivity].
  apply Z.ltb_lt in E. lia.
Qed.

Lemma walk_returns rank blocks :
  forest rank blocks ->
  forall n fuel depth elseClause cur output acc,
  n < fuel -> (-1 <= depth)%Z -> (elseClause = true -> (0 <= depth)%Z) ->
  (forall id, live cur = Some id -> lookup id blocks <> None /\ rank id < n) ->
  exists r, walk fuel blocks depth elseClause cur output acc = Ret r.
Proof.
  intros Hforest. induction n as [| n IH]; intros fuel depth elseClause cur output acc
    Hfuel Hdepth Helse Hcur; (destruct fuel as [| fuel]; [lia |]); cbn [walk];
    (destruct (live cur) as [id |] eqn:El; [| eexists; reflexivity]);
    destruct (Hcur id eq_refl) as [Hl Hr]; [lia |].
  assert (Hout : exists output',
            (if elseClause
             then t <- tabs depth ;; Ret (output ++ t ++ "else" ++ nl)
             else Ret output) = Ret output').
  { destruct elseClause; [| eexists; reflexivity].
    rewrite tabs_returns by now apply Helse. eexists. reflexivity. }
  destruct Hout as [output' ->]. cbn [bind].
  destruct (lookup id blocks) as [b |] eqn:Eb; [| now destruct Hl].
  rewrite (@LoaderFacts.at_id_own _ _ _ Eb).
  rewrite tabs_returns by lia. cbn [bind copied entry_slots entry_next].
  assert (Hsub : forall c d e out ac,
            refers b c -> (-1 <= d)%Z -> (e = true -> (0 <= d)%Z) ->
            exists r, walk fuel blocks d e (Some c) out ac = Ret r).
  { intros c d e out ac Href Hd He. apply (IH fuel d e (Some c) out ac); try assumption; [lia |].
    intros id' Hid'. apply live_Some in Hid'. destruct Hid' as [[= <-] Hne].
    destruct (Hforest id b c Eb Href Hne) as [H1 H2]. split; [exact H1 | lia]. }
  destruct (slot_ref (inputs b) "CONDITION") as [c1 |] eqn:E1.
  - destruct (Hsub c1 0%Z false "" []) as [r1 ->]; [right; now left | lia | discriminate |].
    cbn [bind].
    destruct (slot_ref (inputs b) "SUBSTACK") as [c2 |] eqn:E2.
    + destruct (Hsub c2 (depth + 1)%Z false "" []) as [r2 ->];
        [right; right; now left | lia | discriminate |].
      cbn [bind].
      destruct (slot_ref (inputs b) "SUBSTACK2") as [c3 |] eqn:E3.
      * destruct (Hsub c3 (depth + 1)%Z true "" []) as [r3 ->];
          [right; right; now right | lia | lia |].
        cbn [bind]. apply IH; try assumption; [lia |].
        intros id' Hid'. apply live_Some in Hid'. destruct Hid' as [Hn Hne].
        destruct (Hforest id b id' Eb (or_introl Hn) Hne) as [H1 H2]. split; [exact H1 | lia].
      * cbn [bind]. apply IH; try assumption; [lia |].
        intros id' Hid'. apply live_Some in Hid'. destruct Hid' as [Hn Hne].
        destruct (Hforest id b id' Eb (or_introl Hn) Hne) as [H1 H2]. split; [exact H1 | lia].
    + cbn [bind].
      destruct (slot_ref (inputs b) "SUBSTACK2") as [c3 |] eqn:E3.
      * destruct (Hsub c3 (depth + 1)%Z true "" []) as [r3 ->];
          [right; right; now right | lia | lia |].
        cbn [bind]. apply IH; try assumption; [lia |].
        intros id' Hid'. apply live_Some in Hid'. destruct Hid' as [Hn Hne].
        destruct (Hforest id b id' Eb (or_introl Hn) Hne) as [H1 H2]. split; [exact H1 | lia].
      * cbn [bind]. apply IH; try assumption; [lia |].
        intros id' Hid'. apply live_Some in Hid'. destruct Hid' as [Hn Hne].
        destruct (Hforest id b id' Eb (or_introl Hn) Hne) as [H1 H2]. split; [exact H1 | lia].
  - cbn [bind].
    destruct (slot_ref (inputs b) "SUBSTACK") as [c2 |] eqn:E2.
    + destruct (Hsub c2 (depth + 1)%Z false "" []) as [r2 ->];
        [right; right; now left | lia | discriminate |].
      cbn [bind].
      destruct (slot_ref (inputs b) "SUBSTACK2") as [c3 |] eqn:E3.
      * destruct (Hsub c3 (depth + 1)%Z true "" []) as [r3 ->];
          [right; right; now right | lia | lia |].
        cbn [bind]. apply IH; try assumption; [lia |].
        intros id' Hid'. apply live_Some in Hid'. destruct Hid' as [Hn Hne].
        destruct (Hforest id b id' Eb (or_introl Hn) Hne) as [H1 H2]. split; [exact H1 | lia].
      * cbn [bind]. apply IH; try assumption; [lia |].
        intros id' Hid'. apply live_Some in Hid'. destruct Hid' as [Hn Hne].
        destruct (Hforest id b id' Eb (or_introl Hn) Hne) as [H1 H2]. split; [exact H1 | lia].
    + cbn [bind].
      destruct (slot_ref (inputs b) "SUBSTACK2") as [c3 |] eqn:E3.
      * destruct (Hsub c3 (depth + 1)%Z true "" []) as [r3 ->];
          [right; right; now right | lia | lia |].
        cbn [bind]. apply IH; try assumption; [lia |].
        intros id' Hid'. apply live_Some in Hid'. destruct Hid' as [Hn Hne].
        destruct (Hforest id b id' Eb (or_introl Hn) Hne) as [H1 H2]. split; [exact H1 | lia].
      * cbn [bind]. apply IH; try assumption; [lia |].
        intros id' Hid'. apply live_Some in Hid'. destruct Hid' as [Hn Hne].
        destruct (Hforest id b id' Eb (or_introl Hn) Hne) as [H1 H2]. split; [exact H1 | lia].
Qed.

(** X12.  On a block map that is a forest the renderer returns: it raises no
    error and, with fuel for two turns more than the ranks are high, it
    comes to an end, for every list of top-level ids that are keys of the
    map, and so for the ids that [getTopLevelIds] gives. *)
Theorem rendering_returns_on_forests rank blocks fuel :
  forest rank blocks ->
  (forall id, In id (keys blocks) -> S (rank id) < fuel) ->
  exists scripts, parseSpriteScripts fuel blocks (getTopLevelIds blocks) = Ret scripts.
Proof.
  intros Hforest Hfuel. unfold parseSpriteScripts.
  assert (H : forall topIds, incl topIds (keys blocks) ->
                exists ss, parseTopIds fuel blocks topIds = Ret ss).
  { induction topIds as [| id rest IH]; intros Hin; cbn [parseTopIds];
      [eexists; reflexivity |].
    unfold parseScriptWithBlocks.
    destruct (walk_returns rank blocks Hforest (S (rank id)) fuel (-1)%Z false
                (Some id) "" []) as [r ->].
    - apply Hfuel, Hin. now left.
    - lia.
    - discriminate.
    - intros id' Hid'. apply live_Some in Hid'. destruct Hid' as [[= <-] _].
      split; [| lia]. intros E. apply (proj1 (lookup_None _ _)) in E.
      apply E, Hin. now left.
    - cbn [bind]. destruct IH as [ss ->]; [intros x Hx; apply Hin; now right |].
      cbn [bind]. eexists. reflexivity. }
  destruct (H (getTopLevelIds blocks)) as [ss ->].
  - unfold getTopLevelIds, keys. intros id Hid. apply in_map_iff in Hid.
    destruct Hid as (e & <- & He). apply filter_In in He. apply in_map. apply He.
  - cbn [bind]. eexists. reflexivity.
Qed.

(** *** A reference to a block that is not there *)

Lemma walk_raises blocks cur n e :
  leads_nowhere blocks cur n e ->
  forall fuel depth output acc,
  n < fuel -> (-1 <= depth)%Z ->
  walk fuel blocks depth false cur output acc = Throw e.
Proof.
  induction 1 as [cur id Hl Hb | cur id Hl Hb | cur id b n e Hl Hb H1 H2 H3 Hrest IH];
    intros fuel depth output acc Hfuel Hdepth;
    (destruct fuel as [| fuel]; [lia |]); cbn [walk]; rewrite Hl; cbn [bind].
  - now rewrite Hb.
  - rewrite Hb. rewrite tabs_returns by lia. reflexivity.
  - rewrite (@LoaderFacts.at_id_own _ _ _ Hb).
    rewrite tabs_returns by lia. cbn [bind copied entry_slots entry_next].
    rewrite H1, H2, H3. cbn [bind fst snd].
    apply IH; lia.
Qed.

(** X13.  The renderer has no guard for a missing block.  When the chain of
    [next] of the first top-level script leads, through blocks without
    nested scripts, to an id under which the block map has nothing, not
    even what every object inherits, rendering ends with a [TypeError];
    when it leads to a name under which every object has a function
    ([constructor], [toString], ...), with a [SyntaxError].  No script is
    cut short, and none is returned. *)
Theorem renderer_raises_on_dangling_next blocks id rest n e fuel :
  leads_nowhere blocks (Some id) n e -> n < fuel ->
  (e = TypeError \/ e = SyntaxError)
  /\ parseSpriteScripts fuel blocks (id :: rest) = Throw e.
Proof.
  intros H Hfuel. split.
  - clear - H. induction H; auto.
  - unfold parseSpriteScripts. cbn [parseTopIds].
    unfold parseScriptWithBlocks.
    rewrite (walk_raises blocks (Some id) n e H fuel (-1)%Z "" []) by lia.
    reflexivity.
Qed.

(** A dangling [next] named [__proto__] leads to the prototype of the block
    map, which is rendered as a block: a line with the word [undefined]. *)
Lemma prototype_is_rendered_as_a_block :
  exists script,
    parseSpriteScripts 5 Samples.inheriting_proto ["a"] = Ret [script]
    /\ map bt_text (sblocks script) = ["motion_movesteps"; "undefined"].
Proof. eexists. split; [vm_compute; reflexivity | reflexivity]. Qed.

End RenderFacts.

(* ------------------------------------------------------------------ *)
(** ** What the line diff reports *)

Module LineDiffFacts.

Import Js ScriptParser Diff.
Unset Implicit Arguments.

(** X14.  The search of [myersDiff] starts from [V] with the one entry [V[0] = 0],
    while its first turn reads [V[1]]: every [x] it computes is [undefined]
    or [NaN], the end test never holds, and the search runs through to the
    fallback.  So the edit script is empty for every two arrays of lines,
    [diffText] counts no added and no removed line for every two texts, and
    [diffBlocks] has no item for any two scripts. *)
Theorem line_diff_reports_nothing :
  (forall a b, TextDiff.myersDiff a b = Ret [])
  /\ (forall oldText newText,
        TextDiff.diffText oldText newText
        = Ret {| TextDiff.added := 0; TextDiff.removed := 0; TextDiff.changes := [] |})
  /\ (forall oldS newS targetName, diffBlocks oldS newS targetName = Ret [])
  /\ (forall matches targetName, modify_items matches targetName = Ret []).
Proof.
  split; [apply TextDiffFacts.myersDiff_empty |].
  split; [apply TextDiffFacts.diffText_zero |].
  split; [| apply SelfDiff.modify_items_none].
  intros oldS newS targetName. unfold diffBlocks.
  now rewrite TextDiffFacts.diffText_zero.
Qed.

End LineDiffFacts.

(* ------------------------------------------------------------------ *)
(** ** The summary and the structured changes *)

Module SummaryFacts.

Import Js Raw Diff Summary Notions.
Local Open Scope Z_scope.
Unset Implicit Arguments.

Lemma total_increase field n summary : total (increase field n summary) = total summary + n.
Proof. destruct field; unfold total, increase; cbn; lia. Qed.

Lemma total_count_item summary it :
  counted_once it -> total (count_item summary it) = total summary + 1.
Proof.
  unfold counted_once, count_item. destruct (type it); intros H;
    try apply total_increase; [| destruct H].
  rewrite H. apply total_increase.
Qed.

Lemma fold_count_total items : forall summary,
  Forall counted_once items ->
  total (fold_left count_item items summary) = total summary + Z.of_nat (List.length items).
Proof.
  induction items as [| it rest IH]; intros summary H; cbn [fold_left List.length].
  - lia.
  - inversion H; subst. rewrite IH by assumption. rewrite total_count_item by assumption.
    lia.
Qed.

Lemma fold_count_targets items : forall summary,
  fold_left count_item items summary targetsAdded = summary targetsAdded
  /\ fold_left count_item items summary targetsDeleted = summary targetsDeleted.
Proof.
  induction items as [| it rest IH]; intros summary; cbn [fold_left]; [now split |].
  destruct (IH (count_item summary it)) as [-> ->].
  unfold count_item. destruct (type it); try (now split);
    destruct (diff it) as [[a r] |]; now split.
Qed.

Lemma fold_count_field items field : forall summary,
  Forall (fun it => counted_once it /\ counted_as (type it) <> Some field) items ->
  fold_left count_item items summary field = summary field.
Proof.
  induction items as [| it rest IH]; intros summary H; cbn [fold_left]; [reflexivity |].
  inversion H as [| ? ? [Honce Hother] Hrest]; subst. rewrite IH by assumption.
  unfold count_item, counted_once in *.
  destruct (type it) eqn:Et; cbn [counted_as] in Hother;
    try (destruct Honce; fail);
    try (rewrite Honce);
    unfold increase; destruct field; cbn [Counter_eqb]; try reflexivity;
    destruct Hother; reflexivity.
Qed.

(** X15.  The summary never counts a target as added or deleted, whatever the
    diff: the two fields stay at zero.  When no item is a [block-move] or a
    [script-modify] with line counts, the numbers of the summary add up to
    the number of items. *)
Theorem summary_counts_items_not_targets items :
  calculateSummary items targetsAdded = 0
  /\ calculateSummary items targetsDeleted = 0
  /\ (Forall counted_once items ->
      total (calculateSummary items) = Z.of_nat (List.length items)).
Proof.
  unfold calculateSummary.
  destruct (fold_count_targets items zero) as [-> ->].
  split; [reflexivity |]. split; [reflexivity |].
  intros H. now rewrite fold_count_total.
Qed.

(** X16.  The summary of a diff that [generateDiff] made: its numbers add up to
    the number of items, and it reports no modified script and no added,
    deleted or modified block. *)
Theorem summary_of_generated_diff rnd fuel oldP newP items :
  generateDiff rnd fuel oldP newP = Ret items ->
  total (calculateSummary items) = Z.of_nat (List.length items)
  /\ calculateSummary items scriptsModified = 0
  /\ calculateSummary items blocksAdded = 0
  /\ calculateSummary items blocksDeleted = 0
  /\ calculateSummary items blocksModified = 0.
Proof.
  intros H. apply DiffShape.generateDiff_kinds in H.
  assert (Hall : forall field,
            In field [scriptsModified; blocksAdded; blocksDeleted; blocksModified] ->
            Forall (fun it => counted_once it /\ counted_as (type it) <> Some field) items).
  { intros field Hfield. eapply Forall_impl; [| exact H].
    intros it (Ht & _). unfold counted_once.
    cbn [In] in Ht, Hfield.
    repeat (destruct Ht as [<- | Ht]; [cbn [counted_as]; split; [exact I |];
              repeat (destruct Hfield as [<- | Hfield]; [discriminate |]);
              destruct Hfield |]).
    destruct Ht. }
  unfold calculateSummary. split.
  - rewrite fold_count_total; [reflexivity |].
    eapply Forall_impl; [| exact (Hall scriptsModified (or_introl eq_refl))].
    now intros it [Hit _].
  - repeat split; rewrite fold_count_field; try reflexivity; apply Hall; cbn; tauto.
Qed.

Lemma fold_structure items : forall c,
  c_targets (fold_left structure_item items c) = c_targets c
  /\ c_scripts (fold_left structure_item items c)
     = (c_scripts c ++ filter (filed_under Scripts) items)%list
  /\ c_variables (fold_left structure_item items c)
     = (c_variables c ++ filter (filed_under Variables) items)%list
  /\ c_lists (fold_left structure_item items c)
     = (c_lists c ++ filter (filed_under Lists) items)%list
  /\ map a_targetName (c_assets (fold_left structure_item items c))
     = (map a_targetName (c_assets c)
        ++ map targetName (filter (filed_under Assets) items))%list.
Proof.
  induction items as [| it rest IH]; intros c; cbn [fold_left filter].
  - rewrite ?app_nil_r. cbn [map]. rewrite ?app_nil_r. now repeat split.
  - destruct (IH (structure_item c it)) as (H1 & H2 & H3 & H4 & H5).
    rewrite H1, H2, H3, H4, H5. clear.
    unfold structure_item, filed_under.
    destruct (type it);
      cbn [category Category_eqb c_targets c_scripts c_variables c_lists c_assets];
      rewrite ?map_app, <- ?app_assoc; cbn [map app a_targetName asset_change];
      now repeat split.
Qed.

Lemma fold_structure_types items : forall c,
  Forall (fun a => In (a_type a) [Some "add"; Some "delete"; Some "edit"]%string)
         (c_assets c) ->
  Forall (fun a => In (a_type a) [Some "add"; Some "delete"; Some "edit"]%string)
         (c_assets (fold_left structure_item items c)).
Proof.
  induction items as [| it rest IH]; intros c Hc; cbn [fold_left]; [exact Hc |].
  apply IH. unfold structure_item.
  destruct (type it) eqn:Et; cbn [c_assets]; try exact Hc;
    apply Forall_app; (split; [exact Hc |]); constructor; try constructor;
    unfold asset_change; cbn [a_type]; rewrite Et; cbn; tauto.
Qed.

(** X17.  [structureChanges] files every item under one of its lists, in the
    order of the diff: the items about scripts and blocks, about variables
    and about lists are copied, and each item about a costume or a sound
    becomes one asset change, whose type is [add], [delete] or [edit].  The
    list of target changes is always empty. *)
Theorem structureChanges_files_every_item items :
  c_targets (structureChanges items) = []
  /\ c_scripts (structureChanges items) = filter (filed_under Scripts) items
  /\ c_variables (structureChanges items) = filter (filed_under Variables) items
  /\ c_lists (structureChanges items) = filter (filed_under Lists) items
  /\ map a_targetName (c_assets (structureChanges items))
     = map targetName (filter (filed_under Assets) items)
  /\ Forall (fun a => In (a_type a) [Some "add"; Some "delete"; Some "edit"]%string)
            (c_assets (structureChanges items))
  /\ (List.length (c_scripts (structureChanges items))
      + List.length (c_variables (structureChanges items))
      + List.length (c_lists (structureChanges items))
      + List.length (c_assets (structureChanges items))
      = List.length items)%nat.
Proof.
  unfold structureChanges.
  destruct (fold_structure items
              {| c_targets := []; c_scripts := []; c_variables := []; c_lists := [];
                 c_assets := [] |}) as (H1 & H2 & H3 & H4 & H5).
  cbn [c_targets c_scripts c_variables c_lists c_assets app map] in *.
  split; [exact H1 |]. split; [exact H2 |]. split; [exact H3 |]. split; [exact H4 |].
  split; [exact H5 |]. split; [apply fold_structure_types; constructor |].
  rewrite H2, H3, H4.
  rewrite <- (length_map a_targetName), H5, length_map.
  clear. induction items as [| it rest IH]; [reflexivity |].
  cbn [filter List.length]. unfold filed_under in *.
  destruct (category (type it)); cbn [Category_eqb List.length]; lia.
Qed.

End SummaryFacts.

(* ------------------------------------------------------------------ *)
(** ** The preview of diff items *)

Module PreviewFacts.

Import Js Raw ScriptParser Diff Preview.
Local Open Scope string_scope.
Unset Implicit Arguments.

Lemma preview_of_nothing_raises : formatScriptForPreview None = Throw TypeError.
Proof. reflexivity. Qed.




End PreviewFacts.

(* ------------------------------------------------------------------ *)
(** ** The rendering of a line diff *)

Module FormatFacts.

Import Js TextDiff TextFormat Notions.
Local Open Scope string_scope.
Unset Implicit Arguments.

Lemma write_changes g : forall st,
  output (fold_left write_change g st) = (output st ++ map edit_piece g)%list
  /\ group (fold_left write_change g st) = group st.
Proof.
  induction g as [| c g IH]; intros st; cbn [fold_left map].
  - now rewrite app_nil_r.
  - destruct (IH (write_change st c)) as [-> ->].
    unfold write_change, edit_piece. destruct (type c); cbn [output group];
      now rewrite <- app_assoc.
Qed.

Lemma edit_mark_pieces g :
  filter edit_mark (map edit_piece g) = map edit_piece (filter is_edit g).
Proof.
  induction g as [| c g IH]; cbn [map filter]; [reflexivity |].
  rewrite IH. unfold is_edit, is_keep, edit_piece at 1 3.
  destruct (type c); reflexivity.
Qed.

Lemma no_edit_no_piece g :
  existsb (fun c => negb (is_keep c)) g = false -> filter is_edit g = [].
Proof.
  induction g as [| c g IH]; cbn [existsb filter]; [reflexivity |].
  intros H. apply orb_false_elim in H. destruct H as [H1 H2].
  unfold is_edit. rewrite H1. now apply IH.
Qed.

(** What a flush does to the output. *)
Lemma flushGroup_pieces st :
  group (flushGroup st) = []
  /\ exists written,
       output (flushGroup st) = (output st ++ written)%list
       /\ filter edit_mark written = map edit_piece (filter is_edit (group st)).
Proof.
  unfold flushGroup. destruct (group st) as [| c g] eqn:Eg.
  - split; [exact Eg |]. exists []. now rewrite app_nil_r.
  - destruct (existsb (fun c => negb (is_keep c)) (c :: g)) eqn:Ech; cbn [negb].
    + cbn [group output]. split; [reflexivity |].
      destruct (write_changes (c :: g)
                  {| output := output st ++
                       ["@@ -" ++ number_to_string (lineNumOld st) ++ "," ++
                        number_to_string (count_changes (fun c => negb (is_add c)) (c :: g))
                        ++ " +" ++ number_to_string (lineNumNew st) ++ "," ++
                        number_to_string (count_changes (fun c => negb (is_remove c)) (c :: g))
                        ++ " @@" ++ nl];
                     lineNumOld := lineNumOld st; lineNumNew := lineNumNew st;
                     group := c :: g |}) as [Ho _].
      cbn [output] in Ho. rewrite Ho, <- app_assoc.
      eexists. split; [reflexivity |].
      cbn [app filter edit_mark append Ascii.eqb Bool.eqb orb].
      apply edit_mark_pieces.
    + cbn [group output]. split; [reflexivity |]. exists [].
      rewrite app_nil_r. split; [reflexivity |].
      now rewrite no_edit_no_piece.
Qed.

Lemma push_changes_pieces done : forall st,
  exists written,
    output (fold_left push_change done st) = (output st ++ written)%list
    /\ (filter edit_mark written
        ++ map edit_piece (filter is_edit (group (fold_left push_change done st))))%list
       = map edit_piece (filter is_edit (group st ++ done)).
Proof.
  induction done as [| c done IH]; intros st; cbn [fold_left].
  - exists []. now rewrite !app_nil_r.
  - destruct (IH (push_change st c)) as (w2 & Ho2 & Hf2).
    assert (H1 : exists w1,
              output (push_change st c) = (output st ++ w1)%list
              /\ (filter edit_mark w1
                  ++ map edit_piece (filter is_edit (group (push_change st c))))%list
                 = map edit_piece (filter is_edit (group st ++ [c]))).
    { unfold push_change. cbn [group].
      destruct (is_keep c && (1 <? List.length (group st ++ [c]))%nat).
      - destruct (flushGroup_pieces
                    {| output := output st; lineNumOld := lineNumOld st;
                       lineNumNew := lineNumNew st; group := group st ++ [c] |})
          as (Hg & w & Ho & Hf).
        cbn [output group] in Ho, Hf. exists w. split; [exact Ho |].
        rewrite Hg. cbn [filter map]. now rewrite app_nil_r.
      - cbn [output group]. exists []. now rewrite app_nil_r. }
    destruct H1 as (w1 & Ho1 & Hf1).
    exists (w1 ++ w2)%list. split; [now rewrite Ho2, Ho1, <- app_assoc |].
    rewrite filter_app, <- app_assoc, Hf2.
    rewrite filter_app, map_app, app_assoc, Hf1.
    change (c :: done) with ([c] ++ done)%list.
    now rewrite app_assoc, (filter_app _ (group st ++ [c])), map_app.
Qed.

(** X19.  [formatDiff] writes its three heading lines, and after them every added
    and every removed line, in the order of the edit script, each under its
    mark; no other piece begins with the mark of an addition or of a
    removal.  For an edit script of unchanged lines alone, and for the
    empty one, the heading lines are all there is. *)
Theorem formatDiff_writes_every_edit result oldName newName :
  (exists body,
     formatDiff_pieces result oldName newName = (preamble oldName newName ++ body)%list
     /\ filter edit_mark body = map edit_piece (filter is_edit (changes result)))
  /\ (Forall (fun c => is_keep c = true) (changes result) ->
      formatDiff result oldName newName
      = String.concat "" (preamble oldName newName)).
Proof.
  unfold formatDiff, formatDiff_pieces.
  set (st0 := {| output := preamble oldName newName; lineNumOld := 1%Z;
                 lineNumNew := 1%Z; group := [] |}).
  destruct (push_changes_pieces (changes result) st0) as (w1 & Ho1 & Hf1).
  destruct (flushGroup_pieces (fold_left push_change (changes result) st0))
    as (_ & w2 & Ho2 & Hf2).
  cbn [output group app] in Ho1, Hf1.
  assert (Hbody : filter edit_mark (w1 ++ w2)
                  = map edit_piece (filter is_edit (changes result))).
  { now rewrite filter_app, Hf2. }
  split.
  - exists (w1 ++ w2)%list. split; [now rewrite Ho2, Ho1, <- app_assoc | exact Hbody].
  - intros Hkeep. rewrite Ho2, Ho1. f_equal.
    assert (Hnone : forall cs, Forall (fun c => is_keep c = true) cs ->
              forall st, output st = preamble oldName newName ->
                Forall (fun c => is_keep c = true) (group st) ->
                output (fold_left push_change cs st) = preamble oldName newName
                /\ Forall (fun c => is_keep c = true) (group (fold_left push_change cs st))).
    { induction cs as [| c cs IH]; intros Hcs st Hout Hg; cbn [fold_left]; [now split |].
      inversion Hcs as [| ? ? Hc Hrest]; subst. apply IH; [exact Hrest | |].
      - unfold push_change. destruct (is_keep c && _); [| exact Hout].
        unfold flushGroup. cbn [group output].
        destruct (group st ++ [c])%list eqn:Eg; [exact Hout |]. rewrite <- Eg.
        assert (Hno : existsb (fun c => negb (is_keep c)) (group st ++ [c]) = false).
        { apply Bool.not_true_is_false. intros Hex. apply existsb_exists in Hex.
          destruct Hex as (x & Hx & Hk). apply in_app_or in Hx.
          rewrite Forall_forall in Hg.
          destruct Hx as [Hx | [<- | []]]; [rewrite (Hg x Hx) in Hk | rewrite Hc in Hk];
            discriminate. }
        rewrite Hno. exact Hout.
      - unfold push_change. destruct (is_keep c && _).
        + rewrite (proj1 (flushGroup_pieces _)). constructor.
        + cbn [group]. apply Forall_app. split; [exact Hg | now repeat constructor]. }
    destruct (Hnone (changes result) Hkeep st0 eq_refl (Forall_nil _)) as [Hout Hg].
    rewrite Ho1 in Hout.
    assert (Hw1 : w1 = []).
    { apply (app_inv_head (preamble oldName newName)). now rewrite app_nil_r. }
    subst w1. cbn [app]. rewrite app_nil_r.
    unfold flushGroup in Ho2.
    destruct (group (fold_left push_change (changes result) st0)) as [| c g] eqn:Eg.
    + rewrite <- (app_nil_r (output _)) in Ho2 at 1. apply app_inv_head in Ho2.
      now subst w2.
    + assert (Hno : existsb (fun c => negb (is_keep c)) (c :: g) = false).
      { apply Bool.not_true_is_false. intros Hex. apply existsb_exists in Hex.
        destruct Hex as (x & Hx & Hk). rewrite Forall_forall in Hg.
        rewrite (Hg x Hx) in Hk. discriminate. }
      rewrite Hno in Ho2. cbn [negb output] in Ho2.
      rewrite <- (app_nil_r (output _)) in Ho2 at 1. apply app_inv_head in Ho2.
      now subst w2.
Qed.

End FormatFacts.

(* ------------------------------------------------------------------ *)
(** ** The matcher of the IR *)

Module MatcherFacts.

Import Js IR Matcher MapFacts.
Local Open Scope string_scope.
Unset Implicit Arguments.

Lemma content_refs_from scripts : forall n,
  map content (map (fun p => {| address := fst p; content := snd p |})
                   (combine (seq n (List.length scripts)) scripts)) = scripts
  /\ map address (map (fun p => {| address := fst p; content := snd p |})
                      (combine (seq n (List.length scripts)) scripts))
     = seq n (List.length scripts).
Proof.
  induction scripts as [| s scripts IH]; intros n; cbn; [now split |].
  destruct (IH (S n)) as [-> ->]. now split.
Qed.

Lemma content_refs scripts : map content (refs scripts) = scripts.
Proof. exact (proj1 (content_refs_from scripts 0)). Qed.

Lemma refs_distinct scripts : NoDup (map address (refs scripts)).
Proof.
  unfold refs. rewrite (proj2 (content_refs_from scripts 0)). apply seq_NoDup.
Qed.

Lemma same_address x y l :
  NoDup (map address l) -> In x l -> In y l -> address x = address y -> x = y.
Proof.
  induction l as [| z l IH]; cbn [map In]; [intros _ [] |].
  intros Hnd Hx Hy E. inversion Hnd as [| ? ? Hz Hnd']; subst.
  destruct Hx as [-> | Hx]; destruct Hy as [-> | Hy]; try reflexivity.
  - destruct Hz. rewrite E. now apply in_map.
  - destruct Hz. rewrite <- E. now apply in_map.
  - now apply IH.
Qed.

(** Taking an object out of an array that holds it. *)
Lemma splice_indexOf x l :
  NoDup (map address l) -> In x l ->
  Permutation l (x :: splice_one (indexOf x l) l)
  /\ incl (splice_one (indexOf x l) l) l
  /\ (forall y, In y l -> y <> x -> In y (splice_one (indexOf x l) l)).
Proof.
  induction l as [| z l IH]; cbn [map In]; [intros _ [] |].
  intros Hnd Hx. inversion Hnd as [| ? ? Hz Hnd']; subst.
  cbn [indexOf]. unfold same_ref. destruct (Nat.eqb_spec (address z) (address x)) as [E | Hne].
  - assert (z = x) as ->.
    { apply (same_address z x (z :: l) Hnd); [now left | exact Hx | exact E]. }
    cbn [splice_one firstn skipn app]. split; [reflexivity |]. split.
    + intros y Hy. now right.
    + intros y [-> | Hy] Hyx; [now destruct Hyx | exact Hy].
  - destruct Hx as [-> | Hx]; [now destruct Hne |].
    destruct (IH Hnd' Hx) as (Hp & Hi & Hk).
    destruct (indexOf x l) as [n |] eqn:Ei; cbn [option_map splice_one firstn skipn app].
    + cbn [splice_one] in Hp, Hi, Hk. split; [| split].
      * rewrite Hp at 1. apply perm_swap.
      * intros y [-> | Hy]; [now left | right; now apply Hi].
      * intros y [-> | Hy] Hyx; [now left | right; now apply Hk].
    + exfalso. clear - Ei Hx. induction l as [| a l IHl]; [destruct Hx |].
      cbn [indexOf] in Ei. unfold same_ref in Ei.
      destruct Hx as [-> | Hx]; [now rewrite Nat.eqb_refl in Ei |].
      destruct (address a =? address x)%nat; [discriminate |].
      destruct (indexOf x l); [discriminate | now apply IHl].
Qed.

Lemma NoDup_address_perm l l' :
  Permutation l l' -> NoDup (map address l) -> NoDup (map address l').
Proof.
  intros Hp. apply Permutation_NoDup. now apply Permutation_map.
Qed.

Lemma refs_by_fingerprint_from scripts f sc :
  In (f, sc) (by_fingerprint scripts) -> In sc scripts /\ s_fingerprint (content sc) = f.
Proof.
  intros H. apply map_of_In, in_map_iff in H. destruct H as (x & [= <- <-] & Hx).
  now split.
Qed.

Lemma refs_by_fingerprint_keys scripts f :
  In f (map fst (by_fingerprint scripts))
  <-> In f (map (fun sc => s_fingerprint (content sc)) scripts).
Proof.
  unfold by_fingerprint. rewrite (proj2 (map_of_keys _) f), map_map. reflexivity.
Qed.

(** The state of the loop of [matchScripts]: the scripts matched so far and
    the two working copies share out the scripts given; what the entries
    still to come name is still in the working copies. *)
Record loop_state (olds news : list Ref) (newMap : Diff.imap string Ref)
    (es : list (string * Ref)) (seen : list string) (acc : ScriptMatchResult) : Prop :=
  { st_old : Permutation olds (map fst (matchedScripts acc) ++ deletedScripts acc);
    st_new : Permutation news (map snd (matchedScripts acc) ++ addedScripts acc);
    st_pairs : Forall (fun m => s_fingerprint (content (fst m))
                                = s_fingerprint (content (snd m))) (matchedScripts acc);
    st_keys : forall f, In f (map (fun m => s_fingerprint (content (fst m)))
                                  (matchedScripts acc))
                        <-> In f seen /\ In f (map fst newMap);
    st_once : NoDup (map (fun m => s_fingerprint (content (fst m))) (matchedScripts acc));
    st_left_old : forall f o, In (f, o) es -> In o (deletedScripts acc);
    st_left_new : forall f o n, In (f, o) es ->
                    Diff.map_get String.eqb f newMap = Some n -> In n (addedScripts acc) }.

Lemma match_loop_state olds news newMap :
  NoDup (map address olds) -> NoDup (map address news) ->
  (forall f n, In (f, n) newMap -> s_fingerprint (content n) = f) ->
  forall es seen acc,
    NoDup (seen ++ map fst es) ->
    (forall f o, In (f, o) es -> s_fingerprint (content o) = f) ->
    loop_state olds news newMap es seen acc ->
    loop_state olds news newMap [] (seen ++ map fst es) (match_loop es newMap acc).
Proof.
  intros Hndo Hndn Hnew.
  induction es as [| [f o] es IH]; intros seen acc Hnd Hes Hst; cbn [match_loop map fst].
  - rewrite app_nil_r. exact Hst.
  - replace (seen ++ f :: map fst es)%list with ((seen ++ [f]) ++ map fst es)%list
      by now rewrite <- app_assoc.
    assert (Hnd' : NoDup ((seen ++ [f]) ++ map fst es)) by now rewrite <- app_assoc.
    assert (Hf_seen : ~ In f seen).
    { intros Hin. apply NoDup_remove_2 in Hnd. apply Hnd, in_or_app. now left. }
    assert (Hf_es : forall o', In (f, o') es -> False).
    { intros o' Hin. apply NoDup_remove_2 in Hnd. apply Hnd, in_or_app. right.
      apply in_map_iff. now exists (f, o'). }
    destruct Hst as [Ho Hn Hp Hk Honce Hlo Hln].
    destruct (Diff.map_get String.eqb f newMap) as [n |] eqn:Eg.
    + assert (Hdo : NoDup (map address (deletedScripts acc))).
      { apply (NoDup_address_perm _ _ Ho) in Hndo. rewrite map_app in Hndo.
        now apply NoDup_app_remove_l in Hndo. }
      assert (Hdn : NoDup (map address (addedScripts acc))).
      { apply (NoDup_address_perm _ _ Hn) in Hndn. rewrite map_app in Hndn.
        now apply NoDup_app_remove_l in Hndn. }
      assert (Hino : In o (deletedScripts acc)) by (apply (Hlo f); now left).
      assert (Hinn : In n (addedScripts acc)) by (apply (Hln f o); [now left | exact Eg]).
      destruct (splice_indexOf o _ Hdo Hino) as (Hpo & _ & Hko).
      destruct (splice_indexOf n _ Hdn Hinn) as (Hpn & _ & Hkn).
      assert (Efo : s_fingerprint (content o) = f) by (apply Hes; now left).
      assert (Efn : s_fingerprint (content n) = f)
        by (apply Hnew; now apply map_get_In).
      apply IH; [exact Hnd' | intros f' o' Hin; apply Hes; now right |].
      constructor; cbn [matchedScripts deletedScripts addedScripts].
      * rewrite map_app, <- app_assoc. cbn [map fst app].
        rewrite Ho. apply Permutation_app_head. exact Hpo.
      * rewrite map_app, <- app_assoc. cbn [map snd app].
        rewrite Hn. apply Permutation_app_head. exact Hpn.
      * apply Forall_app. split; [exact Hp |]. constructor; [| constructor].
        cbn [fst snd]. congruence.
      * intros f'. rewrite map_app, !in_app_iff, Hk. cbn [map In fst]. rewrite Efo.
        split.
        -- intros [[H1 H2] | [<- | []]]; [tauto |]. split; [now right; left |].
           apply in_map_iff. exists (f, n). split; [reflexivity | now apply map_get_In].
        -- intros [[H1 | [<- | []]] H2]; [now left | right; now left].
      * rewrite map_app. cbn [map fst]. rewrite Efo.
        apply NoDup_app; [exact Honce | repeat constructor; intros [] |].
        intros x Hx [<- | []]. apply Hk in Hx. now destruct Hx.
      * intros f' o' Hin. apply Hko; [apply (Hlo f'); now right |].
        intros ->. apply (Hf_es o). rewrite <- Efo at 1.
        rewrite (Hes f' o (or_intror Hin)). exact Hin.
      * intros f' o' n' Hin Hg. apply Hkn; [apply (Hln f' o'); [now right | exact Hg] |].
        intros ->. apply map_get_In, Hnew in Hg. apply (Hf_es o').
        now rewrite <- Efn, Hg.
    + apply IH; [exact Hnd' | intros f' o' Hin; apply Hes; now right |].
      constructor; try assumption.
      * intros f'. rewrite Hk, in_app_iff. cbn [In]. split; [tauto |].
        intros [[H1 | [<- | []]] H2]; [tauto |].
        apply (proj1 (map_get_None _ _)) in Eg. contradiction.
      * intros f' o' Hin. apply (Hlo f'). now right.
      * intros f' o' n' Hin. apply (Hln f' o'). now right.
Qed.

Lemma matchScripts_state olds news :
  NoDup (map address olds) -> NoDup (map address news) ->
  loop_state olds news (by_fingerprint news) [] (map fst (by_fingerprint olds))
             (matchScripts olds news).
Proof.
  intros Hndo Hndn. unfold matchScripts.
  apply (match_loop_state olds news (by_fingerprint news) Hndo Hndn
           (fun f n H => proj2 (refs_by_fingerprint_from news f n H))
           (by_fingerprint olds) []).
  - cbn [app]. apply (proj1 (map_of_keys _)).
  - intros f o H. exact (proj2 (refs_by_fingerprint_from olds f o H)).
  - constructor; cbn [matchedScripts deletedScripts addedScripts map app];
      try reflexivity; try constructor.
    + intros []. 
    + intros [[] _].
    + intros f o H. exact (proj1 (refs_by_fingerprint_from olds f o H)).
    + intros f o n _ H. apply map_get_In in H.
      exact (proj1 (refs_by_fingerprint_from news f n H)).
Qed.

(** X20.  [ScriptMatcher.matchScripts] shares out the scripts of both arrays:
    every old script is once among the matched pairs or the deleted scripts,
    every new one once among the matched pairs or the added scripts, twins
    of one fingerprint included.  The two scripts of a pair have the same
    fingerprint, and the pairs are one for each fingerprint that both
    arrays have. *)
Theorem matcher_shares_out_scripts olds news :
  let r := matchScripts (refs olds) (refs news) in
  Permutation olds (map (fun m => content (fst m)) (matchedScripts r)
                    ++ map content (deletedScripts r))
  /\ Permutation news (map (fun m => content (snd m)) (matchedScripts r)
                       ++ map content (addedScripts r))
  /\ Forall (fun m => s_fingerprint (content (fst m)) = s_fingerprint (content (snd m)))
            (matchedScripts r)
  /\ NoDup (map (fun m => s_fingerprint (content (fst m))) (matchedScripts r))
  /\ (forall f, In f (map (fun m => s_fingerprint (content (fst m))) (matchedScripts r))
                <-> In f (map s_fingerprint olds) /\ In f (map s_fingerprint news)).
Proof.
  intros r.
  destruct (matchScripts_state (refs olds) (refs news)
              (refs_distinct olds) (refs_distinct news))
    as [Ho Hn Hp Hk Honce _ _].
  fold r in Ho, Hn, Hp, Hk, Honce.
  split; [| split; [| split; [exact Hp | split; [exact Honce |]]]].
  - rewrite <- (content_refs olds) at 1. rewrite (Permutation_map content Ho).
    now rewrite map_app, map_map.
  - rewrite <- (content_refs news) at 1. rewrite (Permutation_map content Hn).
    now rewrite map_app, map_map.
  - intros f. rewrite Hk, !refs_by_fingerprint_keys.
    rewrite <- (content_refs olds) at 2. rewrite <- (content_refs news) at 2.
    now rewrite !map_map.
Qed.

Lemma keys_fold_map_set {V : Type} (entries : list (string * V)) :
  forall (m : Diff.imap string V),
    map fst (fold_left (fun m e => Diff.map_set String.eqb (fst e) (snd e) m) entries m)
    = map fst (fold_left (fun m e => Diff.map_set String.eqb (fst e) (snd e) m)
                         (map (fun e => (fst e, tt)) entries)
                         (map (fun e => (fst e, tt)) m)).
Proof.
  induction entries as [| [k v] entries IH]; intros m; cbn [fold_left map fst snd].
  - rewrite map_map. reflexivity.
  - rewrite (IH (Diff.map_set String.eqb k v m)).
    f_equal. f_equal. clear. induction m as [| [k' v'] m IHm]; cbn; [reflexivity |].
    destruct (String.eqb k' k); cbn; [reflexivity | now rewrite IHm].
Qed.

Lemma keys_map_of {V : Type} (entries : list (string * V)) :
  keys (Diff.map_of String.eqb entries) = Diff.set_of (map fst entries).
Proof.
  unfold keys, Diff.set_of, Diff.map_of.
  rewrite (keys_fold_map_set entries []).
  now rewrite map_map.
Qed.

Lemma load_names fuel project ir :
  load fuel project = Ret ir -> map (@p_name _) ir = map Raw.name project.
Proof.
  intros H. apply LoaderShape.load_shape in H.
  induction H as [| raw t project ir Ht H IH]; cbn [map]; [reflexivity |].
  destruct Ht as [-> _]. now rewrite IH.
Qed.

(** X21.  On the IRs loaded from two projects, [ScriptMatcher.matchProjects]
    returns one result for each target name of either project: the distinct
    names of the old project in their order, then the names that only the
    new project has.  These are the names that [generateDiff] goes through. *)
Theorem matchProjects_follows_target_names fuel oldP newP oldIR newIR :
  load fuel oldP = Ret oldIR ->
  load fuel newP = Ret newIR ->
  map fst (matchProjects oldIR newIR) = Diff.allTargetNames oldP newP
  /\ NoDup (map fst (matchProjects oldIR newIR))
  /\ (forall targetName,
        In targetName (map fst (matchProjects oldIR newIR))
        <-> In targetName (map Raw.name oldP) \/ In targetName (map Raw.name newP)).
Proof.
  intros Ho Hn.
  assert (E : map fst (matchProjects oldIR newIR) = Diff.allTargetNames oldP newP).
  { unfold matchProjects, Diff.allTargetNames, targets_by_name.
    rewrite map_map. cbn [fst]. rewrite map_id, !keys_map_of, !map_map. cbn [fst].
    change (map (fun x => p_name x) oldIR) with (map (@p_name _) oldIR).
    change (map (fun x => p_name x) newIR) with (map (@p_name _) newIR).
    now rewrite (load_names _ _ _ Ho), (load_names _ _ _ Hn). }
  rewrite E. split; [reflexivity |]. split; [apply set_of_NoDup |].
  intros targetName. unfold Diff.allTargetNames.
  now rewrite set_of_In, in_app_iff, !set_of_In.
Qed.


End MatcherFacts.


(* ------------------------------------------------------------------ *)
(** ** The normalizer *)

Module NormalizerFacts.

Import Js Raw IR SortFacts Notions.
Local Open Scope string_scope.
Unset Implicit Arguments.

Section Entries.
Variable A : Type.
Variable key : A -> string.

Lemma index_le_total (x y : A) :
  (index_of key x <=? index_of key y)%N = true
  \/ (index_of key y <=? index_of key x)%N = true.
Proof. rewrite !N.leb_le. lia. Qed.

Lemma fromEntries_order_perm l : Permutation (fromEntries_order key l) l.
Proof.
  unfold fromEntries_order.
  rewrite (stable_sort_perm A _ (filter (is_index key) l)).
  induction l as [| x l IH]; cbn [filter]; [constructor |].
  destruct (is_index key x); cbn [negb app]; [now apply perm_skip |].
  apply Permutation_sym, Permutation_cons_app, Permutation_sym, IH.
Qed.

(** An object built from the entries of an object has them in the order in
    which they are enumerated. *)
Lemma fromEntries_order_idem l :
  fromEntries_order key (fromEntries_order key l) = fromEntries_order key l.
Proof.
  unfold fromEntries_order at 1 3.
  set (idx := stable_sort _ (filter (is_index key) l)).
  set (rest := filter (fun x => negb (is_index key x)) l).
  assert (Hidx : Forall (fun x => is_index key x = true) idx).
  { apply stable_sort_Forall, Forall_forall. intros x Hx.
    now apply filter_In in Hx. }
  assert (Hrest : Forall (fun x => is_index key x = false) rest).
  { apply Forall_forall. intros x Hx. apply filter_In in Hx.
    now apply Bool.negb_true_iff. }
  rewrite Forall_forall in Hidx, Hrest.
  unfold fromEntries_order. fold idx rest. rewrite !filter_app.
  rewrite (@CollectionFacts.filter_all _ (is_index key) idx Hidx).
  rewrite (@CollectionFacts.filter_none _ (is_index key) rest Hrest).
  rewrite (@CollectionFacts.filter_none _ (fun x => negb (is_index key x)) idx).
  2:{ intros x Hx. now rewrite (Hidx x Hx). }
  rewrite (@CollectionFacts.filter_all _ (fun x => negb (is_index key x)) rest).
  2:{ intros x Hx. now rewrite (Hrest x Hx). }
  rewrite app_nil_r. cbn [app]. f_equal.
  apply stable_sort_fixed. apply stable_sort_Sorted. exact index_le_total.
Qed.
End Entries.

(** What [normalizeInputs] stores for one input. *)
Definition stored (inputValue : json) : outcome json :=
  d <- destructure inputValue ;;
  Ret (match snd d with
       | Some (JArr inputData) => JArr [or_null (fst d); JArr inputData]
       | _ => inputValue
       end).

Lemma stored_fixed v v' : stored v = Ret v' -> stored v' = Ret v'.
Proof.
  unfold stored. destruct v as [| | | s | l |]; cbn [destructure bind]; try discriminate.
  - cbn [snd fst]. destruct (nth_error (chars s) 1) as [[| | | | d |] |] eqn:E;
      intros [= <-]; cbn [destructure bind snd]; rewrite ?E; try reflexivity.
  - cbn [snd fst]. destruct (nth_error l 1) as [[| | | | d |] |] eqn:E;
      intros [= <-]; cbn [destructure bind snd fst]; rewrite ?E; reflexivity.
Qed.

(** What an object that [normalizeInputs] filled holds: no property named
    [__proto__], and values that were stored. *)
Definition kept (e : string * json) : Prop :=
  String.eqb (fst e) "__proto__" = false /\ stored (snd e) = Ret (snd e).

Lemma normalizeEntries_stored : forall props props',
  normalizeEntries props = Ret props' -> Forall kept props'.
Proof.
  induction props as [| [k v] props IH]; intros props'; cbn [normalizeEntries].
  - intros [= <-]. constructor.
  - destruct (destructure v) as [d | |] eqn:Ed; cbn [bind]; try discriminate.
    destruct (normalizeEntries props) as [rest | |]; cbn [bind]; try discriminate.
    intros [= <-]. unfold assigned.
    destruct (String.eqb k "__proto__") eqn:Ek; [now apply IH |].
    constructor; [| now apply IH]. split; [exact Ek |]. cbn [fst snd].
    apply (stored_fixed v). unfold stored. now rewrite Ed.
Qed.

Lemma normalizeEntries_fixed : forall props,
  Forall kept props -> normalizeEntries props = Ret props.
Proof.
  induction props as [| [k v] props IH]; intros H; cbn [normalizeEntries]; [reflexivity |].
  inversion H as [| ? ? [Hk Hv] Hrest]; subst. cbn [fst snd] in Hk, Hv. unfold stored in Hv.
  destruct (destructure v) as [d | |]; cbn [bind] in *; try discriminate.
  rewrite (IH Hrest). cbn [bind]. unfold assigned. rewrite Hk.
  injection Hv as Hv. now rewrite Hv.
Qed.

Lemma normalizeInputs_fixed inputs inputs' :
  normalizeInputs inputs = Ret inputs' -> normalizeInputs inputs' = Ret inputs'.
Proof.
  unfold normalizeInputs.
  destruct (normalizeEntries inputs) as [props | |] eqn:E; cbn [bind]; try discriminate.
  intros [= <-].
  assert (H : Forall kept props) by exact (normalizeEntries_stored _ _ E).
  rewrite normalizeEntries_fixed.
  - cbn [bind]. now rewrite fromEntries_order_idem.
  - eapply Permutation_Forall; [| exact H].
    apply Permutation_sym, fromEntries_order_perm.
Qed.

Lemma normalizeBlock_fixed : forall block block',
  normalizeBlock block = Ret block' -> normalizeBlock block' = Ret block'.
Proof.
  fix IH 1. intros [op ins flds mut nxt |] block'; cbn [normalizeBlock];
    [| discriminate].
  destruct (normalizeInputs ins) as [ins' | |] eqn:Ei; cbn [bind]; try discriminate.
  destruct nxt as [b |].
  - destruct (normalizeBlock b) as [b' | |] eqn:Eb; cbn [bind]; try discriminate.
    intros [= <-]. cbn [normalizeBlock].
    rewrite (normalizeInputs_fixed _ _ Ei), (IH b b' Eb). cbn [bind].
    do 2 f_equal. destruct mut as [m |]; [| reflexivity].
    destruct (truthy m) eqn:Et; [now rewrite Et | reflexivity].
  - cbn [bind]. intros [= <-]. cbn [normalizeBlock].
    rewrite (normalizeInputs_fixed _ _ Ei). cbn [bind].
    do 2 f_equal. destruct mut as [m |]; [| reflexivity].
    destruct (truthy m) eqn:Et; [now rewrite Et | reflexivity].
Qed.

Lemma mapM_fixed {A} (f : A -> outcome A) : forall l l',
  (forall x x', f x = Ret x' -> f x' = Ret x') ->
  mapM f l = Ret l' -> mapM f l' = Ret l'.
Proof.
  induction l as [| x l IH]; intros l' Hf; cbn [mapM].
  - intros [= <-]. reflexivity.
  - destruct (f x) as [y | |] eqn:E; cbn [bind]; try discriminate.
    destruct (mapM f l) as [ys | |] eqn:El; cbn [bind]; try discriminate.
    intros [= <-]. cbn [mapM]. rewrite (Hf x y E), (IH ys Hf eq_refl). reflexivity.
Qed.

(** X23.  Normalizing is idempotent: a project that [BlockNormalizer.normalize]
    returned is returned as it is when it is normalized again.  The same
    holds for one block and for the inputs of one block. *)
Theorem normalize_is_idempotent project normalized :
  normalize project = Ret normalized ->
  normalize normalized = Ret normalized
  /\ Forall (fun target =>
               Forall (fun script =>
                         exists b, topLevelBlock script = Some b
                                   /\ normalizeBlock b = Ret b
                                   /\ match b with
                                      | mkNormalized _ ins _ _ _ =>
                                          normalizeInputs ins = Ret ins
                                      | mkBlank => False
                                      end)
                      (p_scripts target))
            normalized.
Proof.
  intros H. split.
  - revert H. unfold normalize. apply mapM_fixed.
    intros [n ss vs ls cs sn] t'. cbn [p_name p_scripts p_variables p_lists p_costumes p_sounds].
    destruct (mapM normalizeScript ss) as [ss' | |] eqn:E; cbn [bind]; try discriminate.
    intros [= <-]. cbn [p_name p_scripts p_variables p_lists p_costumes p_sounds].
    rewrite (mapM_fixed normalizeScript ss ss'); [reflexivity | | exact E].
    intros s s'. unfold normalizeScript.
    destruct (topLevelBlock s) as [b |]; [| discriminate].
    destruct (normalizeBlock b) as [b' | |] eqn:Eb; cbn [bind]; try discriminate.
    intros [= <-]. cbn [topLevelBlock targetName].
    now rewrite (normalizeBlock_fixed b b' Eb).
  - apply LoaderShape.mapM_Forall2 in H.
    induction H as [| t t' l l' Ht _ IH]; constructor; [| exact IH].
    destruct (mapM normalizeScript (p_scripts t)) as [ss' | |] eqn:E; cbn [bind] in Ht;
      try discriminate.
    injection Ht as <-. cbn [p_scripts].
    apply LoaderShape.mapM_Forall2 in E.
    induction E as [| s s' ss ss'' Hs _ IHs]; constructor; [| exact IHs].
    unfold normalizeScript in Hs. destruct (topLevelBlock s) as [b |]; [| discriminate].
    destruct (normalizeBlock b) as [b' | |] eqn:Eb; cbn [bind] in Hs; try discriminate.
    injection Hs as <-. cbn [topLevelBlock]. exists b'. split; [reflexivity |].
    split; [now apply (normalizeBlock_fixed b) |].
    destruct b as [op ins flds mut nxt |]; cbn [normalizeBlock] in Eb; [| discriminate].
    destruct (normalizeInputs ins) as [ins' | |] eqn:Ei; cbn [bind] in Eb; try discriminate.
    destruct (match nxt with Some b => _ | None => _ end) as [nx | |]; cbn [bind] in Eb;
      try discriminate.
    injection Eb as <-. now apply (normalizeInputs_fixed ins).
Qed.

Lemma json_nested_ind (P : json -> Prop) :
  P JNull -> (forall b, P (JBool b)) -> (forall z, P (JNum z)) -> (forall s, P (JStr s)) ->
  (forall l, Forall P l -> P (JArr l)) ->
  (forall props, Forall (fun kv => P (snd kv)) props -> P (JObj props)) ->
  forall v, P v.
Proof.
  intros Hnull Hbool Hnum Hstr Harr Hobj. fix IH 1. intros [| b | z | s | l | props].
  - exact Hnull.
  - apply Hbool.
  - apply Hnum.
  - apply Hstr.
  - apply Harr. induction l as [| x l IHl]; constructor; [apply IH | exact IHl].
  - apply Hobj. induction props as [| [k x] props IHp]; constructor; [apply IH | exact IHp].
Qed.

(** X24.  [cleanBlock] leaves, at no depth of the value it returns, a property
    named [x], [y], [id] or [parent], and it is idempotent: cleaning a
    cleaned value changes nothing. *)
Theorem cleanBlock_removes_ui_keys block :
  has_ui_key (cleanBlock block) = false
  /\ cleanBlock (cleanBlock block) = cleanBlock block.
Proof.
  induction block as [| b | z | s | l IH | props IH] using json_nested_ind;
    try (split; reflexivity).
  - cbn [cleanBlock has_ui_key]. split.
    + induction IH as [| x l [Hx _] _ IHl]; cbn [map existsb]; [reflexivity |].
      now rewrite Hx.
    + f_equal. rewrite map_map.
      induction IH as [| x l [_ Hx] _ IHl]; cbn [map]; [reflexivity |].
      now rewrite Hx, IHl.
  - cbn [cleanBlock has_ui_key].
    set (L := flat_map (fun kv => if kept_key (fst kv)
                                  then [(fst kv, cleanBlock (snd kv))]
                                  else []) props).
    assert (HL : Forall (fun kv => kept_key (fst kv) = true
                                   /\ has_ui_key (snd kv) = false
                                   /\ cleanBlock (snd kv) = snd kv) L).
    { subst L. induction IH as [| [k x] props [H1 H2] _ IHp]; cbn [flat_map fst snd];
        [constructor |].
      cbn [snd] in H1, H2. destruct (kept_key k) eqn:Ek; cbn [app]; [| exact IHp].
      constructor; [| exact IHp]. cbn [fst snd]. now repeat split. }
    assert (HO : Forall (fun kv => kept_key (fst kv) = true
                                   /\ has_ui_key (snd kv) = false
                                   /\ cleanBlock (snd kv) = snd kv)
                        (fromEntries_order fst L)).
    { eapply Permutation_Forall; [| exact HL].
      apply Permutation_sym, fromEntries_order_perm. }
    split.
    + clear - HO. induction HO as [| [k x] l (Hk & Hx & _) _ IHl]; cbn [existsb fst snd];
        [reflexivity |].
      cbn [fst snd] in Hk, Hx. rewrite Hx, IHl.
      unfold kept_key in Hk. apply andb_prop in Hk. destruct Hk as [Hk _].
      apply Bool.negb_true_iff in Hk. now rewrite Hk.
    + f_equal.
      assert (E : flat_map (fun kv => if kept_key (fst kv)
                                      then [(fst kv, cleanBlock (snd kv))]
                                      else []) (fromEntries_order fst L)
                  = fromEntries_order fst L).
      { clear - HO. induction HO as [| [k x] l (Hk & _ & Hx) _ IHl];
          cbn [flat_map fst snd]; [reflexivity |].
        cbn [fst snd] in Hk, Hx. now rewrite Hk, Hx, IHl. }
      rewrite E. apply fromEntries_order_idem.
Qed.


End NormalizerFacts.


(* ------------------------------------------------------------------ *)
(** ** The two directions of a diff *)

Module Directions.

Import Js Raw Diff MapFacts Notions.
Local Open Scope string_scope.
Unset Implicit Arguments.

Lemma flat_map_choice {A B} (c : A -> bool) (f g : A -> list B) l :
  Permutation (flat_map (fun x => if c x then f x else g x) l)
              (flat_map (fun x => if c x then f x else []) l
               ++ flat_map (fun x => if c x then [] else g x) l).
Proof.
  induction l as [| x l IH]; cbn [flat_map app]; [constructor |].
  destruct (c x).
  - cbn [app]. rewrite <- app_assoc. now apply Permutation_app_head.
  - rewrite IH. rewrite !app_assoc. apply Permutation_app_tail.
    cbn [app]. apply Permutation_app_comm.
Qed.

Lemma flat_map_filter_map {A B} (c : A -> bool) (h : A -> B) l :
  flat_map (fun x => if c x then [h x] else []) l = map h (filter c l).
Proof.
  induction l as [| x l IH]; cbn [flat_map filter]; [reflexivity |].
  destruct (c x); cbn [app map]; now rewrite IH.
Qed.

Lemma json_differ_sym a b : json_differ a b = json_differ b a.
Proof.
  unfold json_differ. destruct a as [a |], b as [b |]; cbn [option_map]; try reflexivity.
  f_equal. apply String.eqb_sym.
Qed.

Section Records.
Variables t_delete t_add t_edit : DiffType.
Hypothesis delete_add : opposite t_delete = t_add.
Hypothesis add_delete : opposite t_add = t_delete.
Hypothesis edit_edit : opposite t_edit = t_edit.

Lemma diffRecord_mirror oldR newR targetName :
  Permutation (diffRecord t_delete t_add t_edit newR oldR targetName)
              (map mirror (diffRecord t_delete t_add t_edit oldR newR targetName)).
Proof.
  unfold diffRecord.
  set (oK := set_of (keys oldR)). set (nK := set_of (keys newR)).
  rewrite map_app.
  (* the additions and the edits of either direction, apart *)
  rewrite (flat_map_choice (fun key => negb (set_has key nK))
             (fun key => [item t_add targetName None (lookup key oldR) (JStr key)])
             (fun key => if json_differ (lookup key newR) (lookup key oldR)
                         then [item t_edit targetName (lookup key newR) (lookup key oldR)
                                    (JStr key)]
                         else []) oK).
  rewrite (flat_map_choice (fun key => negb (set_has key oK))
             (fun key => [item t_add targetName None (lookup key newR) (JStr key)])
             (fun key => if json_differ (lookup key oldR) (lookup key newR)
                         then [item t_edit targetName (lookup key oldR) (lookup key newR)
                                    (JStr key)]
                         else []) nK).
  rewrite map_app, !flat_map_filter_map, !map_map.
  assert (Ed : forall key,
            mirror (item t_delete targetName (lookup key oldR) None (JStr key))
            = item t_add targetName None (lookup key oldR) (JStr key)).
  { intros key. unfold mirror, item. cbn. now rewrite delete_add. }
  assert (Ea : forall key,
            mirror (item t_add targetName None (lookup key newR) (JStr key))
            = item t_delete targetName (lookup key newR) None (JStr key)).
  { intros key. unfold mirror, item. cbn. now rewrite add_delete. }
  rewrite (map_ext _ _ Ed), (map_ext _ _ Ea).
  rewrite Permutation_app_swap_app. apply Permutation_app_head, Permutation_app_head.
  (* the edits *)
  assert (Eo : flat_map (fun x => if negb (set_has x nK) then []
                                  else if json_differ (lookup x newR) (lookup x oldR)
                                       then [item t_edit targetName (lookup x newR)
                                                  (lookup x oldR) (JStr x)]
                                       else []) oK
               = map (fun key => item t_edit targetName (lookup key newR) (lookup key oldR)
                                      (JStr key))
                     (filter (fun key => set_has key nK
                                         && json_differ (lookup key oldR) (lookup key newR))
                             oK)).
  { rewrite <- flat_map_filter_map. apply flat_map_ext. intros key.
    rewrite (json_differ_sym (lookup key newR)). now destruct (set_has key nK). }
  assert (En : flat_map (fun x => if negb (set_has x oK) then []
                                  else if json_differ (lookup x oldR) (lookup x newR)
                                       then [item t_edit targetName (lookup x oldR)
                                                  (lookup x newR) (JStr x)]
                                       else []) nK
               = map (fun key => item t_edit targetName (lookup key oldR) (lookup key newR)
                                      (JStr key))
                     (filter (fun key => set_has key oK
                                         && json_differ (lookup key oldR) (lookup key newR))
                             nK)).
  { rewrite <- flat_map_filter_map. apply flat_map_ext. intros key.
    now destruct (set_has key oK). }
  rewrite Eo, En, map_map.
  assert (Ee : forall key,
            mirror (item t_edit targetName (lookup key oldR) (lookup key newR) (JStr key))
            = item t_edit targetName (lookup key newR) (lookup key oldR) (JStr key)).
  { intros key. unfold mirror, item. cbn. now rewrite edit_edit. }
  rewrite (map_ext _ _ Ee). apply Permutation_map.
  apply NoDup_Permutation.
  - apply NoDup_filter, set_of_NoDup.
  - apply NoDup_filter, set_of_NoDup.
  - intros key. rewrite !filter_In, !Bool.andb_true_iff, !set_has_In. tauto.
Qed.
End Records.

(** X25.  The two directions of the comparison of variables and of lists mirror
    each other: the items of the comparison of new with old are those of the
    comparison of old with new, each with the old and the new value
    exchanged, a deletion for every addition and an addition for every
    deletion. *)
Theorem record_items_mirror oldR newR targetName :
  Permutation (diffVariables newR oldR targetName)
              (map mirror (diffVariables oldR newR targetName))
  /\ Permutation (diffLists newR oldR targetName)
                 (map mirror (diffLists oldR newR targetName)).
Proof.
  split.
  - now apply (diffRecord_mirror variable_delete variable_add variable_edit).
  - now apply (diffRecord_mirror list_delete list_add list_edit).
Qed.

Lemma apply_to_target_mirror it target :
  Replay.apply_to_target true it target = Replay.apply_to_target false (mirror it) target.
Proof.
  unfold Replay.apply_to_target, mirror. cbn [type old new].
  destruct (type it); reflexivity.
Qed.

Lemma on_first_ext targetName f g : forall targets,
  (forall t, f t = g t) ->
  Replay.on_first targetName f targets = Replay.on_first targetName g targets.
Proof.
  induction targets as [| t rest IH]; intros H; cbn [Replay.on_first]; [reflexivity |].
  now rewrite H, IH.
Qed.

Lemma apply_item_mirror it p :
  Replay.apply_item true it p = Replay.apply_item false (mirror it) p.
Proof.
  unfold Replay.apply_item.
  rewrite (on_first_ext (targetName it) _ _ p (apply_to_target_mirror it)).
  change (targetName (mirror it)) with (targetName it).
  destruct (Replay.on_first _ _ p); [reflexivity |].
  change (type (mirror it)) with (opposite (type it)).
  destruct (type it); reflexivity.
Qed.

(** X26.  Replaying a diff in reverse is replaying forward its mirrored items: the
    reverse replay treats every addition as the deletion of the same value,
    every deletion as its addition and every edit as the edit back, and it
    creates an absent target for the deletions of scripts, blocks, costumes
    and sounds. *)
Theorem reverse_replay_is_replay_of_mirror items : forall project,
  Replay.replay true items project = Replay.replay false (map mirror items) project
  /\ Replay.replay false items project = Replay.replay true (map mirror items) project.
Proof.
  assert (Hm : forall it, mirror (mirror it) = it).
  { intros [t tn o n f d]. unfold mirror. cbn. now destruct t. }
  induction items as [| it rest IH]; intros project; cbn [Replay.replay map];
    [now split |].
  split.
  - rewrite apply_item_mirror.
    destruct (Replay.apply_item false (mirror it) project) as [p | |]; cbn [bind];
      try reflexivity.
    apply IH.
  - rewrite (apply_item_mirror (mirror it)), Hm.
    destruct (Replay.apply_item false it project) as [p | |]; cbn [bind];
      try reflexivity.
    apply IH.
Qed.


End Directions.


(* ------------------------------------------------------------------ *)
(** ** The way back: the reverse replay *)

Module ReverseTrip.

Import Js Raw Diff Replay Vocabulary AssetFacts Invariants Notions RoundTrip.
Local Open Scope string_scope.
Unset Implicit Arguments.

Lemma ok_mirror it : ok_item it -> ok_item (mirror it).
Proof.
  unfold ok_item, mirror. cbn [type old new].
  destruct (type it); cbn; tauto.
Qed.

Lemma concerns_mirror rt targetName it :
  concerns rt targetName (mirror it) = concerns rt targetName it.
Proof.
  unfold concerns, mirror. cbn [Diff.targetName type]. now destruct (type it).
Qed.

Lemma filter_concerns_mirror rt targetName items :
  filter (concerns rt targetName) (map mirror items)
  = map mirror (filter (concerns rt targetName) items).
Proof.
  induction items as [| it rest IH]; cbn [map filter]; [reflexivity |].
  rewrite concerns_mirror. destruct (concerns rt targetName it); cbn [map]; now rewrite IH.
Qed.

Lemma keyed_equal_same a : keyed_equal a a.
Proof. now destruct a. Qed.

Section Phases.
Variables t_delete t_add t_edit : DiffType.
Variable targetName : string.
Hypothesis delete_tag : change_type (opposite t_delete) = Add.
Hypothesis add_tag : change_type (opposite t_add) = Delete.
Hypothesis edit_tag : change_type (opposite t_edit) = Edit.

(** The first run, backwards: what only the old side has comes back, at the
    end of the list. *)
Lemma restore_run (newMap entries : imap json json) : forall l,
  stable_list l -> NoDup (map key_of l) ->
  Forall entry_ok entries -> NoDup (map fst entries) ->
  (forall e, In e entries -> map_has strict_eqb (fst e) newMap = false ->
             find_key (fst e) l = None) ->
  exists l',
    apply_all false
      (map mirror
         (flat_map (fun e => if negb (map_has strict_eqb (fst e) newMap)
                             then [item t_delete targetName (Some (snd e)) None (fst e)]
                             else []) entries)) l = Ret l'
    /\ stable_list l' /\ NoDup (map key_of l')
    /\ forall k,
         find_key k l'
         = match find_key k l with
           | Some r => Some r
           | None =>
               option_map snd
                 (find (fun e => strict_eqb (fst e) k
                                 && negb (map_has strict_eqb (fst e) newMap)) entries)
           end.
Proof.
  induction entries as [| [k0 o] rest IH]; intros l Hl Hnd He Hk Hfresh;
    cbn [flat_map map].
  - exists l. repeat split; try assumption. intros k. cbn [find option_map].
    now destruct (find_key k l).
  - inversion He as [| ? ? [Ho Hko] He']; subst.
    inversion Hk as [| ? ? Hk0 Hk']; subst. cbn [fst snd] in *.
    assert (Hg0 : good k0) by (rewrite <- Hko; now apply stable_good).
    destruct (map_has strict_eqb k0 newMap) eqn:E; cbn [negb app map].
    + destruct (IH l Hl Hnd He' Hk') as (l' & Hrun & Hl' & Hnd' & Hfind).
      { intros e Hin. apply Hfresh. now right. }
      exists l'. repeat split; try assumption.
      intros k. rewrite Hfind. cbn [find fst]. rewrite E. cbn [negb].
      now rewrite andb_false_r.
    + pose proof (Hfresh (k0, o) (or_introl eq_refl) E) as Hnone. cbn [fst] in Hnone.
      cbn [apply_all mirror item type old new]. rewrite delete_tag.
      cbn [actualChangeType apply_change bind or_null].
      assert (Happ : forall k, find_key k (l ++ [o])
                               = match find_key k l with
                                 | Some r => Some r
                                 | None => if strict_eqb k0 k then Some o else None
                                 end).
      { intros k. rewrite find_key_app, Hko. reflexivity. }
      destruct (IH (l ++ [o])%list) as (l' & Hrun & Hl' & Hnd' & Hfind);
        try assumption.
      { apply Forall_app. split; [exact Hl | now repeat constructor]. }
      { rewrite map_app. cbn [map].
        apply NoDup_app; [exact Hnd | repeat constructor; intros [] |].
        intros x Hx [<- | []]. rewrite Hko in Hx.
        exact (@find_key_None k0 l Hg0 Hnone Hx). }
      { intros e Hin Hm. rewrite Happ. rewrite (Hfresh e (or_intror Hin) Hm).
        destruct (strict_eqb k0 (fst e)) eqn:Ee; [| reflexivity].
        apply strict_eqb_eq in Ee. destruct Hk0. rewrite Ee. now apply in_map. }
      exists l'. repeat split; try assumption.
      intros k. rewrite Hfind, Happ. cbn [find fst snd]. rewrite E. cbn [negb].
      rewrite andb_true_r.
      destruct (find_key k l); [reflexivity |].
      destruct (strict_eqb k0 k); reflexivity.
Qed.

(** The second run, backwards: what only the new side has goes, and what
    was edited is put back. *)
Lemma undo_run (oldMap entries : imap json json) : forall l,
  NoDup (map fst entries) -> Forall entry_ok entries ->
  (forall k o, map_get strict_eqb k oldMap = Some o -> entry_ok (k, o)) ->
  stable_list l -> NoDup (map key_of l) ->
  (forall k v, In (k, v) entries -> find_key k l = Some v) ->
  exists l',
    apply_all false
      (map mirror
         (flat_map (fun e =>
                      if negb (map_has strict_eqb (fst e) oldMap)
                      then [item t_add targetName None (Some (snd e)) (fst e)]
                      else
                        let oldResource := map_get strict_eqb (fst e) oldMap in
                        if json_differ oldResource (Some (snd e))
                        then [item t_edit targetName oldResource (Some (snd e)) (fst e)]
                        else []) entries)) l = Ret l'
    /\ stable_list l' /\ NoDup (map key_of l')
    /\ (forall k, ~ In k (map fst entries) -> find_key k l' = find_key k l)
    /\ (forall k v, In (k, v) entries ->
                    keyed_equal (find_key k l') (map_get strict_eqb k oldMap)).
Proof.
  induction entries as [| [k0 v0] rest IH]; intros l Hnd He Hold Hl Hkeys Hthere;
    cbn [flat_map map].
  - exists l. repeat split; try assumption. intros k v [].
  - inversion Hnd as [| ? ? Hk0 Hnd']; subst.
    inversion He as [| ? ? [Hv0 Hkv0] He']; subst. cbn [fst snd] in *.
    assert (Hg0 : good k0) by (rewrite <- Hkv0; now apply stable_good).
    assert (Hother : forall k v, In (k, v) rest -> k0 <> k).
    { intros k v Hin ->. apply Hk0. apply in_map_iff. now exists (k, v). }
    pose proof (Hthere k0 v0 (or_introl eq_refl)) as Hfound.
    destruct (map_has strict_eqb k0 oldMap) eqn:E; cbn [negb].
    + unfold map_has in E.
      destruct (map_get strict_eqb k0 oldMap) as [o |] eqn:Eo; [| discriminate].
      destruct (Hold k0 o Eo) as [Ho Hko]. cbn [fst snd] in Ho, Hko.
      destruct (json_differ (Some o) (Some v0)) eqn:Ed; cbn [app map].
      * cbn [apply_all mirror item type old new]. rewrite edit_tag.
        cbn [actualChangeType apply_change].
        rewrite edit_resource_stable by assumption. cbn [bind]. rewrite Hkv0.
        destruct (IH (replace_key k0 o l)) as (l' & Hrun & Hl' & Hnd'' & Hrest & Hin);
          try assumption.
        { now apply stable_replace. }
        { now rewrite keys_replace. }
        { intros k v Hkv. rewrite find_key_replace_other; [| exact Hko | exact (Hother k v Hkv)].
          apply Hthere. now right. }
        exists l'. repeat split; try assumption.
        -- intros k Hk. rewrite Hrest by (intros H; apply Hk; now right).
           apply find_key_replace_other; [exact Hko |].
           intros <-. apply Hk. now left.
        -- intros k v [[= <- <-] | Hkv]; [| now apply (Hin k v)].
           rewrite Hrest by exact Hk0.
           rewrite find_key_replace_same by assumption.
           rewrite Hfound, Eo. reflexivity.
      * destruct (IH l) as (l' & Hrun & Hl' & Hnd'' & Hrest & Hin); try assumption.
        { intros k v Hkv. apply Hthere. now right. }
        exists l'. repeat split; try assumption.
        -- intros k Hk. apply Hrest. intros H. apply Hk. now right.
        -- intros k v [[= <- <-] | Hkv]; [| now apply (Hin k v)].
           rewrite Hrest by exact Hk0. rewrite Hfound, Eo.
           unfold json_differ in Ed. cbn [option_map] in Ed.
           apply negb_false_iff, String.eqb_eq in Ed. cbn [keyed_equal]. now symmetry.
    + cbn [app map apply_all mirror item type old new]. rewrite add_tag.
      cbn [actualChangeType apply_change].
      rewrite delete_resource_stable by assumption. cbn [bind]. rewrite Hkv0.
      destruct (IH (filter (fun r => negb (strict_eqb (key_of r) k0)) l))
        as (l' & Hrun & Hl' & Hnd'' & Hrest & Hin); try assumption.
      { now apply stable_filter. }
      { now apply NoDup_keys_filter. }
      { intros k v Hkv. rewrite find_key_filter_other by exact (Hother k v Hkv).
        apply Hthere. now right. }
      exists l'. repeat split; try assumption.
      * intros k Hk. rewrite Hrest by (intros H; apply Hk; now right).
        apply find_key_filter_other. intros <-. apply Hk. now left.
      * intros k v [[= <- <-] | Hkv]; [| now apply (Hin k v)].
        rewrite Hrest by exact Hk0. rewrite find_key_filter_same.
        unfold map_has in E. now destruct (map_get strict_eqb k0 oldMap).
Qed.

Lemma restored_get (oldMap newMap : imap json json) k :
  map_has strict_eqb k newMap = false ->
  option_map snd
    (find (fun e => strict_eqb (fst e) k && negb (map_has strict_eqb (fst e) newMap)) oldMap)
  = map_get strict_eqb k oldMap.
Proof.
  intros H. induction oldMap as [| [k' v'] m IH]; cbn [find map_get fst]; [reflexivity |].
  destruct (strict_eqb k' k) eqn:E; cbn [andb]; [| exact IH].
  apply strict_eqb_eq in E. subst k'. rewrite H. reflexivity.
Qed.

(** The items that [diffResourceMaps] makes for two lists of resources with
    identities, mirrored and replayed on the new list, whose identities are
    distinct, give a list that is the same keyed collection as the old
    one. *)
Lemma list_way_back oldL newL :
  stable_list oldL -> stable_list newL -> NoDup (map key_of newL) ->
  exists l',
    apply_all false
      (map mirror
         (diffResourceMaps t_delete t_add t_edit (resource_map oldL) (resource_map newL)
            targetName)) newL = Ret l'
    /\ stable_list l' /\ NoDup (map key_of l') /\ same_assets l' oldL.
Proof.
  intros Ho Hn Hnd. unfold diffResourceMaps. rewrite map_app, apply_all_app.
  pose proof (resource_map_tidy Ho) as [HndO HgO].
  pose proof (resource_map_tidy Hn) as [HndN HgN].
  assert (HnewL : forall k, find_key k newL = map_get strict_eqb k (resource_map newL)).
  { intros k. symmetry. now apply resource_map_find. }
  destruct (restore_run (resource_map newL) (resource_map oldL) newL Hn Hnd)
    as (l1 & Hrun1 & Hl1 & Hnd1 & Hfind1).
  { apply Forall_forall. intros e He. now apply resource_map_entry_ok with oldL. }
  { exact HndO. }
  { intros e _ H. rewrite HnewL. unfold map_has in H.
    now destruct (map_get strict_eqb (fst e) (resource_map newL)). }
  rewrite Hrun1. cbn [bind].
  destruct (undo_run (resource_map oldL) (resource_map newL) l1)
    as (l' & Hrun2 & Hl' & Hnd' & Hrest & Hin); try assumption.
  - apply Forall_forall. intros e He. now apply resource_map_entry_ok with newL.
  - intros k o H. apply resource_map_entry_ok with oldL; [exact Ho |].
    now apply map_get_entry.
  - intros k v Hkv. rewrite Hfind1, HnewL.
    now rewrite (@map_get_tidy _ k v _ (conj HndN HgN) Hkv).
  - exists l'. split; [exact Hrun2 |]. split; [exact Hl' |]. split; [exact Hnd' |].
    intros k. rewrite (@resource_map_find l' k Hnd').
    destruct (map_get strict_eqb k (resource_map newL)) as [v |] eqn:E.
    + apply (Hin k v). now apply map_get_entry.
    + assert (Hout : ~ In k (map fst (resource_map newL))).
      { intros Hk. apply in_map_iff in Hk. destruct Hk as ([k' v] & <- & Hkv).
        cbn [fst] in E. rewrite (@map_get_tidy _ k' v _ (conj HndN HgN) Hkv) in E.
        discriminate. }
      rewrite (Hrest k Hout), Hfind1, HnewL, E.
      rewrite restored_get by (unfold map_has; now rewrite E).
      apply keyed_equal_same.
Qed.

End Phases.

Lemma replay_mirror items : forall project,
  replay true items project = replay false (map mirror items) project.
Proof.
  induction items as [| it rest IH]; intros project; cbn [replay map]; [reflexivity |].
  rewrite Directions.apply_item_mirror.
  destruct (apply_item false (mirror it) project) as [p | |]; cbn [bind]; try reflexivity.
  apply IH.
Qed.

(** Two costumes of the old document with one identity: the diff is made
    from the map of the old costumes, which holds the last of them only, and
    the reverse replay leaves the sprite with that one costume. *)
Lemma twin_identity_is_not_restored :
  exists items,
    generateDiff Samples.draws 5
      [Samples.with_costumes [Samples.costume "x" "a"; Samples.costume "x" "b"]]
      [Samples.with_costume (Samples.costume "x" "c")]
    = Ret items
    /\ replay true items [Samples.with_costume (Samples.costume "x" "c")]
       = Ret [Samples.with_costume (Samples.costume "x" "b")].
Proof. eexists. split; vm_compute; reflexivity. Qed.

(** X27.  The reverse replay of a diff leads back: for two documents whose
    costumes and sounds all have an asset identity, and a sprite that both
    have, whose new costumes, and new sounds, have distinct identities, the
    reverse replay of the diff on the new document returns, and in its
    result the costumes and the sounds of the sprite are, as keyed
    collections, those of the old document (under every identity, an entry
    canonically equal to the last one that the old document has under it),
    while its variables and lists are still the new ones.  When the old
    costumes (sounds) have distinct identities too, the costumes (sounds) of
    the result are the entries of the old document, none lost and none
    added: the same identities, each once, with canonically equal entries;
    the order may differ. *)
Theorem reverse_replay_restores_assets rnd fuel oldP newP items targetName oldT newT :
  all_stable oldP -> all_stable newP ->
  NoDup (map key_of (costumes newT)) -> NoDup (map key_of (sounds newT)) ->
  generateDiff rnd fuel oldP newP = Ret items ->
  find_target targetName oldP = Some oldT ->
  find_target targetName newP = Some newT ->
  exists p' t',
    replay true items newP = Ret p'
    /\ find_target targetName p' = Some t'
    /\ same_assets (costumes t') (costumes oldT)
    /\ same_assets (sounds t') (sounds oldT)
    /\ variables t' = variables newT /\ lists t' = lists newT
    /\ (NoDup (map key_of (costumes oldT)) ->
        same_entries (costumes t') (costumes oldT))
    /\ (NoDup (map key_of (sounds oldT)) ->
        same_entries (sounds t') (sounds oldT)).
Proof.
  intros Hso Hsn Hndc Hnds Hdiff Hfo Hfn. unfold generateDiff in Hdiff.
  destruct (diff_targets rnd fuel oldP newP (allTargetNames oldP newP) 0)
    as [[its n'] | |] eqn:Ed; cbn [bind] in Hdiff; try discriminate.
  injection Hdiff as <-. cbn [fst].
  assert (Hnames : NoDup (allTargetNames oldP newP)) by apply MapFacts.set_of_NoDup.
  assert (Hin : In targetName (allTargetNames oldP newP)).
  { unfold allTargetNames. apply MapFacts.set_of_In, in_or_app. left.
    apply MapFacts.set_of_In. destruct (@find_target_Some _ _ _ Hfo) as [Hi <-].
    now apply in_map. }
  assert (Hfilter : forall rt, Forall ok_item its
            /\ filter (concerns rt targetName) its = resource_diff rt oldT newT targetName).
  { intros rt.
    destruct (@diff_targets_spec rnd fuel oldP newP rt targetName oldT newT
                Hso Hsn Hfo Hfn _ _ _ _ Hnames Ed) as [Hok Hf].
    split; [exact Hok |]. rewrite Hf.
    now destruct (in_dec string_dec targetName (allTargetNames oldP newP)). }
  assert (Hok : Forall ok_item (map mirror its)).
  { apply Forall_forall. intros it Hit. apply in_map_iff in Hit.
    destruct Hit as (x & <- & Hx). apply ok_mirror.
    pose proof (proj1 (Hfilter Costumes)) as H. rewrite Forall_forall in H. now apply H. }
  rewrite replay_mirror.
  destruct (replay_projection targetName (map mirror its) newP newT Hsn Hok Hfn)
    as (p' & t' & Hrep & _ & Hfind & Hlist & Hv & Hl).
  exists p', t'.
  pose proof (Hlist Costumes) as Hc. unfold replay_list in Hc.
  rewrite filter_concerns_mirror, (proj2 (Hfilter Costumes)) in Hc.
  cbn [resource_diff get_resources] in Hc.
  destruct (list_way_back costume_delete costume_add costume_edit targetName
              eq_refl eq_refl eq_refl (costumes oldT) (costumes newT))
    as (lc & Hrunc & Hstc & Hndc' & Hsamec);
    [apply (@stable_found _ _ _ Hso Hfo) | apply (@stable_found _ _ _ Hsn Hfn)
     | exact Hndc |].
  rewrite Hrunc in Hc. injection Hc as <-.
  pose proof (Hlist Sounds) as Hs. unfold replay_list in Hs.
  rewrite filter_concerns_mirror, (proj2 (Hfilter Sounds)) in Hs.
  cbn [resource_diff get_resources] in Hs.
  destruct (list_way_back sound_delete sound_add sound_edit targetName
              eq_refl eq_refl eq_refl (sounds oldT) (sounds newT))
    as (ls & Hruns & Hsts & Hnds' & Hsames);
    [apply (@stable_found _ _ _ Hso Hfo) | apply (@stable_found _ _ _ Hsn Hfn)
     | exact Hnds |].
  rewrite Hruns in Hs. injection Hs as <-.
  pose proof (@stable_found _ _ _ Hso Hfo) as [Hoc Hos].
  do 6 (split; [assumption |]). split; intros Hold.
  - now apply (@RoundTrip.same_assets_entries lc (costumes oldT)).
  - now apply (@RoundTrip.same_assets_entries ls (sounds oldT)).
Qed.

End ReverseTrip.

(* ------------------------------------------------------------------ *)
(** ** The form of a fingerprint *)

Module FingerprintForm.

Import Js ScriptParser Notions.
Local Open Scope string_scope.
Unset Implicit Arguments.

Lemma acc_bound d : forall acc,
  (Z.pos acc * 16 ^ Z.of_nat (Hexadecimal.nb_digits d)
   <= Z.pos (Pos.of_hex_uint_acc d acc))%Z.
Proof.
  induction d; intros acc; cbn [Hexadecimal.nb_digits Pos.of_hex_uint_acc];
    try (rewrite Nat2Z.inj_succ, Z.pow_succ_r by lia;
         etransitivity; [| apply IHd]; nia).
  cbn. lia.
Qed.

(** A numeral without leading zeros is worth at least sixteen to the
    number of its digits but one. *)
Lemma normal_bound d :
  Hexadecimal.unorm d = d -> d <> Hexadecimal.zero ->
  (16 ^ (Z.of_nat (Hexadecimal.nb_digits d) - 1) <= Z.of_N (N.of_hex_uint d))%Z.
Proof.
  intros Hn Hz. unfold N.of_hex_uint.
  destruct d; cbn [Pos.of_hex_uint Hexadecimal.nb_digits];
    try (rewrite Nat2Z.inj_succ;
         replace (Z.succ (Z.of_nat (Hexadecimal.nb_digits d)) - 1)%Z
           with (Z.of_nat (Hexadecimal.nb_digits d)) by lia;
         etransitivity; [| apply acc_bound]; nia).
  - discriminate Hn.
  - exfalso. unfold Hexadecimal.unorm in Hn. cbn [Hexadecimal.nzhead] in Hn.
    pose proof (HexadecimalFacts.nb_digits_nzhead d) as Hle.
    destruct (Hexadecimal.nzhead d) eqn:E; try (now apply Hz);
      (rewrite Hn in Hle; cbn [Hexadecimal.nb_digits] in Hle; lia).
Qed.

Lemma to_hex_normal n : Hexadecimal.unorm (N.to_hex_uint n) = N.to_hex_uint n.
Proof.
  rewrite <- (HexadecimalN.Unsigned.to_of (N.to_hex_uint n)).
  now rewrite HexadecimalN.Unsigned.of_to.
Qed.

Lemma string_length_digits d :
  String.length (HexadecimalString.NilEmpty.string_of_uint d) = Hexadecimal.nb_digits d.
Proof. induction d; cbn; congruence. Qed.

Lemma string_digits_hex d : hex_text (HexadecimalString.NilEmpty.string_of_uint d).
Proof.
  unfold hex_text.
  induction d; cbn [HexadecimalString.NilEmpty.string_of_uint list_ascii_of_string];
    constructor; try reflexivity; assumption.
Qed.

Lemma digits_bound n :
  (n < 16 ^ 8)%N ->
  (1 <= Hexadecimal.nb_digits (N.to_hex_uint n) <= 8)%nat.
Proof.
  intros Hn. destruct n as [| p]; [cbn; lia |].
  pose proof (normal_bound (N.to_hex_uint (N.pos p)) (to_hex_normal _)) as H.
  rewrite HexadecimalN.Unsigned.of_to in H.
  assert (Hz : N.to_hex_uint (N.pos p) <> Hexadecimal.zero)
    by apply HexadecimalPos.Unsigned.to_uint_nonzero.
  specialize (H Hz).
  assert (Hnn : N.to_hex_uint (N.pos p) <> Hexadecimal.Nil)
    by apply HexadecimalPos.Unsigned.to_uint_nonnil.
  destruct (Hexadecimal.nb_digits (N.to_hex_uint (N.pos p))) as [| k] eqn:Ek.
  - apply HexadecimalFacts.nb_digits_0 in Ek. contradiction.
  - split; [lia |].
    destruct (le_lt_dec (S k) 8) as [Hle | Hgt]; [exact Hle | exfalso].
    assert (Hp : (16 ^ 8 <= 16 ^ (Z.of_nat (S k) - 1))%Z)
      by (apply Z.pow_le_mono_r; lia).
    assert (Hlt : (Z.of_N (N.pos p) < 16 ^ 8)%Z).
    { change (16 ^ 8)%Z with (Z.of_N (16 ^ 8)). now apply N2Z.inj_lt. }
    lia.
Qed.

Lemma to_hex_form n :
  (0 <= n < 16 ^ 8)%Z ->
  (1 <= String.length (to_hex n) <= 8)%nat /\ hex_text (to_hex n).
Proof.
  intros Hn. unfold to_hex, HexadecimalString.NilZero.string_of_uint.
  assert (Hb : (Z.to_N n < 16 ^ 8)%N).
  { apply N2Z.inj_lt. rewrite Z2N.id by lia. exact (proj2 Hn). }
  pose proof (digits_bound _ Hb) as Hd.
  destruct (N.to_hex_uint (Z.to_N n)) eqn:E;
    try (rewrite string_length_digits; split; [exact Hd | apply string_digits_hex]).
  cbn in Hd. lia.
Qed.

Lemma to_int32_range z : (- 2 ^ 31 <= to_int32 z < 2 ^ 31)%Z.
Proof.
  unfold to_int32.
  pose proof (Z.mod_pos_bound (z + 2 ^ 31) (2 ^ 32) ltac:(lia)). lia.
Qed.

Lemma hash_from_range s : forall h,
  (- 2 ^ 31 <= h < 2 ^ 31)%Z -> (- 2 ^ 31 <= hash_from h s < 2 ^ 31)%Z.
Proof.
  induction s as [| c s IH]; intros h Hh; cbn [hash_from]; [exact Hh |].
  apply IH. unfold hash_step. apply to_int32_range.
Qed.

Lemma length_append s1 s2 :
  String.length (s1 ++ s2) = (String.length s1 + String.length s2)%nat.
Proof. induction s1 as [| c s1 IH]; cbn; [reflexivity | now rewrite IH]. Qed.

Lemma chars_append s1 s2 :
  list_ascii_of_string (s1 ++ s2)
  = (list_ascii_of_string s1 ++ list_ascii_of_string s2)%list.
Proof. induction s1 as [| c s1 IH]; cbn; [reflexivity | now rewrite IH]. Qed.

Lemma zeros_form n :
  String.length (repeat_string "0" n) = n /\ hex_text (repeat_string "0" n).
Proof.
  induction n as [| n [IH1 IH2]]; cbn [repeat_string]; [split; [reflexivity | constructor] |].
  split; [cbn; now rewrite IH1 |]. constructor; [reflexivity | exact IH2].
Qed.

(** X28.  The fingerprint of a text, as [generateFingerprint] of the renderer
    makes it, is eight lower-case hexadecimal digits; the hash of
    [FingerprintGenerator.simpleHash] is one to eight such digits, and the
    first is the second padded with zeros. *)
Theorem fingerprint_is_eight_hex_digits text :
  String.length (generateFingerprint text) = 8
  /\ hex_text (generateFingerprint text)
  /\ (1 <= String.length (simpleHash text) <= 8)%nat
  /\ hex_text (simpleHash text)
  /\ generateFingerprint text = padStart 8 "0" (simpleHash text).
Proof.
  assert (Hr : (0 <= Z.abs (hash_from 0 text) < 16 ^ 8)%Z).
  { pose proof (hash_from_range text 0 ltac:(lia)). lia. }
  destruct (to_hex_form _ Hr) as [Hlen Hhex].
  unfold generateFingerprint, simpleHash, padStart.
  destruct (zeros_form (8 - String.length (to_hex (Z.abs (hash_from 0 text)))))
    as [Hz1 Hz2].
  split; [rewrite length_append, Hz1; lia |].
  split; [| now repeat split].
  unfold hex_text. rewrite chars_append. apply Forall_app. now split.
Qed.

End FingerprintForm.


(* ------------------------------------------------------------------ *)
(** ** Instances *)

Module Instances.

Import Js Raw IR ScriptParser Diff Replay Vocabulary Invariants Samples.
Local Open Scope string_scope.

(** The second phase pairs [show_script] with [hide_script]. *)
Lemma fallback_needs_common_start_witness :
  take 20 (text show_script) = take 20 (text hide_script)
  /\ (7 * Nat.max (String.length (text show_script)) (String.length (text hide_script))
      < 10 * Nat.min (String.length (text show_script)) (String.length (text hide_script)))%nat
  /\ forall i, (i < 20)%nat ->
       String.get i (text show_script) = String.get i (text hide_script).
Proof.
  apply (@MatchFacts.fallback_needs_common_start [show_script] [hide_script]
           {| oldScript := show_script; newScript := hide_script |}).
  - vm_compute. left. reflexivity.
  - vm_compute. discriminate.
Defined.


Lemma dangling_stops : stops dangling (Some "a") 1.
Proof.
  apply stops_next
    with (id := "a") (e := a_block (block "motion_movesteps" (Some "zz") [] true));
    [reflexivity | reflexivity |].
  apply stops_missing with (id := "zz"); reflexivity.
Defined.

(** The script of [dangling] is cut after its one block. *)
Lemma reconstructScript_returns_on_finite_chain_witness :
  (at_id dangling "a" = None
   /\ reconstructScript 2 dangling "a" "Sprite1" = Ret None)
  \/ (exists script,
        reconstructScript 2 dangling "a" "Sprite1" = Ret (Some script)
        /\ IR.topLevelBlock script = linked (chain 1 dangling (Some "a"))
        /\ chain_length (IR.topLevelBlock script) = 1
        /\ IR.targetName script = "Sprite1").
Proof.
  apply (@LoaderFacts.reconstructScript_returns_on_finite_chain dangling "a" "Sprite1" 1 2).
  - reflexivity.
  - exact dangling_stops.
  - lia.
Defined.

Lemma parse_recovers_from_dangling_next_witness :
  parse 2 [sprite "Sprite1" dangling]
  = Ret (map (parsed_target 1) [sprite "Sprite1" dangling]).
Proof.
  apply (proj2 (@LoaderFacts.parse_recovers_from_dangling_next
                  [sprite "Sprite1" dangling] 1 2)).
  - intros t [<- | []]. reflexivity.
  - intros t [<- | []] id [<- | []]. exists 1. split; [lia | exact dangling_stops].
  - lia.
Defined.

(** Two items for the sprite [Ghost], which the document does not have: the
    addition of a costume creates it, the addition of a variable does
    not. *)
Lemma absent_target_step_witness :
  (exists target,
     apply_item false ghost_costume [with_score 0] = Ret [with_score 0; target]
     /\ name target = "Ghost"
     /\ variables target = [] /\ lists target = []
     /\ costumes target = [] /\ sounds target = [] /\ blocks target = []
     /\ others target
        = [("scripts", JArr []); ("broadcasts", JArr []); ("comments", JArr []);
           ("currentCostume", JNum 0); ("visible", JBool true);
           ("x", JNum 0); ("y", JNum 0); ("size", JNum 100);
           ("direction", JNum 90); ("draggable", JBool false);
           ("rotationStyle", JStr "all around")])
  /\ apply_item false (add_score "Ghost") [with_score 0] = Ret [with_score 0].
Proof.
  split.
  - apply (proj1 (@AbsentTarget.absent_target_step false ghost_costume [with_score 0]
                    ltac:(intros [H | []]; discriminate H))).
    right. right. left. reflexivity.
  - apply (proj2 (@AbsentTarget.absent_target_step false (add_score "Ghost") [with_score 0]
                    ltac:(intros [H | []]; discriminate H))).
    intros [H | [H | [H | [H | []]]]]; discriminate H.
Defined.

Lemma one_costume_stable nm : all_stable [with_costume (costume "x" nm)].
Proof. repeat constructor. Defined.

(** A sprite with one costume, of identity [x], compared with itself. *)
Lemma self_diff_is_empty_witness :
  generateDiff draws 5 [with_costume (costume "x" "a")] [with_costume (costume "x" "a")]
  = Ret [].
Proof.
  apply (@SelfDiff.self_diff_is_empty draws 5 [with_costume (costume "x" "a")]).
  - exact (one_costume_stable "a").
  - intros t [<- | []]. exists []. reflexivity.
Defined.

(** The costume of identity [x] is renamed from [a] to [b]. *)
Lemma replay_reproduces_assets_witness :
  exists p' t',
    replay false
      [item costume_edit "Sprite1" (Some (costume "x" "a")) (Some (costume "x" "b"))
         (JStr "x")]
      [with_costume (costume "x" "a")] = Ret p'
    /\ find_target "Sprite1" p' = Some t'
    /\ same_assets (costumes t') (costumes (with_costume (costume "x" "b")))
    /\ same_assets (sounds t') (sounds (with_costume (costume "x" "b")))
    /\ variables t' = variables (with_costume (costume "x" "a"))
    /\ lists t' = lists (with_costume (costume "x" "a"))
    /\ same_entries (costumes t') (costumes (with_costume (costume "x" "b")))
    /\ same_entries (sounds t') (sounds (with_costume (costume "x" "b"))).
Proof.
  destruct (RoundTrip.replay_reproduces_assets draws 5
              [with_costume (costume "x" "a")] [with_costume (costume "x" "b")]
              [item costume_edit "Sprite1" (Some (costume "x" "a"))
                 (Some (costume "x" "b")) (JStr "x")]
              "Sprite1" (with_costume (costume "x" "a")) (with_costume (costume "x" "b")))
    as (p' & t' & H1 & H2 & H3 & H4 & H5 & H6 & Hc & Hs).
  - exact (one_costume_stable "a").
  - exact (one_costume_stable "b").
  - repeat constructor. intros [].
  - constructor.
  - vm_compute. reflexivity.
  - reflexivity.
  - reflexivity.
  - exists p', t'. do 6 (split; [assumption |]). split.
    + apply Hc. repeat constructor. intros [].
    + apply Hs. constructor.
Defined.

End Instances.


(* ------------------------------------------------------------------ *)
(** ** Further instances *)

Module Examples.

Import Js Raw IR ScriptParser Diff Replay Vocabulary Invariants Samples Notions Runs.
Local Open Scope string_scope.
Unset Implicit Arguments.

(** [show_script] on both sides. *)
Lemma shared_fingerprint_is_matched_witness :
  (exists m, In m (matchedScripts (matchScripts [show_script] [show_script]))
             /\ ScriptParser.fingerprint (oldScript m) = ScriptParser.fingerprint show_script
             /\ ScriptParser.fingerprint (newScript m) = ScriptParser.fingerprint show_script)
  /\ (forall s, In s (unmatchedOldScripts (matchScripts [show_script] [show_script])) ->
                ScriptParser.fingerprint s <> ScriptParser.fingerprint show_script)
  /\ (forall s, In s (unmatchedNewScripts (matchScripts [show_script] [show_script])) ->
                ScriptParser.fingerprint s <> ScriptParser.fingerprint show_script).
Proof.
  apply (@MatchInvariants.shared_fingerprint_is_matched [show_script] [show_script]
           (ScriptParser.fingerprint show_script)).
  - left. reflexivity.
  - left. reflexivity.
Defined.

(** [show_script] against [hide_script]. *)
Lemma matchScripts_partitions_distinct_witness :
  Permutation [show_script]
    (map oldScript (matchedScripts (matchScripts [show_script] [hide_script]))
     ++ unmatchedOldScripts (matchScripts [show_script] [hide_script]))
  /\ Permutation [hide_script]
       (map newScript (matchedScripts (matchScripts [show_script] [hide_script]))
        ++ unmatchedNewScripts (matchScripts [show_script] [hide_script])).
Proof.
  apply (@MatchInvariants.matchScripts_partitions_distinct [show_script] [hide_script]).
  - constructor; [intros [] | constructor].
  - constructor; [intros [] | constructor].
  - constructor; [intros [] | constructor].
Defined.

(** The renaming of a costume. *)
Lemma generateDiff_item_kinds_witness :
  Forall (fun it =>
            In (type it)
               [script_add; script_delete;
                variable_delete; variable_add; variable_edit;
                list_delete; list_add; list_edit;
                costume_delete; costume_add; costume_edit;
                sound_delete; sound_add; sound_edit]
            /\ (In (targetName it) (map name [with_costume (costume "x" "a")])
                \/ In (targetName it) (map name [with_costume (costume "x" "b")]))
            /\ fingerprint it <> None
            /\ diff it = None) rename_items.
Proof.
  apply (@DiffShape.generateDiff_item_kinds draws 5
           [with_costume (costume "x" "a")] [with_costume (costume "x" "b")] rename_items).
  vm_compute. reflexivity.
Defined.

(** A sprite that only the new project has. *)
Lemma one_sided_target_gives_script_items_only_witness :
  exists scripts,
    scripts_of 5 (sprite "Sprite1" one_flag) = Ret scripts
    /\ filter (fun it => String.eqb (targetName it) "Sprite1") flag_items
       = map (match find_target "Sprite1" [] with
              | None => add_item "Sprite1"
              | Some _ => delete_item "Sprite1"
              end) scripts.
Proof.
  apply (@DiffShape.one_sided_target_gives_script_items_only draws 5 [] flag_project
           flag_items "Sprite1" (sprite "Sprite1" one_flag)).
  - vm_compute. reflexivity.
  - left. split; reflexivity.
Defined.

Lemma replay_touches_assets_only_witness :
  exists kept added,
    [with_costume (costume "x" "b")] = (kept ++ added)%list
    /\ Forall2 same_but_assets [with_costume (costume "x" "a")] kept
    /\ Forall (fun t => exists it, In it rename_items
                                   /\ same_but_assets (shell (targetName it)) t) added.
Proof.
  apply (@ReplayFrame.replay_touches_assets_only false rename_items
           [with_costume (costume "x" "a")] [with_costume (costume "x" "b")]).
  vm_compute. reflexivity.
Defined.

(** The costume of identity [x] and a list that holds the one of identity
    [y]. *)
Lemma absent_identity_is_left_alone_witness :
  (find_key (key_of (costume "x" "a")) [costume "y" "c"] = None ->
   apply_change Delete (Some (costume "x" "a")) None [costume "y" "c"]
   = Ret [costume "y" "c"]
   /\ apply_change Edit (Some (costume "x" "a")) (Some (costume "x" "b")) [costume "y" "c"]
      = Ret [costume "y" "c"])
  /\ (exists l1,
        apply_change Delete (Some (costume "x" "a")) None [costume "y" "c"] = Ret l1
        /\ find_key (key_of (costume "x" "a")) l1 = None
        /\ apply_change Delete (Some (costume "x" "a")) None l1 = Ret l1).
Proof.
  apply (@ReplayFrame.absent_identity_is_left_alone (costume "x" "a") (costume "x" "b")
           [costume "y" "c"]).
  - reflexivity.
  - constructor; [reflexivity | constructor].
Defined.

Lemma parse_keeps_targets_witness :
  Forall2 (fun raw t =>
             p_name t = name raw
             /\ p_variables t = variables raw /\ p_lists t = lists raw
             /\ p_costumes t = costumes raw /\ p_sounds t = sounds raw
             /\ List.length (p_scripts t) = List.length (topLevelBlockIds (blocks raw))
             /\ Forall (fun s => IR.targetName s = name raw) (p_scripts t))
          flag_project flag_parsed.
Proof.
  apply (@LoaderShape.parse_keeps_targets 2 flag_project flag_parsed).
  vm_compute. reflexivity.
Defined.

Lemma load_keeps_targets_witness :
  Forall2 (fun raw t =>
             p_name t = name raw
             /\ p_variables t = variables raw /\ p_lists t = lists raw
             /\ p_costumes t = costumes raw /\ p_sounds t = sounds raw
             /\ List.length (p_scripts t) = List.length (topLevelBlockIds (blocks raw))
             /\ Forall (fun s => s_targetName s = name raw) (p_scripts t))
          flag_project flag_ir.
Proof.
  apply (@LoaderShape.load_keeps_targets 2 flag_project flag_ir).
  vm_compute. reflexivity.
Defined.

Lemma parseSpriteScripts_sorted_witness :
  Permutation (map topId two_flags_rendered) ["a"; "b"]
  /\ Sorted (fun a b => String.leb (ScriptParser.fingerprint a) (ScriptParser.fingerprint b)
                        = true) two_flags_rendered
  /\ Forall (fun s => ScriptParser.fingerprint s = generateFingerprint (text s))
            two_flags_rendered.
Proof.
  apply (@RenderFacts.parseSpriteScripts_sorted 5 two_flags ["a"; "b"] two_flags_rendered).
  vm_compute. reflexivity.
Defined.

Lemma one_flag_forest : forest (fun _ => 0) one_flag.
Proof.
  intros id b c Hl Hr _. unfold one_flag in Hl. cbn [lookup] in Hl.
  destruct (String.eqb "c" id); [| discriminate].
  assert (E : b = block "event_whenflagclicked" None [] true) by congruence.
  subst b. destruct Hr as [H | [H | [H | H]]]; discriminate.
Defined.

Lemma rendering_returns_on_forests_witness :
  exists scripts, parseSpriteScripts 2 one_flag (getTopLevelIds one_flag) = Ret scripts.
Proof.
  apply (@RenderFacts.rendering_returns_on_forests (fun _ => 0) one_flag 2).
  - exact one_flag_forest.
  - intros id _. lia.
Defined.

Lemma dangling_leads_nowhere : leads_nowhere dangling (Some "a") 1 TypeError.
Proof.
  apply nowhere_next with (id := "a") (b := block "motion_movesteps" (Some "zz") [] true);
    try reflexivity.
  apply nowhere_here with (id := "zz"); reflexivity.
Defined.

Lemma renderer_raises_on_dangling_next_witness :
  (TypeError = TypeError \/ TypeError = SyntaxError)
  /\ parseSpriteScripts 2 dangling ["a"] = Throw TypeError.
Proof.
  apply (@RenderFacts.renderer_raises_on_dangling_next dangling "a" [] 1 TypeError 2).
  - exact dangling_leads_nowhere.
  - lia.
Defined.

Lemma summary_of_generated_diff_witness :
  total (Summary.calculateSummary rename_items) = Z.of_nat (List.length rename_items)
  /\ Summary.calculateSummary rename_items Summary.scriptsModified = 0%Z
  /\ Summary.calculateSummary rename_items Summary.blocksAdded = 0%Z
  /\ Summary.calculateSummary rename_items Summary.blocksDeleted = 0%Z
  /\ Summary.calculateSummary rename_items Summary.blocksModified = 0%Z.
Proof.
  apply (@SummaryFacts.summary_of_generated_diff draws 5
           [with_costume (costume "x" "a")] [with_costume (costume "x" "b")] rename_items).
  vm_compute. reflexivity.
Defined.

Lemma matchProjects_follows_target_names_witness :
  map fst (Matcher.matchProjects flag_ir flag_ir) = allTargetNames flag_project flag_project
  /\ NoDup (map fst (Matcher.matchProjects flag_ir flag_ir))
  /\ (forall targetName,
        In targetName (map fst (Matcher.matchProjects flag_ir flag_ir))
        <-> In targetName (map name flag_project) \/ In targetName (map name flag_project)).
Proof.
  apply (@MatcherFacts.matchProjects_follows_target_names 2 flag_project flag_project
           flag_ir flag_ir).
  - vm_compute. reflexivity.
  - vm_compute. reflexivity.
Defined.

Lemma normalize_is_idempotent_witness :
  normalize flag_normalized = Ret flag_normalized
  /\ Forall (fun target =>
               Forall (fun script =>
                         exists b, topLevelBlock script = Some b
                                   /\ normalizeBlock b = Ret b
                                   /\ match b with
                                      | mkNormalized _ ins _ _ _ =>
                                          normalizeInputs ins = Ret ins
                                      | mkBlank => False
                                      end)
                      (p_scripts target))
            flag_normalized.
Proof.
  apply (@NormalizerFacts.normalize_is_idempotent flag_parsed flag_normalized).
  vm_compute. reflexivity.
Defined.

(** The way back from the renaming of the costume of identity [x]. *)
Lemma reverse_replay_restores_assets_witness :
  exists p' t',
    replay true rename_items [with_costume (costume "x" "b")] = Ret p'
    /\ find_target "Sprite1" p' = Some t'
    /\ same_assets (costumes t') (costumes (with_costume (costume "x" "a")))
    /\ same_assets (sounds t') (sounds (with_costume (costume "x" "a")))
    /\ variables t' = variables (with_costume (costume "x" "b"))
    /\ lists t' = lists (with_costume (costume "x" "b"))
    /\ same_entries (costumes t') (costumes (with_costume (costume "x" "a")))
    /\ same_entries (sounds t') (sounds (with_costume (costume "x" "a"))).
Proof.
  destruct (@ReverseTrip.reverse_replay_restores_assets draws 5
              [with_costume (costume "x" "a")] [with_costume (costume "x" "b")]
              rename_items
              "Sprite1" (with_costume (costume "x" "a")) (with_costume (costume "x" "b")))
    as (p' & t' & H1 & H2 & H3 & H4 & H5 & H6 & Hc & Hs).
  - repeat constructor.
  - repeat constructor.
  - repeat constructor. intros [].
  - constructor.
  - vm_compute. reflexivity.
  - reflexivity.
  - reflexivity.
  - exists p', t'. do 6 (split; [assumption |]). split.
    + apply Hc. repeat constructor. intros [].
    + apply Hs. constructor.
Defined.

(** The costume of identity [x] takes another name. *)
Lemma asset_items_classified_witness :
  (exists items,
     diffCostumes draws 0 [costume "x" "a"] [costume "x" "b"] "Sprite1" = Ret (items, 0)
     /\ filter (carries (JStr "x")) items
        = classify_asset costume_delete costume_add costume_edit "Sprite1" (JStr "x")
            (entry_under (JStr "x") [costume "x" "a"])
            (entry_under (JStr "x") [costume "x" "b"]))
  /\ (exists items,
        diffSounds draws 0 [costume "x" "a"] [costume "x" "b"] "Sprite1" = Ret (items, 0)
        /\ filter (carries (JStr "x")) items
           = classify_asset sound_delete sound_add sound_edit "Sprite1" (JStr "x")
               (entry_under (JStr "x") [costume "x" "a"])
               (entry_under (JStr "x") [costume "x" "b"])).
Proof.
  apply (@AssetClassification.asset_items_classified draws 0
           [costume "x" "a"] [costume "x" "b"] "Sprite1" (JStr "x"));
    repeat constructor.
Defined.

End Examples.
